(** * parsee: declaration extraction, type normalisation and field projection

    A shallow embedding of the TypeScript declaration parser
    ([parseWithTsMorph] and its helpers) together with the properties
    claimed of it.  JavaScript objects are association lists in key
    order, exceptions are an explicit error result, and the syntax tree
    handed over by the ts-morph front end is an inductive type whose
    fields are the results of the accessors the parser calls. *)

From Stdlib Require Import String Ascii List Bool Arith Lia DecimalString.
Import ListNotations.
Set Warnings "-register-all".
Local Open Scope string_scope.
Local Open Scope list_scope.

(* ================================================================== *)
(** * JavaScript values and objects *)

(** A number is kept as the literal text it was converted from:
    [VNum t] stands for [Number(t)]. *)
Inductive value : Type :=
| VUndef
| VNull
| VBool (b : bool)
| VNum (literal : string)
| VStr (s : string)
| VArr (elems : list value)
| VObj (fields : list (string * value)).

(** An object: its own enumerable keys in insertion order. *)
Definition obj : Type := list (string * value).

Section ValueInduction.
Variable P : value -> Prop.
Hypothesis HUndef : P VUndef.
Hypothesis HNull : P VNull.
Hypothesis HBool : forall b, P (VBool b).
Hypothesis HNum : forall t, P (VNum t).
Hypothesis HStr : forall s, P (VStr s).
Hypothesis HArr : forall l, Forall P l -> P (VArr l).
Hypothesis HObj : forall o, Forall (fun kv => P (snd kv)) o -> P (VObj o).

Fixpoint value_nested_ind (v : value) : P v :=
  match v with
  | VUndef => HUndef
  | VNull => HNull
  | VBool b => HBool b
  | VNum t => HNum t
  | VStr s => HStr s
  | VArr l =>
      HArr l ((fix elems (l : list value) : Forall P l :=
                 match l with
                 | [] => Forall_nil P
                 | x :: r => Forall_cons x (value_nested_ind x) (elems r)
                 end) l)
  | VObj o =>
      HObj o ((fix fields (o : obj) : Forall (fun kv => P (snd kv)) o :=
                 match o with
                 | [] => Forall_nil _
                 | kv :: r =>
                     Forall_cons kv (value_nested_ind (snd kv)) (fields r)
                 end) o)
  end.
End ValueInduction.

(** [obj[key]] as a lookup that tells an absent key apart. *)
Fixpoint get (key : string) (o : obj) : option value :=
  match o with
  | [] => None
  | (k, v) :: r => if String.eqb k key then Some v else get key r
  end.

(** [obj[key]]: an absent key reads as [undefined]. *)
Definition prop (key : string) (o : obj) : value :=
  match get key o with
  | Some v => v
  | None => VUndef
  end.

(** [Object.keys(obj)]. *)
Definition keys (o : obj) : list string := map fst o.

(** [delete obj[key]]. *)
Definition delete (key : string) (o : obj) : obj :=
  filter (fun kv => negb (String.eqb (fst kv) key)) o.

(** [obj[key] = v]: an existing key keeps its place, a new one is
    appended.  The spread [{...obj, key: v}] is the same on a copy. *)
Fixpoint set (key : string) (v : value) (o : obj) : obj :=
  match o with
  | [] => [(key, v)]
  | (k, w) :: r =>
      if String.eqb k key then (k, v) :: r else (k, w) :: set key v r
  end.

(** The array stored under the first entry [key] of an object, handed
    to [f]; [dflt] when there is no such entry or it holds no array. *)
Definition findArray {A : Type} (key : string) (f : list value -> A)
  (dflt : A) : obj -> A :=
  fix go (o : obj) : A :=
    match o with
    | [] => dflt
    | (k, v) :: r =>
        if String.eqb k key then
          match v with
          | VArr l => f l
          | _ => dflt
          end
        else go r
    end.

(** JavaScript truthiness.  The parser only tests fields that hold
    arrays or objects; a number is taken as truthy. *)
Definition truthy (v : value) : bool :=
  match v with
  | VUndef | VNull | VBool false | VStr EmptyString => false
  | _ => true
  end.

Definition is_undefined (v : value) : bool :=
  match v with
  | VUndef => true
  | _ => false
  end.

(** [v === s] for a string [s]. *)
Definition is_str (s : string) (v : value) : bool :=
  match v with
  | VStr t => String.eqb t s
  | _ => false
  end.

(* ================================================================== *)
(** * Exceptions *)

(** A computation returns normally or throws; the payload of [Throw]
    is [String(err)]. *)
Inductive res (A : Type) : Type :=
| Ok (a : A)
| Throw (err : string).

Arguments Ok {A} a.
Arguments Throw {A} err.

Definition bind {A B : Type} (r : res A) (k : A -> res B) : res B :=
  match r with
  | Ok a => k a
  | Throw e => Throw e
  end.

Notation "x <- c ;; k" := (bind c (fun x => k))
  (at level 61, c at next level, right associativity).

(** [try { body } catch (err) { handler(err) }]. *)
Definition try_catch {A : Type} (body : res A) (handler : string -> res A)
  : res A :=
  match body with
  | Ok a => Ok a
  | Throw e => handler e
  end.

(** [xs.map(f)] for a callback that may throw. *)
Definition mapM {A B : Type} (f : A -> res B) : list A -> res (list B) :=
  fix go (l : list A) : res (list B) :=
    match l with
    | [] => Ok []
    | x :: r => y <- f x ;; ys <- go r ;; Ok (y :: ys)
    end.

(** The message of the [TypeError] raised when a value does not have the
    shape its declared TypeScript type promises (calling [.map] on a
    non-array, [Object.keys] on a non-object). *)
Definition TypeError : string := "TypeError".

(* ================================================================== *)
(** * Projection configuration *)

Inductive OptionMode : Type := never | include | only.

Definition mode_eqb (a b : OptionMode) : bool :=
  match a, b with
  | never, never | include, include | only, only => true
  | _, _ => false
  end.

(** The field names of [ParseOptions] ([Type] and [Arguments] are taken
    by Rocq, hence the prefix). *)
Inductive OptKey : Type :=
| K_JSDoc | K_Name | K_Level | K_Decorators | K_ExportInfo | K_Type
| K_TypeAst | K_ItemType | K_Location | K_Arguments | K_TypeParameters
| K_ReturnType | K_ReturnTypeAST | K_Value | K_ValueText | K_ValueParsed
| K_SubType | K_Target | K_Const | K_Members | K_Accessibility | K_Static
| K_Async | K_For | K_IsJSType | K_Default | K_DefaultParsed | K_Optional
| K_Readonly | K_Abstract | K_Private | K_GetterSetter | K_KeyType.

Definition all_keys : list OptKey :=
  [ K_JSDoc; K_Name; K_Level; K_Decorators; K_ExportInfo; K_Type;
    K_TypeAst; K_ItemType; K_Location; K_Arguments; K_TypeParameters;
    K_ReturnType; K_ReturnTypeAST; K_Value; K_ValueText; K_ValueParsed;
    K_SubType; K_Target; K_Const; K_Members; K_Accessibility; K_Static;
    K_Async; K_For; K_IsJSType; K_Default; K_DefaultParsed; K_Optional;
    K_Readonly; K_Abstract; K_Private; K_GetterSetter; K_KeyType ].

(** [ParseOptions]: every field is optional.  [None] is a field the
    caller left out, [Some None] one set to [undefined]. *)
Definition ParseOptions : Type := OptKey -> option (option OptionMode).

(** [Required<ParseOptions>]: every field is there, but the spread in
    [normalizeOptions] can still copy an [undefined] over a default. *)
Definition NormalizedOptions : Type := OptKey -> option OptionMode.

Definition DEFAULT_OPTIONS : NormalizedOptions := fun _ => Some include.

(** [{ ...DEFAULT_OPTIONS, ...(options ?? {}) }]. *)
Definition normalizeOptions (options : option ParseOptions)
  : NormalizedOptions :=
  fun k =>
    match options with
    | None => DEFAULT_OPTIONS k
    | Some given =>
        match given k with
        | Some v => v
        | None => DEFAULT_OPTIONS k
        end
    end.

(** [Object.values(opts).includes("only")]. *)
Definition onlyMode_of (opts : NormalizedOptions) : bool :=
  existsb (fun k => match opts k with
                    | Some only => true
                    | _ => false
                    end) all_keys.

Definition shouldInclude (options : NormalizedOptions) (onlyMode : bool)
  (key : OptKey) : bool :=
  let v := match options key with
           | Some m => m
           | None => include
           end in
  if onlyMode then mode_eqb v only else negb (mode_eqb v never).

(** A pruning map, [Record<string, keyof ParseOptions | null>]: an entry
    holds an option name or [null] ([None]). *)
Definition PruneMap : Type := list (string * option OptKey).

Fixpoint map_get (key : string) (m : PruneMap) : option (option OptKey) :=
  match m with
  | [] => None
  | (k, v) :: r => if String.eqb k key then Some v else map_get key r
  end.

Section Projection.
Variable options : NormalizedOptions.
Variable onlyMode : bool.

(** One round of the loop of [pruneObject]. *)
Definition pruneStep (map : PruneMap) (o : obj) (key : string) : obj :=
  match map_get key map with
  | Some None => o
  | None => if onlyMode then delete key o else o
  | Some (Some optKey) =>
      if shouldInclude options onlyMode optKey then o else delete key o
  end.

(** [for (const key of Object.keys(obj)) ...]: the keys are listed
    once, before the loop deletes any. *)
Definition pruneObject (o : obj) (map : PruneMap) : obj :=
  fold_left (pruneStep map) (keys o) o.

(** Whether [pruneObject] leaves a key in place. *)
Definition kept (map : PruneMap) (key : string) : bool :=
  match map_get key map with
  | Some None => true
  | None => negb onlyMode
  | Some (Some optKey) => shouldInclude options onlyMode optKey
  end.

Definition paramMap : PruneMap :=
  [ ("name", Some K_Name); ("isJSType", Some K_IsJSType);
    ("type", Some K_Type); ("default", Some K_Default);
    ("defaultParsed", Some K_DefaultParsed); ("typeAst", Some K_TypeAst);
    ("decorators", Some K_Decorators); ("loc", Some K_Location) ].

Definition applyParamOptions (param : obj) : obj :=
  pruneObject param paramMap.

Definition methodParamMap : PruneMap := [ ("optional", Some K_Optional) ].

Definition applyMethodParamOptions (param : obj) : obj :=
  pruneObject (applyParamOptions param) methodParamMap.

Definition typeParameterMap : PruneMap :=
  [ ("name", Some K_Name); ("constraint", Some K_Type);
    ("default", Some K_Default) ].

Definition applyTypeParameterOptions (tp : obj) : obj :=
  pruneObject tp typeParameterMap.

Definition baseItemMap : PruneMap :=
  [ ("name", Some K_Name); ("type", Some K_ItemType);
    ("level", Some K_Level); ("exports", Some K_ExportInfo);
    ("jsdoc", Some K_JSDoc); ("decorators", Some K_Decorators);
    ("loc", Some K_Location) ].

Definition applyBaseItemOptions (item : obj) : obj :=
  pruneObject item baseItemMap.

(** An element of an array of records. *)
Definition onRecord (f : obj -> res obj) (v : value) : res value :=
  match v with
  | VObj o => o' <- f o ;; Ok (VObj o')
  | _ => Throw TypeError
  end.

(** [if (item.key) item.key = g(item.key)]. *)
Definition updateField (key : string) (g : value -> res value)
  (item : obj) : res obj :=
  if truthy (prop key item) then
    v' <- g (prop key item) ;; Ok (set key v' item)
  else Ok item.

(** [xs.map(f)] on a value that has to be an array. *)
Definition mapArray (f : value -> res value) (xs : value) : res value :=
  match xs with
  | VArr l => l' <- mapM f l ;; Ok (VArr l')
  | _ => Throw TypeError
  end.

(** [if (item.key) item.key = item.key.map(f)]. *)
Definition mapFieldValues (key : string) (f : value -> res value)
  (item : obj) : res obj :=
  updateField key (mapArray f) item.

(** The same for a callback written on records. *)
Definition mapField (key : string) (f : obj -> res obj) (item : obj)
  : res obj :=
  mapFieldValues key (onRecord f) item.

Definition pure (f : obj -> obj) (o : obj) : res obj := Ok (f o).

Definition functionItemMap : PruneMap :=
  [ ("arguments", Some K_Arguments);
    ("typeParameters", Some K_TypeParameters);
    ("returnType", Some K_ReturnType);
    ("returnTypeAst", Some K_ReturnTypeAST) ].

Definition applyFunctionItemOptions (item : obj) : res obj :=
  item1 <- mapField "arguments" (pure applyParamOptions) item ;;
  item2 <- mapField "typeParameters" (pure applyTypeParameterOptions)
             item1 ;;
  Ok (pruneObject (applyBaseItemOptions item2) functionItemMap).

Definition variableItemMap : PruneMap :=
  [ ("subtype", Some K_SubType); ("value", Some K_Value);
    ("valueText", Some K_ValueText); ("valueParsed", Some K_ValueParsed);
    ("arguments", Some K_Arguments) ].

Definition applyVariableItemOptions (item : obj) : obj :=
  pruneObject (applyBaseItemOptions item) variableItemMap.

Definition classMemberPropertyMap : PruneMap :=
  [ ("name", Some K_Name); ("private", Some K_Private);
    ("static", Some K_Static); ("readonly", Some K_Readonly);
    ("value", Some K_Value); ("type", Some K_Type);
    ("decorators", Some K_Decorators); ("loc", Some K_Location) ].

Definition applyClassMemberPropertyOptions (item : obj) : obj :=
  pruneObject item classMemberPropertyMap.

Definition methodItemMap : PruneMap :=
  [ ("name", Some K_Name); ("accessibility", Some K_Accessibility);
    ("static", Some K_Static); ("async", Some K_Async);
    ("abstract", Some K_Abstract); ("isGetter", Some K_GetterSetter);
    ("isSetter", Some K_GetterSetter); ("readonly", Some K_Readonly);
    ("arguments", Some K_Arguments);
    ("typeParameters", Some K_TypeParameters);
    ("returnType", Some K_ReturnType);
    ("returnTypeAst", Some K_ReturnTypeAST);
    ("decorators", Some K_Decorators); ("loc", Some K_Location);
    ("jsdoc", Some K_JSDoc) ].

Definition applyMethodItemOptions (item : obj) : res obj :=
  item1 <- mapField "arguments" (pure applyMethodParamOptions) item ;;
  item2 <- mapField "typeParameters" (pure applyTypeParameterOptions)
             item1 ;;
  Ok (pruneObject item2 methodItemMap).

Definition indexSignatureMap : PruneMap :=
  [ ("keyType", Some K_KeyType); ("returnType", Some K_ReturnType);
    ("readonly", Some K_Readonly) ].

Definition applyIndexSignatureOptions (item : obj) : obj :=
  pruneObject item indexSignatureMap.

Definition enumMemberMap : PruneMap :=
  [ ("name", Some K_Name); ("value", Some K_Value);
    ("jsdoc", Some K_JSDoc) ].

Definition applyEnumMemberOptions (item : obj) : obj :=
  pruneObject item enumMemberMap.

Definition interfaceMemberPropertyMap : PruneMap :=
  [ ("name", Some K_Name); ("optional", Some K_Optional);
    ("readonly", Some K_Readonly); ("type", Some K_Type);
    ("jsdoc", Some K_JSDoc); ("loc", Some K_Location) ].

Definition applyInterfaceMemberPropertyOptions (item : obj) : obj :=
  pruneObject item interfaceMemberPropertyMap.

Definition interfaceMemberMethodMap : PruneMap :=
  [ ("name", Some K_Name); ("arguments", Some K_Arguments);
    ("returnType", Some K_ReturnType); ("optional", Some K_Optional);
    ("jsdoc", Some K_JSDoc); ("loc", Some K_Location) ].

Definition applyInterfaceMemberMethodOptions (item : obj) : res obj :=
  item1 <- mapField "arguments" (pure applyParamOptions) item ;;
  Ok (pruneObject item1 interfaceMemberMethodMap).

Definition typeAliasMap : PruneMap :=
  [ ("target", Some K_Target); ("typeParameters", Some K_TypeParameters) ].

Definition enumMap : PruneMap :=
  [ ("const", Some K_Const); ("members", Some K_Members) ].

Definition constructorMap : PruneMap :=
  [ ("for", Some K_For); ("function", Some K_Members) ].

Definition classMap : PruneMap :=
  [ ("items", Some K_Members); ("typeParameters", Some K_TypeParameters) ].

Definition interfaceMap : PruneMap :=
  [ ("members", Some K_Members);
    ("typeParameters", Some K_TypeParameters) ].

Definition namespaceMap : PruneMap := [ ("members", Some K_Members) ].

(** The constructor arm of the member callbacks:
    [pruneObject(ctor, ...); if (ctor.function) ctor.function = ...]. *)
Definition applyConstructorOptions (m : obj) : res obj :=
  let ctor := pruneObject m constructorMap in
  updateField "function" (onRecord applyFunctionItemOptions) ctor.

(** The callback of [it.items.map] in the class arm of
    [applyParsedItemOptions]. *)
Definition applyClassMemberOptions (m : obj) : res obj :=
  if is_str "constructor" (prop "type" m) then applyConstructorOptions m
  else if negb (is_undefined (prop "arguments" m)) then
    applyMethodItemOptions m
  else if negb (is_undefined (prop "keyType" m)) then
    Ok (applyIndexSignatureOptions m)
  else Ok (applyClassMemberPropertyOptions m).

(** The callback of [it.members.map] in the interface arm. *)
Definition applyInterfaceMemberOptions (m : obj) : res obj :=
  if negb (is_undefined (prop "keyType" m)) then
    Ok (applyIndexSignatureOptions m)
  else if negb (is_undefined (prop "arguments" m)) then
    applyInterfaceMemberMethodOptions m
  else Ok (applyInterfaceMemberPropertyOptions m).

(** The body of [case "type-alias"] of [applyParsedItemOptions]. *)
Definition typeAliasCase (it : obj) : res obj :=
  let it0 := applyBaseItemOptions it in
  it1 <- mapField "typeParameters" (pure applyTypeParameterOptions) it0 ;;
  Ok (pruneObject it1 typeAliasMap).

(** The body of [case "enum"]. *)
Definition enumCase (it : obj) : res obj :=
  let it0 := applyBaseItemOptions it in
  it1 <- mapField "members" (pure applyEnumMemberOptions) it0 ;;
  Ok (pruneObject it1 enumMap).

(** The body of [case "class"]. *)
Definition classCase (it : obj) : res obj :=
  let it0 := applyBaseItemOptions it in
  it1 <- mapField "typeParameters" (pure applyTypeParameterOptions) it0 ;;
  it2 <- mapField "items" applyClassMemberOptions it1 ;;
  Ok (pruneObject it2 classMap).

(** The body of [case "interface"]. *)
Definition interfaceCase (it : obj) : res obj :=
  let it0 := applyBaseItemOptions it in
  it1 <- mapField "typeParameters" (pure applyTypeParameterOptions) it0 ;;
  it2 <- mapField "members" applyInterfaceMemberOptions it1 ;;
  Ok (pruneObject it2 interfaceMap).

(** The body of [case "namespace"], for [self] the function that
    [it.members.map] calls. *)
Definition namespaceCase (self : value -> res value) (it : obj) : res obj :=
  let it0 := applyBaseItemOptions it in
  it1 <- mapFieldValues "members" self it0 ;;
  Ok (pruneObject it1 namespaceMap).

(** [applyParsedItemOptions].  The namespace arm maps the function
    itself over [it.members]; the recursive calls are taken on the
    array found in the item as it came in ([findArray]), which is the
    array the pruned item still holds when the arm reaches it:
    [applyParsedItemOptions_namespace] shows the arm to be
    [namespaceCase applyParsedItemOptions]. *)
Fixpoint applyParsedItemOptions (item : value) : res value :=
  match item with
  | VObj it =>
      let ty := prop "type" it in
      if is_str "variable" ty then Ok (VObj (applyVariableItemOptions it))
      else if is_str "function" ty then
        it' <- applyFunctionItemOptions it ;; Ok (VObj it')
      else if is_str "type-alias" ty then
        it' <- typeAliasCase it ;; Ok (VObj it')
      else if is_str "enum" ty then
        it' <- enumCase it ;; Ok (VObj it')
      else if is_str "class" ty then
        it' <- classCase it ;; Ok (VObj it')
      else if is_str "interface" ty then
        it' <- interfaceCase it ;; Ok (VObj it')
      else if is_str "namespace" ty then
        let it0 := applyBaseItemOptions it in
        it1 <- (if truthy (prop "members" it0) then
                  match prop "members" it0 with
                  | VArr _ =>
                      l' <- findArray "members"
                              (mapM applyParsedItemOptions)
                              (Throw TypeError) it ;;
                      Ok (set "members" (VArr l') it0)
                  | _ => Throw TypeError
                  end
                else Ok it0) ;;
        Ok (VObj (pruneObject it1 namespaceMap))
      else Ok item
  | _ => Ok item
  end.
End Projection.

(* ================================================================== *)
(** * The syntax tree of the front end: type nodes *)

(** What calling an accessor of a front-end node does: it returns, or
    it raises (ts-morph raises on a node that was forgotten or whose
    tree is inconsistent). *)
Inductive acc (A : Type) : Type :=
| Returns (a : A)
| Raises (err : string).

Arguments Returns {A} a.
Arguments Raises {A} err.

Definition fromAcc {A : Type} (a : acc A) : res A :=
  match a with
  | Returns x => Ok x
  | Raises e => Throw e
  end.

(** A node in type position.  [kindAcc] is
    [node.getKindName?.() ?? node.getKind?.() ?? node.kind], [textAcc]
    is [node.getText?.() ?? String(node)], and the shape holds, for the
    syntax kind of the node, what the accessors read in that arm of the
    switch return.  [OtherKind] is a kind the switch has no case for;
    [Faulty err] is a node on which reading the kind or one of the
    accessors of its arm raises [err]. *)
Inductive TypeNode : Type :=
| MkTypeNode (kindAcc : acc value) (textAcc : acc string)
    (shape : TypeShape)
with TypeShape : Type :=
| UnionType (typeNodes : list TypeNode)
| IntersectionType (typeNodes : list TypeNode)
| ArrayType (elementTypeNode : option TypeNode)
| TupleType (elements : list TypeNode)
| OptionalType (inner : option TypeNode)
| RestType (inner : option TypeNode)
| LiteralType (literal : option string)
| TemplateLiteralType (spans : list (option TypeNode * option string))
| FunctionType (parameters : list (option string * option TypeNode))
    (returnTypeNode : option TypeNode)
| ParenthesizedType (inner : option TypeNode)
| TypeReference (typeName : option string) (typeArguments : list TypeNode)
| TypeOperator (operator : value) (inner : option TypeNode)
| IndexedAccessType (objectType indexType : option TypeNode)
| MappedType (typeParameter nameType questionToken readonlyToken
    : option string) (inner : option TypeNode)
| ConditionalType (checkType extendsType trueType falseType
    : option TypeNode)
| TypePredicate (parameterName : option string) (assertKeyword : bool)
    (inner : option TypeNode)
| TypeQuery (exprName : option string)
| InferType (typeParameter : option string)
| TypeLiteral (members : list (option string * option TypeNode * bool))
| ImportType (argument : option string)
| OtherKind
| Faulty (err : string).

Definition textAccOf (n : TypeNode) : acc string :=
  match n with
  | MkTypeNode _ t _ => t
  end.

Definition kindAccOf (n : TypeNode) : acc value :=
  match n with
  | MkTypeNode k _ _ => k
  end.

Definition shapeOf (n : TypeNode) : TypeShape :=
  match n with
  | MkTypeNode _ _ s => s
  end.

(** A string that may be [undefined]. *)
Definition optStr (s : option string) : value :=
  match s with
  | Some t => VStr t
  | None => VUndef
  end.

(** [s ?? fallback] for such a string. *)
Definition strOr (s : option string) (fallback : string) : value :=
  match s with
  | Some t => VStr t
  | None => VStr fallback
  end.

(** [n?.getText?.()] for an optional type node. *)
Definition typeNodeText (n : option TypeNode) : res value :=
  match n with
  | None => Ok VUndef
  | Some c => t <- fromAcc (textAccOf c) ;; Ok (VStr t)
  end.

(* ================================================================== *)
(** * Type Expression Normalizer *)

(** [parseTypeNode] on a node that is there.  The two accessors read
    before the [try] can throw out of the function; everything after
    is caught.  ([parseElements] is declared in the source but never
    called, and the second [TemplateLiteralType] and [TupleType] cases
    of the switch are shadowed by the first.) *)
Fixpoint parsePresentTypeNode (node : TypeNode) : res value :=
  match node with
  | MkTypeNode kindAcc textAcc shape =>
      kind <- fromAcc kindAcc ;;
      text <- fromAcc textAcc ;;
      let sub (c : option TypeNode) : res value :=
        match c with
        | None => Ok VUndef
        | Some n => parsePresentTypeNode n
        end in
      try_catch
        (match shape with
         | UnionType typeNodes =>
             types <- mapM parsePresentTypeNode typeNodes ;;
             Ok (VObj [ ("kind", VStr "union"); ("text", VStr text);
                        ("types", VArr types) ])
         | IntersectionType typeNodes =>
             types <- mapM parsePresentTypeNode typeNodes ;;
             Ok (VObj [ ("kind", VStr "intersection"); ("text", VStr text);
                        ("types", VArr types) ])
         | ArrayType elementTypeNode =>
             element <- sub elementTypeNode ;;
             Ok (VObj [ ("kind", VStr "array"); ("text", VStr text);
                        ("element", element) ])
         | TupleType elements =>
             elts <- mapM parsePresentTypeNode elements ;;
             Ok (VObj [ ("kind", VStr "tuple"); ("text", VStr text);
                        ("elements", VArr elts) ])
         | OptionalType inner =>
             type <- sub inner ;;
             Ok (VObj [ ("kind", VStr "optional"); ("text", VStr text);
                        ("type", type) ])
         | RestType inner =>
             type <- sub inner ;;
             Ok (VObj [ ("kind", VStr "rest"); ("text", VStr text);
                        ("type", type) ])
         | LiteralType literal =>
             Ok (VObj [ ("kind", VStr "literal"); ("text", VStr text);
                        ("value", strOr literal text) ])
         | TemplateLiteralType spans =>
             spans' <- mapM (fun s : option TypeNode * option string =>
                               type <- sub (fst s) ;;
                               Ok (VObj [ ("type", type);
                                          ("literal", optStr (snd s)) ]))
                         spans ;;
             Ok (VObj [ ("kind", VStr "template-literal");
                        ("text", VStr text); ("spans", VArr spans') ])
         | FunctionType parameters returnTypeNode =>
             params <- mapM (fun p : option string * option TypeNode =>
                               type <- match snd p with
                                       | None => Ok VUndef
                                       | Some c =>
                                           t <- fromAcc (textAccOf c) ;;
                                           Ok (VStr t)
                                       end ;;
                               typeAst <- sub (snd p) ;;
                               Ok (VObj [ ("name", optStr (fst p));
                                          ("type", type);
                                          ("typeAst", typeAst) ]))
                         parameters ;;
             returnType <- match returnTypeNode with
                           | None => Ok VUndef
                           | Some c =>
                               t <- fromAcc (textAccOf c) ;; Ok (VStr t)
                           end ;;
             returnTypeAst <- sub returnTypeNode ;;
             Ok (VObj [ ("kind", VStr "function"); ("text", VStr text);
                        ("parameters", VArr params);
                        ("returnType", returnType);
                        ("returnTypeAst", returnTypeAst) ])
         | ParenthesizedType inner =>
             type <- sub inner ;;
             Ok (VObj [ ("kind", VStr "parenthesized"); ("text", VStr text);
                        ("type", type) ])
         | TypeReference typeName typeArguments =>
             args <- mapM parsePresentTypeNode typeArguments ;;
             Ok (VObj [ ("kind", VStr "reference"); ("text", VStr text);
                        ("name", strOr typeName text);
                        ("typeArguments", VArr args) ])
         | TypeOperator operator inner =>
             type <- sub inner ;;
             Ok (VObj [ ("kind", VStr "type-operator"); ("text", VStr text);
                        ("operator", operator); ("type", type) ])
         | IndexedAccessType objectType indexType =>
             o <- sub objectType ;;
             i <- sub indexType ;;
             Ok (VObj [ ("kind", VStr "indexed-access"); ("text", VStr text);
                        ("objectType", o); ("indexType", i) ])
         | MappedType typeParameter nameType questionToken readonlyToken
             inner =>
             type <- sub inner ;;
             Ok (VObj [ ("kind", VStr "mapped"); ("text", VStr text);
                        ("typeParameter", optStr typeParameter);
                        ("nameType", optStr nameType);
                        ("optional", optStr questionToken);
                        ("readonly", optStr readonlyToken);
                        ("type", type) ])
         | ConditionalType checkType extendsType trueType falseType =>
             c <- sub checkType ;;
             e <- sub extendsType ;;
             t <- sub trueType ;;
             f <- sub falseType ;;
             Ok (VObj [ ("kind", VStr "conditional"); ("text", VStr text);
                        ("checkType", c); ("extendsType", e);
                        ("trueType", t); ("falseType", f) ])
         | TypePredicate parameterName assertKeyword inner =>
             type <- sub inner ;;
             Ok (VObj [ ("kind", VStr "predicate"); ("text", VStr text);
                        ("parameterName", optStr parameterName);
                        ("asserts", VBool assertKeyword); ("type", type) ])
         | TypeQuery exprName =>
             Ok (VObj [ ("kind", VStr "type-query"); ("text", VStr text);
                        ("exprName", strOr exprName text) ])
         | InferType typeParameter =>
             Ok (VObj [ ("kind", VStr "infer"); ("text", VStr text);
                        ("typeParameter", optStr typeParameter) ])
         | TypeLiteral members =>
             props <- mapM (fun m : option string * option TypeNode * bool =>
                              type <- match snd (fst m) with
                                      | None => Ok VUndef
                                      | Some c =>
                                          t <- fromAcc (textAccOf c) ;;
                                          Ok (VStr t)
                                      end ;;
                              typeAst <- sub (snd (fst m)) ;;
                              Ok (VObj [ ("name", strOr (fst (fst m)) "");
                                         ("type", type);
                                         ("typeAst", typeAst);
                                         ("readonly", VBool (snd m)) ]))
                        members ;;
             Ok (VObj [ ("kind", VStr "object"); ("text", VStr text);
                        ("properties", VArr props) ])
         | ImportType argument =>
             Ok (VObj [ ("kind", VStr "import"); ("text", VStr text);
                        ("argument", strOr argument text) ])
         | OtherKind =>
             Ok (VObj [ ("kind", VStr "unknown"); ("kindName", kind);
                        ("text", VStr text) ])
         | Faulty err => Throw err
         end)
        (fun err =>
           Ok (VObj [ ("kind", VStr "unknown"); ("text", VStr text);
                      ("error", VStr err) ]))
  end.

(** [parseTypeNode]: [if (!node) return undefined]. *)
Definition parseTypeNode (node : option TypeNode) : res value :=
  match node with
  | None => Ok VUndef
  | Some n => parsePresentTypeNode n
  end.

(* ================================================================== *)
(** * The syntax tree of the front end: declarations *)

Module SyntaxKind.
(** The kinds [literalValueText] tells apart.  [Unknown] is the one
    kind whose number is 0, hence falsy. *)
Inductive t : Type :=
| Unknown
| StringLiteral
| NumericLiteral
| TrueKeyword
| FalseKeyword
| NullKeyword
| Other (kindName : string).
End SyntaxKind.

(** An initializer expression. *)
Record Expression : Type := {
  expr_kind : SyntaxKind.t;          (* getKind()        *)
  expr_text : string;                (* getText()        *)
  expr_literalText : string          (* getLiteralText() *)
}.

(** [start] and [end] of a node as line and column, as
    [getLineAndColumnAtPos] gives them. *)
Record Range : Type := {
  start_line : nat; start_column : nat;
  end_line : nat; end_column : nat
}.

Record Decorator : Type := {
  dec_name : option string;          (* getName() ?? expression text *)
  dec_arguments : list string;       (* texts of getArguments()      *)
  dec_text : string
}.

Record ParameterDeclaration : Type := {
  param_name : option string;
  param_text : string;
  param_typeNode : option TypeNode;
  param_initializer : option Expression;
  param_decorators : list Decorator;
  param_loc : option Range;
  param_isOptional : bool
}.

Record TypeParameterDeclaration : Type := {
  tp_name : option string;
  tp_constraint : option string;     (* getConstraint()?.getText() *)
  tp_default : option string         (* getDefault()?.getText()    *)
}.

(** A function declaration, function expression, arrow function or
    constructor. *)
Record FunctionLike : Type := {
  fn_name : option string;
  fn_isDefaultExport : bool;
  fn_isExported : bool;
  fn_jsDocs : list string;           (* getInnerText() of each doc *)
  fn_decorators : list Decorator;
  fn_loc : option Range;
  fn_parameters : list ParameterDeclaration;
  fn_typeParameters : list TypeParameterDeclaration;
  fn_returnTypeNode : option TypeNode
}.

Record VariableDeclaration : Type := {
  vd_name : string;
  vd_initializer : option Expression;
  vd_jsDocs : list string;
  vd_decorators : list Decorator;
  vd_loc : option Range
}.

Record TypeAliasDeclaration : Type := {
  ta_name : option string;
  ta_isDefaultExport : bool;
  ta_isExported : bool;
  ta_jsDocs : list string;
  ta_typeNode : option TypeNode;
  ta_typeText : option string;       (* getType()?.getText() *)
  ta_typeParameters : list TypeParameterDeclaration
}.

Record EnumMemberNode : Type := {
  em_name : option string;
  em_initializer : option Expression;
  em_jsDocs : list string
}.

Record EnumDeclaration : Type := {
  en_name : option string;
  en_isDefaultExport : bool;
  en_isExported : bool;
  en_jsDocs : list string;
  en_isConstEnum : bool;
  en_members : list EnumMemberNode
}.

(** The expression of [export default <expr>] / [export = <expr>]. *)
Record ExportedExpression : Type := {
  ee_kindName : string;
  ee_text : string;
  ee_function : FunctionLike         (* the node read as a function *)
}.

Record MethodDeclaration : Type := {
  md_name : option string;
  md_private : bool;                 (* hasModifier("private")   *)
  md_protected : bool;               (* hasModifier("protected") *)
  md_isStatic : bool;
  md_isAsync : bool;
  md_isAbstract : bool;
  md_decorators : list Decorator;
  md_parameters : list ParameterDeclaration;
  md_typeParameters : list TypeParameterDeclaration;
  md_returnTypeNode : option TypeNode;
  md_jsDocs : list string;
  md_loc : option Range
}.

Record PropertyDeclaration : Type := {
  pd_name : option string;
  pd_private : bool;                 (* hasModifier("private") *)
  pd_isStatic : bool;
  pd_isReadonly : bool;
  pd_initializer : option Expression;
  pd_typeNode : option TypeNode;
  pd_decorators : list Decorator;
  pd_loc : option Range
}.

(** An index signature.  The two regular expressions the parser runs
    over the member text are taken as evaluated: [is_keyMatch] is the
    first group of the key pattern, [is_returnMatch] that of the
    trailing-type pattern. *)
Record IndexSignatureNode : Type := {
  is_keyMatch : option string;
  is_returnTypeNode : option TypeNode;
  is_returnMatch : option string;
  is_readonly : bool
}.

Inductive ClassMember : Type :=
| Constructor (ctor : FunctionLike)
| Method (meth : MethodDeclaration)
| GetAccessor (name : option string) (returnTypeNode : option TypeNode)
    (jsDocs : list string)
| SetAccessor (name : option string) (parameters : list ParameterDeclaration)
    (jsDocs : list string)
| Property (p : PropertyDeclaration)
| ClassIndexSignature (idx : IndexSignatureNode)
| OtherClassMember.

Record ClassDeclaration : Type := {
  cd_name : option string;
  cd_isDefaultExport : bool;
  cd_isExported : bool;
  cd_jsDocs : list string;
  cd_members : list ClassMember;
  cd_typeParameters : list TypeParameterDeclaration
}.

Record PropertySignature : Type := {
  ps_name : option string;
  ps_hasQuestionToken : bool;
  ps_readonly : bool;
  ps_typeNode : option TypeNode;
  ps_jsDocs : list string;
  ps_loc : option Range
}.

Record MethodSignature : Type := {
  ms_name : option string;
  ms_parameters : list ParameterDeclaration;
  ms_returnTypeNode : option TypeNode;
  ms_hasQuestionToken : bool;
  ms_jsDocs : list string;
  ms_loc : option Range
}.

Inductive InterfaceMember : Type :=
| IPropertySignature (p : PropertySignature)
| IMethodSignature (m : MethodSignature)
| IIndexSignature (idx : IndexSignatureNode)
| OtherInterfaceMember.

Record InterfaceDeclaration : Type := {
  id_name : option string;
  id_isDefaultExport : bool;
  id_isExported : bool;
  id_jsDocs : list string;
  id_members : list InterfaceMember;
  id_typeParameters : list TypeParameterDeclaration
}.

(** A statement, by the [asKind] test that recognises it.  The parser
    reads one thing only of a statement in the body of a module
    declaration, its text, which it hands back to the front end as a
    file of its own: a module declaration therefore carries, for each
    statement of its body in turn, the statements the front end finds
    in that text (one, as a rule), with the positions and comments of
    that second parse, and before them what reading the text raises
    once the front end has forgotten the statement.  [forgotten] is
    what [getName] of the declaration raises once it is forgotten
    itself.  [body] is [None] when the declaration has no body, or a
    body without [getStatements]. *)
Inductive Statement : Type :=
| VariableStatement (declarationKind : string)
    (isDefaultExport isExported : bool)
    (declarations : list VariableDeclaration)
| FunctionStatement (fd : FunctionLike)
| TypeAliasStatement (ta : TypeAliasDeclaration)
| EnumStatement (ed : EnumDeclaration)
| ExportAssignment (expression : option ExportedExpression)
| ClassStatement (cd : ClassDeclaration)
| InterfaceStatement (id : InterfaceDeclaration)
| ModuleDeclaration (name : option string) (isExported : bool)
    (jsDocs : list string) (forgotten : string)
    (body : option (list (string * list Statement)))
| OtherStatement.

(** A source file as the front end made it: the path it has in the
    file system of its project (what the file name it was created
    under resolves to there, so that one file has one path only), and
    its statements. *)
Record SourceFile : Type := {
  sf_path : string;
  sf_statements : list Statement
}.

(** The file [parseWithTsMorph] makes for a text when it is called
    with the default file name: [file.ts] or [file.js], of which only
    that it is not [__tmp.ts] matters to the parser. *)
Definition file (statements : list Statement) : SourceFile :=
  {| sf_path := "file.ts"; sf_statements := statements |}.

(** The path under which the statements of a namespace body are
    parsed again, and the file a call with that file name makes. *)
Definition tmpPath : string := "__tmp.ts".

Definition tmpFile (statements : list Statement) : SourceFile :=
  {| sf_path := tmpPath; sf_statements := statements |}.

(* ================================================================== *)
(** * Small helpers of the extractor *)

Definition newline : string := String (ascii_of_nat 10) EmptyString.

(** White space as [String.prototype.trim] sees it, on ASCII. *)
Definition is_space (c : ascii) : bool :=
  let n := nat_of_ascii c in
  Nat.eqb n 32 || (Nat.leb 9 n && Nat.leb n 13).

Fixpoint trimStart (s : string) : string :=
  match s with
  | EmptyString => EmptyString
  | String c r => if is_space c then trimStart r else s
  end.

Fixpoint trimEnd (s : string) : string :=
  match s with
  | EmptyString => EmptyString
  | String c r =>
      match trimEnd r with
      | EmptyString => if is_space c then EmptyString
                       else String c EmptyString
      | r' => String c r'
      end
  end.

Definition trim (s : string) : string := trimEnd (trimStart s).

(** [text.slice(0, n)]. *)
Definition slice0 (n : nat) (text : string) : string := substring 0 n text.

Definition num_of_nat (n : nat) : value :=
  VNum (NilZero.string_of_uint (Nat.to_uint n)).

(** A string that may be absent, with [null] in its place:
    [x ?? null]. *)
Definition strOrNull (s : option string) : value :=
  match s with
  | Some t => VStr t
  | None => VNull
  end.

Definition isSome {A : Type} (o : option A) : bool :=
  match o with
  | Some _ => true
  | None => false
  end.

Definition getJsDocText (jsDocs : list string)
  (optionsJsDoc : option OptionMode) : value :=
  match optionsJsDoc with
  | Some never => VNull
  | _ => VStr (trim (String.concat newline jsDocs))
  end.

Definition literalValueText (init : option Expression) : value :=
  match init with
  | None => VUndef
  | Some e =>
      match expr_kind e with
      | SyntaxKind.Unknown => VUndef
      | SyntaxKind.StringLiteral => VStr (expr_literalText e)
      | SyntaxKind.NumericLiteral => VNum (expr_text e)
      | SyntaxKind.TrueKeyword => VBool true
      | SyntaxKind.FalseKeyword => VBool false
      | SyntaxKind.NullKeyword => VNull
      | SyntaxKind.Other _ => VStr (slice0 200 (expr_text e))
      end
  end.

(** [init?.getText?.()]. *)
Definition initText (init : option Expression) : value :=
  match init with
  | Some e => VStr (expr_text e)
  | None => VUndef
  end.

Definition locOf (loc : option Range) : value :=
  match loc with
  | None => VUndef
  | Some r =>
      VObj [ ("start", VObj [ ("line", num_of_nat (start_line r));
                              ("column", num_of_nat (start_column r)) ]);
             ("end", VObj [ ("line", num_of_nat (end_line r));
                            ("column", num_of_nat (end_column r)) ]) ]
  end.

Definition parseDecorators (decs : list Decorator) : value :=
  match decs with
  | [] => VUndef
  | _ =>
      VArr (map (fun d =>
                   VObj [ ("name", optStr (dec_name d));
                          ("arguments", VArr (map VStr (dec_arguments d)));
                          ("text", VStr (dec_text d)) ]) decs)
  end.

Definition typeParamsOf (tps : list TypeParameterDeclaration) : value :=
  match tps with
  | [] => VUndef
  | _ =>
      VArr (map (fun tp =>
                   VObj [ ("name", strOr (tp_name tp) "");
                          ("constraint", optStr (tp_constraint tp));
                          ("default", optStr (tp_default tp)) ]) tps)
  end.

Definition paramInfo (param : ParameterDeclaration) : res obj :=
  let init := param_initializer param in
  type <- typeNodeText (param_typeNode param) ;;
  typeAst <- parseTypeNode (param_typeNode param) ;;
  Ok [ ("name", strOr (param_name param) (param_text param));
       ("isJSType", VBool (isSome (param_typeNode param)));
       ("type", type);
       ("default", initText init);
       ("defaultParsed", literalValueText init);
       ("typeAst", typeAst);
       ("decorators", parseDecorators (param_decorators param));
       ("loc", locOf (param_loc param)) ].

Definition methodParamInfo (param : ParameterDeclaration) : res obj :=
  info <- paramInfo param ;;
  Ok (set "optional" (VBool (param_isOptional param)) info).

(** The export disposition:
    [isDefaultExport() ? "default" : isExported() ? "normal" : "none"]. *)
Definition exportKind (isDefaultExport isExported : bool) : value :=
  VStr (if isDefaultExport then "default"
        else if isExported then "normal" else "none").

Definition records (l : list obj) : value := VArr (map VObj l).

Definition functionLikeToItem (fn : FunctionLike) (level : string)
  (jsdocOption : option OptionMode) : res obj :=
  args <- mapM paramInfo (fn_parameters fn) ;;
  returnType <- typeNodeText (fn_returnTypeNode fn) ;;
  returnTypeAst <- parseTypeNode (fn_returnTypeNode fn) ;;
  Ok [ ("name", strOrNull (fn_name fn));
       ("type", VStr "function");
       ("level", VStr level);
       ("exports", exportKind (fn_isDefaultExport fn) (fn_isExported fn));
       ("jsdoc", getJsDocText (fn_jsDocs fn) jsdocOption);
       ("decorators", parseDecorators (fn_decorators fn));
       ("loc", locOf (fn_loc fn));
       ("arguments", records args);
       ("typeParameters", typeParamsOf (fn_typeParameters fn));
       ("returnType", returnType);
       ("returnTypeAst", returnTypeAst) ].

(** [src.getVariableDeclaration(id)]: the first declaration of that
    name among the variable statements of the file. *)
Definition variableDeclarations (src : SourceFile)
  : list VariableDeclaration :=
  flat_map (fun stmt => match stmt with
                        | VariableStatement _ _ _ ds => ds
                        | _ => []
                        end) (sf_statements src).

Definition getVariableDeclaration (src : SourceFile) (id : string)
  : option VariableDeclaration :=
  find (fun d => String.eqb (vd_name d) id) (variableDeclarations src).

(** [xs.flatMap(f)] for a callback that may throw: the items a loop
    pushes, in order. *)
Definition concatMapM {A B : Type} (f : A -> res (list B))
  : list A -> res (list B) :=
  fix go (l : list A) : res (list B) :=
    match l with
    | [] => Ok []
    | x :: r => ys <- f x ;; zs <- go r ;; Ok (ys ++ zs)
    end.

(** [({ ...it, level: "sub" })]. *)
Definition stampSub (it : obj) : obj := set "level" (VStr "sub") it.

(** The loop over [body.getStatements()] of a module declaration.
    Each round reads the text of a statement, writes it to the file
    [__tmp.ts] of the project of [src], overwriting what is there,
    parses that text by a call of [parseWithTsMorph] with the file
    name [__tmp.ts] ([parseTmp]) and stamps the items of the call.
    When [src] is that very file ([selfIsTmp]: the call at hand is
    such a nested one, or was given that file name), the first round
    replaces the text of [src] and the front end forgets every node
    of it: [forgotten] tells whether that has happened, and the text
    of the next statement can then no more be read. *)
Definition unpackBody (parseTmp : list Statement -> res (list obj))
  (selfIsTmp : bool)
  : bool -> list (string * list Statement) -> res (list obj) :=
  fix loop (forgotten : bool) (body : list (string * list Statement))
    : res (list obj) :=
    match body with
    | [] => Ok []
    | (raised, tmp) :: rest =>
        if forgotten then Throw raised
        else
          items <- parseTmp tmp ;;
          more <- loop selfIsTmp rest ;;
          Ok (map stampSub items ++ more)
    end.

(** Whether the loop has run at least once. *)
Definition hasStatements (body : option (list (string * list Statement)))
  : bool :=
  match body with
  | Some (_ :: _) => true
  | _ => false
  end.

(* ================================================================== *)
(** * Declaration Extractor *)

Section Extractor.
(** The [options] argument of [parseWithTsMorph]; [None] when the
    caller passes none. *)
Variable options : option ParseOptions.

Let opts : NormalizedOptions := normalizeOptions options.
Let onlyMode : bool := onlyMode_of opts.

Definition variableItem (declarationKind : string)
  (isDefaultExport isExported : bool) (d : VariableDeclaration) : obj :=
  let init := vd_initializer d in
  [ ("name", VStr (vd_name d));
    ("type", VStr "variable");
    ("subtype", VStr (if String.eqb declarationKind "const" then "constant"
                      else if String.eqb declarationKind "let" then "let"
                      else "var"));
    ("value", literalValueText init);
    ("valueText", initText init);
    ("valueParsed", literalValueText init);
    ("exports", exportKind isDefaultExport isExported);
    ("level", VStr "top");
    ("jsdoc", getJsDocText (vd_jsDocs d) (opts K_JSDoc));
    ("decorators", parseDecorators (vd_decorators d));
    ("loc", locOf (vd_loc d));
    ("arguments", VArr []) ].

Definition typeAliasItem (ta : TypeAliasDeclaration) : res obj :=
  target <- match ta_typeNode ta with
            | Some n => t <- fromAcc (textAccOf n) ;; Ok (VStr t)
            | None => Ok (optStr (ta_typeText ta))
            end ;;
  Ok [ ("name", strOrNull (ta_name ta));
       ("type", VStr "type-alias");
       ("level", VStr "top");
       ("exports", exportKind (ta_isDefaultExport ta) (ta_isExported ta));
       ("jsdoc", getJsDocText (ta_jsDocs ta) (opts K_JSDoc));
       ("target", target);
       ("typeParameters", typeParamsOf (ta_typeParameters ta)) ].

Definition enumMember (m : EnumMemberNode) : obj :=
  applyEnumMemberOptions opts onlyMode
    [ ("name", strOr (em_name m) "");
      ("value", literalValueText (em_initializer m));
      ("jsdoc", getJsDocText (em_jsDocs m) (opts K_JSDoc)) ].

Definition enumItem (ed : EnumDeclaration) : obj :=
  [ ("name", strOrNull (en_name ed));
    ("type", VStr "enum");
    ("level", VStr "top");
    ("exports", exportKind (en_isDefaultExport ed) (en_isExported ed));
    ("jsdoc", getJsDocText (en_jsDocs ed) (opts K_JSDoc));
    ("const", VBool (en_isConstEnum ed));
    ("members", records (map enumMember (en_members ed))) ].

(** The type-alias, interface and namespace arms of [parseWithTsMorph]
    prune the item they built with the very statements of the matching
    case of [applyParsedItemOptions]; the enum and class arms differ
    from theirs and are written out. *)

(** The item pushed for [export default id] when [id] names a
    variable declaration of the file. *)
Definition defaultExportItem (vd : VariableDeclaration) : obj :=
  [ ("name", VStr (vd_name vd));
    ("type", VStr "variable");
    ("subtype", VStr "constant");
    ("value", literalValueText (vd_initializer vd));
    ("valueText", initText (vd_initializer vd));
    ("valueParsed", literalValueText (vd_initializer vd));
    ("exports", VStr "default");
    ("level", VStr "top");
    ("jsdoc", getJsDocText (vd_jsDocs vd) (opts K_JSDoc));
    ("arguments", VArr []) ].

Definition methodItem (meth : MethodDeclaration) : res obj :=
  args <- mapM methodParamInfo (md_parameters meth) ;;
  returnType <- typeNodeText (md_returnTypeNode meth) ;;
  returnTypeAst <- parseTypeNode (md_returnTypeNode meth) ;;
  Ok [ ("name", strOr (md_name meth) "");
       ("accessibility",
         if md_private meth then VStr "private"
         else if md_protected meth then VStr "protected"
         else VUndef);
       ("static", VBool (md_isStatic meth));
       ("async", VBool (md_isAsync meth));
       ("abstract", VBool (md_isAbstract meth));
       ("decorators", parseDecorators (md_decorators meth));
       ("arguments", records args);
       ("typeParameters", typeParamsOf (md_typeParameters meth));
       ("returnType", returnType);
       ("returnTypeAst", returnTypeAst);
       ("jsdoc", getJsDocText (md_jsDocs meth) (opts K_JSDoc));
       ("loc", locOf (md_loc meth)) ].

(** [name.startsWith("#")]. *)
Definition startsWithHash (name : string) : bool := prefix "#" name.

Definition indexSignatureItem (idx : IndexSignatureNode) : res obj :=
  returnType <- match is_returnTypeNode idx with
                | Some n => t <- fromAcc (textAccOf n) ;; Ok (VStr t)
                | None => Ok (optStr (is_returnMatch idx))
                end ;;
  Ok [ ("keyType", optStr (is_keyMatch idx));
       ("returnType", returnType);
       ("readonly", VBool (is_readonly idx)) ].

(** What the loop over [cd.getMembers()] pushes for one member. *)
Definition classMember (className : option string) (m : ClassMember)
  : res (list obj) :=
  match m with
  | Constructor ctor =>
      f <- functionLikeToItem ctor "sub" (opts K_JSDoc) ;;
      f' <- applyFunctionItemOptions opts onlyMode f ;;
      Ok [ [ ("type", VStr "constructor");
             ("for", strOr className "");
             ("function", VObj f') ] ]
  | Method meth =>
      item <- methodItem meth ;;
      item' <- applyMethodItemOptions opts onlyMode item ;;
      Ok [ item' ]
  | GetAccessor name returnTypeNode jsDocs =>
      returnType <- typeNodeText returnTypeNode ;;
      item' <- applyMethodItemOptions opts onlyMode
                 [ ("name", strOr name "");
                   ("isGetter", VBool true);
                   ("arguments", VArr []);
                   ("returnType", returnType);
                   ("jsdoc", getJsDocText jsDocs (opts K_JSDoc)) ] ;;
      Ok [ item' ]
  | SetAccessor name parameters jsDocs =>
      args <- mapM methodParamInfo parameters ;;
      item' <- applyMethodItemOptions opts onlyMode
                 [ ("name", strOr name "");
                   ("isSetter", VBool true);
                   ("arguments", records args);
                   ("jsdoc", getJsDocText jsDocs (opts K_JSDoc)) ] ;;
      Ok [ item' ]
  | Property p =>
      let name := match pd_name p with
                  | Some n => n
                  | None => ""
                  end in
      type <- typeNodeText (pd_typeNode p) ;;
      Ok [ applyClassMemberPropertyOptions opts onlyMode
             [ ("name", VStr name);
               ("private", VBool (pd_private p || startsWithHash name));
               ("static", VBool (pd_isStatic p));
               ("readonly", VBool (pd_isReadonly p));
               ("value", literalValueText (pd_initializer p));
               ("type", type);
               ("decorators", parseDecorators (pd_decorators p));
               ("loc", locOf (pd_loc p)) ] ]
  | ClassIndexSignature idx =>
      item <- indexSignatureItem idx ;;
      Ok [ applyIndexSignatureOptions opts onlyMode item ]
  | OtherClassMember => Ok []
  end.

(** The callback of [item.items.map] in the class arm of
    [parseWithTsMorph]: only constructors are pruned again. *)
Definition reapplyConstructor (m : obj) : res obj :=
  if is_str "constructor" (prop "type" m) then
    applyConstructorOptions opts onlyMode m
  else Ok m.

Definition classItem (cd : ClassDeclaration) : res obj :=
  members <- concatMapM (classMember (cd_name cd)) (cd_members cd) ;;
  let item :=
    [ ("name", strOrNull (cd_name cd));
      ("type", VStr "class");
      ("level", VStr "top");
      ("exports", exportKind (cd_isDefaultExport cd) (cd_isExported cd));
      ("jsdoc", getJsDocText (cd_jsDocs cd) (opts K_JSDoc));
      ("items", records members);
      ("typeParameters", typeParamsOf (cd_typeParameters cd)) ] in
  let item0 := applyBaseItemOptions opts onlyMode item in
  item1 <- mapField "typeParameters"
             (pure (applyTypeParameterOptions opts onlyMode)) item0 ;;
  item2 <- mapField "items" reapplyConstructor item1 ;;
  Ok (pruneObject opts onlyMode item2 classMap).

(** What the loop over [id.getMembers()] pushes for one member. *)
Definition interfaceMember (m : InterfaceMember) : res (list obj) :=
  match m with
  | IPropertySignature p =>
      type <- typeNodeText (ps_typeNode p) ;;
      Ok [ applyInterfaceMemberPropertyOptions opts onlyMode
             [ ("name", strOr (ps_name p) "");
               ("optional", VBool (ps_hasQuestionToken p));
               ("readonly", VBool (ps_readonly p));
               ("type", type);
               ("jsdoc", getJsDocText (ps_jsDocs p) (opts K_JSDoc));
               ("loc", locOf (ps_loc p)) ] ]
  | IMethodSignature ms =>
      args <- mapM paramInfo (ms_parameters ms) ;;
      returnType <- typeNodeText (ms_returnTypeNode ms) ;;
      item' <- applyInterfaceMemberMethodOptions opts onlyMode
                 [ ("name", strOr (ms_name ms) "");
                   ("arguments", records args);
                   ("returnType", returnType);
                   ("optional", VBool (ms_hasQuestionToken ms));
                   ("jsdoc", getJsDocText (ms_jsDocs ms) (opts K_JSDoc));
                   ("loc", locOf (ms_loc ms)) ] ;;
      Ok [ item' ]
  | IIndexSignature idx =>
      item <- indexSignatureItem idx ;;
      Ok [ applyIndexSignatureOptions opts onlyMode item ]
  | OtherInterfaceMember => Ok []
  end.

Definition interfaceItem (id : InterfaceDeclaration) : res obj :=
  members <- concatMapM interfaceMember (id_members id) ;;
  let item :=
    [ ("name", strOrNull (id_name id));
      ("type", VStr "interface");
      ("level", VStr "top");
      ("exports", exportKind (id_isDefaultExport id) (id_isExported id));
      ("jsdoc", getJsDocText (id_jsDocs id) (opts K_JSDoc));
      ("members", records members);
      ("typeParameters", typeParamsOf (id_typeParameters id)) ] in
  interfaceCase opts onlyMode item.

(** The namespace item once the members of its body are known. *)
Definition namespaceItem (name : option string) (isExported : bool)
  (jsDocs : list string) (members : list obj) : res obj :=
  let item :=
    [ ("name", strOrNull name);
      ("type", VStr "namespace");
      ("level", VStr "top");
      ("exports", VStr (if isExported then "normal" else "none"));
      ("jsdoc", getJsDocText jsDocs (opts K_JSDoc));
      ("members", records members) ] in
  namespaceCase opts onlyMode (applyParsedItemOptions opts onlyMode) item.

(** One round of the loop over [src.getStatements()]: the items it
    pushes to [out].  [src] is the file the statement belongs to,
    which [export default id] searches.  For a module declaration
    each statement of the body is parsed as a file of its own by a
    call of [parseWithTsMorph] with the same options and the file
    name [__tmp.ts], and the items of that call are stamped.  In a
    file that is [__tmp.ts] itself the declaration is forgotten as
    soon as its body has a statement, and reading its name for the
    item raises. *)
Fixpoint parseStatement (src : SourceFile) (stmt : Statement)
  : res (list obj) :=
  match stmt with
  | VariableStatement kind isDefaultExport isExported declarations =>
      Ok (map (fun d =>
                 applyVariableItemOptions opts onlyMode
                   (variableItem kind isDefaultExport isExported d))
            declarations)
  | FunctionStatement fd =>
      f <- functionLikeToItem fd "top" (opts K_JSDoc) ;;
      f' <- applyFunctionItemOptions opts onlyMode f ;;
      Ok [ f' ]
  | TypeAliasStatement ta =>
      item <- typeAliasItem ta ;;
      item' <- typeAliasCase opts onlyMode item ;;
      Ok [ item' ]
  | EnumStatement ed =>
      let item0 := applyBaseItemOptions opts onlyMode (enumItem ed) in
      let item1 := pruneObject opts onlyMode item0 enumMap in
      item2 <- mapField "members"
                 (pure (applyEnumMemberOptions opts onlyMode)) item1 ;;
      Ok [ item2 ]
  | ExportAssignment None => Ok []
  | ExportAssignment (Some expr) =>
      if String.eqb (ee_kindName expr) "FunctionExpression"
         || String.eqb (ee_kindName expr) "ArrowFunction"
      then
        f <- functionLikeToItem (ee_function expr) "top" (opts K_JSDoc) ;;
        f' <- applyFunctionItemOptions opts onlyMode
                (set "exports" (VStr "default") f) ;;
        Ok [ f' ]
      else
        match ee_text expr with
        | EmptyString => Ok []
        | id =>
            match getVariableDeclaration src id with
            | Some vd =>
                Ok [ applyVariableItemOptions opts onlyMode
                       (defaultExportItem vd) ]
            | None => Ok []
            end
        end
  | ClassStatement cd => item <- classItem cd ;; Ok [ item ]
  | InterfaceStatement id => item <- interfaceItem id ;; Ok [ item ]
  | ModuleDeclaration name isExported jsDocs forgotten body =>
      let selfIsTmp := String.eqb (sf_path src) tmpPath in
      members <- match body with
                 | Some statements =>
                     unpackBody
                       (fun tmp =>
                          concatMapM (parseStatement (tmpFile tmp)) tmp)
                       selfIsTmp false statements
                 | None => Ok []
                 end ;;
      if selfIsTmp && hasStatements body then Throw forgotten
      else
        item <- namespaceItem name isExported jsDocs members ;;
        Ok [ item ]
  | OtherStatement => Ok []
  end.

(** [parseWithTsMorph] on the file the front end made of [sourceText]
    under the file name of the call. *)
Definition parseWithTsMorph (src : SourceFile) : res (list obj) :=
  concatMapM (parseStatement src) (sf_statements src).
End Extractor.

(* ================================================================== *)
(** * The parser without options ([src/parser.ts])

    The file keeps the extractor as it was before the options came:
    the same front end, the same helpers ([literalValueText],
    [paramInfo], [methodParamInfo], [typeParamsOf], [locOf],
    [parseDecorators] and [parseTypeNode] are the same text in both
    files), no projection, and a few fields less. *)

Module Legacy.

(** [getJsDocText(node)]: there is no option to look at. *)
Definition getJsDocText (jsDocs : list string) : value :=
  VStr (trim (String.concat newline jsDocs)).

Definition functionLikeToItem (fn : FunctionLike) (level : string)
  : res obj :=
  args <- mapM paramInfo (fn_parameters fn) ;;
  returnType <- typeNodeText (fn_returnTypeNode fn) ;;
  returnTypeAst <- parseTypeNode (fn_returnTypeNode fn) ;;
  Ok [ ("name", strOrNull (fn_name fn));
       ("type", VStr "function");
       ("level", VStr level);
       ("exports", exportKind (fn_isDefaultExport fn) (fn_isExported fn));
       ("jsdoc", getJsDocText (fn_jsDocs fn));
       ("decorators", parseDecorators (fn_decorators fn));
       ("loc", locOf (fn_loc fn));
       ("arguments", records args);
       ("typeParameters", typeParamsOf (fn_typeParameters fn));
       ("returnType", returnType);
       ("returnTypeAst", returnTypeAst) ].

Definition variableItem (declarationKind : string)
  (isDefaultExport isExported : bool) (d : VariableDeclaration) : obj :=
  let init := vd_initializer d in
  [ ("name", VStr (vd_name d));
    ("type", VStr "variable");
    ("subtype", VStr (if String.eqb declarationKind "const" then "constant"
                      else if String.eqb declarationKind "let" then "let"
                      else "var"));
    ("value", literalValueText init);
    ("valueText", initText init);
    ("valueParsed", literalValueText init);
    ("exports", exportKind isDefaultExport isExported);
    ("level", VStr "top");
    ("jsdoc", getJsDocText (vd_jsDocs d));
    ("decorators", parseDecorators (vd_decorators d));
    ("loc", locOf (vd_loc d));
    ("arguments", VArr []) ].

Definition typeAliasItem (ta : TypeAliasDeclaration) : res obj :=
  target <- match ta_typeNode ta with
            | Some n => t <- fromAcc (textAccOf n) ;; Ok (VStr t)
            | None => Ok (optStr (ta_typeText ta))
            end ;;
  Ok [ ("name", strOrNull (ta_name ta));
       ("type", VStr "type-alias");
       ("level", VStr "top");
       ("exports", exportKind (ta_isDefaultExport ta) (ta_isExported ta));
       ("jsdoc", getJsDocText (ta_jsDocs ta));
       ("target", target);
       ("typeParameters", typeParamsOf (ta_typeParameters ta)) ].

Definition enumMember (m : EnumMemberNode) : obj :=
  [ ("name", strOr (em_name m) "");
    ("value", literalValueText (em_initializer m));
    ("jsdoc", getJsDocText (em_jsDocs m)) ].

Definition enumItem (ed : EnumDeclaration) : obj :=
  [ ("name", strOrNull (en_name ed));
    ("type", VStr "enum");
    ("level", VStr "top");
    ("exports", exportKind (en_isDefaultExport ed) (en_isExported ed));
    ("jsdoc", getJsDocText (en_jsDocs ed));
    ("const", VBool (en_isConstEnum ed));
    ("members", records (map enumMember (en_members ed))) ].

(** The item pushed for [export default id]: it has neither
    [valueText] nor [valueParsed]. *)
Definition defaultExportItem (vd : VariableDeclaration) : obj :=
  [ ("name", VStr (vd_name vd));
    ("type", VStr "variable");
    ("subtype", VStr "constant");
    ("value", literalValueText (vd_initializer vd));
    ("exports", VStr "default");
    ("level", VStr "top");
    ("jsdoc", getJsDocText (vd_jsDocs vd));
    ("arguments", VArr []) ].

Definition methodItem (meth : MethodDeclaration) : res obj :=
  args <- mapM methodParamInfo (md_parameters meth) ;;
  returnType <- typeNodeText (md_returnTypeNode meth) ;;
  returnTypeAst <- parseTypeNode (md_returnTypeNode meth) ;;
  Ok [ ("name", strOr (md_name meth) "");
       ("accessibility",
         if md_private meth then VStr "private"
         else if md_protected meth then VStr "protected"
         else VUndef);
       ("static", VBool (md_isStatic meth));
       ("async", VBool (md_isAsync meth));
       ("abstract", VBool (md_isAbstract meth));
       ("decorators", parseDecorators (md_decorators meth));
       ("arguments", records args);
       ("typeParameters", typeParamsOf (md_typeParameters meth));
       ("returnType", returnType);
       ("returnTypeAst", returnTypeAst);
       ("jsdoc", getJsDocText (md_jsDocs meth));
       ("loc", locOf (md_loc meth)) ].

(** What the loop over [cd.getMembers()] pushes for one member.  A
    property has no [type], [decorators] or [loc], and its type node
    is not looked at. *)
Definition classMember (className : option string) (m : ClassMember)
  : res (list obj) :=
  match m with
  | Constructor ctor =>
      f <- functionLikeToItem ctor "sub" ;;
      Ok [ [ ("type", VStr "constructor");
             ("for", strOr className "");
             ("function", VObj f) ] ]
  | Method meth => item <- methodItem meth ;; Ok [ item ]
  | GetAccessor name returnTypeNode jsDocs =>
      returnType <- typeNodeText returnTypeNode ;;
      Ok [ [ ("name", strOr name "");
             ("isGetter", VBool true);
             ("arguments", VArr []);
             ("returnType", returnType);
             ("jsdoc", getJsDocText jsDocs) ] ]
  | SetAccessor name parameters jsDocs =>
      args <- mapM methodParamInfo parameters ;;
      Ok [ [ ("name", strOr name "");
             ("isSetter", VBool true);
             ("arguments", records args);
             ("jsdoc", getJsDocText jsDocs) ] ]
  | Property p =>
      let name := match pd_name p with
                  | Some n => n
                  | None => ""
                  end in
      Ok [ [ ("name", VStr name);
             ("private", VBool (pd_private p || startsWithHash name));
             ("static", VBool (pd_isStatic p));
             ("readonly", VBool (pd_isReadonly p));
             ("value", literalValueText (pd_initializer p)) ] ]
  | ClassIndexSignature idx => item <- indexSignatureItem idx ;; Ok [ item ]
  | OtherClassMember => Ok []
  end.

Definition classItem (cd : ClassDeclaration) : res obj :=
  members <- concatMapM (classMember (cd_name cd)) (cd_members cd) ;;
  Ok [ ("name", strOrNull (cd_name cd));
       ("type", VStr "class");
       ("level", VStr "top");
       ("exports", exportKind (cd_isDefaultExport cd) (cd_isExported cd));
       ("jsdoc", getJsDocText (cd_jsDocs cd));
       ("items", records members);
       ("typeParameters", typeParamsOf (cd_typeParameters cd)) ].

(** What the loop over [id.getMembers()] pushes for one member: no
    member has a [loc]. *)
Definition interfaceMember (m : InterfaceMember) : res (list obj) :=
  match m with
  | IPropertySignature p =>
      type <- typeNodeText (ps_typeNode p) ;;
      Ok [ [ ("name", strOr (ps_name p) "");
             ("optional", VBool (ps_hasQuestionToken p));
             ("readonly", VBool (ps_readonly p));
             ("type", type);
             ("jsdoc", getJsDocText (ps_jsDocs p)) ] ]
  | IMethodSignature ms =>
      args <- mapM paramInfo (ms_parameters ms) ;;
      returnType <- typeNodeText (ms_returnTypeNode ms) ;;
      Ok [ [ ("name", strOr (ms_name ms) "");
             ("arguments", records args);
             ("returnType", returnType);
             ("optional", VBool (ms_hasQuestionToken ms));
             ("jsdoc", getJsDocText (ms_jsDocs ms)) ] ]
  | IIndexSignature idx => item <- indexSignatureItem idx ;; Ok [ item ]
  | OtherInterfaceMember => Ok []
  end.

Definition interfaceItem (id : InterfaceDeclaration) : res obj :=
  members <- concatMapM interfaceMember (id_members id) ;;
  Ok [ ("name", strOrNull (id_name id));
       ("type", VStr "interface");
       ("level", VStr "top");
       ("exports", exportKind (id_isDefaultExport id) (id_isExported id));
       ("jsdoc", getJsDocText (id_jsDocs id));
       ("members", records members);
       ("typeParameters", typeParamsOf (id_typeParameters id)) ].

Definition namespaceItem (name : option string) (isExported : bool)
  (jsDocs : list string) (members : list obj) : obj :=
  [ ("name", strOrNull name);
    ("type", VStr "namespace");
    ("level", VStr "top");
    ("exports", VStr (if isExported then "normal" else "none"));
    ("jsdoc", getJsDocText jsDocs);
    ("members", records members) ].

(** One round of the loop over [src.getStatements()]; the namespace
    arm writes its temporary file as the newer parser does. *)
Fixpoint parseStatement (src : SourceFile) (stmt : Statement)
  : res (list obj) :=
  match stmt with
  | VariableStatement kind isDefaultExport isExported declarations =>
      Ok (map (variableItem kind isDefaultExport isExported) declarations)
  | FunctionStatement fd => f <- functionLikeToItem fd "top" ;; Ok [ f ]
  | TypeAliasStatement ta => item <- typeAliasItem ta ;; Ok [ item ]
  | EnumStatement ed => Ok [ enumItem ed ]
  | ExportAssignment None => Ok []
  | ExportAssignment (Some expr) =>
      if String.eqb (ee_kindName expr) "FunctionExpression"
         || String.eqb (ee_kindName expr) "ArrowFunction"
      then
        f <- functionLikeToItem (ee_function expr) "top" ;;
        Ok [ set "exports" (VStr "default") f ]
      else
        match ee_text expr with
        | EmptyString => Ok []
        | id =>
            match getVariableDeclaration src id with
            | Some vd => Ok [ defaultExportItem vd ]
            | None => Ok []
            end
        end
  | ClassStatement cd => item <- classItem cd ;; Ok [ item ]
  | InterfaceStatement id => item <- interfaceItem id ;; Ok [ item ]
  | ModuleDeclaration name isExported jsDocs forgotten body =>
      let selfIsTmp := String.eqb (sf_path src) tmpPath in
      members <- match body with
                 | Some statements =>
                     unpackBody
                       (fun tmp =>
                          concatMapM (parseStatement (tmpFile tmp)) tmp)
                       selfIsTmp false statements
                 | None => Ok []
                 end ;;
      if selfIsTmp && hasStatements body then Throw forgotten
      else Ok [ namespaceItem name isExported jsDocs members ]
  | OtherStatement => Ok []
  end.

Definition parseWithTsMorph (src : SourceFile) : res (list obj) :=
  concatMapM (parseStatement src) (sf_statements src).

End Legacy.

(* ================================================================== *)
(** * Pruning passes as step lists *)

(** Each arm of the projection is a sequence of two kinds of step:
    a [pruneObject] with some map, and an in-place update of one
    field.  Reasoning about the arms goes through this reading. *)
Inductive step : Type :=
| Prune (map : PruneMap)
| Update (key : string) (g : value -> res value).

Section Passes.
Variable options : NormalizedOptions.
Variable onlyMode : bool.

Definition exec (s : step) (o : obj) : res obj :=
  match s with
  | Prune m => Ok (pruneObject options onlyMode o m)
  | Update key g => updateField key g o
  end.

Fixpoint run (p : list step) (o : obj) : res obj :=
  match p with
  | [] => Ok o
  | s :: p' => o1 <- exec s o ;; run p' o1
  end.
End Passes.

(** The keys a list of steps updates. *)
Fixpoint updatedKeys (p : list step) : list string :=
  match p with
  | [] => []
  | Prune _ :: p' => updatedKeys p'
  | Update key _ :: p' => key :: updatedKeys p'
  end.

(* ================================================================== *)
(** * Declaration item trees, as the interfaces type them *)

(** An array of records that each pass [chk]. *)
Definition isRecordArray (chk : obj -> bool) (v : value) : bool :=
  match v with
  | VArr l => forallb (fun e => match e with
                                | VObj o => chk o
                                | _ => false
                                end) l
  | _ => false
  end.

(** A field declared as an array of records: left out, or such an
    array. *)
Definition arrayField (key : string) (chk : obj -> bool) (o : obj) : bool :=
  if truthy (prop key o) then isRecordArray chk (prop key o) else true.

Definition anyRecord (o : obj) : bool := true.

Definition keysWithin (allowed : list string) (o : obj) : bool :=
  forallb (fun k => existsb (String.eqb k) allowed) (keys o).

(** [FunctionItem]: [arguments] and [typeParameters] are arrays of
    records. *)
Definition wf_function (f : obj) : bool :=
  arrayField "arguments" anyRecord f
  && arrayField "typeParameters" anyRecord f.

(** The fields of [MethodItem]. *)
Definition methodKeys : list string :=
  [ "name"; "accessibility"; "static"; "async"; "abstract"; "isGetter";
    "isSetter"; "readonly"; "arguments"; "typeParameters"; "returnType";
    "returnTypeAst"; "decorators"; "loc"; "jsdoc" ].

(** The fields of [IndexSignature]. *)
Definition indexSignatureKeys : list string :=
  [ "keyType"; "returnType"; "readonly" ].

(** The fields of [InterfaceMemberMethod]. *)
Definition interfaceMethodKeys : list string :=
  [ "name"; "arguments"; "returnType"; "optional"; "jsdoc"; "loc" ].

(** A member of [ClassItem.items], told apart the way the projection
    tells the variants apart: a constructor holds a [FunctionItem], a
    method (the records with [arguments]) has the fields of
    [MethodItem], an index signature (the records with [keyType]) those
    of [IndexSignature]; anything else is a property. *)
Definition wf_class_member (m : obj) : bool :=
  if is_str "constructor" (prop "type" m) then
    if truthy (prop "function" m) then
      match prop "function" m with
      | VObj f => wf_function f
      | _ => false
      end
    else true
  else if negb (is_undefined (prop "arguments" m)) then
    keysWithin methodKeys m && wf_function m
  else if negb (is_undefined (prop "keyType" m)) then
    keysWithin indexSignatureKeys m
  else true.

(** A member of [InterfaceItem.members]. *)
Definition wf_interface_member (m : obj) : bool :=
  if negb (is_undefined (prop "keyType" m)) then
    keysWithin indexSignatureKeys m
  else if negb (is_undefined (prop "arguments" m)) then
    keysWithin interfaceMethodKeys m && arrayField "arguments" anyRecord m
  else true.

(** A [ParsedItem], by its [type] tag.  A value with another tag, or
    none, is left alone by the projection and passes. *)
Fixpoint wf_item (item : value) : bool :=
  match item with
  | VObj it =>
      let ty := prop "type" it in
      if is_str "variable" ty then true
      else if is_str "function" ty then wf_function it
      else if is_str "type-alias" ty then
        arrayField "typeParameters" anyRecord it
      else if is_str "enum" ty then arrayField "members" anyRecord it
      else if is_str "class" ty then
        arrayField "typeParameters" anyRecord it
        && arrayField "items" wf_class_member it
      else if is_str "interface" ty then
        arrayField "typeParameters" anyRecord it
        && arrayField "members" wf_interface_member it
      else if is_str "namespace" ty then
        if truthy (prop "members" it) then
          findArray "members" (forallb wf_item) false it
        else true
      else true
  | _ => true
  end.

(* ================================================================== *)
(** * Nesting levels in an output tree *)





(* ================================================================== *)
(** * Notions used in the proofs *)

(** Filtering an object on its keys. *)
Definition byKey (p : string -> bool) (kv : string * value) : bool :=
  p (fst kv).

(** A callback is settled on [x] when it returns on [x] and maps its
    result to itself. *)
Definition settles {A : Type} (f : A -> res A) (x : A) : Prop :=
  exists y, f x = Ok y /\ f y = Ok y.

Section PassInvariants.
Variable options : NormalizedOptions.
Variable onlyMode : bool.

(** A step that would leave the object as it is. *)
Definition fixedBy (s : step) (x : obj) : Prop :=
  match s with
  | Prune m => Forall (fun k => kept options onlyMode m k = true) (keys x)
  | Update key g =>
      truthy (prop key x) = false \/ g (prop key x) = Ok (prop key x)
  end.

(** The field a step updates, if it is there, holds a value on which
    the update settles. *)
Definition fieldReady (key : string) (g : value -> res value) (o : obj)
  : Prop :=
  truthy (prop key o) = true -> settles g (prop key o).

(** Every update of a step list finds its field ready when the list
    reaches it. *)
Fixpoint ready (p : list step) (o : obj) : Prop :=
  match p with
  | [] => True
  | s :: p' =>
      match s with
      | Prune _ => True
      | Update key g => fieldReady key g o
      end
      /\ forall o1, exec options onlyMode s o = Ok o1 -> ready p' o1
  end.
End PassInvariants.

(** Two steps that do not update the same field. *)
Definition compatible (s s' : step) : Prop :=
  match s, s' with
  | Update k _, Update k' _ => k <> k'
  | _, _ => True
  end.

(** The arms of the projection as step lists. *)
Section ArmSteps.
Variable options : NormalizedOptions.
Variable onlyMode : bool.

Definition paramUpdate : value -> res value :=
  mapArray (onRecord (pure (applyParamOptions options onlyMode))).

Definition methodParamUpdate : value -> res value :=
  mapArray (onRecord (pure (applyMethodParamOptions options onlyMode))).

Definition typeParameterUpdate : value -> res value :=
  mapArray (onRecord (pure (applyTypeParameterOptions options onlyMode))).

Definition methodParamSteps : list step :=
  [ Prune paramMap; Prune methodParamMap ].

Definition variableSteps : list step :=
  [ Prune baseItemMap; Prune variableItemMap ].

Definition functionSteps : list step :=
  [ Update "arguments" paramUpdate;
    Update "typeParameters" typeParameterUpdate;
    Prune baseItemMap; Prune functionItemMap ].

Definition methodSteps : list step :=
  [ Update "arguments" methodParamUpdate;
    Update "typeParameters" typeParameterUpdate;
    Prune methodItemMap ].

Definition interfaceMethodSteps : list step :=
  [ Update "arguments" paramUpdate; Prune interfaceMemberMethodMap ].

Definition constructorSteps : list step :=
  [ Prune constructorMap;
    Update "function"
      (onRecord (applyFunctionItemOptions options onlyMode)) ].

Definition typeAliasSteps : list step :=
  [ Prune baseItemMap; Update "typeParameters" typeParameterUpdate;
    Prune typeAliasMap ].

Definition enumSteps : list step :=
  [ Prune baseItemMap;
    Update "members"
      (mapArray (onRecord (pure (applyEnumMemberOptions options onlyMode))));
    Prune enumMap ].

Definition classSteps : list step :=
  [ Prune baseItemMap; Update "typeParameters" typeParameterUpdate;
    Update "items"
      (mapArray (onRecord (applyClassMemberOptions options onlyMode)));
    Prune classMap ].

Definition interfaceSteps : list step :=
  [ Prune baseItemMap; Update "typeParameters" typeParameterUpdate;
    Update "members"
      (mapArray (onRecord (applyInterfaceMemberOptions options onlyMode)));
    Prune interfaceMap ].

Definition namespaceSteps (self : value -> res value) : list step :=
  [ Prune baseItemMap; Update "members" (mapArray self);
    Prune namespaceMap ].
End ArmSteps.

(** Two pruning maps with no key in common. *)
Definition disjointMaps (m1 m2 : PruneMap) : bool :=
  forallb (fun kv => match map_get (fst kv) m2 with
                     | None => true
                     | Some _ => false
                     end) m1.

(** The pruning of the enum and class arms of [parseWithTsMorph], as
    step lists. *)
Definition parsedEnumSteps (options : NormalizedOptions) (onlyMode : bool)
  : list step :=
  [ Prune baseItemMap; Prune enumMap;
    Update "members"
      (mapArray (onRecord (pure (applyEnumMemberOptions options onlyMode))))
  ].

Definition parsedClassSteps (reapply : obj -> res obj)
  (options : NormalizedOptions) (onlyMode : bool) : list step :=
  [ Prune baseItemMap;
    Update "typeParameters" (typeParameterUpdate options onlyMode);
    Update "items" (mapArray (onRecord reapply));
    Prune classMap ].

Section StatementInduction.
Variable P : Statement -> Prop.
Hypothesis HVariable : forall k d e ds, P (VariableStatement k d e ds).
Hypothesis HFunction : forall fd, P (FunctionStatement fd).
Hypothesis HTypeAlias : forall ta, P (TypeAliasStatement ta).
Hypothesis HEnum : forall ed, P (EnumStatement ed).
Hypothesis HExport : forall e, P (ExportAssignment e).
Hypothesis HClass : forall cd, P (ClassStatement cd).
Hypothesis HInterface : forall id, P (InterfaceStatement id).
Hypothesis HModule : forall name exported docs forgotten body,
  match body with
  | Some statements => Forall (fun s => Forall P (snd s)) statements
  | None => True
  end ->
  P (ModuleDeclaration name exported docs forgotten body).
Hypothesis HOther : P OtherStatement.

Fixpoint Statement_nested_ind (stmt : Statement) : P stmt :=
  match stmt with
  | VariableStatement k d e ds => HVariable k d e ds
  | FunctionStatement fd => HFunction fd
  | TypeAliasStatement ta => HTypeAlias ta
  | EnumStatement ed => HEnum ed
  | ExportAssignment e => HExport e
  | ClassStatement cd => HClass cd
  | InterfaceStatement id => HInterface id
  | ModuleDeclaration name exported docs forgotten body =>
      HModule name exported docs forgotten body
        (match body as b
               return match b with
                      | Some statements =>
                          Forall (fun s => Forall P (snd s)) statements
                      | None => True
                      end with
         | None => I
         | Some statements =>
             (fix each (l : list (string * list Statement))
                : Forall (fun s => Forall P (snd s)) l :=
                match l with
                | [] => Forall_nil _
                | s :: r =>
                    Forall_cons s
                      ((fix all (l' : list Statement) : Forall P l' :=
                          match l' with
                          | [] => Forall_nil P
                          | s' :: r' =>
                              Forall_cons s' (Statement_nested_ind s')
                                (all r')
                          end) (snd s))
                      (each r)
                end) statements
         end)
  | OtherStatement => HOther
  end.
End StatementInduction.

(* ================================================================== *)
(** * Sample inputs *)

(** A node read as a function that has none of the accessors of
    one. *)
Definition notAFunction : FunctionLike :=
  {| fn_name := None; fn_isDefaultExport := false; fn_isExported := false;
     fn_jsDocs := []; fn_decorators := []; fn_loc := None;
     fn_parameters := []; fn_typeParameters := [];
     fn_returnTypeNode := None |}.

(** The type node of a reference to [name]. *)
Definition typeReferenceTo (name : string) : TypeNode :=
  MkTypeNode (Returns (VStr "TypeReference")) (Returns name)
    (TypeReference (Some name) []).

(** The type node of [A | B]. *)
Definition unionOfAB : TypeNode :=
  MkTypeNode (Returns (VStr "UnionType")) (Returns "A | B")
    (UnionType [ typeReferenceTo "A"; typeReferenceTo "B" ]).

(** [type T = A | B;] ([getType] is never read when the declaration
    has a type node). *)
Definition sourceTypeT : SourceFile :=
  file
    [ TypeAliasStatement
        {| ta_name := Some "T"; ta_isDefaultExport := false;
           ta_isExported := false; ta_jsDocs := [];
           ta_typeNode := Some unionOfAB; ta_typeText := None;
           ta_typeParameters := [] |} ].

Definition numericLiteral (text : string) : Expression :=
  {| expr_kind := SyntaxKind.NumericLiteral; expr_text := text;
     expr_literalText := text |}.

Definition declarationOfX : VariableDeclaration :=
  {| vd_name := "x"; vd_initializer := Some (numericLiteral "1");
     vd_jsDocs := []; vd_decorators := [];
     vd_loc := Some {| start_line := 1; start_column := 7;
                       end_line := 1; end_column := 12 |} |}.

(** [const x = 1;] *)
Definition constX : Statement :=
  VariableStatement "const" false false [ declarationOfX ].

Definition sourceConstX : SourceFile := file [ constX ].

(** [const x = 1; export default x;] *)
Definition sourceDefaultX : SourceFile :=
  file
    [ constX;
      ExportAssignment
        (Some {| ee_kindName := "Identifier"; ee_text := "x";
                 ee_function := notAFunction |}) ].

Definition parameterA : ParameterDeclaration :=
  {| param_name := Some "a"; param_text := "a"; param_typeNode := None;
     param_initializer := None; param_decorators := [];
     param_loc := None; param_isOptional := false |}.

Definition functionNamed (name : string)
  (parameters : list ParameterDeclaration) : FunctionLike :=
  {| fn_name := Some name; fn_isDefaultExport := false;
     fn_isExported := false; fn_jsDocs := []; fn_decorators := [];
     fn_loc := None; fn_parameters := parameters;
     fn_typeParameters := []; fn_returnTypeNode := None |}.

(** [function f(a) {}] *)
Definition sourceFunctionF : SourceFile :=
  file [ FunctionStatement (functionNamed "f" [ parameterA ]) ].

(** The declaration [function f(a) {}] in a file whose default export
    names it: the front end answers [isDefaultExport] from the symbol
    the file exports by default. *)
Definition defaultFunctionF : FunctionLike :=
  {| fn_name := Some "f"; fn_isDefaultExport := true;
     fn_isExported := true; fn_jsDocs := []; fn_decorators := [];
     fn_loc := None; fn_parameters := [ parameterA ];
     fn_typeParameters := []; fn_returnTypeNode := None |}.

(** [function f(a) {}  export default f;] *)
Definition sourceDefaultF : SourceFile :=
  file
    [ FunctionStatement defaultFunctionF;
      ExportAssignment
        (Some {| ee_kindName := "Identifier"; ee_text := "f";
                 ee_function := notAFunction |}) ].

(** The constructor of a class: a function without a name. *)
Definition emptyConstructor : FunctionLike :=
  {| fn_name := None; fn_isDefaultExport := false; fn_isExported := false;
     fn_jsDocs := []; fn_decorators := []; fn_loc := None;
     fn_parameters := []; fn_typeParameters := [];
     fn_returnTypeNode := None |}.

Definition classWithConstructor (name : string) : Statement :=
  ClassStatement
    {| cd_name := Some name; cd_isDefaultExport := false;
       cd_isExported := false; cd_jsDocs := [];
       cd_members := [ Constructor emptyConstructor ];
       cd_typeParameters := [] |}.

(** [class A { constructor() {} }] *)
Definition sourceClassA : SourceFile :=
  file [ classWithConstructor "A" ].

(** A node the front end has forgotten: each of its accessors
    raises. *)
Definition forgottenMessage : string :=
  "Error: Attempted to get information from a node that was removed or forgotten.".

(** A namespace whose body is the given statements, each with the
    statements found in its text. *)
Definition namespaceNamed (name : string) (body : list (list Statement))
  : Statement :=
  ModuleDeclaration (Some name) false [] forgottenMessage
    (Some (map (fun tmp => (forgottenMessage, tmp)) body)).

(** [namespace N { function f(a) {}  class C { constructor() {} } }
    const x = 1;] *)
Definition sourceNamespaceN : SourceFile :=
  file
    [ namespaceNamed "N"
        [ [ FunctionStatement (functionNamed "f" [ parameterA ]) ];
          [ classWithConstructor "C" ] ];
      constX ].

(** [namespace N { namespace M { const x = 1; } }] *)
Definition sourceNestedNamespaces : SourceFile :=
  file [ namespaceNamed "N" [ [ namespaceNamed "M" [ [ constX ] ] ] ] ].

Definition forgottenNode : TypeNode :=
  MkTypeNode (Raises forgottenMessage) (Raises forgottenMessage)
    (Faulty forgottenMessage).

(** [{ Name: "only" }] *)
Definition nameOnly : ParseOptions :=
  fun k => match k with
           | K_Name => Some (Some only)
           | _ => None
           end.

(** [{ Name: "never", Arguments: "never" }] *)
Definition noNamesNoArguments : ParseOptions :=
  fun k => match k with
           | K_Name | K_Arguments => Some (Some never)
           | _ => None
           end.

(** The call [f()] as an initializer. *)
Definition callOfF : Expression :=
  {| expr_kind := SyntaxKind.Other "CallExpression"; expr_text := "f()";
     expr_literalText := "" |}.

(** A method [m(a)] with no modifier, decorator or comment. *)
Definition plainMethod : MethodDeclaration :=
  {| md_name := Some "m"; md_private := false; md_protected := false;
     md_isStatic := false; md_isAsync := false; md_isAbstract := false;
     md_decorators := []; md_parameters := [ parameterA ];
     md_typeParameters := []; md_returnTypeNode := None;
     md_jsDocs := []; md_loc := None |}.

(** An item tree: a namespace holding a function and a class with a
    method and a constructor. *)
Definition sampleTree : value :=
  VObj
    [ ("name", VStr "N"); ("type", VStr "namespace"); ("level", VStr "top");
      ("members",
        VArr
          [ VObj [ ("name", VStr "f"); ("type", VStr "function");
                   ("level", VStr "sub");
                   ("arguments",
                     VArr [ VObj [ ("name", VStr "a");
                                   ("isJSType", VBool false) ] ]) ];
            VObj [ ("name", VStr "C"); ("type", VStr "class");
                   ("level", VStr "sub");
                   ("items",
                     VArr
                       [ VObj [ ("name", VStr "m"); ("static", VBool false);
                                ("arguments", VArr []);
                                ("returnType", VStr "void") ];
                         VObj [ ("type", VStr "constructor");
                                ("for", VStr "C");
                                ("function",
                                  VObj [ ("name", VNull);
                                         ("type", VStr "function");
                                         ("level", VStr "sub");
                                         ("arguments", VArr []) ]) ] ]) ]
          ]) ].

(** The declaration of a statement that the front end reports as the
    default export of its file ([isDefaultExport]), by its name.  The
    front end answers from the symbol the file exports by default, so
    that [export default id] makes it report the function, class,
    interface, enum or type alias that [id] names. *)
Definition defaultExportOf (stmt : Statement) : option (option string) :=
  match stmt with
  | FunctionStatement fd =>
      if fn_isDefaultExport fd then Some (fn_name fd) else None
  | TypeAliasStatement ta =>
      if ta_isDefaultExport ta then Some (ta_name ta) else None
  | EnumStatement ed =>
      if en_isDefaultExport ed then Some (en_name ed) else None
  | ClassStatement cd =>
      if cd_isDefaultExport cd then Some (cd_name cd) else None
  | InterfaceStatement id =>
      if id_isDefaultExport id then Some (id_name id) else None
  | _ => None
  end.

(** Whether an item bears a given name. *)
Definition named (name : string) (it : obj) : bool :=
  match get "name" it with
  | Some (VStr n) => String.eqb n name
  | _ => false
  end.

(** Whether an expression is one of the literals [literalValueText]
    converts. *)
Definition isSimpleLiteral (k : SyntaxKind.t) : bool :=
  match k with
  | SyntaxKind.StringLiteral | SyntaxKind.NumericLiteral
  | SyntaxKind.TrueKeyword | SyntaxKind.FalseKeyword
  | SyntaxKind.NullKeyword => true
  | _ => false
  end.

(** Every record of a tree, at whatever depth, has its keys among
    [allowed]. *)
Fixpoint onlyKeys (allowed : list string) (v : value) : bool :=
  match v with
  | VObj o =>
      forallb (fun kv => existsb (String.eqb (fst kv)) allowed
                         && onlyKeys allowed (snd kv)) o
  | VArr l => forallb (onlyKeys allowed) l
  | _ => true
  end.

(* ================================================================== *)
(** * Invariants of output trees *)

(** The fields that hold records of the tree: parameters, type
    parameters, members and the function of a constructor. *)
Definition nestedKeys : list string :=
  [ "arguments"; "typeParameters"; "items"; "members"; "function" ].

Definition nested (key : string) : bool :=
  existsb (String.eqb key) nestedKeys.

(** Every record of a tree, the tree itself and the records held in
    the fields above at whatever depth, passes [R]. *)
Fixpoint everyRecord (R : obj -> bool) (v : value) : bool :=
  match v with
  | VObj o =>
      R o && forallb (fun kv => negb (nested (fst kv))
                                || everyRecord R (snd kv)) o
  | VArr l => forallb (everyRecord R) l
  | _ => true
  end.

(** The records below a record. *)
Definition children (R : obj -> bool) (o : obj) : bool :=
  forallb (fun kv => negb (nested (fst kv)) || everyRecord R (snd kv)) o.

Definition notNull (v : value) : bool :=
  match v with
  | VNull => false
  | _ => true
  end.

(** The attributes the data model declares nullable: the name of an
    anonymous declaration and the value of a [null] literal. *)
Definition nullableKeys : list string :=
  [ "name"; "value"; "valueParsed"; "defaultParsed" ].

Definition noNullAttribute (o : obj) : bool :=
  forallb (fun kv => notNull (snd kv)
                     || existsb (String.eqb (fst kv)) nullableKeys) o.

(** A record that still has a level has level [lv]. *)
Definition levelIfKept (lv : string) (o : obj) : bool :=
  match get "level" o with
  | Some v => is_str lv v
  | None => true
  end.

Definition soundRecord (lv : string) (o : obj) : bool :=
  noNullAttribute o && levelIfKept lv o.

(** An item of the output at level [lv]: the records below it are at
    level ["sub"]. *)
Definition soundItem (lv : string) (it : obj) : bool :=
  soundRecord lv it && children (soundRecord "sub") it.


(** Every update of a step list works on a field of records and gives
    back records that pass [R], for the values the object holds. *)
Definition updatesKeep (R : obj -> bool) (p : list step) (o : obj) : Prop :=
  forall k g, In (Update k g) p ->
    nested k = true
    /\ forall v v', In (k, v) o -> everyRecord R v = true -> g v = Ok v' ->
                    everyRecord R v' = true /\ notNull v' = true.

(* ================================================================== *)
(** * Notions used for the further properties *)

(** [covers big small]: [small] is [big] with fields removed, at any
    depth: every field of a record of [small] is a field of the
    matching record of [big], and arrays match element by element. *)
Inductive covers : value -> value -> Prop :=
| covers_same (v : value) : covers v v
| covers_record (big small : obj) :
    (forall k v, get k small = Some v ->
                 exists w, get k big = Some w /\ covers w v) ->
    covers (VObj big) (VObj small)
| covers_array (bigs smalls : list value) :
    Forall2 covers bigs smalls -> covers (VArr bigs) (VArr smalls).

(** The maps a step list prunes with. *)
Fixpoint prunesOf (p : list step) : list PruneMap :=
  match p with
  | [] => []
  | Prune m :: p' => m :: prunesOf p'
  | Update _ _ :: p' => prunesOf p'
  end.

(** The [type] tags [applyParsedItemOptions] has a case for. *)
Definition knownType (ty : value) : bool :=
  is_str "variable" ty || is_str "function" ty || is_str "type-alias" ty
  || is_str "enum" ty || is_str "class" ty || is_str "interface" ty
  || is_str "namespace" ty.

(** ** The arms of the normalizer *)

(** A node whose kind and text can be read. *)
Definition readable (n : TypeNode) : bool :=
  match kindAccOf n, textAccOf n with
  | Returns _, Returns _ => true
  | _, _ => false
  end.

Definition present (c : option TypeNode) : list TypeNode :=
  match c with
  | Some n => [ n ]
  | None => []
  end.

(** The nodes an arm of the switch of [parseTypeNode] hands to
    [parseTypeNode] in turn. *)
Definition operands (shape : TypeShape) : list TypeNode :=
  match shape with
  | UnionType typeNodes | IntersectionType typeNodes => typeNodes
  | ArrayType elementTypeNode => present elementTypeNode
  | TupleType elements => elements
  | OptionalType inner | RestType inner | ParenthesizedType inner
  | TypeOperator _ inner | MappedType _ _ _ _ inner
  | TypePredicate _ _ inner => present inner
  | TemplateLiteralType spans => flat_map (fun s => present (fst s)) spans
  | FunctionType parameters returnTypeNode =>
      flat_map (fun p => present (snd p)) parameters
      ++ present returnTypeNode
  | TypeReference _ typeArguments => typeArguments
  | IndexedAccessType objectType indexType =>
      present objectType ++ present indexType
  | ConditionalType checkType extendsType trueType falseType =>
      present checkType ++ present extendsType ++ present trueType
      ++ present falseType
  | TypeLiteral members => flat_map (fun m => present (snd (fst m))) members
  | LiteralType _ | TypeQuery _ | InferType _ | ImportType _ | OtherKind
  | Faulty _ => []
  end.

(** The [kind] tag of each arm of the switch; ["unknown"] is the tag
    of the default arm and of the [catch]. *)
Definition tagOf (shape : TypeShape) : string :=
  match shape with
  | UnionType _ => "union"
  | IntersectionType _ => "intersection"
  | ArrayType _ => "array"
  | TupleType _ => "tuple"
  | OptionalType _ => "optional"
  | RestType _ => "rest"
  | LiteralType _ => "literal"
  | TemplateLiteralType _ => "template-literal"
  | FunctionType _ _ => "function"
  | ParenthesizedType _ => "parenthesized"
  | TypeReference _ _ => "reference"
  | TypeOperator _ _ => "type-operator"
  | IndexedAccessType _ _ => "indexed-access"
  | MappedType _ _ _ _ _ => "mapped"
  | ConditionalType _ _ _ _ => "conditional"
  | TypePredicate _ _ _ => "predicate"
  | TypeQuery _ => "type-query"
  | InferType _ => "infer"
  | TypeLiteral _ => "object"
  | ImportType _ => "import"
  | OtherKind | Faulty _ => "unknown"
  end.

(** Whether the arm of a node fails: an accessor of the node raises,
    or the kind or the text of one of its operands cannot be read. *)
Definition armFails (shape : TypeShape) : bool :=
  match shape with
  | Faulty _ => true
  | _ => negb (forallb readable (operands shape))
  end.

(* ---------- proofs ---------- *)

(** A call on which everything depends on whether some nodes can be
    read. *)
Definition decidedBy {A : Type} (nodes : list TypeNode) (r : res A) : Prop :=
  (forallb readable nodes = true /\ exists a, r = Ok a)
  \/ (forallb readable nodes = false /\ exists e, r = Throw e).

(** ** The two parsers side by side *)

(** The fields the parser with options adds to records of the parser
    without: the text and parsed value of a default export, the type,
    decorators and position of a class property, the position of an
    interface member. *)
Definition addedKeys : list string :=
  [ "valueText"; "valueParsed"; "type"; "decorators"; "loc" ].

(** [extends new old]: [old] is [new] without some fields of those
    names, at any depth; the fields left come in the same order. *)
Inductive extends : value -> value -> Prop :=
| extends_same (v : value) : extends v v
| extends_record (new old : obj) :
    fieldsExtend new old -> extends (VObj new) (VObj old)
| extends_array (news olds : list value) :
    elementsExtend news olds -> extends (VArr news) (VArr olds)
with fieldsExtend : obj -> obj -> Prop :=
| fields_done : fieldsExtend [] []
| fields_both (k : string) (w v : value) (new old : obj) :
    extends w v -> fieldsExtend new old ->
    fieldsExtend ((k, w) :: new) ((k, v) :: old)
| fields_added (k : string) (w : value) (new old : obj) :
    In k addedKeys -> fieldsExtend new old ->
    fieldsExtend ((k, w) :: new) old
with elementsExtend : list value -> list value -> Prop :=
| elements_done : elementsExtend [] []
| elements_both (w v : value) (news olds : list value) :
    extends w v -> elementsExtend news olds ->
    elementsExtend (w :: news) (v :: olds).

(** ** Trees the projection can walk *)

(** What became of a call: [None] when it returned, the error when it
    threw. *)
Definition failure {A : Type} (r : res A) : option string :=
  match r with
  | Ok _ => None
  | Throw e => Some e
  end.

Definition isRecord (v : value) : bool :=
  match v with
  | VObj _ => true
  | _ => false
  end.

(** What the projection needs of the fields it maps over: [function]
    holds a record, the other ones nothing or an array of records. *)
Definition holdsRecords (key : string) (v : value) : bool :=
  if String.eqb key "function" then isRecord v
  else match v with
       | VUndef => true
       | VArr l => forallb isRecord l
       | _ => false
       end.

(** A tree in which every such field, at any depth, holds that. *)
Fixpoint shaped (v : value) : bool :=
  match v with
  | VObj o =>
      forallb (fun kv => negb (nested (fst kv))
                         || (holdsRecords (fst kv) (snd kv)
                             && shaped (snd kv))) o
  | VArr l => forallb shaped l
  | _ => true
  end.

(** Every update of a step list returns on the values the object
    holds, and leaves a value of the same kind. *)
Definition updatesReturn (p : list step) (o : obj) : Prop :=
  forall k g, In (Update k g) p ->
    nested k = true
    /\ forall v, In (k, v) o -> truthy v = true ->
         holdsRecords k v = true -> shaped v = true ->
         exists v', g v = Ok v' /\ holdsRecords k v' = true
                    /\ shaped v' = true.

(** ** Records that differ in one field *)

(** Two records with the same keys, in the same order, and the same
    values but under [key]. *)
Definition differOnly (key : string) (o1 o2 : obj) : Prop :=
  Forall2 (fun e1 e2 : string * value =>
             fst e1 = fst e2 /\ (fst e1 = key \/ snd e1 = snd e2)) o1 o2.

(** Whether a pass has a pruning that rules on [jsdoc] by the option
    [JSDoc]. *)
Definition prunesJsdoc (p : list step) : bool :=
  existsb (fun m => match map_get "jsdoc" m with
                    | Some (Some K_JSDoc) => true
                    | _ => false
                    end) (prunesOf p).

(* ================================================================== *)
(** * Optional attributes *)

(** A record of the output, by the builder that makes it and the node
    it is made from. *)
Inductive Built : Type :=
| VariableItemOf (declarationKind : string)
    (isDefaultExport isExported : bool) (d : VariableDeclaration)
| DefaultExportItemOf (vd : VariableDeclaration)
| FunctionItemOf (fn : FunctionLike) (level : string)
| DefaultFunctionItemOf (fn : FunctionLike)
| TypeAliasItemOf (ta : TypeAliasDeclaration)
| EnumItemOf (ed : EnumDeclaration)
| EnumMemberOf (m : EnumMemberNode)
| ClassItemOf (cd : ClassDeclaration)
| ClassMemberOf (className : option string) (m : ClassMember)
| InterfaceItemOf (id : InterfaceDeclaration)
| InterfaceMemberOf (m : InterfaceMember)
| NamespaceItemOf (name : option string) (isExported : bool)
    (jsDocs : list string) (members : list obj)
| ParameterOf (param : ParameterDeclaration)
| MethodParameterOf (param : ParameterDeclaration)
| TypeParameterOf (tp : TypeParameterDeclaration).

(** The record as the extractor leaves it: built, then projected by
    the arm that builds it.  A member the parser has no case for
    gives no record. *)
Definition produced (options : option ParseOptions) (b : Built)
  : res (list obj) :=
  let opts := normalizeOptions options in
  let onlyMode := onlyMode_of opts in
  match b with
  | VariableItemOf kind isDefaultExport isExported d =>
      Ok [ applyVariableItemOptions opts onlyMode
             (variableItem options kind isDefaultExport isExported d) ]
  | DefaultExportItemOf vd =>
      Ok [ applyVariableItemOptions opts onlyMode
             (defaultExportItem options vd) ]
  | FunctionItemOf fn level =>
      f <- functionLikeToItem fn level (opts K_JSDoc) ;;
      f' <- applyFunctionItemOptions opts onlyMode f ;;
      Ok [ f' ]
  | DefaultFunctionItemOf fn =>
      f <- functionLikeToItem fn "top" (opts K_JSDoc) ;;
      f' <- applyFunctionItemOptions opts onlyMode
              (set "exports" (VStr "default") f) ;;
      Ok [ f' ]
  | TypeAliasItemOf ta =>
      item <- typeAliasItem options ta ;;
      item' <- typeAliasCase opts onlyMode item ;;
      Ok [ item' ]
  | EnumItemOf ed =>
      let item0 := applyBaseItemOptions opts onlyMode (enumItem options ed) in
      let item1 := pruneObject opts onlyMode item0 enumMap in
      item2 <- mapField "members"
                 (pure (applyEnumMemberOptions opts onlyMode)) item1 ;;
      Ok [ item2 ]
  | EnumMemberOf m => Ok [ enumMember options m ]
  | ClassItemOf cd => item <- classItem options cd ;; Ok [ item ]
  | ClassMemberOf className m => classMember options className m
  | InterfaceItemOf id => item <- interfaceItem options id ;; Ok [ item ]
  | InterfaceMemberOf m => interfaceMember options m
  | NamespaceItemOf name isExported jsDocs members =>
      item <- namespaceItem options name isExported jsDocs members ;;
      Ok [ item ]
  | ParameterOf param =>
      info <- paramInfo param ;;
      Ok [ applyParamOptions opts onlyMode info ]
  | MethodParameterOf param =>
      info <- methodParamInfo param ;;
      Ok [ applyMethodParamOptions opts onlyMode info ]
  | TypeParameterOf tp =>
      match typeParamsOf [ tp ] with
      | VArr [ VObj info ] =>
          Ok [ applyTypeParameterOptions opts onlyMode info ]
      | _ => Ok []
      end
  end.

(** The optional attributes of a record whose construct the node does
    not have, as the data model names them: attributes held for a
    construct ([keys]) that is absent ([None], no element). *)
Definition without {A : Type} (construct : option A) (keys : list string)
  : list string :=
  match construct with
  | None => keys
  | Some _ => []
  end.

Definition withoutAny {A : Type} (constructs : list A) (keys : list string)
  : list string :=
  match constructs with
  | [] => keys
  | _ :: _ => []
  end.

Definition absentOfIndexSignature (idx : IndexSignatureNode) : list string :=
  without (is_keyMatch idx) [ "keyType" ]
  ++ match is_returnTypeNode idx with
     | None => without (is_returnMatch idx) [ "returnType" ]
     | Some _ => []
     end.

Definition absentOfParameter (param : ParameterDeclaration) : list string :=
  without (param_typeNode param) [ "type"; "typeAst" ]
  ++ without (param_initializer param) [ "default"; "defaultParsed" ]
  ++ withoutAny (param_decorators param) [ "decorators" ]
  ++ without (param_loc param) [ "loc" ].

Definition absentAttributes (b : Built) : list string :=
  match b with
  | VariableItemOf _ _ _ d =>
      without (vd_initializer d) [ "value"; "valueText"; "valueParsed" ]
      ++ withoutAny (vd_decorators d) [ "decorators" ]
      ++ without (vd_loc d) [ "loc" ]
  | DefaultExportItemOf vd =>
      without (vd_initializer vd) [ "value"; "valueText"; "valueParsed" ]
  | FunctionItemOf fn _ | DefaultFunctionItemOf fn =>
      withoutAny (fn_decorators fn) [ "decorators" ]
      ++ withoutAny (fn_typeParameters fn) [ "typeParameters" ]
      ++ without (fn_returnTypeNode fn) [ "returnType"; "returnTypeAst" ]
      ++ without (fn_loc fn) [ "loc" ]
  | TypeAliasItemOf ta =>
      withoutAny (ta_typeParameters ta) [ "typeParameters" ]
      ++ match ta_typeNode ta with
         | None => without (ta_typeText ta) [ "target" ]
         | Some _ => []
         end
  | EnumItemOf _ => []
  | EnumMemberOf m => without (em_initializer m) [ "value" ]
  | ClassItemOf cd => withoutAny (cd_typeParameters cd) [ "typeParameters" ]
  | ClassMemberOf _ (Method meth) =>
      (if md_private meth || md_protected meth then []
       else [ "accessibility" ])
      ++ withoutAny (md_decorators meth) [ "decorators" ]
      ++ withoutAny (md_typeParameters meth) [ "typeParameters" ]
      ++ without (md_returnTypeNode meth) [ "returnType"; "returnTypeAst" ]
      ++ without (md_loc meth) [ "loc" ]
  | ClassMemberOf _ (GetAccessor _ returnTypeNode _) =>
      without returnTypeNode [ "returnType" ]
  | ClassMemberOf _ (Property p) =>
      without (pd_initializer p) [ "value" ]
      ++ without (pd_typeNode p) [ "type" ]
      ++ withoutAny (pd_decorators p) [ "decorators" ]
      ++ without (pd_loc p) [ "loc" ]
  | ClassMemberOf _ (ClassIndexSignature idx) => absentOfIndexSignature idx
  | ClassMemberOf _ _ => []
  | InterfaceItemOf id =>
      withoutAny (id_typeParameters id) [ "typeParameters" ]
  | InterfaceMemberOf (IPropertySignature p) =>
      without (ps_typeNode p) [ "type" ] ++ without (ps_loc p) [ "loc" ]
  | InterfaceMemberOf (IMethodSignature ms) =>
      without (ms_returnTypeNode ms) [ "returnType" ]
      ++ without (ms_loc ms) [ "loc" ]
  | InterfaceMemberOf (IIndexSignature idx) => absentOfIndexSignature idx
  | InterfaceMemberOf OtherInterfaceMember => []
  | NamespaceItemOf _ _ _ _ => []
  | ParameterOf param | MethodParameterOf param => absentOfParameter param
  | TypeParameterOf tp =>
      without (tp_constraint tp) [ "constraint" ]
      ++ without (tp_default tp) [ "default" ]
  end.

(** The documentation comments of the node of a record that has a
    [jsdoc] attribute. *)
Definition documentation (b : Built) : option (list string) :=
  match b with
  | VariableItemOf _ _ _ d => Some (vd_jsDocs d)
  | DefaultExportItemOf vd => Some (vd_jsDocs vd)
  | FunctionItemOf fn _ | DefaultFunctionItemOf fn => Some (fn_jsDocs fn)
  | TypeAliasItemOf ta => Some (ta_jsDocs ta)
  | EnumItemOf ed => Some (en_jsDocs ed)
  | EnumMemberOf m => Some (em_jsDocs m)
  | ClassItemOf cd => Some (cd_jsDocs cd)
  | ClassMemberOf _ (Method meth) => Some (md_jsDocs meth)
  | ClassMemberOf _ (GetAccessor _ _ jsDocs) => Some jsDocs
  | ClassMemberOf _ (SetAccessor _ _ jsDocs) => Some jsDocs
  | ClassMemberOf _ _ => None
  | InterfaceItemOf id => Some (id_jsDocs id)
  | InterfaceMemberOf (IPropertySignature p) => Some (ps_jsDocs p)
  | InterfaceMemberOf (IMethodSignature ms) => Some (ms_jsDocs ms)
  | InterfaceMemberOf _ => None
  | NamespaceItemOf _ _ jsDocs _ => Some jsDocs
  | ParameterOf _ | MethodParameterOf _ | TypeParameterOf _ => None
  end.

(* ================================================================== *)
(** * Objects: lookup, deletion and assignment *)

Lemma filter_twice {A : Type} (p q : A -> bool) (l : list A) :
  filter p (filter q l) = filter (fun x => q x && p x) l.
Proof.
  induction l as [|x l IH]; simpl; [reflexivity|].
  destruct (q x); simpl; [destruct (p x)|]; rewrite IH; reflexivity.
Qed.

Lemma filter_all {A : Type} (p : A -> bool) (l : list A) :
  (forall x, In x l -> p x = true) -> filter p l = l.
Proof.
  induction l as [|x l IH]; simpl; intros H; [reflexivity|].
  rewrite (H x (or_introl eq_refl)), IH; auto.
Qed.

Lemma get_byKey (p : string -> bool) (key : string) (o : obj) :
  get key (filter (byKey p) o) = if p key then get key o else None.
Proof.
  induction o as [|[k v] o IH]; simpl.
  - destruct (p key); reflexivity.
  - unfold byKey at 1; simpl.
    destruct (String.eqb_spec k key) as [->|Hne].
    + destruct (p key) eqn:Hp; simpl.
      * rewrite String.eqb_refl. reflexivity.
      * rewrite IH. reflexivity.
    + destruct (p k); simpl; [|exact IH].
      destruct (String.eqb_spec k key); [contradiction|exact IH].
Qed.

Lemma prop_byKey (p : string -> bool) (key : string) (o : obj) :
  prop key (filter (byKey p) o) = if p key then prop key o else VUndef.
Proof.
  unfold prop. rewrite get_byKey. destruct (p key); reflexivity.
Qed.

Lemma keys_byKey (p : string -> bool) (o : obj) :
  keys (filter (byKey p) o) = filter p (keys o).
Proof.
  induction o as [|[k v] o IH]; simpl; [reflexivity|].
  unfold byKey at 1; simpl. destruct (p k); simpl; rewrite IH; reflexivity.
Qed.

Lemma get_set_same (key : string) (v : value) (o : obj) :
  get key (set key v o) = Some v.
Proof.
  induction o as [|[k w] o IH]; simpl.
  - rewrite String.eqb_refl. reflexivity.
  - destruct (String.eqb_spec k key) as [->|Hne]; simpl.
    + rewrite String.eqb_refl. reflexivity.
    + destruct (String.eqb_spec k key); [contradiction|exact IH].
Qed.

Lemma get_set_other (key k' : string) (v : value) (o : obj) :
  k' <> key -> get k' (set key v o) = get k' o.
Proof.
  intros Hne. induction o as [|[k w] o IH]; simpl.
  - destruct (String.eqb_spec key k'); [congruence|reflexivity].
  - destruct (String.eqb_spec k key) as [->|Hk]; simpl.
    + destruct (String.eqb_spec key k'); [congruence|reflexivity].
    + destruct (String.eqb_spec k k'); [reflexivity|exact IH].
Qed.

Lemma prop_set_same (key : string) (v : value) (o : obj) :
  prop key (set key v o) = v.
Proof. unfold prop. rewrite get_set_same. reflexivity. Qed.

Lemma prop_set_other (key k' : string) (v : value) (o : obj) :
  k' <> key -> prop k' (set key v o) = prop k' o.
Proof. intros H. unfold prop. rewrite get_set_other by exact H. reflexivity. Qed.

(** Writing back the value a field already holds changes nothing. *)
Lemma set_unchanged (key : string) (v : value) (o : obj) :
  get key o = Some v -> set key v o = o.
Proof.
  induction o as [|[k w] o IH]; simpl; [discriminate|].
  destruct (String.eqb_spec k key) as [->|Hne]; intros H.
  - injection H as ->. reflexivity.
  - rewrite IH by exact H. reflexivity.
Qed.

Lemma truthy_present (key : string) (o : obj) :
  truthy (prop key o) = true -> get key o = Some (prop key o).
Proof.
  unfold prop. destruct (get key o); [reflexivity|discriminate].
Qed.

(** Assigning to a field that is there keeps the keys. *)
Lemma keys_set_present (key : string) (v : value) (o : obj) :
  get key o <> None -> keys (set key v o) = keys o.
Proof.
  induction o as [|[k w] o IH]; simpl; [congruence|].
  destruct (String.eqb_spec k key) as [->|Hne]; intros H; simpl.
  - reflexivity.
  - rewrite IH by exact H. reflexivity.
Qed.

Lemma set_byKey_kept (p : string -> bool) (key : string) (v : value)
  (o : obj) :
  p key = true -> get key o <> None ->
  filter (byKey p) (set key v o) = set key v (filter (byKey p) o).
Proof.
  intros Hp. induction o as [|[k w] o IH]; simpl; [congruence|].
  destruct (String.eqb_spec k key) as [->|Hne]; intros H; simpl.
  - unfold byKey; simpl. rewrite Hp. simpl. rewrite String.eqb_refl.
    reflexivity.
  - change (byKey p (k, w)) with (p k). destruct (p k) eqn:Hk; simpl.
    + destruct (String.eqb_spec k key); [contradiction|].
      rewrite IH by exact H. reflexivity.
    + exact (IH H).
Qed.

Lemma findArray_get {A : Type} (key : string) (f : list value -> A)
  (dflt : A) (o : obj) :
  findArray key f dflt o = match get key o with
                           | Some (VArr l) => f l
                           | _ => dflt
                           end.
Proof.
  induction o as [|[k v] o IH]; simpl; [reflexivity|].
  destruct (String.eqb k key); [reflexivity|exact IH].
Qed.

(* ================================================================== *)
(** * Exceptions: inversion of sequencing *)

Lemma bind_Ok {A B : Type} (c : res A) (k : A -> res B) (b : B) :
  bind c k = Ok b -> exists a, c = Ok a /\ k a = Ok b.
Proof.
  destruct c as [a|e]; simpl; [|discriminate]. intros H. exists a. auto.
Qed.

(** Take apart hypotheses [x <- c ;; k = Ok b]. *)
Ltac inv_bind :=
  repeat match goal with
         | H : bind _ _ = Ok _ |- _ =>
             let a := fresh "a" in
             let Ha := fresh "Ha" in
             apply bind_Ok in H; destruct H as [a [Ha H]]
         | H : Ok _ = Ok _ |- _ => injection H as H
         | H : Throw _ = Ok _ |- _ => discriminate H
         end.

Lemma mapM_length {A B : Type} (f : A -> res B) (l : list A) (l' : list B) :
  mapM f l = Ok l' -> length l' = length l.
Proof.
  revert l'. induction l as [|x l IH]; simpl; intros l' H.
  - injection H as <-. reflexivity.
  - inv_bind. subst l'. simpl. f_equal. apply IH. assumption.
Qed.

(** Mapping a callback that returns its argument whenever it returns. *)
Lemma mapM_identity {A : Type} (f : A -> res A) (l l' : list A) :
  Forall (fun x => forall y, f x = Ok y -> y = x) l ->
  mapM f l = Ok l' -> l' = l.
Proof.
  intros HF. revert l'. induction HF as [|x l Hx HF IH]; simpl; intros l' H.
  - injection H as <-. reflexivity.
  - inv_bind. subst l'. f_equal; auto.
Qed.

Lemma mapM_settles {A : Type} (f : A -> res A) (l : list A) :
  Forall (settles f) l -> settles (mapM f) l.
Proof.
  induction 1 as [|x l [y [Hx Hy]] HF [l' [Hl Hl']]].
  - exists []. split; reflexivity.
  - exists (y :: l'). simpl. rewrite Hx, Hl. simpl. rewrite Hy, Hl'.
    split; reflexivity.
Qed.

(* ================================================================== *)
(** * [pruneObject] is a filter on keys *)

Section PruneFacts.
Variable options : NormalizedOptions.
Variable onlyMode : bool.

Local Notation "'keptBy'" := (kept options onlyMode).
Local Notation "'prune'" := (pruneObject options onlyMode).

Lemma pruneStep_kept (m : PruneMap) (o : obj) (key : string) :
  pruneStep options onlyMode m o key = if keptBy m key then o else delete key o.
Proof.
  unfold pruneStep, kept.
  destruct (map_get key m) as [[optKey|]|].
  - reflexivity.
  - reflexivity.
  - destruct onlyMode; reflexivity.
Qed.

Lemma prune_loop (m : PruneMap) (ks : list string) (o : obj) :
  fold_left (pruneStep options onlyMode m) ks o
  = filter (fun kv => keptBy m (fst kv)
                      || negb (existsb (String.eqb (fst kv)) ks)) o.
Proof.
  revert o. induction ks as [|k ks IH]; intros o; simpl.
  - symmetry. apply filter_all. intros x _. apply orb_true_r.
  - rewrite IH, pruneStep_kept. destruct (keptBy m k) eqn:Hk.
    + apply filter_ext. intros [k' v]; simpl.
      destruct (String.eqb_spec k' k) as [->|Hne]; simpl;
        [rewrite Hk|]; reflexivity.
    + unfold delete. rewrite filter_twice. apply filter_ext.
      intros [k' v]; simpl.
      destruct (String.eqb_spec k' k) as [->|Hne]; simpl;
        [rewrite Hk|]; reflexivity.
Qed.

Lemma pruneObject_filter (o : obj) (m : PruneMap) :
  prune o m = filter (byKey (keptBy m)) o.
Proof.
  unfold pruneObject. rewrite prune_loop.
  apply filter_ext_in. intros [k v] Hin. unfold byKey; simpl.
  assert (existsb (String.eqb k) (keys o) = true) as ->.
  { apply existsb_exists. exists k. split.
    - unfold keys. apply in_map_iff. exists (k, v). auto.
    - apply String.eqb_refl. }
  simpl. apply orb_false_r.
Qed.

Lemma prop_prune (key : string) (o : obj) (m : PruneMap) :
  prop key (prune o m) = if keptBy m key then prop key o else VUndef.
Proof. rewrite pruneObject_filter. apply prop_byKey. Qed.

Lemma get_prune (key : string) (o : obj) (m : PruneMap) :
  get key (prune o m) = if keptBy m key then get key o else None.
Proof. rewrite pruneObject_filter. apply get_byKey. Qed.

Lemma keys_prune (o : obj) (m : PruneMap) :
  keys (prune o m) = filter (keptBy m) (keys o).
Proof. rewrite pruneObject_filter. apply keys_byKey. Qed.

(** An object all of whose keys a map keeps is left as it is. *)
Lemma prune_fixed (o : obj) (m : PruneMap) :
  Forall (fun k => keptBy m k = true) (keys o) -> prune o m = o.
Proof.
  intros H. rewrite pruneObject_filter. apply filter_all.
  intros [k v] Hin. rewrite Forall_forall in H. apply H.
  unfold keys. apply in_map_iff. exists (k, v). auto.
Qed.

Lemma prune_keys_kept (o : obj) (m : PruneMap) :
  Forall (fun k => keptBy m k = true) (keys (prune o m)).
Proof.
  rewrite keys_prune. apply Forall_forall. intros k Hin.
  apply filter_In in Hin. tauto.
Qed.

Lemma prune_idempotent (o : obj) (m : PruneMap) :
  prune (prune o m) m = prune o m.
Proof. apply prune_fixed, prune_keys_kept. Qed.
End PruneFacts.

(* ================================================================== *)
(** * Step lists: a pass run twice *)

Section RunFacts.
Variable options : NormalizedOptions.
Variable onlyMode : bool.

Local Notation "'keptBy'" := (kept options onlyMode).
Local Notation "'prune'" := (pruneObject options onlyMode).
Local Notation "'execute'" := (exec options onlyMode).
Local Notation "'runs'" := (run options onlyMode).
Local Notation "'fixed'" := (fixedBy options onlyMode).
Local Notation "'isReady'" := (ready options onlyMode).

Lemma updateField_inv (key : string) (g : value -> res value) (o o1 : obj) :
  updateField key g o = Ok o1 ->
  (truthy (prop key o) = false /\ o1 = o)
  \/ (truthy (prop key o) = true
      /\ exists v', g (prop key o) = Ok v' /\ o1 = set key v' o).
Proof.
  unfold updateField. destruct (truthy (prop key o)) eqn:Ht; intros H.
  - right. split; [reflexivity|]. inv_bind. eauto.
  - left. injection H as <-. auto.
Qed.

Lemma exec_keys (s : step) (o o1 : obj) :
  execute s o = Ok o1 -> incl (keys o1) (keys o).
Proof.
  destruct s as [m|key g]; simpl; intros H.
  - injection H as <-. rewrite keys_prune. intros k Hin.
    apply filter_In in Hin. tauto.
  - apply updateField_inv in H.
    destruct H as [[_ ->]|[Ht [v' [_ ->]]]]; [apply incl_refl|].
    rewrite keys_set_present; [apply incl_refl|].
    rewrite (truthy_present _ _ Ht). discriminate.
Qed.

(** A step leaves the fields it does not update as they are, or
    removes them. *)
Lemma exec_prop (s : step) (o o1 : obj) (k : string) :
  execute s o = Ok o1 ->
  match s with
  | Update k' _ => k <> k'
  | Prune _ => True
  end ->
  prop k o1 = prop k o \/ prop k o1 = VUndef.
Proof.
  destruct s as [m|key g]; simpl; intros H Hk.
  - injection H as <-. rewrite prop_prune.
    destruct (keptBy m k); auto.
  - apply updateField_inv in H.
    destruct H as [[_ ->]|[_ [v' [_ ->]]]]; [auto|].
    left. apply prop_set_other. exact Hk.
Qed.

Lemma fixedBy_exec (s : step) (x : obj) :
  fixed s x -> execute s x = Ok x.
Proof.
  destruct s as [m|key g]; simpl.
  - intros H. rewrite prune_fixed by exact H. reflexivity.
  - unfold updateField. intros [Hf|Hg].
    + rewrite Hf. reflexivity.
    + destruct (truthy (prop key x)) eqn:Ht; [|reflexivity].
      rewrite Hg. simpl.
      rewrite set_unchanged by (apply truthy_present; exact Ht).
      reflexivity.
Qed.

Lemma fixedBy_preserved (s s' : step) (x x' : obj) :
  fixed s x -> compatible s s' -> execute s' x = Ok x' -> fixed s x'.
Proof.
  destruct s as [m|key g]; simpl; intros Hfix Hc Hx.
  - rewrite Forall_forall in *. intros k Hin. apply Hfix.
    exact (exec_keys _ _ _ Hx k Hin).
  - assert (prop key x' = prop key x \/ prop key x' = VUndef) as [->| ->].
    { apply (exec_prop s'); [exact Hx|].
      destruct s'; [exact I|exact Hc]. }
    + exact Hfix.
    + left. reflexivity.
Qed.

Lemma fixedBy_after (s : step) (o o1 : obj) :
  execute s o = Ok o1 ->
  match s with
  | Prune _ => True
  | Update key g => fieldReady key g o
  end ->
  fixed s o1.
Proof.
  destruct s as [m|key g]; simpl; intros H Hr.
  - injection H as <-. apply prune_keys_kept.
  - apply updateField_inv in H.
    destruct H as [[Hf ->]|[Ht [v' [Hg ->]]]]; [left; exact Hf|].
    right. rewrite prop_set_same.
    destruct (Hr Ht) as [y [Hy Hyy]]. congruence.
Qed.

Lemma fixedBy_run (s : step) (p : list step) (x r : obj) :
  fixed s x -> Forall (compatible s) p -> runs p x = Ok r -> fixed s r.
Proof.
  revert x. induction p as [|s' p IH]; simpl; intros x Hfix Hc Hrun.
  - injection Hrun as <-. exact Hfix.
  - inv_bind. inversion Hc; subst.
    apply (IH a); [|assumption|assumption].
    eapply fixedBy_preserved; eassumption.
Qed.

Lemma compatible_of_NoDup (s : step) (p : list step) :
  NoDup (updatedKeys (s :: p)) -> Forall (compatible s) p.
Proof.
  destruct s as [m|key g]; simpl.
  - intros _. apply Forall_forall. intros s' _. exact I.
  - intros H. inversion H as [|? ? Hnin _]; subst. clear H.
    induction p as [|[m'|k' g'] p IH]; simpl in *; constructor.
    + exact I.
    + apply IH. exact Hnin.
    + simpl. intros ->. apply Hnin. left. reflexivity.
    + apply IH. intros Hin. apply Hnin. right. exact Hin.
Qed.

Lemma NoDup_updatedKeys_tail (s : step) (p : list step) :
  NoDup (updatedKeys (s :: p)) -> NoDup (updatedKeys p).
Proof.
  destruct s; simpl; [auto|]. intros H. inversion H; assumption.
Qed.

Lemma run_fixed (p : list step) (o r : obj) :
  NoDup (updatedKeys p) -> isReady p o -> runs p o = Ok r ->
  Forall (fun s => fixed s r) p.
Proof.
  revert o. induction p as [|s p IH]; intros o Hnd Hready Hrun;
    [constructor|].
  simpl in Hrun, Hready. destruct Hready as [Hs Hrest]. inv_bind.
  constructor.
  - apply (fixedBy_run s p a).
    + apply (fixedBy_after s o); assumption.
    + apply compatible_of_NoDup. exact Hnd.
    + exact Hrun.
  - apply (IH a).
    + eapply NoDup_updatedKeys_tail. exact Hnd.
    + apply Hrest. exact Ha.
    + exact Hrun.
Qed.

Lemma run_of_fixed (p : list step) (r : obj) :
  Forall (fun s => fixed s r) p -> runs p r = Ok r.
Proof.
  induction 1 as [|s p Hs _ IH]; simpl; [reflexivity|].
  rewrite (fixedBy_exec s r Hs). exact IH.
Qed.

Lemma run_total (p : list step) (o : obj) :
  isReady p o -> exists r, runs p o = Ok r.
Proof.
  revert o. induction p as [|s p IH]; simpl; intros o Hready;
    [eauto|].
  destruct Hready as [Hs Hrest].
  assert (exists o1, execute s o = Ok o1) as [o1 Ho1].
  { destruct s as [m|key g]; simpl; [eauto|].
    unfold updateField. destruct (truthy (prop key o)) eqn:Ht; [|eauto].
    destruct (Hs Ht) as [y [Hy _]]. rewrite Hy. simpl. eauto. }
  rewrite Ho1. simpl. apply IH, Hrest, Ho1.
Qed.

(** A step list whose updates find their fields ready settles. *)
Lemma run_settles (p : list step) (o : obj) :
  NoDup (updatedKeys p) -> isReady p o -> settles (runs p) o.
Proof.
  intros Hnd Hready. destruct (run_total p o Hready) as [r Hr].
  exists r. split; [exact Hr|].
  apply run_of_fixed. exact (run_fixed p o r Hnd Hready Hr).
Qed.

Lemma run_keys (p : list step) (o r : obj) :
  runs p o = Ok r -> incl (keys r) (keys o).
Proof.
  revert o. induction p as [|s p IH]; simpl; intros o H.
  - injection H as <-. apply incl_refl.
  - inv_bind. eapply incl_tran; [apply (IH a); exact H|].
    eapply exec_keys. exact Ha.
Qed.

(** A field no step updates comes out as it went in, or not at all. *)
Lemma run_prop (p : list step) (o r : obj) (k : string) :
  runs p o = Ok r -> ~ In k (updatedKeys p) ->
  prop k r = prop k o \/ prop k r = VUndef.
Proof.
  revert o. induction p as [|s p IH]; simpl; intros o H Hk.
  - injection H as <-. auto.
  - inv_bind.
    assert (prop k a = prop k o \/ prop k a = VUndef) as Ha'.
    { apply (exec_prop s); [exact Ha|].
      destruct s; [exact I|]. intros ->. apply Hk. left. reflexivity. }
    assert (~ In k (updatedKeys p)) as Hk'.
    { intros Hin. apply Hk. destruct s; [exact Hin|right; exact Hin]. }
    destruct (IH a H Hk') as [E|E]; [|auto].
    rewrite E. exact Ha'.
Qed.

(** A field is ready after a step that leaves it alone. *)
Lemma fieldReady_exec (s : step) (o o1 : obj) (key : string)
  (g : value -> res value) :
  fieldReady key g o -> execute s o = Ok o1 ->
  match s with
  | Update k' _ => key <> k'
  | Prune _ => True
  end ->
  fieldReady key g o1.
Proof.
  intros Hr Hx Hk. unfold fieldReady.
  destruct (exec_prop s o o1 key Hx Hk) as [-> | ->]; [exact Hr|].
  discriminate.
Qed.

(** With nothing to remove and updates that return what they are
    given, a step list returns its argument. *)
Lemma run_identity (p : list step) (o r : obj) :
  (forall m k, keptBy m k = true) ->
  Forall (fun s => match s with
                   | Prune _ => True
                   | Update key g =>
                       forall v', g (prop key o) = Ok v' -> v' = prop key o
                   end) p ->
  runs p o = Ok r -> r = o.
Proof.
  intros Hall HF. induction HF as [|s p Hs HF IH]; simpl; intros H.
  - injection H as <-. reflexivity.
  - inv_bind. assert (a = o) as ->; [|auto].
    destruct s as [m|key g]; simpl in Ha.
    + injection Ha as <-. apply prune_fixed, Forall_forall.
      intros k _. apply Hall.
    + apply updateField_inv in Ha.
      destruct Ha as [[_ ->]|[Ht [v' [Hg ->]]]]; [reflexivity|].
      rewrite (Hs v' Hg). apply set_unchanged, truthy_present, Ht.
Qed.
End RunFacts.

(* ================================================================== *)
(** * The arms of the projection *)

Lemma settles_pure (f : obj -> obj) (o : obj) :
  f (f o) = f o -> settles (pure f) o.
Proof. intros H. exists (f o). unfold pure. rewrite H. auto. Qed.

Lemma settles_onRecord (F : obj -> res obj) (o : obj) :
  settles F o -> settles (onRecord F) (VObj o).
Proof.
  intros [r [H1 H2]]. exists (VObj r). simpl. rewrite H1. simpl.
  rewrite H2. auto.
Qed.

Lemma settles_mapArray (f : value -> res value) (l : list value) :
  Forall (settles f) l -> settles (mapArray f) (VArr l).
Proof.
  intros H. destruct (mapM_settles f l H) as [l' [H1 H2]].
  exists (VArr l'). simpl. rewrite H1. simpl. rewrite H2. auto.
Qed.

(** An array of records on each of which [F] settles. *)
Lemma settles_records (chk : obj -> bool) (F : obj -> res obj) (v : value) :
  (forall o, chk o = true -> settles F o) ->
  isRecordArray chk v = true -> settles (mapArray (onRecord F)) v.
Proof.
  intros HF. destruct v as [| | | | |l|]; simpl; try discriminate.
  intros H. apply settles_mapArray. rewrite forallb_forall in H.
  apply Forall_forall. intros e Hin. specialize (H e Hin).
  destruct e; try discriminate. apply settles_onRecord, HF, H.
Qed.

Lemma fieldReady_records (key : string) (chk : obj -> bool)
  (F : obj -> res obj) (o : obj) :
  (forall x, chk x = true -> settles F x) ->
  arrayField key chk o = true ->
  fieldReady key (mapArray (onRecord F)) o.
Proof.
  unfold arrayField, fieldReady. intros HF H Ht. rewrite Ht in H.
  eapply settles_records; eassumption.
Qed.

(** The tail of a step list that only prunes is always ready. *)
Ltac ready_tail :=
  repeat match goal with
         | |- ready _ _ _ _ => simpl
         | |- _ /\ _ => split
         | |- True => exact I
         | |- forall _, _ => intro
         end.

Section ArmFacts.
Variable options : NormalizedOptions.
Variable onlyMode : bool.

Lemma applyMethodParamOptions_run (o : obj) :
  pure (applyMethodParamOptions options onlyMode) o
  = run options onlyMode methodParamSteps o.
Proof. reflexivity. Qed.

Lemma applyVariableItemOptions_run (o : obj) :
  Ok (applyVariableItemOptions options onlyMode o)
  = run options onlyMode variableSteps o.
Proof. reflexivity. Qed.

Lemma applyFunctionItemOptions_run (o : obj) :
  applyFunctionItemOptions options onlyMode o
  = run options onlyMode (functionSteps options onlyMode) o.
Proof. reflexivity. Qed.

Lemma applyMethodItemOptions_run (o : obj) :
  applyMethodItemOptions options onlyMode o
  = run options onlyMode (methodSteps options onlyMode) o.
Proof. reflexivity. Qed.

Lemma applyInterfaceMemberMethodOptions_run (o : obj) :
  applyInterfaceMemberMethodOptions options onlyMode o
  = run options onlyMode (interfaceMethodSteps options onlyMode) o.
Proof. reflexivity. Qed.

Lemma applyConstructorOptions_run (o : obj) :
  applyConstructorOptions options onlyMode o
  = run options onlyMode (constructorSteps options onlyMode) o.
Proof.
  unfold applyConstructorOptions, constructorSteps. simpl.
  destruct (updateField _ _ _); reflexivity.
Qed.

Lemma typeAliasCase_run (o : obj) :
  typeAliasCase options onlyMode o
  = run options onlyMode (typeAliasSteps options onlyMode) o.
Proof. reflexivity. Qed.

Lemma enumCase_run (o : obj) :
  enumCase options onlyMode o
  = run options onlyMode (enumSteps options onlyMode) o.
Proof. reflexivity. Qed.

Lemma classCase_run (o : obj) :
  classCase options onlyMode o
  = run options onlyMode (classSteps options onlyMode) o.
Proof. reflexivity. Qed.

Lemma interfaceCase_run (o : obj) :
  interfaceCase options onlyMode o
  = run options onlyMode (interfaceSteps options onlyMode) o.
Proof. reflexivity. Qed.

Lemma namespaceCase_run (self : value -> res value) (o : obj) :
  namespaceCase options onlyMode self o
  = run options onlyMode (namespaceSteps self) o.
Proof. reflexivity. Qed.

Lemma applyParamOptions_settles (o : obj) :
  settles (pure (applyParamOptions options onlyMode)) o.
Proof. apply settles_pure. apply prune_idempotent. Qed.

Lemma applyTypeParameterOptions_settles (o : obj) :
  settles (pure (applyTypeParameterOptions options onlyMode)) o.
Proof. apply settles_pure. apply prune_idempotent. Qed.

Lemma applyEnumMemberOptions_settles (o : obj) :
  settles (pure (applyEnumMemberOptions options onlyMode)) o.
Proof. apply settles_pure. apply prune_idempotent. Qed.

Lemma applyMethodParamOptions_settles (o : obj) :
  settles (pure (applyMethodParamOptions options onlyMode)) o.
Proof.
  assert (settles (run options onlyMode methodParamSteps) o) as H.
  { apply run_settles; [constructor|]. ready_tail. }
  exact H.
Qed.

Lemma functionSteps_ready (f : obj) :
  wf_function f = true ->
  ready options onlyMode (functionSteps options onlyMode) f.
Proof.
  unfold wf_function. intros H. apply andb_prop in H. destruct H as [Ha Ht].
  assert (fieldReady "arguments" (paramUpdate options onlyMode) f) as Ra.
  { eapply fieldReady_records; [|exact Ha].
    intros x _. apply applyParamOptions_settles. }
  assert (fieldReady "typeParameters"
            (typeParameterUpdate options onlyMode) f) as Rt.
  { eapply fieldReady_records; [|exact Ht].
    intros x _. apply applyTypeParameterOptions_settles. }
  simpl. split; [exact Ra|]. intros o1 H1. split.
  - apply (fieldReady_exec options onlyMode
             (Update "arguments" (paramUpdate options onlyMode)) f o1);
      [exact Rt|exact H1|discriminate].
  - ready_tail.
Qed.

Lemma applyFunctionItemOptions_settles (f : obj) :
  wf_function f = true ->
  settles (applyFunctionItemOptions options onlyMode) f.
Proof.
  intros H.
  assert (settles (run options onlyMode (functionSteps options onlyMode)) f)
    as S.
  { apply run_settles; [|apply functionSteps_ready; exact H].
    simpl. repeat constructor; simpl; intuition discriminate. }
  exact S.
Qed.

Lemma methodSteps_ready (m : obj) :
  wf_function m = true ->
  ready options onlyMode (methodSteps options onlyMode) m.
Proof.
  unfold wf_function. intros H. apply andb_prop in H. destruct H as [Ha Ht].
  assert (fieldReady "arguments" (methodParamUpdate options onlyMode) m)
    as Ra.
  { eapply fieldReady_records; [|exact Ha].
    intros x _. apply applyMethodParamOptions_settles. }
  assert (fieldReady "typeParameters"
            (typeParameterUpdate options onlyMode) m) as Rt.
  { eapply fieldReady_records; [|exact Ht].
    intros x _. apply applyTypeParameterOptions_settles. }
  simpl. split; [exact Ra|]. intros o1 H1. split.
  - apply (fieldReady_exec options onlyMode
             (Update "arguments" (methodParamUpdate options onlyMode)) m o1);
      [exact Rt|exact H1|discriminate].
  - ready_tail.
Qed.

Lemma interfaceMethodSteps_ready (m : obj) :
  arrayField "arguments" anyRecord m = true ->
  ready options onlyMode (interfaceMethodSteps options onlyMode) m.
Proof.
  intros Ha. simpl. split; [|ready_tail].
  eapply fieldReady_records; [|exact Ha].
  intros x _. apply applyParamOptions_settles.
Qed.
End ArmFacts.

(* ================================================================== *)
(** * Class and interface members, outside only-mode *)

Lemma prop_absent (k : string) (o : obj) :
  ~ In k (keys o) -> prop k o = VUndef.
Proof.
  unfold prop. induction o as [|[k' v] o IH]; simpl; [reflexivity|].
  intros H. destruct (String.eqb_spec k' k) as [->|Hne].
  - exfalso. apply H. left. reflexivity.
  - apply IH. intros Hin. apply H. right. exact Hin.
Qed.

Lemma keysWithin_In (allowed : list string) (o : obj) (k : string) :
  keysWithin allowed o = true -> In k (keys o) -> In k allowed.
Proof.
  unfold keysWithin. rewrite forallb_forall. intros H Hin.
  specialize (H k Hin). apply existsb_exists in H.
  destruct H as [k' [Hin' E]]. apply String.eqb_eq in E. subst. exact Hin'.
Qed.

Lemma keysWithin_prop (allowed : list string) (o : obj) (k : string) :
  keysWithin allowed o = true -> ~ In k allowed -> prop k o = VUndef.
Proof.
  intros H Hn. apply prop_absent. intros Hin. apply Hn.
  eapply keysWithin_In; eassumption.
Qed.

Lemma is_undefined_true (v : value) : is_undefined v = true -> v = VUndef.
Proof. destruct v; simpl; congruence. Qed.

Section MemberFacts.
Variable options : NormalizedOptions.

Local Notation "'keptBy'" := (kept options false).
Local Notation "'prune'" := (pruneObject options false).
Local Notation "'runs'" := (run options false).

(** A field that no step updates and every pruning keeps comes out
    as it went in. *)
Lemma run_prop_kept (p : list step) (o r : obj) (k : string) :
  runs p o = Ok r -> ~ In k (updatedKeys p) ->
  Forall (fun s => match s with
                   | Prune m => keptBy m k = true
                   | Update _ _ => True
                   end) p ->
  prop k r = prop k o.
Proof.
  intros H Hk HF. revert o H Hk.
  induction HF as [|s p Hs HF IH]; simpl; intros o H Hk.
  - injection H as <-. reflexivity.
  - inv_bind. rewrite (IH a H).
    + destruct s as [m|key g]; simpl in Ha.
      * injection Ha as <-. rewrite prop_prune, Hs. reflexivity.
      * apply updateField_inv in Ha.
        destruct Ha as [[_ ->]|[_ [v' [_ ->]]]]; [reflexivity|].
        apply prop_set_other. intros ->. apply Hk. left. reflexivity.
    + intros Hin. apply Hk. destruct s; [exact Hin|right; exact Hin].
Qed.

(** Outside only-mode, what the method map keeps of a method record
    the property map keeps too; likewise for the other pairs of arms
    a pruned member can move between. *)
Lemma method_as_property (k : string) :
  In k methodKeys -> keptBy methodItemMap k = true ->
  keptBy classMemberPropertyMap k = true.
Proof.
  intros Hin. simpl in Hin.
  repeat (destruct Hin as [<-|Hin]; [cbn; auto|]). contradiction.
Qed.

Lemma indexSignature_as_property (k : string) :
  In k indexSignatureKeys -> keptBy indexSignatureMap k = true ->
  keptBy classMemberPropertyMap k = true.
Proof.
  intros Hin. simpl in Hin.
  repeat (destruct Hin as [<-|Hin]; [cbn; auto|]). contradiction.
Qed.

Lemma indexSignature_as_interfaceProperty (k : string) :
  In k indexSignatureKeys -> keptBy indexSignatureMap k = true ->
  keptBy interfaceMemberPropertyMap k = true.
Proof.
  intros Hin. simpl in Hin.
  repeat (destruct Hin as [<-|Hin]; [cbn; auto|]). contradiction.
Qed.

Lemma interfaceMethod_as_property (k : string) :
  In k interfaceMethodKeys -> keptBy interfaceMemberMethodMap k = true ->
  keptBy interfaceMemberPropertyMap k = true.
Proof.
  intros Hin. simpl in Hin.
  repeat (destruct Hin as [<-|Hin]; [cbn; auto|]). contradiction.
Qed.

(** A record pruned by one map, all of whose keys a second map keeps
    whenever the first does, is left alone by the second. *)
Lemma prune_after (allowed : list string) (m1 m2 : PruneMap) (o r : obj) :
  (forall k, In k allowed -> keptBy m1 k = true -> keptBy m2 k = true) ->
  keysWithin allowed o = true -> incl (keys r) (keys o) ->
  Forall (fun k => keptBy m1 k = true) (keys r) ->
  prune r m2 = r.
Proof.
  intros Hc Hw Hincl HF. apply prune_fixed. rewrite Forall_forall in *.
  intros k Hin. apply Hc; [|apply HF; exact Hin].
  eapply keysWithin_In; [exact Hw|]. apply Hincl. exact Hin.
Qed.

Lemma not_constructor_after (o r : obj) :
  is_str "constructor" (prop "type" o) = false ->
  prop "type" r = prop "type" o \/ prop "type" r = VUndef ->
  is_str "constructor" (prop "type" r) = false.
Proof. intros H [-> | ->]; [exact H|reflexivity]. Qed.

Lemma undefined_after (k : string) (o r : obj) :
  is_undefined (prop k o) = true ->
  prop k r = prop k o \/ prop k r = VUndef ->
  is_undefined (prop k r) = true.
Proof. intros H [-> | ->]; [exact H|reflexivity]. Qed.

Lemma prune_prop_cases (k : string) (o : obj) (m : PruneMap) :
  prop k (prune o m) = prop k o \/ prop k (prune o m) = VUndef.
Proof. rewrite prop_prune. destruct (keptBy m k); auto. Qed.

Lemma constructor_settles (m : obj) :
  is_str "constructor" (prop "type" m) = true ->
  wf_class_member m = true ->
  settles (applyClassMemberOptions options false) m.
Proof.
  intros Hc Hwf. unfold wf_class_member in Hwf. rewrite Hc in Hwf.
  assert (settles (runs (constructorSteps options false)) m) as [r [H1 H2]].
  { apply run_settles; [repeat constructor; simpl; tauto|].
    simpl. split; [exact I|]. intros o1 Ho1. injection Ho1 as <-.
    split; [|ready_tail]. unfold fieldReady. rewrite prop_prune.
    destruct (keptBy constructorMap "function"); [|discriminate].
    intros Ht. rewrite Ht in Hwf.
    destruct (prop "function" m); try discriminate.
    apply settles_onRecord, applyFunctionItemOptions_settles, Hwf. }
  assert (prop "type" r = prop "type" m) as Hty.
  { apply (run_prop_kept _ _ _ _ H1); [simpl; intuition discriminate|].
    repeat constructor. }
  exists r. unfold applyClassMemberOptions.
  rewrite Hty, Hc, !applyConstructorOptions_run. auto.
Qed.

Lemma method_settles (m : obj) :
  is_str "constructor" (prop "type" m) = false ->
  is_undefined (prop "arguments" m) = false ->
  wf_class_member m = true ->
  settles (applyClassMemberOptions options false) m.
Proof.
  intros Hc Ha Hwf. unfold wf_class_member in Hwf.
  rewrite Hc, Ha in Hwf. simpl in Hwf. apply andb_prop in Hwf.
  destruct Hwf as [Hkeys Hfn].
  pose proof (methodSteps_ready options false m Hfn) as Hready.
  assert (NoDup (updatedKeys (methodSteps options false))) as Hnd.
  { simpl. repeat constructor; simpl; intuition discriminate. }
  destruct (run_settles _ _ _ m Hnd Hready) as [r [H1 H2]].
  exists r. unfold applyClassMemberOptions.
  rewrite Hc, Ha. simpl. rewrite applyMethodItemOptions_run.
  split; [exact H1|].
  rewrite (not_constructor_after m r Hc)
    by (apply (run_prop _ _ _ _ _ _ H1); simpl; intuition discriminate).
  destruct (is_undefined (prop "arguments" r)) eqn:Har; simpl.
  - rewrite (undefined_after "keyType" m r); simpl.
    + unfold applyClassMemberPropertyOptions. f_equal.
      apply (prune_after methodKeys methodItemMap _ m);
        [exact method_as_property|exact Hkeys|exact (run_keys _ _ _ _ _ H1)|].
      pose proof (run_fixed _ _ _ _ _ Hnd Hready H1) as HF.
      rewrite Forall_forall in HF.
      apply (HF (Prune methodItemMap)). simpl. auto.
    + rewrite (keysWithin_prop methodKeys m "keyType" Hkeys);
        [reflexivity|]. simpl. intuition discriminate.
    + apply (run_prop _ _ _ _ _ _ H1). simpl. intuition discriminate.
  - rewrite applyMethodItemOptions_run. exact H2.
Qed.

Lemma indexSignature_settles (m : obj) :
  is_str "constructor" (prop "type" m) = false ->
  is_undefined (prop "arguments" m) = true ->
  is_undefined (prop "keyType" m) = false ->
  wf_class_member m = true ->
  settles (applyClassMemberOptions options false) m.
Proof.
  intros Hc Ha Hk Hwf. unfold wf_class_member in Hwf.
  rewrite Hc, Ha, Hk in Hwf. simpl in Hwf.
  exists (applyIndexSignatureOptions options false m).
  unfold applyClassMemberOptions at 1. rewrite Hc, Ha, Hk. simpl.
  split; [reflexivity|]. unfold applyClassMemberOptions.
  unfold applyIndexSignatureOptions.
  rewrite (not_constructor_after m _ Hc) by apply prune_prop_cases.
  rewrite (undefined_after "arguments" m _ Ha) by apply prune_prop_cases.
  simpl.
  destruct (is_undefined (prop "keyType" (prune m indexSignatureMap)));
    simpl; f_equal.
  - unfold applyClassMemberPropertyOptions.
    apply (prune_after indexSignatureKeys indexSignatureMap _ m);
      [exact indexSignature_as_property|exact Hwf| |apply prune_keys_kept].
    rewrite keys_prune. intros k Hin. apply filter_In in Hin. tauto.
  - unfold applyIndexSignatureOptions. apply prune_idempotent.
Qed.

Lemma property_settles (m : obj) :
  is_str "constructor" (prop "type" m) = false ->
  is_undefined (prop "arguments" m) = true ->
  is_undefined (prop "keyType" m) = true ->
  settles (applyClassMemberOptions options false) m.
Proof.
  intros Hc Ha Hk.
  exists (applyClassMemberPropertyOptions options false m).
  unfold applyClassMemberOptions at 1. rewrite Hc, Ha, Hk. simpl.
  split; [reflexivity|]. unfold applyClassMemberOptions.
  unfold applyClassMemberPropertyOptions.
  rewrite (not_constructor_after m _ Hc) by apply prune_prop_cases.
  rewrite (undefined_after "arguments" m _ Ha) by apply prune_prop_cases.
  rewrite (undefined_after "keyType" m _ Hk) by apply prune_prop_cases.
  simpl. f_equal. apply prune_idempotent.
Qed.

(** Pruning a class member twice is pruning it once. *)
Lemma applyClassMemberOptions_settles (m : obj) :
  wf_class_member m = true ->
  settles (applyClassMemberOptions options false) m.
Proof.
  intros Hwf.
  destruct (is_str "constructor" (prop "type" m)) eqn:Hc;
    [apply constructor_settles; assumption|].
  destruct (is_undefined (prop "arguments" m)) eqn:Ha;
    [|apply method_settles; assumption].
  destruct (is_undefined (prop "keyType" m)) eqn:Hk;
    [apply property_settles|apply indexSignature_settles]; assumption.
Qed.

(** The same for an interface member. *)
Lemma applyInterfaceMemberOptions_settles (m : obj) :
  wf_interface_member m = true ->
  settles (applyInterfaceMemberOptions options false) m.
Proof.
  intros Hwf. unfold wf_interface_member in Hwf.
  destruct (is_undefined (prop "keyType" m)) eqn:Hk; simpl in Hwf.
  - destruct (is_undefined (prop "arguments" m)) eqn:Ha; simpl in Hwf.
    + (* a property *)
      exists (applyInterfaceMemberPropertyOptions options false m).
      unfold applyInterfaceMemberOptions at 1. rewrite Hk, Ha. simpl.
      split; [reflexivity|]. unfold applyInterfaceMemberOptions.
      unfold applyInterfaceMemberPropertyOptions.
      rewrite (undefined_after "keyType" m _ Hk) by apply prune_prop_cases.
      rewrite (undefined_after "arguments" m _ Ha)
        by apply prune_prop_cases.
      simpl. f_equal. apply prune_idempotent.
    + (* a method *)
      apply andb_prop in Hwf. destruct Hwf as [Hkeys Harr].
      pose proof (interfaceMethodSteps_ready options false m Harr)
        as Hready.
      assert (NoDup (updatedKeys (interfaceMethodSteps options false)))
        as Hnd.
      { simpl. repeat constructor; simpl; intuition discriminate. }
      destruct (run_settles _ _ _ m Hnd Hready) as [r [H1 H2]].
      exists r. unfold applyInterfaceMemberOptions.
      rewrite Hk, Ha. simpl. rewrite applyInterfaceMemberMethodOptions_run.
      split; [exact H1|].
      rewrite (undefined_after "keyType" m r Hk)
        by (apply (run_prop _ _ _ _ _ _ H1); simpl; intuition discriminate).
      simpl.
      destruct (is_undefined (prop "arguments" r)) eqn:Har; simpl.
      * unfold applyInterfaceMemberPropertyOptions. f_equal.
        apply (prune_after interfaceMethodKeys interfaceMemberMethodMap
                 _ m);
          [exact interfaceMethod_as_property|exact Hkeys
          |exact (run_keys _ _ _ _ _ H1)|].
        pose proof (run_fixed _ _ _ _ _ Hnd Hready H1) as HF.
        rewrite Forall_forall in HF.
        apply (HF (Prune interfaceMemberMethodMap)). simpl. auto.
      * rewrite applyInterfaceMemberMethodOptions_run. exact H2.
  - (* an index signature *)
    exists (applyIndexSignatureOptions options false m).
    unfold applyInterfaceMemberOptions at 1. rewrite Hk. simpl.
    split; [reflexivity|]. unfold applyInterfaceMemberOptions.
    unfold applyIndexSignatureOptions.
    destruct (is_undefined (prop "keyType" (prune m indexSignatureMap)))
      eqn:Hk'; simpl.
    + assert (is_undefined (prop "arguments" (prune m indexSignatureMap))
              = true) as ->.
      { rewrite prop_prune.
        rewrite (keysWithin_prop indexSignatureKeys m "arguments" Hwf)
          by (simpl; intuition discriminate).
        destruct (keptBy indexSignatureMap "arguments"); reflexivity. }
      simpl. unfold applyInterfaceMemberPropertyOptions. f_equal.
      apply (prune_after indexSignatureKeys indexSignatureMap _ m);
        [exact indexSignature_as_interfaceProperty|exact Hwf|
        |apply prune_keys_kept].
      rewrite keys_prune. intros k Hin. apply filter_In in Hin. tauto.
    + f_equal. apply prune_idempotent.
Qed.
End MemberFacts.

(* ================================================================== *)
(** * [applyParsedItemOptions], arm by arm *)

Lemma get_In (k : string) (v : value) (o : obj) :
  get k o = Some v -> In (k, v) o.
Proof.
  induction o as [|[k' w] o IH]; simpl; [discriminate|].
  destruct (String.eqb_spec k' k) as [->|Hne]; intros H.
  - injection H as ->. left. reflexivity.
  - right. apply IH, H.
Qed.

Section ParsedItemFacts.
Variable options : NormalizedOptions.
Variable onlyMode : bool.

Local Notation "'self'" := (applyParsedItemOptions options onlyMode).
Local Notation "'runs'" := (run options onlyMode).

(** The namespace arm is the source's: [it.members.map] over the array
    the item holds once its base fields are pruned. *)
Lemma applyParsedItemOptions_namespace (it : obj) :
  (let it0 := applyBaseItemOptions options onlyMode it in
   it1 <- (if truthy (prop "members" it0) then
             match prop "members" it0 with
             | VArr _ =>
                 l' <- findArray "members" (mapM self) (Throw TypeError) it ;;
                 Ok (set "members" (VArr l') it0)
             | _ => Throw TypeError
             end
           else Ok it0) ;;
   Ok (VObj (pruneObject options onlyMode it1 namespaceMap)))
  = (it' <- namespaceCase options onlyMode self it ;; Ok (VObj it')).
Proof.
  unfold namespaceCase, mapFieldValues, updateField, mapArray. cbv zeta.
  set (it0 := applyBaseItemOptions options onlyMode it).
  destruct (truthy (prop "members" it0)) eqn:Ht; [|reflexivity].
  destruct (prop "members" it0) as [| | | | |l|] eqn:Hm;
    try reflexivity.
  assert (get "members" it = Some (VArr l)) as Hg.
  { subst it0. unfold applyBaseItemOptions in Hm.
    rewrite prop_prune in Hm.
    destruct (kept options onlyMode baseItemMap "members");
      [|discriminate].
    unfold prop in Hm. destruct (get "members" it); congruence. }
  rewrite findArray_get, Hg. simpl.
  destruct (mapM self l); reflexivity.
Qed.

(** [applyParsedItemOptions] on a record, as the source writes it. *)
Lemma applyParsedItemOptions_unfold (it : obj) :
  self (VObj it)
  = let ty := prop "type" it in
    if is_str "variable" ty then
      Ok (VObj (applyVariableItemOptions options onlyMode it))
    else if is_str "function" ty then
      it' <- applyFunctionItemOptions options onlyMode it ;; Ok (VObj it')
    else if is_str "type-alias" ty then
      it' <- typeAliasCase options onlyMode it ;; Ok (VObj it')
    else if is_str "enum" ty then
      it' <- enumCase options onlyMode it ;; Ok (VObj it')
    else if is_str "class" ty then
      it' <- classCase options onlyMode it ;; Ok (VObj it')
    else if is_str "interface" ty then
      it' <- interfaceCase options onlyMode it ;; Ok (VObj it')
    else if is_str "namespace" ty then
      it' <- namespaceCase options onlyMode self it ;; Ok (VObj it')
    else Ok (VObj it).
Proof.
  cbv zeta. rewrite <- applyParsedItemOptions_namespace. reflexivity.
Qed.

(** A record without a [type] is returned as it is. *)
Lemma applyParsedItemOptions_untyped (it : obj) :
  prop "type" it = VUndef -> self (VObj it) = Ok (VObj it).
Proof.
  intros H. rewrite applyParsedItemOptions_unfold. cbv zeta. rewrite H.
  reflexivity.
Qed.

(** Running an arm: the second run meets the same [type], or none. *)
Lemma arm_settles (arm : obj -> res obj) (p : list step) (it : obj) :
  (forall x, arm x = runs p x) ->
  ~ In "type" (updatedKeys p) ->
  (forall x, prop "type" x = prop "type" it ->
             self (VObj x) = (x' <- arm x ;; Ok (VObj x'))) ->
  settles (runs p) it ->
  settles self (VObj it).
Proof.
  intros Harm Hty Hsel [r [H1 H2]]. exists (VObj r). split.
  - rewrite (Hsel it eq_refl), Harm, H1. reflexivity.
  - destruct (run_prop _ _ _ _ _ "type" H1 Hty) as [E|E].
    + rewrite (Hsel r E), Harm, H2. reflexivity.
    + apply applyParsedItemOptions_untyped, E.
Qed.

Lemma typeParameters_ready (it : obj) :
  arrayField "typeParameters" anyRecord it = true ->
  fieldReady "typeParameters" (typeParameterUpdate options onlyMode) it.
Proof.
  intros H. eapply fieldReady_records; [|exact H].
  intros x _. apply applyTypeParameterOptions_settles.
Qed.

Lemma fieldReady_pruned (key : string) (g : value -> res value)
  (it : obj) (m : PruneMap) :
  fieldReady key g it ->
  fieldReady key g (pruneObject options onlyMode it m).
Proof.
  unfold fieldReady. rewrite prop_prune.
  destruct (kept options onlyMode m key); [auto|discriminate].
Qed.

Lemma typeAliasSteps_ready (it : obj) :
  arrayField "typeParameters" anyRecord it = true ->
  ready options onlyMode (typeAliasSteps options onlyMode) it.
Proof.
  intros H. simpl. split; [exact I|]. intros o1 Ho1. injection Ho1 as <-.
  split; [|ready_tail].
  apply fieldReady_pruned, typeParameters_ready, H.
Qed.

Lemma enumSteps_ready (it : obj) :
  arrayField "members" anyRecord it = true ->
  ready options onlyMode (enumSteps options onlyMode) it.
Proof.
  intros H. simpl. split; [exact I|]. intros o1 Ho1. injection Ho1 as <-.
  split; [|ready_tail].
  apply fieldReady_pruned. eapply fieldReady_records; [|exact H].
  intros x _. apply applyEnumMemberOptions_settles.
Qed.

(** In only-mode the base pruning has removed the member array before
    the arm reaches it; outside only-mode the members settle. *)
Lemma members_ready (key : string) (chk : obj -> bool)
  (F : bool -> obj -> res obj) (it : obj) :
  kept options onlyMode baseItemMap key = negb onlyMode ->
  (forall x, chk x = true -> settles (F false) x) ->
  arrayField key chk it = true ->
  fieldReady key (mapArray (onRecord (F onlyMode)))
    (pruneObject options onlyMode it baseItemMap).
Proof.
  intros Hk HF H. unfold fieldReady. rewrite prop_prune, Hk.
  destruct onlyMode; simpl; [discriminate|].
  eapply fieldReady_records; eassumption.
Qed.

Lemma classSteps_ready (it : obj) :
  arrayField "typeParameters" anyRecord it = true ->
  arrayField "items" wf_class_member it = true ->
  ready options onlyMode (classSteps options onlyMode) it.
Proof.
  intros Ht Hi. simpl. split; [exact I|]. intros o1 Ho1.
  injection Ho1 as <-. split.
  - apply fieldReady_pruned, typeParameters_ready, Ht.
  - intros o2 Ho2. split; [|ready_tail].
    apply (fieldReady_exec options onlyMode
             (Update "typeParameters"
                (typeParameterUpdate options onlyMode))
             (pruneObject options onlyMode it baseItemMap) o2);
      [|exact Ho2|discriminate].
    apply (members_ready "items" wf_class_member
             (fun om => applyClassMemberOptions options om));
      [reflexivity| |exact Hi].
    intros x Hx. apply applyClassMemberOptions_settles, Hx.
Qed.

Lemma interfaceSteps_ready (it : obj) :
  arrayField "typeParameters" anyRecord it = true ->
  arrayField "members" wf_interface_member it = true ->
  ready options onlyMode (interfaceSteps options onlyMode) it.
Proof.
  intros Ht Hi. simpl. split; [exact I|]. intros o1 Ho1.
  injection Ho1 as <-. split.
  - apply fieldReady_pruned, typeParameters_ready, Ht.
  - intros o2 Ho2. split; [|ready_tail].
    apply (fieldReady_exec options onlyMode
             (Update "typeParameters"
                (typeParameterUpdate options onlyMode))
             (pruneObject options onlyMode it baseItemMap) o2);
      [|exact Ho2|discriminate].
    apply (members_ready "members" wf_interface_member
             (fun om => applyInterfaceMemberOptions options om));
      [reflexivity| |exact Hi].
    intros x Hx. apply applyInterfaceMemberOptions_settles, Hx.
Qed.

Lemma namespaceSteps_ready (it : obj) :
  fieldReady "members" (mapArray self) it ->
  ready options onlyMode (namespaceSteps self) it.
Proof.
  intros H. simpl. split; [exact I|]. intros o1 Ho1. injection Ho1 as <-.
  split; [|ready_tail]. apply fieldReady_pruned, H.
Qed.

Ltac distinct_updates :=
  simpl; repeat constructor; simpl; intuition discriminate.

Ltac no_type_update := simpl; intuition discriminate.

(** Every typed item tree is pruned without error, and pruning the
    result again returns it unchanged. *)
Lemma applyParsedItemOptions_settles (item : value) :
  wf_item item = true -> settles self item.
Proof.
  enough (forall v,
             (wf_item v = true -> settles self v)
             /\ (forall l, v = VArr l ->
                           Forall (fun x => wf_item x = true ->
                                            settles self x) l)) as H
      by (apply H).
  induction v as [| |b|t|s|l IH|it IH] using value_nested_ind;
    try (split; [intros _; eexists; split; reflexivity|discriminate]).
  - split; [intros _; eexists; split; reflexivity|].
    intros l0 E. injection E as <-.
    eapply Forall_impl; [|exact IH]. intros x Hx. apply Hx.
  - split; [|discriminate]. intros Hwf. simpl in Hwf.
    destruct (is_str "variable" (prop "type" it)) eqn:T1.
    { apply (arm_settles
               (fun x => Ok (applyVariableItemOptions options onlyMode x))
               variableSteps).
      - intros x. reflexivity.
      - no_type_update.
      - intros x E. rewrite applyParsedItemOptions_unfold. cbv zeta.
        rewrite E, T1. reflexivity.
      - apply run_settles; [distinct_updates|ready_tail]. }
    destruct (is_str "function" (prop "type" it)) eqn:T2.
    { apply (arm_settles (applyFunctionItemOptions options onlyMode)
               (functionSteps options onlyMode)).
      - intros x. reflexivity.
      - no_type_update.
      - intros x E. rewrite applyParsedItemOptions_unfold. cbv zeta.
        rewrite E, T1, T2. reflexivity.
      - apply run_settles; [distinct_updates|].
        apply functionSteps_ready, Hwf. }
    destruct (is_str "type-alias" (prop "type" it)) eqn:T3.
    { apply (arm_settles (typeAliasCase options onlyMode)
               (typeAliasSteps options onlyMode)).
      - intros x. reflexivity.
      - no_type_update.
      - intros x E. rewrite applyParsedItemOptions_unfold. cbv zeta.
        rewrite E, T1, T2, T3. reflexivity.
      - apply run_settles; [distinct_updates|].
        apply typeAliasSteps_ready, Hwf. }
    destruct (is_str "enum" (prop "type" it)) eqn:T4.
    { apply (arm_settles (enumCase options onlyMode)
               (enumSteps options onlyMode)).
      - intros x. reflexivity.
      - no_type_update.
      - intros x E. rewrite applyParsedItemOptions_unfold. cbv zeta.
        rewrite E, T1, T2, T3, T4. reflexivity.
      - apply run_settles; [distinct_updates|].
        apply enumSteps_ready, Hwf. }
    destruct (is_str "class" (prop "type" it)) eqn:T5.
    { apply andb_prop in Hwf. destruct Hwf as [Ht Hi].
      apply (arm_settles (classCase options onlyMode)
               (classSteps options onlyMode)).
      - intros x. reflexivity.
      - no_type_update.
      - intros x E. rewrite applyParsedItemOptions_unfold. cbv zeta.
        rewrite E, T1, T2, T3, T4, T5. reflexivity.
      - apply run_settles; [distinct_updates|].
        apply classSteps_ready; assumption. }
    destruct (is_str "interface" (prop "type" it)) eqn:T6.
    { apply andb_prop in Hwf. destruct Hwf as [Ht Hi].
      apply (arm_settles (interfaceCase options onlyMode)
               (interfaceSteps options onlyMode)).
      - intros x. reflexivity.
      - no_type_update.
      - intros x E. rewrite applyParsedItemOptions_unfold. cbv zeta.
        rewrite E, T1, T2, T3, T4, T5, T6. reflexivity.
      - apply run_settles; [distinct_updates|].
        apply interfaceSteps_ready; assumption. }
    destruct (is_str "namespace" (prop "type" it)) eqn:T7.
    { apply (arm_settles (namespaceCase options onlyMode self)
               (namespaceSteps self)).
      - intros x. reflexivity.
      - no_type_update.
      - intros x E. rewrite applyParsedItemOptions_unfold. cbv zeta.
        rewrite E, T1, T2, T3, T4, T5, T6, T7. reflexivity.
      - apply run_settles; [distinct_updates|].
        apply namespaceSteps_ready. intros Htruthy.
        rewrite Htruthy, findArray_get in Hwf.
        destruct (get "members" it) as [[| | | | |l|]|] eqn:Hg;
          try discriminate.
        unfold prop. rewrite Hg. apply settles_mapArray.
        rewrite Forall_forall in IH.
        destruct (IH _ (get_In _ _ _ Hg)) as [_ Hl].
        specialize (Hl l eq_refl). rewrite forallb_forall in Hwf.
        rewrite Forall_forall in *. intros x Hin.
        apply Hl; [exact Hin|]. apply Hwf, Hin. }
    exists (VObj it). rewrite applyParsedItemOptions_unfold. cbv zeta.
    rewrite T1, T2, T3, T4, T5, T6, T7. auto.
Qed.
End ParsedItemFacts.

(* ================================================================== *)
(** * Only-mode: two prunings with disjoint maps leave nothing *)

Lemma map_get_In (k : string) (m : PruneMap) :
  map_get k m <> None -> In k (map fst m).
Proof.
  induction m as [|[k' v] m IH]; simpl; [congruence|].
  destruct (String.eqb_spec k' k) as [->|Hne]; [auto|].
  intros H. right. apply IH, H.
Qed.

Lemma disjointMaps_spec (m1 m2 : PruneMap) (k : string) :
  disjointMaps m1 m2 = true ->
  map_get k m1 <> None -> map_get k m2 = None.
Proof.
  unfold disjointMaps. rewrite forallb_forall. intros H Hk.
  apply map_get_In, in_map_iff in Hk. destruct Hk as [[k' v] [E Hin]].
  simpl in E. subst k'. specialize (H _ Hin). simpl in H.
  destruct (map_get k m2); [discriminate|reflexivity].
Qed.

Section OnlyModeFacts.
Variable options : NormalizedOptions.

Lemma kept_only_mapped (m : PruneMap) (k : string) :
  kept options true m k = true -> map_get k m <> None.
Proof.
  unfold kept. destruct (map_get k m); simpl; [discriminate|discriminate].
Qed.

Lemma run_pruned (om : bool) (p : list step) (o r : obj) (m : PruneMap) :
  run options om p o = Ok r -> In (Prune m) p ->
  Forall (fun k => kept options om m k = true) (keys r).
Proof.
  revert o. induction p as [|s p IH]; simpl; intros o H Hin; [tauto|].
  inv_bind. destruct Hin as [->|Hin]; [|exact (IH a H Hin)].
  simpl in Ha. injection Ha as <-.
  pose proof (prune_keys_kept options om o m) as HF.
  rewrite Forall_forall in *. intros k Hk. apply HF.
  exact (run_keys _ _ _ _ _ H k Hk).
Qed.

(** In only-mode a record that went through two prunings with
    disjoint maps has no field left. *)
Lemma run_only_empty (p : list step) (o r : obj) (m1 m2 : PruneMap) :
  run options true p o = Ok r ->
  In (Prune m1) p -> In (Prune m2) p -> disjointMaps m1 m2 = true ->
  r = [].
Proof.
  intros H H1 H2 Hd.
  pose proof (run_pruned true p o r m1 H H1) as F1.
  pose proof (run_pruned true p o r m2 H H2) as F2.
  destruct r as [|[k v] r]; [reflexivity|]. exfalso.
  inversion F1 as [|? ? K1 _]; inversion F2 as [|? ? K2 _]; subst.
  simpl in K1, K2. apply kept_only_mapped in K1, K2.
  apply K2. eapply disjointMaps_spec; eassumption.
Qed.
End OnlyModeFacts.

Lemma concatMapM_Forall {A B : Type} (P : B -> Prop) (f : A -> res (list B))
  (l : list A) (zs : list B) :
  (forall x ys, In x l -> f x = Ok ys -> Forall P ys) ->
  concatMapM f l = Ok zs -> Forall P zs.
Proof.
  revert zs. induction l as [|x l IH]; simpl; intros zs Hf H.
  - injection H as <-. constructor.
  - inv_bind. subst zs. apply Forall_app. split.
    + apply (Hf x); auto.
    + apply IH; [|assumption]. intros y ys Hin. apply Hf. auto.
Qed.

(** The loop over a namespace body, when it returns, has pushed the
    stamped items of each statement in turn. *)
Lemma unpackBody_Ok (parseTmp : list Statement -> res (list obj))
  (selfIsTmp forgotten : bool) (body : list (string * list Statement))
  (members : list obj) :
  unpackBody parseTmp selfIsTmp forgotten body = Ok members ->
  concatMapM (fun s => items <- parseTmp (snd s) ;; Ok (map stampSub items))
    body = Ok members.
Proof.
  revert forgotten members.
  induction body as [|[raised tmp] rest IH]; intros forgotten members H.
  - exact H.
  - cbn [unpackBody] in H. destruct forgotten; [discriminate|].
    inv_bind. subst members. cbn [concatMapM snd]. rewrite Ha.
    cbn [bind]. rewrite (IH _ _ Ha0). reflexivity.
Qed.

(** In a file that is not [__tmp.ts] nothing is forgotten, and the
    loop is the plain one. *)
Lemma unpackBody_elsewhere (parseTmp : list Statement -> res (list obj))
  (body : list (string * list Statement)) :
  unpackBody parseTmp false false body
  = concatMapM (fun s => items <- parseTmp (snd s) ;; Ok (map stampSub items))
      body.
Proof.
  induction body as [|[raised tmp] rest IH]; [reflexivity|].
  cbn [unpackBody concatMapM snd]. destruct (parseTmp tmp); [|reflexivity].
  cbn [bind]. rewrite IH. reflexivity.
Qed.

Section OnlyModeArms.
Variable options : NormalizedOptions.

Lemma variable_wiped (x : obj) : applyVariableItemOptions options true x = [].
Proof.
  apply (run_only_empty options variableSteps x _ baseItemMap
           variableItemMap);
    [reflexivity|simpl; auto|simpl; auto|reflexivity].
Qed.

Lemma function_wiped (x r : obj) :
  applyFunctionItemOptions options true x = Ok r -> r = [].
Proof.
  intros H.
  apply (run_only_empty options (functionSteps options true) x _
           baseItemMap functionItemMap);
    [exact H|simpl; auto|simpl; auto|reflexivity].
Qed.

Lemma typeAlias_wiped (x r : obj) :
  typeAliasCase options true x = Ok r -> r = [].
Proof.
  intros H.
  apply (run_only_empty options (typeAliasSteps options true) x _
           baseItemMap typeAliasMap);
    [exact H|simpl; auto|simpl; auto|reflexivity].
Qed.

Lemma parsedEnum_wiped (x r : obj) :
  mapField "members" (pure (applyEnumMemberOptions options true))
    (pruneObject options true (applyBaseItemOptions options true x) enumMap)
  = Ok r ->
  r = [].
Proof.
  intros H.
  apply (run_only_empty options (parsedEnumSteps options true) x _
           baseItemMap enumMap);
    [|simpl; auto|simpl; auto|reflexivity].
  unfold parsedEnumSteps. cbn [run exec bind].
  unfold mapField, mapFieldValues, applyBaseItemOptions in H.
  rewrite H. reflexivity.
Qed.

Lemma parsedClass_wiped (reapply : obj -> res obj) (x x1 x2 : obj) :
  mapField "typeParameters" (pure (applyTypeParameterOptions options true))
    (applyBaseItemOptions options true x) = Ok x1 ->
  mapField "items" reapply x1 = Ok x2 ->
  pruneObject options true x2 classMap = [].
Proof.
  intros H1 H2.
  apply (run_only_empty options (parsedClassSteps reapply options true) x _
           baseItemMap classMap);
    [|simpl; auto|simpl; auto|reflexivity].
  unfold parsedClassSteps. cbn [run exec bind].
  unfold mapField, mapFieldValues, applyBaseItemOptions in H1, H2.
  unfold typeParameterUpdate. rewrite H1. cbn [bind]. rewrite H2.
  reflexivity.
Qed.

Lemma interface_wiped (x r : obj) :
  interfaceCase options true x = Ok r -> r = [].
Proof.
  intros H.
  apply (run_only_empty options (interfaceSteps options true) x _
           baseItemMap interfaceMap);
    [exact H|simpl; auto|simpl; auto|reflexivity].
Qed.

Lemma namespace_wiped (self : value -> res value) (x r : obj) :
  namespaceCase options true self x = Ok r -> r = [].
Proof.
  intros H.
  apply (run_only_empty options (namespaceSteps self) x _
           baseItemMap namespaceMap);
    [exact H|simpl; auto|simpl; auto|reflexivity].
Qed.
End OnlyModeArms.

(** In only-mode every statement yields empty records: whatever the
    configuration marks, the second pruning of each item deletes what
    the first one kept. *)
Lemma parseStatement_only_mode (options : option ParseOptions)
  (src : SourceFile) (stmt : Statement) (items : list obj) :
  onlyMode_of (normalizeOptions options) = true ->
  parseStatement options src stmt = Ok items ->
  Forall (fun it => it = []) items.
Proof.
  intros Hom. destruct stmt; simpl; rewrite ?Hom; intros H.
  - inv_bind. subst. apply Forall_forall. intros x Hin.
    apply in_map_iff in Hin. destruct Hin as [d [<- _]].
    apply variable_wiped.
  - inv_bind. subst. repeat constructor.
    eapply function_wiped; eassumption.
  - inv_bind. subst. repeat constructor.
    eapply typeAlias_wiped; eassumption.
  - inv_bind. subst. repeat constructor.
    eapply parsedEnum_wiped; eassumption.
  - destruct expression as [expr|]; [|inv_bind; subst; constructor].
    destruct (_ || _).
    + inv_bind. subst. repeat constructor.
      eapply function_wiped; eassumption.
    + destruct (ee_text expr); [inv_bind; subst; constructor|].
      destruct (getVariableDeclaration _ _);
        inv_bind; subst; repeat constructor. apply variable_wiped.
  - inv_bind. subst. repeat constructor.
    unfold classItem in Ha. cbv zeta in Ha. rewrite Hom in Ha. inv_bind.
    subst. eapply parsedClass_wiped; eassumption.
  - inv_bind. subst. repeat constructor.
    unfold interfaceItem in Ha. cbv zeta in Ha. rewrite Hom in Ha.
    inv_bind. eapply interface_wiped; eassumption.
  - apply bind_Ok in H. destruct H as [members [_ H]].
    destruct (_ && _); [discriminate|]. inv_bind. subst.
    repeat constructor.
    unfold namespaceItem in Ha. cbv zeta in Ha. rewrite Hom in Ha.
    eapply namespace_wiped; eassumption.
  - inv_bind. subst. constructor.
Qed.

(** The module arm, with the calls it makes to [parseWithTsMorph]. *)
Lemma parseStatement_ModuleDeclaration (options : option ParseOptions)
  (src : SourceFile) (name : option string) (isExported : bool)
  (jsDocs : list string) (forgotten : string)
  (body : option (list (string * list Statement))) :
  parseStatement options src
    (ModuleDeclaration name isExported jsDocs forgotten body)
  = (members <- match body with
                | Some statements =>
                    unpackBody
                      (fun tmp => parseWithTsMorph options (tmpFile tmp))
                      (String.eqb (sf_path src) tmpPath) false statements
                | None => Ok []
                end ;;
     if String.eqb (sf_path src) tmpPath && hasStatements body
     then Throw forgotten
     else item <- namespaceItem options name isExported jsDocs members ;;
          Ok [ item ]).
Proof. reflexivity. Qed.

(** The module arm when it returns: the members are the stamped items
    of the calls, and the declaration was not forgotten. *)
Lemma parseStatement_ModuleDeclaration_Ok (options : option ParseOptions)
  (src : SourceFile) (name : option string) (isExported : bool)
  (jsDocs : list string) (forgotten : string)
  (body : option (list (string * list Statement))) (items : list obj) :
  parseStatement options src
    (ModuleDeclaration name isExported jsDocs forgotten body) = Ok items ->
  exists members item,
    match body with
    | Some statements =>
        concatMapM
          (fun s => items <- parseWithTsMorph options (tmpFile (snd s)) ;;
                    Ok (map stampSub items))
          statements
    | None => Ok []
    end = Ok members
    /\ namespaceItem options name isExported jsDocs members = Ok item
    /\ items = [ item ]
    /\ String.eqb (sf_path src) tmpPath && hasStatements body = false.
Proof.
  rewrite parseStatement_ModuleDeclaration. intros H.
  apply bind_Ok in H. destruct H as [members [Hm H]].
  destruct (_ && _) eqn:E; [discriminate|].
  apply bind_Ok in H. destruct H as [item [Hi H]]. injection H as <-.
  exists members, item. repeat split; try assumption.
  destruct body as [statements|]; [|exact Hm].
  exact (unpackBody_Ok
           (fun tmp => parseWithTsMorph options (tmpFile tmp)) _ _ _ _ Hm).
Qed.

Lemma parseWithTsMorph_only_mode (options : option ParseOptions)
  (src : SourceFile) (items : list obj) :
  onlyMode_of (normalizeOptions options) = true ->
  parseWithTsMorph options src = Ok items ->
  Forall (fun it => it = []) items.
Proof.
  intros Hom H. unfold parseWithTsMorph in H.
  eapply concatMapM_Forall; [|exact H].
  intros stmt ys _ Hs. eapply parseStatement_only_mode; eassumption.
Qed.

(* ================================================================== *)
(** * A configuration that removes nothing *)

Lemma onRecord_identity (F : obj -> res obj) (v v' : value) :
  (forall o y, F o = Ok y -> y = o) -> onRecord F v = Ok v' -> v' = v.
Proof.
  intros HF. destruct v; simpl; try discriminate. intros H. inv_bind.
  subst. f_equal. eapply HF; eassumption.
Qed.

Lemma mapArray_identity (f : value -> res value) (v v' : value) :
  (forall l, v = VArr l -> Forall (fun x => forall y, f x = Ok y -> y = x) l)
  -> mapArray f v = Ok v' -> v' = v.
Proof.
  intros Hf. destruct v; simpl; try discriminate. intros H. inv_bind.
  subst. f_equal. eapply mapM_identity; [|eassumption]. apply Hf.
  reflexivity.
Qed.

Lemma records_identity (F : obj -> res obj) (v v' : value) :
  (forall o y, F o = Ok y -> y = o) ->
  mapArray (onRecord F) v = Ok v' -> v' = v.
Proof.
  intros HF. apply mapArray_identity. intros l _. apply Forall_forall.
  intros x _ y. apply onRecord_identity, HF.
Qed.

Lemma pure_identity (f : obj -> obj) (o y : obj) :
  (forall x, f x = x) -> pure f o = Ok y -> y = o.
Proof. unfold pure. intros Hf H. injection H as <-. apply Hf. Qed.

Section NothingRemoved.
Variable options : NormalizedOptions.
Hypothesis keepsAll : forall m k, kept options false m k = true.

Local Notation "'self'" := (applyParsedItemOptions options false).

Lemma prune_nothing (o : obj) (m : PruneMap) :
  pruneObject options false o m = o.
Proof. apply prune_fixed, Forall_forall. intros k _. apply keepsAll. Qed.

(** An arm that only prunes and maps such arms returns its argument. *)
Ltac identity_arm p :=
  let H := fresh "H" in
  intros H;
  apply (run_identity options false p _ _ keepsAll); [|exact H];
  repeat constructor; intros v';
  unfold paramUpdate, methodParamUpdate, typeParameterUpdate;
  try (apply records_identity; intros ? ?; apply pure_identity;
       intros ?; unfold applyMethodParamOptions, applyParamOptions,
                   applyTypeParameterOptions, applyEnumMemberOptions;
       rewrite ?prune_nothing; reflexivity).

Lemma applyFunctionItemOptions_identity (o r : obj) :
  applyFunctionItemOptions options false o = Ok r -> r = o.
Proof. identity_arm (functionSteps options false). Qed.

Lemma applyMethodItemOptions_identity (o r : obj) :
  applyMethodItemOptions options false o = Ok r -> r = o.
Proof. identity_arm (methodSteps options false). Qed.

Lemma applyInterfaceMemberMethodOptions_identity (o r : obj) :
  applyInterfaceMemberMethodOptions options false o = Ok r -> r = o.
Proof. identity_arm (interfaceMethodSteps options false). Qed.

Lemma typeAliasCase_identity (o r : obj) :
  typeAliasCase options false o = Ok r -> r = o.
Proof. identity_arm (typeAliasSteps options false). Qed.

Lemma enumCase_identity (o r : obj) :
  enumCase options false o = Ok r -> r = o.
Proof. identity_arm (enumSteps options false). Qed.

Lemma applyConstructorOptions_identity (o r : obj) :
  applyConstructorOptions options false o = Ok r -> r = o.
Proof.
  rewrite applyConstructorOptions_run.
  identity_arm (constructorSteps options false).
  apply onRecord_identity. apply applyFunctionItemOptions_identity.
Qed.

Lemma applyClassMemberOptions_identity (o r : obj) :
  applyClassMemberOptions options false o = Ok r -> r = o.
Proof.
  unfold applyClassMemberOptions.
  destruct (is_str "constructor" (prop "type" o));
    [apply applyConstructorOptions_identity|].
  destruct (negb (is_undefined (prop "arguments" o)));
    [apply applyMethodItemOptions_identity|].
  unfold applyIndexSignatureOptions, applyClassMemberPropertyOptions.
  rewrite !prune_nothing.
  destruct (negb _); intros H; injection H as <-; reflexivity.
Qed.

Lemma applyInterfaceMemberOptions_identity (o r : obj) :
  applyInterfaceMemberOptions options false o = Ok r -> r = o.
Proof.
  unfold applyInterfaceMemberOptions.
  unfold applyIndexSignatureOptions, applyInterfaceMemberPropertyOptions.
  rewrite !prune_nothing.
  destruct (negb (is_undefined (prop "keyType" o)));
    [intros H; injection H as <-; reflexivity|].
  destruct (negb (is_undefined (prop "arguments" o)));
    [apply applyInterfaceMemberMethodOptions_identity|].
  intros H; injection H as <-; reflexivity.
Qed.

Lemma classCase_identity (o r : obj) :
  classCase options false o = Ok r -> r = o.
Proof.
  identity_arm (classSteps options false).
  apply records_identity. apply applyClassMemberOptions_identity.
Qed.

Lemma interfaceCase_identity (o r : obj) :
  interfaceCase options false o = Ok r -> r = o.
Proof.
  identity_arm (interfaceSteps options false).
  apply records_identity. apply applyInterfaceMemberOptions_identity.
Qed.

Lemma applyVariableItemOptions_identity (o : obj) :
  applyVariableItemOptions options false o = o.
Proof.
  unfold applyVariableItemOptions, applyBaseItemOptions.
  rewrite !prune_nothing. reflexivity.
Qed.

(** With nothing to remove, the projection returns the tree it is
    given whenever it returns. *)
Lemma applyParsedItemOptions_identity (item item' : value) :
  self item = Ok item' -> item' = item.
Proof.
  enough (forall v,
             (forall v', self v = Ok v' -> v' = v)
             /\ (forall l, v = VArr l ->
                   Forall (fun x => forall y, self x = Ok y -> y = x) l))
    as H by (apply H).
  induction v as [| |b|t|s|l IH|it IH] using value_nested_ind;
    try (split; [simpl; intros v' E; congruence|discriminate]).
  - split; [simpl; intros v' E; congruence|].
    intros l0 E. injection E as <-.
    eapply Forall_impl; [|exact IH]. intros x Hx. apply Hx.
  - split; [|discriminate]. intros v'.
    rewrite applyParsedItemOptions_unfold. cbv zeta.
    repeat match goal with
           | |- (if ?c then _ else _) = _ -> _ => destruct c
           end; intros H; inv_bind; subst; f_equal.
    + apply applyVariableItemOptions_identity.
    + eapply applyFunctionItemOptions_identity; eassumption.
    + eapply typeAliasCase_identity; eassumption.
    + eapply enumCase_identity; eassumption.
    + eapply classCase_identity; eassumption.
    + eapply interfaceCase_identity; eassumption.
    + revert Ha. identity_arm (namespaceSteps self).
      apply mapArray_identity. intros l Hl.
      rewrite Forall_forall in IH.
      assert (get "members" it = Some (VArr l)) as Hg.
      { unfold prop in Hl. destruct (get "members" it); congruence. }
      destruct (IH _ (get_In _ _ _ Hg)) as [_ Hall]. apply Hall.
      reflexivity.
Qed.
Lemma updateField_identity (key : string) (g : value -> res value)
  (o r : obj) :
  (forall v', g (prop key o) = Ok v' -> v' = prop key o) ->
  updateField key g o = Ok r -> r = o.
Proof.
  intros Hg H. apply updateField_inv in H.
  destruct H as [[_ ->]|[Ht [v' [Hv ->]]]]; [reflexivity|].
  rewrite (Hg v' Hv). apply set_unchanged, truthy_present, Ht.
Qed.

Lemma namespaceCase_identity (o r : obj) :
  namespaceCase options false self o = Ok r -> r = o.
Proof.
  identity_arm (namespaceSteps self).
  apply mapArray_identity. intros l _. apply Forall_forall.
  intros x _ y. apply applyParsedItemOptions_identity.
Qed.

(** The pruning of the enum arm of [parseWithTsMorph]. *)
Lemma parsedEnum_identity (x r : obj) :
  mapField "members" (pure (applyEnumMemberOptions options false))
    (pruneObject options false (applyBaseItemOptions options false x)
       enumMap) = Ok r ->
  r = x.
Proof.
  unfold applyBaseItemOptions. rewrite !prune_nothing.
  apply updateField_identity. intros v'. apply records_identity.
  intros o y. apply pure_identity. intros z.
  unfold applyEnumMemberOptions. apply prune_nothing.
Qed.

(** The pruning of the class arm of [parseWithTsMorph]. *)
Lemma parsedClass_identity (reapply : obj -> res obj) (x x1 x2 : obj) :
  (forall o y, reapply o = Ok y -> y = o) ->
  mapField "typeParameters" (pure (applyTypeParameterOptions options false))
    (applyBaseItemOptions options false x) = Ok x1 ->
  mapField "items" reapply x1 = Ok x2 ->
  pruneObject options false x2 classMap = x.
Proof.
  intros Hre. unfold applyBaseItemOptions. rewrite !prune_nothing.
  intros H1 H2.
  apply updateField_identity in H1.
  - subst x1. apply updateField_identity in H2; [exact H2|].
    intros v'. apply records_identity, Hre.
  - intros v'. apply records_identity. intros o y. apply pure_identity.
    intros z. unfold applyTypeParameterOptions. apply prune_nothing.
Qed.
End NothingRemoved.

Lemma default_keeps_all (m : PruneMap) (k : string) :
  kept (normalizeOptions None) false m k = true.
Proof.
  unfold kept. destruct (map_get k m) as [[optKey|]|]; reflexivity.
Qed.

Lemma onlyMode_default : onlyMode_of (normalizeOptions None) = false.
Proof. reflexivity. Qed.

(* ================================================================== *)
(** * Nesting levels under the default configuration *)



Lemma reapplyConstructor_identity (o y : obj) :
  reapplyConstructor None o = Ok y -> y = o.
Proof.
  unfold reapplyConstructor. cbv zeta.
  destruct (is_str "constructor" (prop "type" o)).
  - apply applyConstructorOptions_identity, default_keeps_all.
  - intros H. injection H as <-. reflexivity.
Qed.

(** Undo the prunings of the default configuration. *)
Ltac default_identity :=
  repeat match goal with
         | H : applyFunctionItemOptions _ _ _ = Ok _ |- _ =>
             apply applyFunctionItemOptions_identity in H;
             [subst|apply default_keeps_all]
         | H : applyMethodItemOptions _ _ _ = Ok _ |- _ =>
             apply applyMethodItemOptions_identity in H;
             [subst|apply default_keeps_all]
         | H : applyInterfaceMemberMethodOptions _ _ _ = Ok _ |- _ =>
             apply applyInterfaceMemberMethodOptions_identity in H;
             [subst|apply default_keeps_all]
         | H : typeAliasCase _ _ _ = Ok _ |- _ =>
             apply typeAliasCase_identity in H;
             [subst|apply default_keeps_all]
         | H : interfaceCase _ _ _ = Ok _ |- _ =>
             apply interfaceCase_identity in H;
             [subst|apply default_keeps_all]
         | H : namespaceCase _ _ _ _ = Ok _ |- _ =>
             apply namespaceCase_identity in H;
             [subst|apply default_keeps_all]
         | H : mapField "members" (pure (applyEnumMemberOptions _ _)) _
               = Ok _ |- _ =>
             apply parsedEnum_identity in H;
             [subst|apply default_keeps_all]
         end;
  unfold applyClassMemberPropertyOptions, applyIndexSignatureOptions,
    applyInterfaceMemberPropertyOptions, applyEnumMemberOptions;
  rewrite ?applyVariableItemOptions_identity by apply default_keeps_all;
  rewrite ?prune_nothing by apply default_keeps_all.



Lemma forallb_records (p : value -> bool) (l : list obj) :
  Forall (fun o => p (VObj o) = true) l -> forallb p (map VObj l) = true.
Proof.
  induction 1 as [|o l Ho _ IH]; simpl; [reflexivity|].
  rewrite Ho, IH. reflexivity.
Qed.



(* ================================================================== *)
(** * The normalizer: what it returns and when it throws *)

(** Case on every call whose result the statement sequences. *)
Ltac split_calls :=
  repeat match goal with
         | |- context [bind ?c _] =>
             destruct c eqn:?; cbn [bind try_catch]
         end.

(** Once the kind and the text of a node have been read, the
    normalizer returns a record that carries the text: the [catch]
    takes every later failure. *)
Lemma parsePresentTypeNode_readable (kind : value) (text : string)
  (shape : TypeShape) :
  exists fields,
    parsePresentTypeNode (MkTypeNode (Returns kind) (Returns text) shape)
    = Ok (VObj fields)
    /\ prop "text" fields = VStr text.
Proof.
  destruct shape; cbn [parsePresentTypeNode fromAcc bind]; split_calls;
    eexists; split; reflexivity.
Qed.

(** A kind the switch has no case for. *)
Lemma parsePresentTypeNode_unknown_kind (kind : value) (text : string) :
  parsePresentTypeNode (MkTypeNode (Returns kind) (Returns text) OtherKind)
  = Ok (VObj [ ("kind", VStr "unknown"); ("kindName", kind);
               ("text", VStr text) ]).
Proof. reflexivity. Qed.

(** A failure while the node is inspected. *)
Lemma parsePresentTypeNode_internal_failure (kind : value) (text err : string) :
  parsePresentTypeNode (MkTypeNode (Returns kind) (Returns text) (Faulty err))
  = Ok (VObj [ ("kind", VStr "unknown"); ("text", VStr text);
               ("error", VStr err) ]).
Proof. reflexivity. Qed.

(** A failure of a child met while it is normalized is caught by the
    parent. *)
Lemma parsePresentTypeNode_child_failure (kind : value) (text : string) :
  parsePresentTypeNode
    (MkTypeNode (Returns kind) (Returns text)
       (ArrayType (Some forgottenNode)))
  = Ok (VObj [ ("kind", VStr "unknown"); ("text", VStr text);
               ("error", VStr forgottenMessage) ]).
Proof. reflexivity. Qed.

(** The two reads before the [try] are the only way out. *)
Lemma parsePresentTypeNode_throws_iff (node : TypeNode) (err : string) :
  parsePresentTypeNode node = Throw err <->
  kindAccOf node = Raises err
  \/ (exists kind, kindAccOf node = Returns kind)
     /\ textAccOf node = Raises err.
Proof.
  destruct node as [[kind|e1] [text|e2] shape]; simpl.
  - destruct (parsePresentTypeNode_readable kind text shape) as [f [E _]].
    simpl in E. rewrite E. split; [discriminate|].
    intros [H|[_ H]]; discriminate.
  - split.
    + intros H. injection H as <-. right. eauto.
    + intros [H|[_ H]]; [discriminate|injection H as <-; reflexivity].
  - split.
    + intros H. injection H as <-. auto.
    + intros [H|[[k H] _]]; [injection H as <-; reflexivity|discriminate].
  - split.
    + intros H. injection H as <-. auto.
    + intros [H|[[k H] _]]; [injection H as <-; reflexivity|discriminate].
Qed.

(* ================================================================== *)
(** * What every record of an output tree satisfies *)


Lemma forallb_filter {A : Type} (f q : A -> bool) (l : list A) :
  forallb f l = true -> forallb f (filter q l) = true.
Proof.
  induction l as [|x l IH]; simpl; [auto|].
  intros H. apply andb_prop in H. destruct H as [Hx Hl].
  destruct (q x); simpl; [rewrite Hx|]; auto.
Qed.

Lemma forallb_set (f : string * value -> bool) (k : string) (v : value)
  (o : obj) :
  forallb f o = true -> f (k, v) = true -> forallb f (set k v o) = true.
Proof.
  intros Ho Hv. induction o as [|[k' w] o IH]; simpl in *.
  - rewrite Hv. reflexivity.
  - apply andb_prop in Ho. destruct Ho as [Hw Ho].
    destruct (String.eqb_spec k' k) as [->|Hne]; simpl.
    + rewrite Hv, Ho. reflexivity.
    + rewrite Hw. simpl. apply IH, Ho.
Qed.

Lemma In_set_other (k key : string) (v w : value) (o : obj) :
  k <> key -> In (k, v) (set key w o) -> In (k, v) o.
Proof.
  intros Hne. induction o as [|[k' u] o IH]; simpl.
  - intros [H|[]]. congruence.
  - destruct (String.eqb_spec k' key) as [->|Hk]; simpl.
    + intros [H|H]; [congruence|auto].
    + intros [H|H]; auto.
Qed.

Ltac distinct_keys := repeat constructor; simpl; intuition discriminate.

Ltac each_update :=
  let Hin := fresh "Hin" in
  intros ? ? Hin; simpl in Hin;
  repeat (destruct Hin as [Hin|Hin];
          [first [discriminate Hin
                 |injection Hin as <- <-;
                  split; [reflexivity|intros ? ? _]]|]);
  [..|contradiction].

Section TreeFacts.
Variable options : NormalizedOptions.
Variable onlyMode : bool.
Variable R : obj -> bool.
Hypothesis R_filter : forall (q : string -> bool) (o : obj),
  R o = true -> R (filter (byKey q) o) = true.
Hypothesis R_set : forall (k : string) (v : value) (o : obj),
  nested k = true -> notNull v = true -> R o = true ->
  R (set k v o) = true.

Local Notation "'every'" := (everyRecord R).
Local Notation "'runs'" := (run options onlyMode).
Local Notation "'self'" := (applyParsedItemOptions options onlyMode).

Lemma every_obj (o : obj) :
  every (VObj o) = true <-> R o = true /\ children R o = true.
Proof. simpl. apply andb_true_iff. Qed.

Lemma children_In (k : string) (v : value) (o : obj) :
  children R o = true -> In (k, v) o -> nested k = true -> every v = true.
Proof.
  unfold children. rewrite forallb_forall. intros H Hin Hk.
  specialize (H _ Hin). simpl in H. rewrite Hk in H. exact H.
Qed.

Lemma prune_keeps (m : PruneMap) (o : obj) :
  every (VObj o) = true ->
  every (VObj (pruneObject options onlyMode o m)) = true.
Proof.
  rewrite !every_obj, pruneObject_filter. intros [Hr Hc]. split.
  - apply R_filter, Hr.
  - apply forallb_filter, Hc.
Qed.

Lemma updatesKeep_tail (s : step) (p : list step) (o o1 : obj) :
  NoDup (updatedKeys (s :: p)) -> updatesKeep R (s :: p) o ->
  exec options onlyMode s o = Ok o1 -> updatesKeep R p o1.
Proof.
  intros Hnd Hu He k g Hin. destruct (Hu k g (or_intror Hin)) as [Hk Hg].
  split; [exact Hk|]. intros v v' Hv. apply Hg.
  destruct s as [m|key f]; simpl in He.
  - injection He as <-. rewrite pruneObject_filter in Hv.
    apply filter_In in Hv. tauto.
  - apply updateField_inv in He.
    destruct He as [[_ ->]|[_ [w [_ ->]]]]; [exact Hv|].
    apply In_set_other in Hv; [exact Hv|].
    simpl in Hnd. inversion Hnd as [|? ? Hnot _]; subst.
    intros ->. apply Hnot. clear -Hin.
    induction p as [|[m'|k' g'] p IH]; simpl in *; [tauto| |].
    + destruct Hin as [H|H]; [discriminate|auto].
    + destruct Hin as [H|H]; [injection H as -> _; auto|auto].
Qed.

Lemma exec_keeps (s : step) (o o1 : obj) :
  updatesKeep R [s] o -> every (VObj o) = true ->
  exec options onlyMode s o = Ok o1 -> every (VObj o1) = true.
Proof.
  intros Hu Ho He. destruct s as [m|key g]; simpl in He.
  - injection He as <-. apply prune_keeps, Ho.
  - apply updateField_inv in He.
    destruct He as [[_ ->]|[Ht [w [Hg ->]]]]; [exact Ho|].
    destruct (Hu key g (or_introl eq_refl)) as [Hk Hkeep].
    apply every_obj in Ho. destruct Ho as [Hr Hc].
    assert (In (key, prop key o) o) as Hin.
    { apply get_In. unfold prop in *.
      destruct (get key o); [reflexivity|discriminate]. }
    destruct (Hkeep _ _ Hin (children_In _ _ _ Hc Hin Hk) Hg) as [Hw Hn].
    apply every_obj. split; [apply R_set; assumption|].
    apply forallb_set; [exact Hc|]. simpl. rewrite Hw. apply orb_true_r.
Qed.

(** A pass keeps a tree whose records pass [R] such a tree. *)
Lemma run_keeps (p : list step) (o r : obj) :
  NoDup (updatedKeys p) -> updatesKeep R p o -> every (VObj o) = true ->
  runs p o = Ok r -> every (VObj r) = true.
Proof.
  revert o. induction p as [|s p IH]; simpl; intros o Hnd Hu Ho H.
  - injection H as <-. exact Ho.
  - inv_bind. apply (IH a).
    + destruct s; simpl in Hnd; [exact Hnd|].
      inversion Hnd; assumption.
    + exact (updatesKeep_tail s p o a Hnd Hu Ha).
    + apply (exec_keeps s o); [|exact Ho|exact Ha].
      intros k g [Hin|[]]. apply Hu. left. exact Hin.
    + exact H.
Qed.

Lemma mapM_keeps (f : value -> res value) (l l' : list value) :
  Forall (fun e => forall e', every e = true -> f e = Ok e' ->
                              every e' = true) l ->
  forallb every l = true -> mapM f l = Ok l' -> forallb every l' = true.
Proof.
  intros HF. revert l'. induction HF as [|e l He HF IH]; simpl; intros l' Hl H.
  - injection H as <-. reflexivity.
  - inv_bind. subst. apply andb_prop in Hl.
    destruct Hl as [H1 H2]. simpl. rewrite (He _ H1 Ha), (IH _ H2 Ha0).
    reflexivity.
Qed.

Lemma mapArray_keeps (f : value -> res value) (v v' : value) :
  (forall e e', every e = true -> f e = Ok e' -> every e' = true) ->
  every v = true -> mapArray f v = Ok v' ->
  every v' = true /\ notNull v' = true.
Proof.
  intros Hf Hv H. destruct v; try discriminate. simpl in H.
  inv_bind. subst. split; [|reflexivity].
  apply (mapM_keeps f elems); [|exact Hv|exact Ha].
  apply Forall_forall. intros e _. apply Hf.
Qed.

Lemma onRecord_keeps (f : obj -> res obj) (v v' : value) :
  (forall o o', every (VObj o) = true -> f o = Ok o' ->
                every (VObj o') = true) ->
  every v = true -> onRecord f v = Ok v' ->
  every v' = true /\ notNull v' = true.
Proof.
  intros Hf Hv H. destruct v; try discriminate. simpl in H.
  inv_bind. subst. split; [|reflexivity].
  exact (Hf _ _ Hv Ha).
Qed.

Lemma records_keep (f : obj -> res obj) (v v' : value) :
  (forall o o', every (VObj o) = true -> f o = Ok o' ->
                every (VObj o') = true) ->
  every v = true -> mapArray (onRecord f) v = Ok v' ->
  every v' = true /\ notNull v' = true.
Proof.
  intros Hf. apply mapArray_keeps. intros e e' He H.
  exact (proj1 (onRecord_keeps f e e' Hf He H)).
Qed.

Lemma pruned_records_keep (f : obj -> obj) (v v' : value) :
  (forall o, every (VObj o) = true -> every (VObj (f o)) = true) ->
  every v = true -> mapArray (onRecord (pure f)) v = Ok v' ->
  every v' = true /\ notNull v' = true.
Proof.
  intros Hf. apply records_keep. intros o o' Ho H.
  injection H as <-. apply Hf, Ho.
Qed.

Ltac kept_by_run updates :=
  match goal with
  | H : run _ _ ?p ?o = Ok ?r |- _ =>
      apply (run_keeps p o r);
      [distinct_keys|apply updates|assumption|exact H]
  end.

Lemma paramUpdate_keeps (v v' : value) :
  every v = true -> paramUpdate options onlyMode v = Ok v' ->
  every v' = true /\ notNull v' = true.
Proof. apply pruned_records_keep. intros o. apply prune_keeps. Qed.

Lemma methodParamUpdate_keeps (v v' : value) :
  every v = true -> methodParamUpdate options onlyMode v = Ok v' ->
  every v' = true /\ notNull v' = true.
Proof.
  apply pruned_records_keep. intros o Ho.
  unfold applyMethodParamOptions, applyParamOptions.
  apply prune_keeps, prune_keeps, Ho.
Qed.

Lemma typeParameterUpdate_keeps (v v' : value) :
  every v = true -> typeParameterUpdate options onlyMode v = Ok v' ->
  every v' = true /\ notNull v' = true.
Proof. apply pruned_records_keep. intros o. apply prune_keeps. Qed.

Lemma enumMemberUpdate_keeps (v v' : value) :
  every v = true ->
  mapArray (onRecord (pure (applyEnumMemberOptions options onlyMode))) v
  = Ok v' ->
  every v' = true /\ notNull v' = true.
Proof. apply pruned_records_keep. intros o. apply prune_keeps. Qed.

Lemma functionSteps_updates (o : obj) :
  updatesKeep R (functionSteps options onlyMode) o.
Proof.
  each_update; [apply paramUpdate_keeps|apply typeParameterUpdate_keeps].
Qed.

Lemma applyFunctionItemOptions_keeps (o o' : obj) :
  every (VObj o) = true ->
  applyFunctionItemOptions options onlyMode o = Ok o' ->
  every (VObj o') = true.
Proof.
  intros Ho H. rewrite applyFunctionItemOptions_run in H.
  kept_by_run functionSteps_updates.
Qed.

Lemma methodSteps_updates (o : obj) :
  updatesKeep R (methodSteps options onlyMode) o.
Proof.
  each_update; [apply methodParamUpdate_keeps|apply typeParameterUpdate_keeps].
Qed.

Lemma applyMethodItemOptions_keeps (o o' : obj) :
  every (VObj o) = true ->
  applyMethodItemOptions options onlyMode o = Ok o' ->
  every (VObj o') = true.
Proof.
  intros Ho H. rewrite applyMethodItemOptions_run in H.
  kept_by_run methodSteps_updates.
Qed.

Lemma interfaceMethodSteps_updates (o : obj) :
  updatesKeep R (interfaceMethodSteps options onlyMode) o.
Proof. each_update. apply paramUpdate_keeps. Qed.

Lemma applyInterfaceMemberMethodOptions_keeps (o o' : obj) :
  every (VObj o) = true ->
  applyInterfaceMemberMethodOptions options onlyMode o = Ok o' ->
  every (VObj o') = true.
Proof.
  intros Ho H. rewrite applyInterfaceMemberMethodOptions_run in H.
  kept_by_run interfaceMethodSteps_updates.
Qed.

Lemma constructorSteps_updates (o : obj) :
  updatesKeep R (constructorSteps options onlyMode) o.
Proof.
  each_update. apply onRecord_keeps. apply applyFunctionItemOptions_keeps.
Qed.

Lemma applyConstructorOptions_keeps (o o' : obj) :
  every (VObj o) = true ->
  applyConstructorOptions options onlyMode o = Ok o' ->
  every (VObj o') = true.
Proof.
  intros Ho H. rewrite applyConstructorOptions_run in H.
  kept_by_run constructorSteps_updates.
Qed.

Lemma applyClassMemberOptions_keeps (o o' : obj) :
  every (VObj o) = true ->
  applyClassMemberOptions options onlyMode o = Ok o' ->
  every (VObj o') = true.
Proof.
  unfold applyClassMemberOptions. intros Ho.
  destruct (is_str "constructor" (prop "type" o));
    [apply applyConstructorOptions_keeps, Ho|].
  destruct (negb (is_undefined (prop "arguments" o)));
    [apply applyMethodItemOptions_keeps, Ho|].
  destruct (negb (is_undefined (prop "keyType" o)));
    intros H; injection H as <-; apply prune_keeps, Ho.
Qed.

Lemma applyInterfaceMemberOptions_keeps (o o' : obj) :
  every (VObj o) = true ->
  applyInterfaceMemberOptions options onlyMode o = Ok o' ->
  every (VObj o') = true.
Proof.
  unfold applyInterfaceMemberOptions. intros Ho.
  destruct (negb (is_undefined (prop "keyType" o)));
    [intros H; injection H as <-; apply prune_keeps, Ho|].
  destruct (negb (is_undefined (prop "arguments" o)));
    [apply applyInterfaceMemberMethodOptions_keeps, Ho|].
  intros H; injection H as <-; apply prune_keeps, Ho.
Qed.

Lemma typeAliasSteps_updates (o : obj) :
  updatesKeep R (typeAliasSteps options onlyMode) o.
Proof. each_update. apply typeParameterUpdate_keeps. Qed.

Lemma enumSteps_updates (o : obj) :
  updatesKeep R (enumSteps options onlyMode) o.
Proof. each_update. apply enumMemberUpdate_keeps. Qed.

Lemma parsedEnumSteps_updates (o : obj) :
  updatesKeep R (parsedEnumSteps options onlyMode) o.
Proof. each_update. apply enumMemberUpdate_keeps. Qed.

Lemma classSteps_updates (o : obj) :
  updatesKeep R (classSteps options onlyMode) o.
Proof.
  each_update; [apply typeParameterUpdate_keeps|].
  apply records_keep, applyClassMemberOptions_keeps.
Qed.

Lemma parsedClassSteps_updates (reapply : obj -> res obj) (o : obj) :
  (forall m m', every (VObj m) = true -> reapply m = Ok m' ->
                every (VObj m') = true) ->
  updatesKeep R (parsedClassSteps reapply options onlyMode) o.
Proof.
  intros Hre. each_update; [apply typeParameterUpdate_keeps|].
  apply records_keep, Hre.
Qed.

Lemma interfaceSteps_updates (o : obj) :
  updatesKeep R (interfaceSteps options onlyMode) o.
Proof.
  each_update; [apply typeParameterUpdate_keeps|].
  apply records_keep, applyInterfaceMemberOptions_keeps.
Qed.

(** The namespace arm, for a callback that keeps the members the item
    holds. *)
Lemma namespaceSteps_updates (f : value -> res value) (o : obj) :
  (forall v v', In ("members", v) o -> every v = true ->
                mapArray f v = Ok v' ->
                every v' = true /\ notNull v' = true) ->
  updatesKeep R (namespaceSteps f) o.
Proof.
  intros Hf k g Hin. simpl in Hin.
  destruct Hin as [Hin|[Hin|[Hin|[]]]]; try discriminate Hin.
  injection Hin as <- <-. split; [reflexivity|exact Hf].
Qed.

Lemma applyVariableItemOptions_keeps (o : obj) :
  every (VObj o) = true ->
  every (VObj (applyVariableItemOptions options onlyMode o)) = true.
Proof. intros Ho. apply prune_keeps, prune_keeps, Ho. Qed.

(** The projection keeps a tree whose records pass [R] such a tree;
    the same for an array of trees. *)
Lemma applyParsedItemOptions_keeps_both (v : value) :
  (forall v', every v = true -> self v = Ok v' -> every v' = true)
  /\ (forall v', every v = true -> mapArray self v = Ok v' ->
                 every v' = true /\ notNull v' = true).
Proof.
  induction v as [| | | | |l IH|it IH] using value_nested_ind;
    try (split; [intros v' Hv H; injection H as <-; exact Hv
                |intros v' _ H; discriminate H]).
  - split; [intros v' Hv H; injection H as <-; exact Hv|].
    intros v' Hv H. simpl in H. inv_bind. subst.
    split; [|reflexivity].
    apply (mapM_keeps self l); [|exact Hv|exact Ha].
    eapply Forall_impl; [|exact IH]. intros e He. exact (proj1 He).
  - split; [|intros v' _ H; discriminate H].
    intros v' Hv H. rewrite applyParsedItemOptions_unfold in H.
    cbv zeta in H.
    destruct (is_str "variable" (prop "type" it));
      [injection H as <-; apply applyVariableItemOptions_keeps, Hv|].
    destruct (is_str "function" (prop "type" it));
      [inv_bind; subst;
       exact (applyFunctionItemOptions_keeps _ _ Hv Ha)|].
    destruct (is_str "type-alias" (prop "type" it)).
    { inv_bind. subst. rewrite typeAliasCase_run in Ha.
      kept_by_run typeAliasSteps_updates. }
    destruct (is_str "enum" (prop "type" it)).
    { inv_bind. subst. rewrite enumCase_run in Ha.
      kept_by_run enumSteps_updates. }
    destruct (is_str "class" (prop "type" it)).
    { inv_bind. subst. rewrite classCase_run in Ha.
      kept_by_run classSteps_updates. }
    destruct (is_str "interface" (prop "type" it)).
    { inv_bind. subst. rewrite interfaceCase_run in Ha.
      kept_by_run interfaceSteps_updates. }
    destruct (is_str "namespace" (prop "type" it));
      [|injection H as <-; exact Hv].
    inv_bind. subst. rewrite namespaceCase_run in Ha.
    apply (run_keeps (namespaceSteps self) it a);
      [distinct_keys| |exact Hv|exact Ha].
    apply namespaceSteps_updates. intros v v' Hin.
    rewrite Forall_forall in IH. exact (proj2 (IH _ Hin) v').
Qed.

Lemma applyParsedItemOptions_keeps (v v' : value) :
  every v = true -> self v = Ok v' -> every v' = true.
Proof. apply applyParsedItemOptions_keeps_both. Qed.

Lemma members_keep (v v' : value) :
  every v = true -> mapArray self v = Ok v' ->
  every v' = true /\ notNull v' = true.
Proof. apply applyParsedItemOptions_keeps_both. Qed.
End TreeFacts.


Lemma In_set (kv : string * value) (k : string) (v : value) (o : obj) :
  In kv (set k v o) -> In kv o \/ kv = (k, v).
Proof.
  induction o as [|[k' u] o IH]; simpl.
  - intros [H|[]]. auto.
  - destruct (String.eqb_spec k' k) as [->|Hk]; simpl.
    + intros [H|H]; auto.
    + intros [H|H]; [auto|]. destruct (IH H); auto.
Qed.

Lemma updatedKeys_In (k : string) (p : list step) :
  In k (updatedKeys p) -> exists g, In (Update k g) p.
Proof.
  induction p as [|[m|k' g] p IH]; simpl; [tauto| |].
  - intros H. destruct (IH H) as [g Hg]. eauto.
  - intros [->|H]; [eauto|]. destruct (IH H) as [g' Hg]. eauto.
Qed.

Section EntryFacts.
Variable options : NormalizedOptions.
Variable onlyMode : bool.

Local Notation "'runs'" := (run options onlyMode).

(** What holds of every entry of the result of a pass: of an entry
    that was there and every pruning keeps, and of the value an
    update stores. *)
Lemma run_entries (E : string -> value -> bool) (p : list step) (o r : obj) :
  NoDup (updatedKeys p) ->
  (forall k v, In (k, v) o ->
     (forall m, In (Prune m) p -> kept options onlyMode m k = true) ->
     E k v = true) ->
  (forall k g v v', In (Update k g) p -> In (k, v) o -> g v = Ok v' ->
                    E k v' = true) ->
  runs p o = Ok r ->
  forallb (fun kv => E (fst kv) (snd kv)) r = true.
Proof.
  revert o. induction p as [|s p IH]; simpl; intros o Hnd H1 H2 H.
  - injection H as <-. apply forallb_forall. intros [k v] Hin.
    apply (H1 k v Hin). intros m [].
  - inv_bind. destruct s as [m|key g]; simpl in Ha, Hnd.
    + injection Ha as <-.
      apply (IH (pruneObject options onlyMode o m) Hnd); [| |exact H].
      * intros k v Hin Hk. rewrite pruneObject_filter in Hin.
        apply filter_In in Hin. destruct Hin as [Hin Hm].
        apply (H1 k v Hin). intros m' [[= <-]|Hm']; [exact Hm|auto].
      * intros k g v v' Hg Hin. rewrite pruneObject_filter in Hin.
        apply filter_In in Hin. apply (H2 k g); tauto.
    + inversion Hnd as [|? ? Hnot Hnd']; subst.
      assert (forall k v, In (k, v) o ->
                (forall m, In (Prune m) p ->
                           kept options onlyMode m k = true) ->
                E k v = true) as H1'.
      { intros k v Hin Hk. apply (H1 k v Hin).
        intros m [Hm|Hm]; [discriminate|auto]. }
      apply updateField_inv in Ha.
      destruct Ha as [[_ ->]|[Ht [w [Hg ->]]]].
      * apply (IH o Hnd'); [exact H1'| |exact H].
        intros k g' v v' Hg'. apply (H2 k g'). right. exact Hg'.
      * assert (In (key, prop key o) o) as Hin.
        { apply get_In. unfold prop in *.
          destruct (get key o); [reflexivity|discriminate]. }
        apply (IH (set key w o) Hnd'); [| |exact H].
        -- intros k v Hkv Hk. apply In_set in Hkv.
           destruct Hkv as [Hkv|[= -> ->]]; [exact (H1' k v Hkv Hk)|].
           exact (H2 key g _ _ (or_introl eq_refl) Hin Hg).
        -- intros k g' v v' Hg' Hkv. apply (H2 k g'); [right; exact Hg'|].
           apply (In_set_other k key v w); [|exact Hkv].
           intros ->. apply Hnot.
           clear -Hg'. induction p as [|[m'|k' g''] p IHp]; simpl in *;
             [tauto| |].
           ++ destruct Hg' as [Hx|Hx]; [discriminate|auto].
           ++ destruct Hg' as [Hx|Hx]; [injection Hx as -> _; auto|auto].
Qed.

(** A field no step updates is looked up as before, or is gone. *)
Lemma run_get (p : list step) (o r : obj) (k : string) :
  runs p o = Ok r -> ~ In k (updatedKeys p) ->
  get k r = get k o \/ get k r = None.
Proof.
  revert o. induction p as [|s p IH]; simpl; intros o H Hk.
  - injection H as <-. auto.
  - inv_bind. destruct s as [m|key g]; simpl in Ha, Hk.
    + injection Ha as <-. destruct (IH _ H Hk) as [E|E]; [|auto].
      rewrite E, get_prune.
      destruct (kept options onlyMode m k); auto.
    + apply updateField_inv in Ha.
      assert (get k a = get k o) as Ea.
      { destruct Ha as [[_ ->]|[_ [w [_ ->]]]]; [reflexivity|].
        apply get_set_other. intros ->. apply Hk. left. reflexivity. }
      destruct (IH _ H (fun Hx => Hk (or_intror Hx))) as [E|E]; [|auto].
      left. congruence.
Qed.
End EntryFacts.

Lemma nested_not_level (k : string) : nested k = true -> k <> "level".
Proof. intros H ->. discriminate H. Qed.

Lemma soundRecord_filter (lv : string) (q : string -> bool) (o : obj) :
  soundRecord lv o = true -> soundRecord lv (filter (byKey q) o) = true.
Proof.
  unfold soundRecord, noNullAttribute, levelIfKept. intros H.
  apply andb_prop in H. destruct H as [Hn Hl].
  rewrite forallb_filter by exact Hn. rewrite get_byKey.
  destruct (q "level"); [exact Hl|reflexivity].
Qed.

Lemma soundRecord_set (lv k : string) (v : value) (o : obj) :
  nested k = true -> notNull v = true -> soundRecord lv o = true ->
  soundRecord lv (set k v o) = true.
Proof.
  unfold soundRecord, noNullAttribute, levelIfKept. intros Hk Hv H.
  apply andb_prop in H. destruct H as [Hn Hl].
  rewrite forallb_set; [|exact Hn|simpl; rewrite Hv; reflexivity].
  rewrite get_set_other by (apply not_eq_sym, nested_not_level, Hk).
  exact Hl.
Qed.

(** A level-["top"] item stamped is a sound tree at level ["sub"]. *)
Lemma soundItem_stampSub (it : obj) :
  soundItem "top" it = true ->
  everyRecord (soundRecord "sub") (VObj (stampSub it)) = true.
Proof.
  unfold soundItem, soundRecord, stampSub. simpl. intros H.
  apply andb_prop in H. destruct H as [H Hc].
  apply andb_prop in H. destruct H as [Hn _].
  unfold noNullAttribute, levelIfKept, children in *.
  rewrite !forallb_set by (assumption || reflexivity).
  rewrite get_set_same. reflexivity.
Qed.

Section SoundItems.
Variable options : NormalizedOptions.
Variable onlyMode : bool.

Local Notation "'sub'" := (soundRecord "sub").

(** A record a builder wrote, [null] for a documentation comment that
    is not to be kept still in it, comes out of its pruning pass a
    sound item. *)
Lemma run_sound (lv : string) (p : list step) (raw r : obj) :
  NoDup (updatedKeys p) ->
  updatesKeep sub p raw ->
  children sub raw = true ->
  (forall k v, In (k, v) raw ->
     (forall m, In (Prune m) p -> kept options onlyMode m k = true) ->
     notNull v || existsb (String.eqb k) nullableKeys = true) ->
  levelIfKept lv raw = true ->
  run options onlyMode p raw = Ok r ->
  soundItem lv r = true.
Proof.
  intros Hnd Hu Hc Hn Hl H.
  unfold soundItem, soundRecord. rewrite !andb_true_iff. repeat split.
  - apply (run_entries options onlyMode
             (fun k v => notNull v || existsb (String.eqb k) nullableKeys)
             p raw r Hnd Hn); [|exact H].
    intros k g v v' Hg Hin Hv. destruct (Hu k g Hg) as [Hk Hkeep].
    destruct (Hkeep v v' Hin (children_In sub k v raw Hc Hin Hk) Hv)
      as [_ ->].
    reflexivity.
  - unfold levelIfKept in *.
    destruct (run_get options onlyMode p raw r "level" H) as [-> | ->];
      [|exact Hl|reflexivity].
    intros Hin. apply updatedKeys_In in Hin. destruct Hin as [g Hg].
    destruct (Hu "level" g Hg) as [Hk _]. discriminate Hk.
  - apply (run_entries options onlyMode
             (fun k v => negb (nested k) || everyRecord sub v)
             p raw r Hnd); [| |exact H].
    + intros k v Hin _. unfold children in Hc.
      rewrite forallb_forall in Hc. exact (Hc _ Hin).
    + intros k g v v' Hg Hin Hv. destruct (Hu k g Hg) as [Hk Hkeep].
      destruct (Hkeep v v' Hin (children_In sub k v raw Hc Hin Hk) Hv)
        as [-> _].
      apply orb_true_r.
Qed.
End SoundItems.

Lemma notNull_strOr (s : option string) (fallback : string) :
  notNull (strOr s fallback) = true.
Proof. destruct s; reflexivity. Qed.

Lemma notNull_optStr (s : option string) : notNull (optStr s) = true.
Proof. destruct s; reflexivity. Qed.

Lemma notNull_initText (init : option Expression) :
  notNull (initText init) = true.
Proof. destruct init; reflexivity. Qed.

Lemma notNull_locOf (loc : option Range) : notNull (locOf loc) = true.
Proof. destruct loc; reflexivity. Qed.

Lemma notNull_parseDecorators (decs : list Decorator) :
  notNull (parseDecorators decs) = true.
Proof. destruct decs; reflexivity. Qed.

Lemma notNull_typeParamsOf (tps : list TypeParameterDeclaration) :
  notNull (typeParamsOf tps) = true.
Proof. destruct tps; reflexivity. Qed.

Lemma notNull_exportKind (isDefaultExport isExported : bool) :
  notNull (exportKind isDefaultExport isExported) = true.
Proof. reflexivity. Qed.

Lemma typeNodeText_notNull (n : option TypeNode) (v : value) :
  typeNodeText n = Ok v -> notNull v = true.
Proof.
  destruct n as [c|]; simpl; intros H; inv_bind; subst; reflexivity.
Qed.

Lemma parseTypeNode_notNull (n : option TypeNode) (v : value) :
  parseTypeNode n = Ok v -> notNull v = true.
Proof.
  destruct n as [[kindAcc textAcc shape]|];
    [|intros H; injection H as <-; reflexivity].
  unfold parseTypeNode. destruct kindAcc as [kind|e]; [|discriminate].
  destruct textAcc as [text|e]; [|discriminate].
  destruct (parsePresentTypeNode_readable kind text shape) as [fields [E _]].
  rewrite E. intros H. injection H as <-. reflexivity.
Qed.

Create Rewrite HintDb values.
#[export] Hint Rewrite notNull_strOr notNull_optStr notNull_initText
  notNull_locOf notNull_parseDecorators notNull_typeParamsOf
  notNull_exportKind : values.

Lemma getJsDocText_kept (options : NormalizedOptions) (onlyMode : bool)
  (m : PruneMap) (jsDocs : list string) :
  map_get "jsdoc" m = Some (Some K_JSDoc) ->
  kept options onlyMode m "jsdoc" = true ->
  notNull (getJsDocText jsDocs (options K_JSDoc)) = true.
Proof.
  unfold kept, shouldInclude, getJsDocText. intros ->.
  destruct (options K_JSDoc) as [[| |]|]; try reflexivity.
  destruct onlyMode; discriminate.
Qed.

Lemma mapM_Forall {A B : Type} (P : B -> Prop) (f : A -> res B)
  (l : list A) (l' : list B) :
  (forall x y, f x = Ok y -> P y) -> mapM f l = Ok l' -> Forall P l'.
Proof.
  intros Hf. revert l'. induction l as [|x l IH]; simpl; intros l' H;
    inv_bind; subst; constructor; eauto.
Qed.

Lemma records_sound (R : obj -> bool) (l : list obj) :
  Forall (fun o => everyRecord R (VObj o) = true) l ->
  everyRecord R (records l) = true.
Proof. apply forallb_records. Qed.

Lemma typeParamsOf_sound (tps : list TypeParameterDeclaration) :
  everyRecord (soundRecord "sub") (typeParamsOf tps) = true.
Proof.
  unfold typeParamsOf. destruct tps as [|tp tps]; [reflexivity|].
  generalize (tp :: tps). intros l. simpl.
  induction l as [|x l IH]; [reflexivity|]. simpl.
  rewrite IH. unfold soundRecord, noNullAttribute, levelIfKept. simpl.
  autorewrite with values. reflexivity.
Qed.

Ltac values_ok :=
  repeat match goal with
         | H : typeNodeText _ = Ok ?a |- context [notNull ?a] =>
             rewrite (typeNodeText_notNull _ _ H)
         | H : parseTypeNode _ = Ok ?a |- context [notNull ?a] =>
             rewrite (parseTypeNode_notNull _ _ H)
         | H : notNull ?a = true |- context [notNull ?a] => rewrite H
         end;
  autorewrite with values; rewrite ?orb_true_r.

Lemma paramInfo_sound (param : ParameterDeclaration) (info : obj) :
  paramInfo param = Ok info ->
  everyRecord (soundRecord "sub") (VObj info) = true.
Proof.
  unfold paramInfo. intros H. inv_bind. subst.
  unfold soundRecord, noNullAttribute, levelIfKept. simpl.
  values_ok. reflexivity.
Qed.

Lemma methodParamInfo_sound (param : ParameterDeclaration) (info : obj) :
  methodParamInfo param = Ok info ->
  everyRecord (soundRecord "sub") (VObj info) = true.
Proof.
  unfold methodParamInfo, paramInfo. intros H. inv_bind. subst.
  unfold soundRecord, noNullAttribute, levelIfKept. simpl.
  values_ok. reflexivity.
Qed.

Lemma parameters_sound (f : ParameterDeclaration -> res obj)
  (params : list ParameterDeclaration) (args : list obj) :
  (forall param info, f param = Ok info ->
                      everyRecord (soundRecord "sub") (VObj info) = true) ->
  mapM f params = Ok args ->
  everyRecord (soundRecord "sub") (records args) = true.
Proof.
  intros Hf H. apply records_sound.
  exact (mapM_Forall _ f params args Hf H).
Qed.

(** The obligations of [run_sound] on a record written out. *)
Ltac children_ok :=
  unfold children;
  cbn [forallb fst snd nested nestedKeys existsb negb orb andb
       String.eqb Ascii.eqb Bool.eqb];
  rewrite ?typeParamsOf_sound;
  repeat match goal with
         | H : everyRecord _ _ = true |- _ => rewrite H
         end;
  reflexivity.

Ltac jsdoc_ok Hkept :=
  match goal with
  | |- context [notNull (getJsDocText ?docs _)] =>
      first
        [ rewrite (getJsDocText_kept _ _ baseItemMap docs eq_refl
                     (Hkept baseItemMap ltac:(simpl; auto 10)))
        | rewrite (getJsDocText_kept _ _ methodItemMap docs eq_refl
                     (Hkept methodItemMap ltac:(simpl; auto 10)))
        | rewrite (getJsDocText_kept _ _ enumMemberMap docs eq_refl
                     (Hkept enumMemberMap ltac:(simpl; auto 10)))
        | rewrite (getJsDocText_kept _ _ interfaceMemberPropertyMap docs
                     eq_refl
                     (Hkept interfaceMemberPropertyMap
                        ltac:(simpl; auto 10)))
        | rewrite (getJsDocText_kept _ _ interfaceMemberMethodMap docs
                     eq_refl
                     (Hkept interfaceMemberMethodMap
                        ltac:(simpl; auto 10))) ]
  end.

Ltac entries_ok :=
  let Hin := fresh "Hin" in
  let Hkept := fresh "Hkept" in
  intros ? ? Hin Hkept; cbn [In] in Hin;
  repeat (destruct Hin as [Hin|Hin];
          [injection Hin as <- <-; try jsdoc_ok Hkept; values_ok;
           repeat match goal with
                  | |- context [notNull (if ?b then _ else _)] => destruct b
                  end;
           simpl; rewrite ?orb_true_r; reflexivity|]);
  contradiction.

Ltac level_ok :=
  unfold levelIfKept; simpl; rewrite ?String.eqb_refl; reflexivity.

Lemma prunes_updates (R : obj -> bool) (p : list step) (o : obj) :
  updatedKeys p = [] -> updatesKeep R p o.
Proof.
  intros Hp k g Hin. exfalso.
  induction p as [|[m|k' g'] p IH]; simpl in *;
    [tauto| |discriminate Hp].
  destruct Hin as [Hin|Hin]; [discriminate Hin|auto].
Qed.

Lemma record_sound (o : obj) :
  noNullAttribute o = true -> levelIfKept "sub" o = true ->
  children (soundRecord "sub") o = true ->
  everyRecord (soundRecord "sub") (VObj o) = true.
Proof.
  intros Hn Hl Hc.
  change (soundRecord "sub" o && children (soundRecord "sub") o = true).
  rewrite Hc. unfold soundRecord. rewrite Hn, Hl. reflexivity.
Qed.

Ltac arm_updates lemma :=
  first [apply (lemma _ _ _ (soundRecord_filter "sub")
                  (soundRecord_set "sub"))
        |apply (lemma _ _ _ (soundRecord_filter "sub"))].

Ltac no_updates := apply prunes_updates; reflexivity.

Lemma every_soundItem (o : obj) :
  soundItem "sub" o = true ->
  everyRecord (soundRecord "sub") (VObj o) = true.
Proof. exact (fun H => H). Qed.

Lemma prune_run (options : NormalizedOptions) (onlyMode : bool)
  (m : PruneMap) (o : obj) :
  run options onlyMode [ Prune m ] o = Ok (pruneObject options onlyMode o m).
Proof. reflexivity. Qed.

Lemma parsedEnum_run (options : NormalizedOptions) (onlyMode : bool)
  (x r : obj) :
  mapField "members" (pure (applyEnumMemberOptions options onlyMode))
    (pruneObject options onlyMode (applyBaseItemOptions options onlyMode x)
       enumMap) = Ok r ->
  run options onlyMode (parsedEnumSteps options onlyMode) x = Ok r.
Proof.
  intros H. cbn [parsedEnumSteps run exec bind].
  unfold mapField, mapFieldValues, applyBaseItemOptions in H.
  rewrite H. reflexivity.
Qed.

Lemma parsedClass_run (options : NormalizedOptions) (onlyMode : bool)
  (reapply : obj -> res obj) (x r : obj) :
  (item1 <- mapField "typeParameters"
              (pure (applyTypeParameterOptions options onlyMode))
              (applyBaseItemOptions options onlyMode x) ;;
   item2 <- mapField "items" reapply item1 ;;
   Ok (pruneObject options onlyMode item2 classMap)) = Ok r ->
  run options onlyMode (parsedClassSteps reapply options onlyMode) x = Ok r.
Proof. exact (fun H => H). Qed.

(** [H] is the pass [p] run on a record written out. *)
Ltac sound_by_run H p updates :=
  refine (run_sound _ _ _ p _ _ _ _ _ _ _ H);
  [distinct_keys|updates|children_ok|entries_ok|level_ok].

(** The same for a record pruned with one map, or as a variable is. *)
Ltac sound_pruned :=
  match goal with
  | |- soundItem ?lv (pruneObject ?o ?om ?raw ?m) = true =>
      refine (run_sound o om lv [ Prune m ] raw _ _ _ _ _ _
                (prune_run o om m raw))
  | |- soundItem ?lv (applyVariableItemOptions ?o ?om ?raw) = true =>
      refine (run_sound o om lv variableSteps raw _ _ _ _ _ _
                (eq_sym (applyVariableItemOptions_run o om raw)))
  end;
  [distinct_keys|no_updates|children_ok|entries_ok|level_ok].

Section Builders.
Variable options : option ParseOptions.

Local Notation "'opts'" := (normalizeOptions options).
Local Notation "'om'" := (onlyMode_of (normalizeOptions options)).
Local Notation "'sub'" := (soundRecord "sub").

Lemma functionItem_sound (fn : FunctionLike) (lv : string) (raw f : obj)
  (e : string) :
  functionLikeToItem fn lv (opts K_JSDoc) = Ok raw ->
  (applyFunctionItemOptions opts om raw = Ok f
   \/ applyFunctionItemOptions opts om (set "exports" (VStr e) raw) = Ok f) ->
  soundItem lv f = true.
Proof.
  unfold functionLikeToItem. intros H Hf. inv_bind. subst raw.
  pose proof (parameters_sound _ _ _ paramInfo_sound Ha) as Hargs.
  destruct Hf as [Hf|Hf]; simpl in Hf;
    rewrite applyFunctionItemOptions_run in Hf;
    sound_by_run Hf (functionSteps opts om)
      ltac:(arm_updates functionSteps_updates).
Qed.

Lemma variableItem_sound (kind : string) (isDefaultExport isExported : bool)
  (d : VariableDeclaration) :
  soundItem "top"
    (applyVariableItemOptions opts om
       (variableItem options kind isDefaultExport isExported d)) = true.
Proof. unfold variableItem. sound_pruned. Qed.

Lemma defaultExportItem_sound (vd : VariableDeclaration) :
  soundItem "top"
    (applyVariableItemOptions opts om (defaultExportItem options vd)) = true.
Proof. unfold defaultExportItem. sound_pruned. Qed.

Lemma typeAlias_sound (ta : TypeAliasDeclaration) (raw item : obj) :
  typeAliasItem options ta = Ok raw ->
  typeAliasCase opts om raw = Ok item ->
  soundItem "top" item = true.
Proof.
  unfold typeAliasItem. intros H Hi. inv_bind. subst raw.
  assert (notNull a = true) as Htarget.
  { destruct (ta_typeNode ta); inv_bind; subst;
      [reflexivity|apply notNull_optStr]. }
  rewrite typeAliasCase_run in Hi.
  sound_by_run Hi (typeAliasSteps opts om)
    ltac:(arm_updates typeAliasSteps_updates).
Qed.

Lemma enumMember_sound (m : EnumMemberNode) :
  everyRecord sub (VObj (enumMember options m)) = true.
Proof.
  apply every_soundItem. unfold enumMember, applyEnumMemberOptions.
  sound_pruned.
Qed.

Lemma enum_sound (ed : EnumDeclaration) (item : obj) :
  mapField "members" (pure (applyEnumMemberOptions opts om))
    (pruneObject opts om (applyBaseItemOptions opts om (enumItem options ed))
       enumMap) = Ok item ->
  soundItem "top" item = true.
Proof.
  intros H. apply parsedEnum_run in H. unfold enumItem in H.
  assert (everyRecord sub (records (map (enumMember options)
                                      (en_members ed))) = true) as Hm.
  { apply records_sound, Forall_forall. intros x Hx.
    apply in_map_iff in Hx. destruct Hx as [m [<- _]].
    apply enumMember_sound. }
  sound_by_run H (parsedEnumSteps opts om)
    ltac:(arm_updates parsedEnumSteps_updates).
Qed.

Lemma indexSignature_sound (idx : IndexSignatureNode) (raw : obj) :
  indexSignatureItem idx = Ok raw ->
  everyRecord sub (VObj (applyIndexSignatureOptions opts om raw)) = true.
Proof.
  unfold indexSignatureItem. intros H. inv_bind. subst raw.
  assert (notNull a = true) as Hret.
  { destruct (is_returnTypeNode idx); inv_bind; subst;
      [reflexivity|apply notNull_optStr]. }
  apply every_soundItem. unfold applyIndexSignatureOptions. sound_pruned.
Qed.

Lemma classMember_sound (name : option string) (m : ClassMember)
  (ms : list obj) :
  classMember options name m = Ok ms ->
  Forall (fun o => everyRecord sub (VObj o) = true) ms.
Proof.
  destruct m as [ctor|meth|gname rt docs|sname params docs|p|idx|];
    cbn [classMember]; intros H; inv_bind; subst; repeat constructor.
  - pose proof (functionItem_sound ctor "sub" _ _ "" Ha (or_introl Ha0))
      as Hf.
    apply every_soundItem in Hf.
    apply record_sound; [|reflexivity|children_ok].
    unfold noNullAttribute. simpl. values_ok. reflexivity.
  - unfold methodItem in Ha. inv_bind. subst a.
    match goal with
    | Hm : mapM methodParamInfo _ = Ok _ |- _ =>
        pose proof (parameters_sound _ _ _ methodParamInfo_sound Hm) as Hargs
    end.
    apply every_soundItem. rewrite applyMethodItemOptions_run in Ha0.
    sound_by_run Ha0 (methodSteps opts om)
      ltac:(arm_updates methodSteps_updates).
  - apply every_soundItem. rewrite applyMethodItemOptions_run in Ha0.
    sound_by_run Ha0 (methodSteps opts om)
      ltac:(arm_updates methodSteps_updates).
  - pose proof (parameters_sound _ _ _ methodParamInfo_sound Ha) as Hargs.
    apply every_soundItem. rewrite applyMethodItemOptions_run in Ha0.
    sound_by_run Ha0 (methodSteps opts om)
      ltac:(arm_updates methodSteps_updates).
  - apply every_soundItem. unfold applyClassMemberPropertyOptions.
    sound_pruned.
  - eapply indexSignature_sound. eassumption.
Qed.

Lemma reapplyConstructor_keeps (m m' : obj) :
  everyRecord sub (VObj m) = true ->
  reapplyConstructor options m = Ok m' ->
  everyRecord sub (VObj m') = true.
Proof.
  unfold reapplyConstructor. intros Hm.
  destruct (is_str "constructor" (prop "type" m)).
  - apply (applyConstructorOptions_keeps _ _ _ (soundRecord_filter "sub")
             (soundRecord_set "sub") _ _ Hm).
  - intros H. injection H as <-. exact Hm.
Qed.

Lemma classItem_sound (cd : ClassDeclaration) (item : obj) :
  classItem options cd = Ok item -> soundItem "top" item = true.
Proof.
  unfold classItem. intros H.
  apply bind_Ok in H. destruct H as [members [Hm H]]. cbv zeta in H.
  assert (everyRecord sub (records members) = true) as Hmembers.
  { apply records_sound.
    eapply concatMapM_Forall; [|exact Hm].
    intros m ms _. apply classMember_sound. }
  apply parsedClass_run in H.
  refine (run_sound _ _ _ (parsedClassSteps (reapplyConstructor options)
                             opts om) _ _ _ _ _ _ _ H);
    [distinct_keys| |children_ok|entries_ok|level_ok].
  apply (parsedClassSteps_updates _ _ _ (soundRecord_filter "sub")).
  exact reapplyConstructor_keeps.
Qed.

Lemma interfaceMember_sound (m : InterfaceMember) (ms : list obj) :
  interfaceMember options m = Ok ms ->
  Forall (fun o => everyRecord sub (VObj o) = true) ms.
Proof.
  destruct m as [p|sig|idx|]; cbn [interfaceMember]; intros H; inv_bind;
    subst; repeat constructor.
  - apply every_soundItem. unfold applyInterfaceMemberPropertyOptions.
    sound_pruned.
  - pose proof (parameters_sound _ _ _ paramInfo_sound Ha) as Hargs.
    apply every_soundItem.
    rewrite applyInterfaceMemberMethodOptions_run in Ha1.
    sound_by_run Ha1 (interfaceMethodSteps opts om)
      ltac:(arm_updates interfaceMethodSteps_updates).
  - eapply indexSignature_sound. eassumption.
Qed.

Lemma interfaceItem_sound (id : InterfaceDeclaration) (item : obj) :
  interfaceItem options id = Ok item -> soundItem "top" item = true.
Proof.
  unfold interfaceItem. intros H.
  apply bind_Ok in H. destruct H as [members [Hm H]]. cbv zeta in H.
  assert (everyRecord sub (records members) = true) as Hmembers.
  { apply records_sound.
    eapply concatMapM_Forall; [|exact Hm].
    intros m ms _. apply interfaceMember_sound. }
  rewrite interfaceCase_run in H.
  sound_by_run H (interfaceSteps opts om)
    ltac:(arm_updates interfaceSteps_updates).
Qed.

Lemma namespaceItem_sound (name : option string) (isExported : bool)
  (jsDocs : list string) (members : list obj) (item : obj) :
  Forall (fun o => everyRecord sub (VObj o) = true) members ->
  namespaceItem options name isExported jsDocs members = Ok item ->
  soundItem "top" item = true.
Proof.
  unfold namespaceItem. intros Hm H. cbv zeta in H.
  apply records_sound in Hm. rewrite namespaceCase_run in H.
  refine (run_sound _ _ _ (namespaceSteps (applyParsedItemOptions opts om))
            _ _ _ _ _ _ _ H);
    [distinct_keys| |children_ok|entries_ok|level_ok].
  apply namespaceSteps_updates. intros v v' _.
  apply (members_keep _ _ _ (soundRecord_filter "sub")
           (soundRecord_set "sub")).
Qed.

Lemma parseStatement_sound (stmt : Statement) :
  forall (src : SourceFile) (items : list obj),
    parseStatement options src stmt = Ok items ->
    Forall (fun it => soundItem "top" it = true) items.
Proof.
  induction stmt
    as [k d e ds|fd|ta|ed|e|cd|id|name exported docs forgotten body IH|]
    using Statement_nested_ind; intros src items;
    first [intros Hp; apply parseStatement_ModuleDeclaration_Ok in Hp
          |simpl; intros Hp].
  - inv_bind. subst. apply Forall_forall. intros x Hin.
    apply in_map_iff in Hin. destruct Hin as [d' [<- _]].
    apply variableItem_sound.
  - inv_bind. subst. repeat constructor.
    exact (functionItem_sound fd "top" _ _ "" Ha (or_introl Ha0)).
  - inv_bind. subst. repeat constructor.
    exact (typeAlias_sound ta _ _ Ha Ha0).
  - inv_bind. subst. repeat constructor.
    exact (enum_sound ed _ Ha).
  - destruct e as [expr|]; [|inv_bind; subst; constructor].
    destruct (_ || _).
    + inv_bind. subst. repeat constructor.
      exact (functionItem_sound _ "top" _ _ "default" Ha (or_intror Ha0)).
    + destruct (ee_text expr); [inv_bind; subst; constructor|].
      destruct (getVariableDeclaration _ _);
        inv_bind; subst; repeat constructor.
      apply defaultExportItem_sound.
  - inv_bind. subst. repeat constructor. apply (classItem_sound cd), Ha.
  - inv_bind. subst. repeat constructor. apply (interfaceItem_sound id), Ha.
  - destruct Hp as [members [item [Hm [Ha [-> _]]]]].
    repeat constructor.
    apply (namespaceItem_sound name exported docs members); [|exact Ha].
    destruct body as [files|]; [|inv_bind; subst; constructor].
    eapply concatMapM_Forall; [|exact Hm].
    intros tmp ys Hin Hs. apply bind_Ok in Hs.
    destruct Hs as [its [Hits Hs]]. injection Hs as <-.
    rewrite Forall_forall in IH. specialize (IH tmp Hin).
    assert (Forall (fun it => soundItem "top" it = true) its) as Hall.
    { eapply concatMapM_Forall; [|exact Hits].
      intros s zs Hs Hz. rewrite Forall_forall in IH.
      exact (IH s Hs (tmpFile (snd tmp)) zs Hz). }
    apply Forall_forall. intros x Hx. apply in_map_iff in Hx.
    destruct Hx as [it [<- Hit]]. apply soundItem_stampSub.
    rewrite Forall_forall in Hall. apply Hall, Hit.
  - inv_bind. subst. constructor.
Qed.
End Builders.

Lemma parseWithTsMorph_sound (options : option ParseOptions)
  (src : SourceFile) (items : list obj) :
  parseWithTsMorph options src = Ok items ->
  Forall (fun it => soundItem "top" it = true) items.
Proof.
  intros H. unfold parseWithTsMorph in H.
  eapply concatMapM_Forall; [|exact H].
  intros stmt ys _. apply parseStatement_sound.
Qed.

(* ================================================================== *)
(** * The normalizer: totality and text *)

(** C4.  [parseTypeNode] is not total on nodes whose accessors fail:
    on a node the front end has forgotten, whose every accessor raises,
    the read of the kind before the [try] throws out of the
    normalizer, and no ["unknown"] record is returned. *)
Theorem parseTypeNode_throws_on_forgotten_node :
  parseTypeNode (Some forgottenNode) = Throw forgottenMessage.
Proof. reflexivity. Qed.

(** C8.  The record a type node is normalized to carries, as [text],
    the source rendering the front end gives for the node ([getText],
    which leaves out the trivia around it); no node gives no result. *)
Theorem normalized_text_is_node_text (node : option TypeNode) :
  match node with
  | None => parseTypeNode None = Ok VUndef
  | Some n =>
      forall kind text,
        kindAccOf n = Returns kind -> textAccOf n = Returns text ->
        exists fields,
          parseTypeNode (Some n) = Ok (VObj fields)
          /\ get "text" fields = Some (VStr text)
  end.
Proof.
  destruct node as [[kindAcc textAcc shape]|]; [|reflexivity].
  simpl. intros kind text -> ->.
  destruct shape; cbn [parsePresentTypeNode fromAcc bind]; split_calls;
    eexists; split; reflexivity.
Qed.

Lemma normalized_text_is_node_text_witness :
  kindAccOf unionOfAB = Returns (VStr "UnionType")
  /\ textAccOf unionOfAB = Returns "A | B"
  /\ exists fields,
       parseTypeNode (Some unionOfAB) = Ok (VObj fields)
       /\ get "text" fields = Some (VStr "A | B").
Proof.
  split; [reflexivity|]. split; [reflexivity|].
  exact (normalized_text_is_node_text (Some unionOfAB)
           (VStr "UnionType") "A | B" eq_refl eq_refl).
Defined.

(* ================================================================== *)
(** * Best-effort literal values *)

Lemma slice0_length (n : nat) (text : string) :
  String.length (slice0 n text) = Nat.min n (String.length text).
Proof.
  unfold slice0. revert text. induction n as [|n IH]; intros [|c text];
    simpl; try reflexivity.
  rewrite IH. reflexivity.
Qed.

Lemma slice0_prefix (n : nat) (text : string) :
  prefix (slice0 n text) text = true.
Proof.
  unfold slice0. revert text. induction n as [|n IH]; intros [|c text];
    simpl; try reflexivity.
  rewrite IH. destruct (ascii_dec c c); [reflexivity|contradiction].
Qed.

Lemma slice0_short (n : nat) (text : string) :
  String.length text <= n -> slice0 n text = text.
Proof.
  unfold slice0. revert text. induction n as [|n IH]; intros [|c text];
    simpl; intros H; try reflexivity; [lia|].
  rewrite IH by lia. reflexivity.
Qed.

(** C10.  For an initializer that is not a simple literal the parsed
    value is the raw text cut to its first 200 characters (the text
    itself when it is no longer than that); a simple literal is
    converted from its whole text. *)
Theorem literalValueText_truncates_non_literals (e : Expression) :
  (isSimpleLiteral (expr_kind e) = false ->
   expr_kind e <> SyntaxKind.Unknown ->
   literalValueText (Some e) = VStr (slice0 200 (expr_text e))
   /\ String.length (slice0 200 (expr_text e))
      = Nat.min 200 (String.length (expr_text e))
   /\ prefix (slice0 200 (expr_text e)) (expr_text e) = true
   /\ (String.length (expr_text e) <= 200 ->
       literalValueText (Some e) = VStr (expr_text e)))
  /\ (isSimpleLiteral (expr_kind e) = true ->
      literalValueText (Some e)
      = match expr_kind e with
        | SyntaxKind.StringLiteral => VStr (expr_literalText e)
        | SyntaxKind.NumericLiteral => VNum (expr_text e)
        | SyntaxKind.TrueKeyword => VBool true
        | SyntaxKind.FalseKeyword => VBool false
        | _ => VNull
        end).
Proof.
  unfold literalValueText. split.
  - intros Hlit Hk. destruct (expr_kind e); try discriminate;
      [congruence|].
    split; [reflexivity|]. split; [apply slice0_length|].
    split; [apply slice0_prefix|].
    intros Hlen. rewrite slice0_short by exact Hlen. reflexivity.
  - destruct (expr_kind e); simpl; intros H; try discriminate; reflexivity.
Qed.

Lemma literalValueText_truncates_non_literals_witness :
  isSimpleLiteral (expr_kind callOfF) = false
  /\ expr_kind callOfF <> SyntaxKind.Unknown
  /\ literalValueText (Some callOfF) = VStr "f()"
  /\ isSimpleLiteral (expr_kind (numericLiteral "42")) = true
  /\ literalValueText (Some (numericLiteral "42")) = VNum "42".
Proof.
  split; [reflexivity|]. split; [discriminate|].
  destruct (literalValueText_truncates_non_literals callOfF) as [H _].
  destruct (H eq_refl ltac:(discriminate)) as [E _].
  split; [exact E|]. split; [reflexivity|].
  exact (proj2 (literalValueText_truncates_non_literals
                  (numericLiteral "42")) eq_refl).
Defined.

(* ================================================================== *)
(** * Type aliases *)

(** C7, as amended.  For [type T = A | B;] under the default
    configuration the one item is a type alias whose [target] is the
    text ["A | B"]; the union record is what the normalizer gives for
    the type node of the alias, which the extractor does not call
    for a type alias. *)
Theorem type_alias_target_is_text_and_node_normalizes_to_union :
  parseWithTsMorph None sourceTypeT
  = Ok [ [ ("name", VStr "T"); ("type", VStr "type-alias");
           ("level", VStr "top"); ("exports", VStr "none");
           ("jsdoc", VStr ""); ("target", VStr "A | B");
           ("typeParameters", VUndef) ] ]
  /\ parseTypeNode (Some unionOfAB)
     = Ok (VObj
             [ ("kind", VStr "union"); ("text", VStr "A | B");
               ("types",
                 VArr [ VObj [ ("kind", VStr "reference");
                               ("text", VStr "A"); ("name", VStr "A");
                               ("typeArguments", VArr []) ];
                        VObj [ ("kind", VStr "reference");
                               ("text", VStr "B"); ("name", VStr "B");
                               ("typeArguments", VArr []) ] ]) ]).
Proof. split; reflexivity. Qed.

(** C7, as stated, fails: no field of the item for [type T = A | B;]
    holds a record, let alone the union record; the target is a
    string. *)
Lemma type_alias_item_holds_no_union_record :
  ~ exists item key target,
      parseWithTsMorph None sourceTypeT = Ok [ item ]
      /\ get key item = Some (VObj target)
      /\ get "kind" target = Some (VStr "union").
Proof.
  intros [item [key [target [H [Hk _]]]]].
  vm_compute in H. injection H as <-. simpl in Hk.
  repeat match type of Hk with
         | (if ?c then _ else _) = _ => destruct c; [discriminate|]
         end.
  discriminate.
Qed.

(* ================================================================== *)
(** * Default exports *)

Lemma concatMapM_app {A B : Type} (f : A -> res (list B)) (l1 l2 : list A)
  (out : list B) :
  concatMapM f (l1 ++ l2) = Ok out ->
  exists o1 o2,
    concatMapM f l1 = Ok o1 /\ concatMapM f l2 = Ok o2 /\ out = o1 ++ o2.
Proof.
  revert out. induction l1 as [|x l1 IH]; simpl; intros out H.
  - exists [], out. auto.
  - inv_bind. destruct (IH _ Ha0) as [o1 [o2 [H1 [H2 ->]]]].
    exists (a ++ o1), o2. rewrite Ha, H1. simpl.
    split; [reflexivity|]. split; [exact H2|].
    subst out. apply app_assoc.
Qed.

Lemma concatMapM_In {A B : Type} (f : A -> res (list B)) (l : list A)
  (out : list B) (x : A) :
  concatMapM f l = Ok out -> In x l ->
  exists ys, f x = Ok ys /\ incl ys out.
Proof.
  revert out. induction l as [|y l IH]; simpl; intros out H Hin; [tauto|].
  inv_bind. subst out. destruct Hin as [->|Hin].
  - exists a. split; [assumption|]. apply incl_appl, incl_refl.
  - destruct (IH _ Ha0 Hin) as [ys [Hy Hincl]].
    exists ys. split; [assumption|]. apply incl_appr, Hincl.
Qed.

Lemma filter_In_length {A : Type} (p : A -> bool) (l : list A) (x : A) :
  In x l -> p x = true -> 1 <= length (filter p l).
Proof.
  intros Hin Hp.
  assert (In x (filter p l)) as H by (apply filter_In; auto).
  destruct (filter p l); [destruct H|simpl; lia].
Qed.

(** The declaration [getVariableDeclaration] finds stands in a
    variable statement of the file. *)
Lemma getVariableDeclaration_In (src : SourceFile) (id : string)
  (vd : VariableDeclaration) :
  getVariableDeclaration src id = Some vd ->
  exists kind isDefaultExport isExported declarations,
    In (VariableStatement kind isDefaultExport isExported declarations)
      (sf_statements src)
    /\ In vd declarations.
Proof.
  unfold getVariableDeclaration, variableDeclarations. intros H.
  apply find_some in H. destruct H as [H _].
  apply in_flat_map in H. destruct H as [stmt [Hs Hin]].
  destruct stmt; try (destruct Hin; fail).
  eauto 6.
Qed.

Lemma prop_get (k : string) (o : obj) (v : value) :
  prop k o = v -> v <> VUndef -> get k o = Some v.
Proof.
  unfold prop. destruct (get k o); intros <- H; [reflexivity|congruence].
Qed.

Lemma keepsAll_steps (options : NormalizedOptions) (p : list step)
  (k : string) :
  (forall m k, kept options false m k = true) ->
  Forall (fun s => match s with
                   | Prune m => kept options false m k = true
                   | Update _ _ => True
                   end) p.
Proof.
  intros H. induction p as [|[m|key g] p IH]; constructor; auto.
Qed.

(** A field no step of a pass updates comes out with its value or not
    at all, and with its value under the default configuration. *)
Lemma kept_by_run (options : option ParseOptions) (p : list step)
  (raw r : obj) (k : string) (v : value) :
  let opts := normalizeOptions options in
  run opts (onlyMode_of opts) p raw = Ok r ->
  ~ In k (updatedKeys p) -> prop k raw = v -> v <> VUndef ->
  (prop k r = v \/ prop k r = VUndef)
  /\ (options = None -> get k r = Some v).
Proof.
  intros opts Hrun Hupd Hraw Hv. split.
  - rewrite <- Hraw. exact (run_prop _ _ _ _ _ _ Hrun Hupd).
  - intros ->. apply prop_get; [|exact Hv].
    unfold opts in Hrun. rewrite onlyMode_default in Hrun.
    rewrite (run_prop_kept _ _ _ _ _ Hrun Hupd
               (keepsAll_steps _ _ _ default_keeps_all)).
    exact Hraw.
Qed.

Ltac not_updated := simpl; intuition discriminate.

(** The item of a declaration the front end reports as the default
    export. *)
Lemma default_declaration_item (options : option ParseOptions)
  (src : SourceFile) (stmt : Statement) (name : string)
  (items : list obj) :
  defaultExportOf stmt = Some (Some name) ->
  parseStatement options src stmt = Ok items ->
  exists item,
    items = [ item ]
    /\ (prop "exports" item = VStr "default"
        \/ prop "exports" item = VUndef)
    /\ (options = None ->
        get "name" item = Some (VStr name)
        /\ get "exports" item = Some (VStr "default")).
Proof.
  assert (forall (p : list step) (raw r : obj),
            run (normalizeOptions options)
              (onlyMode_of (normalizeOptions options)) p raw = Ok r ->
            ~ In "name" (updatedKeys p) -> ~ In "exports" (updatedKeys p) ->
            prop "name" raw = VStr name ->
            prop "exports" raw = VStr "default" ->
            (prop "exports" r = VStr "default"
             \/ prop "exports" r = VUndef)
            /\ (options = None ->
                get "name" r = Some (VStr name)
                /\ get "exports" r = Some (VStr "default"))) as Hrun.
  { intros p raw r H Hn He Hname Hexp.
    destruct (kept_by_run options p raw r "exports" _ H He Hexp
                ltac:(discriminate)) as [H1 H2].
    destruct (kept_by_run options p raw r "name" _ H Hn Hname
                ltac:(discriminate)) as [_ H3].
    split; [exact H1|]. intros E. split; [exact (H3 E)|exact (H2 E)]. }
  destruct stmt
    as [k d e ds|fd|ta|ed|e|cd|id|nm exported docs forgotten body|];
    cbn [defaultExportOf]; try discriminate;
    intros Hd; cbn [parseStatement]; cbv zeta; intros H.
  - destruct (fn_isDefaultExport fd) eqn:Ed; [|discriminate].
    injection Hd as Hname. inv_bind. subst items.
    eexists. split; [reflexivity|].
    unfold functionLikeToItem in Ha. inv_bind. subst a.
    rewrite applyFunctionItemOptions_run in Ha0.
    apply (Hrun _ _ _ Ha0); [not_updated|not_updated| |];
      rewrite ?Hname, ?Ed; reflexivity.
  - destruct (ta_isDefaultExport ta) eqn:Ed; [|discriminate].
    injection Hd as Hname. inv_bind. subst items.
    eexists. split; [reflexivity|].
    unfold typeAliasItem in Ha. inv_bind. subst a.
    rewrite typeAliasCase_run in Ha0.
    apply (Hrun _ _ _ Ha0); [not_updated|not_updated| |];
      rewrite ?Hname, ?Ed; reflexivity.
  - destruct (en_isDefaultExport ed) eqn:Ed; [|discriminate].
    injection Hd as Hname. inv_bind. subst items.
    eexists. split; [reflexivity|].
    apply parsedEnum_run in Ha.
    apply (Hrun _ _ _ Ha); [not_updated|not_updated| |];
      unfold enumItem; rewrite ?Hname, ?Ed; reflexivity.
  - destruct (cd_isDefaultExport cd) eqn:Ed; [|discriminate].
    injection Hd as Hname. inv_bind. subst items.
    eexists. split; [reflexivity|].
    unfold classItem in Ha. cbv zeta in Ha. inv_bind.
    match goal with
    | H1 : mapField "typeParameters" _ _ = Ok ?x1,
      H2 : mapField "items" _ ?x1 = Ok ?x2 |- _ =>
        pose proof (parsedClass_run _ _ (reapplyConstructor options) _ _
                      ltac:(rewrite H1; cbn [bind]; rewrite H2;
                            reflexivity)) as Hc
    end.
    subst a.
    apply (Hrun _ _ _ Hc); [not_updated|not_updated| |];
      rewrite ?Hname, ?Ed; reflexivity.
  - destruct (id_isDefaultExport id) eqn:Ed; [|discriminate].
    injection Hd as Hname. inv_bind. subst items.
    eexists. split; [reflexivity|].
    unfold interfaceItem in Ha. cbv zeta in Ha. inv_bind.
    rewrite interfaceCase_run in Ha.
    apply (Hrun _ _ _ Ha); [not_updated|not_updated| |];
      rewrite ?Hname, ?Ed; reflexivity.
Qed.

(** C3, as amended.  When the default export is an identifier, what
    the export statement adds to the output depends on what the
    identifier names.

    If it names a variable declaration of the file, the items of the
    other statements are left as they are; among them is the item of
    that declaration, with the export disposition of its own
    statement; and the export statement adds one more variable item
    built from the declaration: same name, subtype ["constant"],
    export disposition ["default"], level ["top"].  Under the default
    configuration two items of the output at least bear the name.

    Otherwise the export statement adds nothing, and the output is
    that of the other statements.  The function, class, interface,
    enum or type alias of that name which the front end reports as
    the default export (as it does for the one the export names) has
    its one item there; its export disposition is ["default"] where
    the projection left it, and is there under the default
    configuration. *)
Theorem default_export_by_name_duplicates_variables_only
  (options : option ParseOptions) (src : SourceFile)
  (before after : list Statement) (expr : ExportedExpression)
  (out : list obj) :
  let opts := normalizeOptions options in
  let onlyMode := onlyMode_of opts in
  sf_statements src = before ++ ExportAssignment (Some expr) :: after ->
  (String.eqb (ee_kindName expr) "FunctionExpression"
   || String.eqb (ee_kindName expr) "ArrowFunction") = false ->
  ee_text expr <> "" ->
  parseWithTsMorph options src = Ok out ->
  exists itemsBefore itemsAfter,
    concatMapM (parseStatement options src) before = Ok itemsBefore
    /\ concatMapM (parseStatement options src) after = Ok itemsAfter
    /\ match getVariableDeclaration src (ee_text expr) with
       | Some vd =>
           let added := defaultExportItem options vd in
           out = itemsBefore
                 ++ applyVariableItemOptions opts onlyMode added
                 :: itemsAfter
           /\ get "name" added = Some (VStr (vd_name vd))
           /\ get "subtype" added = Some (VStr "constant")
           /\ get "exports" added = Some (VStr "default")
           /\ get "level" added = Some (VStr "top")
           /\ (exists kind isDefaultExport isExported declarations,
                 let own :=
                   variableItem options kind isDefaultExport isExported vd in
                 In (VariableStatement kind isDefaultExport isExported
                       declarations) (before ++ after)
                 /\ In vd declarations
                 /\ In (applyVariableItemOptions opts onlyMode own)
                      (itemsBefore ++ itemsAfter)
                 /\ get "name" own = Some (VStr (vd_name vd))
                 /\ get "exports" own
                    = Some (exportKind isDefaultExport isExported))
           /\ (options = None ->
               2 <= length (filter (named (vd_name vd)) out))
       | None =>
           out = itemsBefore ++ itemsAfter
           /\ forall stmt,
                In stmt (before ++ after) ->
                defaultExportOf stmt = Some (Some (ee_text expr)) ->
                exists item,
                  parseStatement options src stmt = Ok [ item ]
                  /\ In item out
                  /\ (prop "exports" item = VStr "default"
                      \/ prop "exports" item = VUndef)
                  /\ (options = None ->
                      get "name" item = Some (VStr (ee_text expr))
                      /\ get "exports" item = Some (VStr "default"))
       end.
Proof.
  intros opts onlyMode Hsrc Hkind Htext H. unfold parseWithTsMorph in H.
  rewrite Hsrc in H.
  assert (forall stmt, In stmt (before ++ after) ->
          exists ys, parseStatement options src stmt = Ok ys
                     /\ incl ys out) as Heach.
  { intros stmt Hin. apply (concatMapM_In _ _ _ stmt H).
    apply in_app_iff in Hin. apply in_app_iff. simpl. tauto. }
  apply concatMapM_app in H. destruct H as [o1 [o2 [H1 [H2 ->]]]].
  cbn [concatMapM parseStatement] in H2. rewrite Hkind in H2.
  destruct (ee_text expr) as [|c id] eqn:E; [congruence|].
  destruct (getVariableDeclaration src (String c id)) as [vd|] eqn:Hvd.
  - cbn [bind] in H2.
    apply bind_Ok in H2. destruct H2 as [itemsAfter [Hafter H2]].
    injection H2 as <-.
    assert (incl (o1 ++ itemsAfter)
              (o1 ++ applyVariableItemOptions opts onlyMode
                       (defaultExportItem options vd) :: itemsAfter))
      as Hincl.
    { intros x Hx. apply in_app_iff in Hx. apply in_app_iff. simpl. tauto. }
    exists o1, itemsAfter. split; [assumption|]. split; [assumption|].
    assert (exists kind isDefaultExport isExported declarations,
              In (VariableStatement kind isDefaultExport isExported
                    declarations) (before ++ after)
              /\ In vd declarations
              /\ In (applyVariableItemOptions opts onlyMode
                       (variableItem options kind isDefaultExport
                          isExported vd))
                   (o1 ++ itemsAfter)) as Hown.
    { destruct (getVariableDeclaration_In _ _ _ Hvd)
        as [kind [dflt [exported [decls [Hstmt Hin]]]]].
      exists kind, dflt, exported, decls.
      rewrite Hsrc in Hstmt. apply in_app_iff in Hstmt.
      assert (In (VariableStatement kind dflt exported decls)
                (before ++ after)) as Hin'.
      { apply in_app_iff. destruct Hstmt as [Hb|[Hx|Ha]];
          [left; assumption|discriminate Hx|right; assumption]. }
      split; [assumption|]. split; [assumption|].
      apply in_app_iff in Hin'.
      assert (forall l its,
                concatMapM (parseStatement options src) l = Ok its ->
                In (VariableStatement kind dflt exported decls) l ->
                In (applyVariableItemOptions opts onlyMode
                      (variableItem options kind dflt exported vd)) its)
        as Hitem.
      { intros l its Hl Hs.
        destruct (concatMapM_In _ _ _ _ Hl Hs) as [ys [Hy Hsub]].
        apply Hsub. cbn [parseStatement] in Hy. injection Hy as <-.
        apply in_map_iff. exists vd. split; [reflexivity|assumption]. }
      apply in_app_iff. destruct Hin' as [Hb|Ha].
      - left. exact (Hitem _ _ H1 Hb).
      - right. exact (Hitem _ _ Hafter Ha). }
    repeat split; try reflexivity.
    + destruct Hown as [kind [dflt [exported [decls [Hs [Hin Hit]]]]]].
      exists kind, dflt, exported, decls.
      repeat split; assumption || reflexivity.
    + intros ->.
      destruct Hown as [kind [dflt [exported [decls [_ [_ Hit]]]]]].
      unfold opts, onlyMode in *. rewrite onlyMode_default in *.
      rewrite applyVariableItemOptions_identity in *
        by apply default_keeps_all.
      rewrite filter_app. cbn [filter].
      replace (named (vd_name vd) (defaultExportItem None vd)) with true
        by (unfold named; cbn [get defaultExportItem find fst snd
                                 String.eqb Ascii.eqb Bool.eqb];
            cbn; rewrite String.eqb_refl; reflexivity).
      pose proof (filter_In_length (named (vd_name vd)) _ _ Hit) as Hlen.
      rewrite filter_app, length_app in Hlen.
      rewrite length_app. cbn [length].
      assert (named (vd_name vd)
                (variableItem None kind dflt exported vd) = true) as Hn
        by (unfold named; cbn; rewrite String.eqb_refl; reflexivity).
      specialize (Hlen Hn). lia.
  - cbn [bind] in H2.
    assert (exists itemsAfter,
              concatMapM (parseStatement options src) after = Ok itemsAfter
              /\ o2 = itemsAfter) as [itemsAfter [Hafter ->]].
    { destruct (concatMapM (parseStatement options src) after);
        [|discriminate]. cbn [bind app] in H2. injection H2 as <-. eauto. }
    exists o1, itemsAfter. split; [assumption|]. split; [assumption|].
    split; [reflexivity|].
    intros stmt Hin Hdefault.
    destruct (Heach _ Hin) as [ys [Hy Hsub]].
    rewrite <- E in Hdefault.
    destruct (default_declaration_item options src stmt _ ys Hdefault Hy)
      as [item [-> [Hkept Hfull]]].
    exists item. split; [exact Hy|].
    split; [exact (Hsub item (or_introl eq_refl))|].
    split; [exact Hkept|]. rewrite <- E. exact Hfull.
Qed.

Lemma default_export_by_name_duplicates_variables_only_witness :
  (exists first second,
     parseWithTsMorph None sourceDefaultX = Ok [ first; second ]
     /\ first = variableItem None "const" false false declarationOfX
     /\ second = defaultExportItem None declarationOfX
     /\ 2 <= length (filter (named "x") [ first; second ]))
  /\ (exists own,
        parseWithTsMorph None sourceDefaultF = Ok [ own ]
        /\ get "name" own = Some (VStr "f")
        /\ get "exports" own = Some (VStr "default")).
Proof.
  split.
  - destruct (default_export_by_name_duplicates_variables_only None
                sourceDefaultX [ constX ] []
                {| ee_kindName := "Identifier"; ee_text := "x";
                   ee_function := notAFunction |}
                _ eq_refl eq_refl ltac:(discriminate) eq_refl)
      as [b [a [Hb [Ha Hcase]]]].
    injection Hb as <-. injection Ha as <-.
    cbv beta iota zeta in Hcase.
    change (getVariableDeclaration sourceDefaultX "x")
      with (Some declarationOfX) in Hcase.
    destruct Hcase as [_ [_ [_ [_ [_ [_ Hcount]]]]]].
    do 2 eexists. split; [reflexivity|].
    split; [reflexivity|]. split; [reflexivity|].
    exact (Hcount eq_refl).
  - destruct (default_export_by_name_duplicates_variables_only None
                sourceDefaultF [ FunctionStatement defaultFunctionF ] []
                {| ee_kindName := "Identifier"; ee_text := "f";
                   ee_function := notAFunction |}
                _ eq_refl eq_refl ltac:(discriminate) eq_refl)
      as [b [a [Hb [Ha Hcase]]]].
    injection Hb as <-. injection Ha as <-.
    cbv beta iota zeta in Hcase.
    change (getVariableDeclaration sourceDefaultF "f")
      with (@None VariableDeclaration) in Hcase.
    destruct Hcase as [_ Hfn].
    destruct (Hfn (FunctionStatement defaultFunctionF) (or_introl eq_refl)
                eq_refl)
      as [own [Hown [_ [_ Hfull]]]].
    injection Hown as <-.
    eexists. split; [reflexivity|]. exact (Hfull eq_refl).
Defined.

(** C3, as stated, fails: for [const x = 1; export default x;] the
    output holds two items named [x], and the one emitted for the
    declaration keeps the export disposition ["none"]. *)
Lemma default_export_of_variable_duplicates_item :
  exists first second,
    parseWithTsMorph None sourceDefaultX = Ok [ first; second ]
    /\ get "name" first = Some (VStr "x")
    /\ get "exports" first = Some (VStr "none")
    /\ get "name" second = Some (VStr "x")
    /\ get "exports" second = Some (VStr "default").
Proof. do 2 eexists. repeat split; reflexivity. Qed.

(* ================================================================== *)
(** * Only-mode on whole files *)

(** The policy itself is as the source computes it: only-mode is on
    exactly when some field is marked ["only"], and a field is then
    to be kept exactly when it is so marked; outside only-mode it is
    to be kept unless marked ["never"]. *)
Lemma all_keys_complete (k : OptKey) : In k all_keys.
Proof. destruct k; simpl; tauto. Qed.

Lemma onlyMode_of_spec (opts : NormalizedOptions) :
  onlyMode_of opts = true <-> exists k, opts k = Some only.
Proof.
  unfold onlyMode_of. rewrite existsb_exists. split.
  - intros [k [_ H]]. exists k. destruct (opts k) as [[| |]|];
      try discriminate. reflexivity.
  - intros [k H]. exists k. split; [apply all_keys_complete|].
    rewrite H. reflexivity.
Qed.

Lemma shouldInclude_spec (opts : NormalizedOptions) (onlyMode : bool)
  (key : OptKey) :
  shouldInclude opts onlyMode key = true <->
  if onlyMode then opts key = Some only else opts key <> Some never.
Proof.
  unfold shouldInclude.
  destruct onlyMode, (opts key) as [[| |]|]; simpl;
    split; congruence.
Qed.

(** One pruning keeps a key its map files under an option exactly
    when the policy says so. *)
Lemma pruneObject_mapped (opts : NormalizedOptions) (onlyMode : bool)
  (o : obj) (m : PruneMap) (key : string) (optKey : OptKey) :
  map_get key m = Some (Some optKey) ->
  get key (pruneObject opts onlyMode o m)
  = if shouldInclude opts onlyMode optKey then get key o else None.
Proof.
  intros H. rewrite get_prune. unfold kept. rewrite H. reflexivity.
Qed.

(** C1.  With [{ Name: "only" }] the policy is computed as claimed,
    only-mode on and [Name] to be kept, and a record pruned once, a
    parameter, keeps its [name]; yet the output for [function f(a) {}]
    holds no [name]: a declaration item goes through two prunings,
    and in only-mode each deletes the keys that only the other one
    maps. *)
Theorem only_mode_drops_the_field_marked_only :
  let opts := normalizeOptions (Some nameOnly) in
  onlyMode_of opts = true
  /\ shouldInclude opts (onlyMode_of opts) K_Name = true
  /\ applyParamOptions opts (onlyMode_of opts)
       [ ("name", VStr "a"); ("isJSType", VBool false) ]
     = [ ("name", VStr "a") ]
  /\ parseWithTsMorph (Some nameOnly) sourceFunctionF = Ok [ [] ].
Proof. repeat split; reflexivity. Qed.

(** C2, as amended.  With [{ Name: "only" }] and no other field set,
    no record of the output, at any depth, holds a field other than
    [name], whatever the source: the [type] discriminator is pruned
    like any other field. *)
Theorem name_only_leaves_no_field_but_name (src : SourceFile)
  (items : list obj) :
  parseWithTsMorph (Some nameOnly) src = Ok items ->
  Forall (fun it => onlyKeys [ "name" ] (VObj it) = true) items.
Proof.
  intros H.
  eapply Forall_impl;
    [|exact (parseWithTsMorph_only_mode (Some nameOnly) src items
               eq_refl H)].
  intros it ->. reflexivity.
Qed.

Lemma name_only_leaves_no_field_but_name_witness :
  exists items,
    parseWithTsMorph (Some nameOnly) sourceNamespaceN = Ok items
    /\ length items = 2
    /\ Forall (fun it => onlyKeys [ "name" ] (VObj it) = true) items.
Proof.
  eexists. split; [reflexivity|]. split; [reflexivity|].
  apply (name_only_leaves_no_field_but_name sourceNamespaceN).
  reflexivity.
Defined.

(** C2, as stated, fails: with [{ Name: "only" }] the item of
    [const x = 1;] has no [type] discriminator.  The first pruning of
    the item, with the base map that files [type] under [ItemType],
    keeps [name] alone. *)
Lemma name_only_drops_the_type_discriminator :
  let opts := normalizeOptions (Some nameOnly) in
  exists item,
    parseWithTsMorph (Some nameOnly) sourceConstX = Ok [ item ]
    /\ get "type" item = None
    /\ map_get "type" baseItemMap = Some (Some K_ItemType)
    /\ shouldInclude opts (onlyMode_of opts) K_ItemType = false
    /\ applyBaseItemOptions opts (onlyMode_of opts)
         (variableItem (Some nameOnly) "const" false false declarationOfX)
       = [ ("name", VStr "x") ].
Proof. eexists. repeat split; reflexivity. Qed.

(* ================================================================== *)
(** * Idempotence of the projection *)

(** C5.  For every projection configuration and every item tree typed
    as the interfaces declare, the projection returns a tree, and
    applied to that tree with the same configuration it returns it
    unchanged. *)
Theorem projection_is_idempotent (options : option ParseOptions)
  (item : value) :
  wf_item item = true ->
  let opts := normalizeOptions options in
  exists pruned,
    applyParsedItemOptions opts (onlyMode_of opts) item = Ok pruned
    /\ applyParsedItemOptions opts (onlyMode_of opts) pruned = Ok pruned.
Proof. intros H opts. apply applyParsedItemOptions_settles, H. Qed.

Lemma projection_is_idempotent_witness :
  wf_item sampleTree = true
  /\ exists pruned,
       applyParsedItemOptions (normalizeOptions (Some noNamesNoArguments))
         false sampleTree = Ok pruned
       /\ applyParsedItemOptions (normalizeOptions (Some noNamesNoArguments))
            false pruned = Ok pruned.
Proof.
  split; [reflexivity|].
  exact (projection_is_idempotent (Some noNamesNoArguments) sampleTree
           eq_refl).
Defined.

(* ================================================================== *)
(** * Nesting levels *)

Lemma everyRecord_weaken (R R' : obj -> bool) (v : value) :
  (forall o, R o = true -> R' o = true) ->
  everyRecord R v = true -> everyRecord R' v = true.
Proof.
  intros HR. induction v as [| | | | |l IH|o IH] using value_nested_ind;
    simpl; try reflexivity.
  - intros H. apply forallb_forall. intros x Hx.
    rewrite forallb_forall in H. rewrite Forall_forall in IH.
    apply IH; auto.
  - intros H. apply andb_prop in H. destruct H as [Ho Hc].
    rewrite (HR _ Ho). simpl. apply forallb_forall. intros kv Hkv.
    rewrite forallb_forall in Hc. rewrite Forall_forall in IH.
    specialize (Hc _ Hkv). specialize (IH _ Hkv).
    destruct (nested (fst kv)); simpl in *; auto.
Qed.

Lemma children_weaken (R R' : obj -> bool) (o : obj) :
  (forall x, R x = true -> R' x = true) ->
  children R o = true -> children R' o = true.
Proof.
  intros HR H. unfold children in *. apply forallb_forall. intros kv Hkv.
  rewrite forallb_forall in H. specialize (H _ Hkv).
  destruct (negb (nested (fst kv))); simpl in *; [reflexivity|].
  exact (everyRecord_weaken R R' _ HR H).
Qed.


(** No record of a sound item holds [null] for an attribute. *)
Lemma soundItem_noNull (lv : string) (it : obj) :
  soundItem lv it = true -> everyRecord noNullAttribute (VObj it) = true.
Proof.
  unfold soundItem, soundRecord. intros H.
  apply andb_prop in H. destruct H as [H Hc].
  apply andb_prop in H. destruct H as [Hn _].
  change (noNullAttribute it && children noNullAttribute it = true).
  rewrite Hn. simpl.
  apply (children_weaken (soundRecord "sub")); [|exact Hc].
  intros x Hx. apply andb_prop in Hx. tauto.
Qed.

(** A namespace that stands in the file [__tmp.ts] and has a
    statement in its body is forgotten while its body is unpacked:
    the parser throws. *)
Lemma parseStatement_forgotten_namespace (options : option ParseOptions)
  (src : SourceFile) (name : option string) (isExported : bool)
  (jsDocs : list string) (forgotten : string)
  (body : option (list (string * list Statement))) :
  sf_path src = tmpPath -> hasStatements body = true ->
  exists err,
    parseStatement options src
      (ModuleDeclaration name isExported jsDocs forgotten body) = Throw err.
Proof.
  intros Hpath Hbody. rewrite parseStatement_ModuleDeclaration.
  rewrite Hpath, Hbody.
  destruct (match body with Some _ => _ | None => _ end) as [members|err];
    [exists forgotten|exists err]; reflexivity.
Qed.



(** On [namespace N { namespace M { const x = 1; } }] the parser
    throws: the call that parses [M] as the file [__tmp.ts] writes
    its own temporary file over it. *)
Lemma nested_namespace_with_statements_throws :
  exists err, parseWithTsMorph None sourceNestedNamespaces = Throw err.
Proof. eexists. reflexivity. Qed.


(* ================================================================== *)
(** * Optional attributes *)

Lemma prop_in_keys (k : string) (o : obj) :
  prop k o <> VUndef -> In k (keys o).
Proof.
  unfold prop. induction o as [|[k' v] o IH]; simpl; [congruence|].
  destruct (String.eqb_spec k' k) as [->|Hne]; [auto|].
  intros H. right. apply IH, H.
Qed.

Section AttributeFacts.
Variable options : NormalizedOptions.
Variable onlyMode : bool.

Local Notation "'runs'" := (run options onlyMode).

(** A field that reads [undefined] still does after a pass. *)
Lemma run_prop_undefined (p : list step) (o r : obj) (k : string) :
  runs p o = Ok r -> prop k o = VUndef -> prop k r = VUndef.
Proof.
  revert o. induction p as [|s p IH]; simpl; intros o H Hk.
  - injection H as <-. exact Hk.
  - inv_bind. apply (IH a H). destruct s as [m|key g]; simpl in Ha.
    + injection Ha as <-. rewrite prop_prune, Hk.
      destruct (kept options onlyMode m k); reflexivity.
    + apply updateField_inv in Ha.
      destruct Ha as [[_ ->]|[Ht [v' [_ ->]]]]; [exact Hk|].
      destruct (String.eqb_spec k key) as [->|Hne].
      * rewrite Hk in Ht. discriminate.
      * rewrite prop_set_other by exact Hne. exact Hk.
Qed.

(** A field no step updates is not turned into [null]. *)
Lemma run_prop_not_null (p : list step) (o r : obj) (k : string) :
  runs p o = Ok r -> ~ In k (updatedKeys p) ->
  prop k o <> VNull -> prop k r <> VNull.
Proof.
  intros H Hk Ho. destruct (run_prop _ _ _ _ _ k H Hk) as [-> | ->];
    [exact Ho|discriminate].
Qed.

(** What [getJsDocText] leaves in a record that a pass prunes with a
    map filing [jsdoc] under [JSDoc]: never [null], because the
    [null] of [JSDoc: "never"] is deleted with the field. *)
Lemma run_jsdoc (p : list step) (m : PruneMap) (o r : obj)
  (jsDocs : list string) :
  runs p o = Ok r -> ~ In "jsdoc" (updatedKeys p) ->
  In (Prune m) p -> map_get "jsdoc" m = Some (Some K_JSDoc) ->
  prop "jsdoc" o = getJsDocText jsDocs (options K_JSDoc) ->
  prop "jsdoc" r <> VNull
  /\ (jsDocs = [] -> prop "jsdoc" r = VStr "" \/ prop "jsdoc" r = VUndef).
Proof.
  intros H Hk Hin Hm Ho.
  destruct (run_prop _ _ _ _ _ "jsdoc" H Hk) as [E|E];
    [|rewrite E; split; [discriminate|auto]].
  assert (prop "jsdoc" r <> VUndef ->
          shouldInclude options onlyMode K_JSDoc = true) as Hkept.
  { intros Hr. apply prop_in_keys in Hr.
    pose proof (run_pruned options onlyMode p o r m H Hin) as HF.
    rewrite Forall_forall in HF. specialize (HF _ Hr).
    unfold kept in HF. rewrite Hm in HF. exact HF. }
  rewrite E, Ho in *. unfold getJsDocText in *.
  destruct (options K_JSDoc) as [[| |]|] eqn:Hopt;
    try (split; [discriminate|intros ->; left; reflexivity]).
  exfalso. specialize (Hkept ltac:(discriminate)).
  unfold shouldInclude in Hkept. rewrite Hopt in Hkept.
  destruct onlyMode; discriminate.
Qed.
End AttributeFacts.

Lemma parseDecorators_not_null (decs : list Decorator) :
  parseDecorators decs <> VNull.
Proof. destruct decs; discriminate. Qed.

Lemma locOf_not_null (loc : option Range) : locOf loc <> VNull.
Proof. destruct loc; discriminate. Qed.

(** What a pass leaves of the optional attributes of a record: what
    read [undefined] still does, and the [jsdoc] of a node without a
    documentation comment is the empty string or gone. *)
Lemma omitted_by_run (options : option ParseOptions) (p : list step)
  (m : PruneMap) (raw r : obj) (absent : list string)
  (docs : option (list string)) :
  let opts := normalizeOptions options in
  run opts (onlyMode_of opts) p raw = Ok r ->
  (forall k, In k absent -> prop k raw = VUndef) ->
  (forall jsDocs, docs = Some jsDocs ->
     prop "jsdoc" raw = getJsDocText jsDocs (opts K_JSDoc)
     /\ ~ In "jsdoc" (updatedKeys p)
     /\ In (Prune m) p
     /\ map_get "jsdoc" m = Some (Some K_JSDoc)) ->
  (forall k, In k absent -> prop k r = VUndef)
  /\ (docs = Some [] ->
      (prop "jsdoc" r = VStr "" \/ prop "jsdoc" r = VUndef)
      /\ (options = None -> get "jsdoc" r = Some (VStr ""))).
Proof.
  intros opts Hrun Habsent Hdocs. split.
  - intros k Hk. apply (run_prop_undefined _ _ _ _ _ _ Hrun), Habsent, Hk.
  - intros E. destruct (Hdocs [] E) as [Hraw [Hupd [Hin Hm]]].
    split.
    + exact (proj2 (run_jsdoc opts _ p m raw r [] Hrun Hupd Hin Hm Hraw)
               eq_refl).
    + intros ->. apply prop_get; [|discriminate].
      unfold opts in Hrun. rewrite onlyMode_default in Hrun.
      rewrite (run_prop_kept _ _ _ _ _ Hrun Hupd
                 (keepsAll_steps _ _ _ default_keeps_all)).
      exact Hraw.
Qed.

(** The attribute looked for is one whose construct is absent. *)
Ltac absent_attribute :=
  let k := fresh "k" in
  let Hin := fresh "Hin" in
  intros k Hin;
  unfold absentOfIndexSignature, absentOfParameter in Hin;
  repeat (apply in_app_or in Hin; destruct Hin as [Hin|Hin]);
  unfold without, withoutAny in Hin;
  repeat match type of Hin with
         | In _ (match ?x with _ => _ end) =>
             let E := fresh "E" in
             destruct x eqn:E; try (destruct Hin; fail)
         | In _ (if ?x then _ else _) =>
             let E := fresh "E" in
             destruct x eqn:E; try (destruct Hin; fail)
         end;
  repeat match goal with
         | E : ?x = None, H : typeNodeText ?x = Ok _ |- _ =>
             rewrite E in H
         | E : ?x = None, H : parseTypeNode ?x = Ok _ |- _ =>
             rewrite E in H
         | H : typeNodeText None = Ok _ |- _ => injection H as <-
         | H : parseTypeNode None = Ok _ |- _ => injection H as <-
         end;
  cbn [In] in Hin;
  repeat (destruct Hin as [<-|Hin]);
  try (destruct Hin; fail).

(** The [jsdoc] of the record is that of its node, and a map of the
    pass files it under [JSDoc]. *)
Ltac documented :=
  let docs := fresh "docs" in
  let E := fresh "E" in
  intros docs E;
  first [discriminate E
        |injection E as <-;
         split; [reflexivity|];
         split; [simpl; intuition discriminate|];
         split; [simpl; auto|reflexivity]].

Lemma produced_omits (options : option ParseOptions) (b : Built)
  (records : list obj) :
  produced options b = Ok records ->
  Forall (fun r =>
            (forall k, In k (absentAttributes b) -> prop k r = VUndef)
            /\ (documentation b = Some [] ->
                (prop "jsdoc" r = VStr "" \/ prop "jsdoc" r = VUndef)
                /\ (options = None -> get "jsdoc" r = Some (VStr ""))))
    records.
Proof.
  destruct b as [kind dflt exported d|vd|fn level|fn|ta|ed|em|cd|className m
                |id|m|name exported docs members|param|param|tp];
    cbn [produced absentAttributes documentation]; cbv zeta; intros H.
  - injection H as <-. constructor; [|constructor].
    eapply (omitted_by_run options (variableSteps) baseItemMap
              (variableItem options kind dflt exported d));
      [symmetry; apply applyVariableItemOptions_run| |documented].
    absent_attribute; unfold variableItem; cbv zeta; rewrite ?E;
      reflexivity.
  - injection H as <-. constructor; [|constructor].
    eapply (omitted_by_run options (variableSteps) baseItemMap
              (defaultExportItem options vd));
      [symmetry; apply applyVariableItemOptions_run| |documented].
    absent_attribute; unfold defaultExportItem; rewrite ?E; reflexivity.
  - inv_bind. subst records. constructor; [|constructor].
    unfold functionLikeToItem in Ha. inv_bind. subst a.
    rewrite applyFunctionItemOptions_run in Ha0.
    eapply (omitted_by_run options _ baseItemMap _ _ _ _ Ha0);
      [|documented].
    absent_attribute; rewrite ?E; reflexivity.
  - inv_bind. subst records. constructor; [|constructor].
    unfold functionLikeToItem in Ha. inv_bind. subst a.
    rewrite applyFunctionItemOptions_run in Ha0.
    eapply (omitted_by_run options _ baseItemMap _ _ _ _ Ha0);
      [|documented].
    absent_attribute; rewrite ?E; reflexivity.
  - inv_bind. subst records. constructor; [|constructor].
    unfold typeAliasItem in Ha. inv_bind. subst a.
    rewrite typeAliasCase_run in Ha0.
    eapply (omitted_by_run options _ baseItemMap _ _ _ _ Ha0);
      [|documented].
    absent_attribute; rewrite ?E in *; inv_bind; subst; reflexivity.
  - inv_bind. subst records. constructor; [|constructor].
    apply parsedEnum_run in Ha.
    eapply (omitted_by_run options _ baseItemMap _ _ _ _ Ha);
      [intros k []|documented].
  - injection H as <-. constructor; [|constructor].
    unfold enumMember, applyEnumMemberOptions.
    eapply (omitted_by_run options [ Prune enumMemberMap ] enumMemberMap);
      [apply prune_run| |documented].
    absent_attribute; rewrite ?E; reflexivity.
  - inv_bind. subst records. constructor; [|constructor].
    unfold classItem in Ha. cbv zeta in Ha. inv_bind.
    match goal with
    | H1 : mapField "typeParameters" _ _ = Ok ?x1,
      H2 : mapField "items" _ ?x1 = Ok ?x2 |- _ =>
        pose proof (parsedClass_run _ _ (reapplyConstructor options) _ _
                      ltac:(rewrite H1; cbn [bind]; rewrite H2;
                            reflexivity)) as Hrun
    end.
    subst a.
    eapply (omitted_by_run options _ baseItemMap _ _ _ _ Hrun);
      [|documented].
    absent_attribute; rewrite ?E; reflexivity.
  - destruct m as [ctor|meth|name returnTypeNode jsDocs
                  |name parameters jsDocs|p|idx|];
      cbn [classMember] in H; cbv zeta in H; inv_bind; subst records;
      (apply Forall_nil || (apply Forall_cons; [|apply Forall_nil])).
    + split; [intros k []|discriminate].
    + unfold methodItem in Ha. inv_bind. subst a.
      rewrite applyMethodItemOptions_run in Ha0.
      eapply (omitted_by_run options _ methodItemMap _ _ _ _ Ha0);
        [|documented].
      absent_attribute; rewrite ?E; try reflexivity.
      apply orb_false_elim in E. destruct E as [-> ->]. reflexivity.
    + rewrite applyMethodItemOptions_run in Ha0.
      eapply (omitted_by_run options _ methodItemMap _ _ _ _ Ha0);
        [|documented].
      absent_attribute; reflexivity.
    + rewrite applyMethodItemOptions_run in Ha0.
      eapply (omitted_by_run options _ methodItemMap _ _ _ _ Ha0);
        [intros k []|documented].
    + unfold applyClassMemberPropertyOptions.
      eapply (omitted_by_run options [ Prune classMemberPropertyMap ]
                classMemberPropertyMap);
        [apply prune_run| |documented].
      absent_attribute; rewrite ?E; reflexivity.
    + unfold indexSignatureItem in Ha. inv_bind. subst a.
      unfold applyIndexSignatureOptions.
      eapply (omitted_by_run options [ Prune indexSignatureMap ]
                indexSignatureMap);
        [apply prune_run| |documented].
      absent_attribute; rewrite ?E in *; inv_bind; subst; reflexivity.
  - inv_bind. subst records. constructor; [|constructor].
    unfold interfaceItem in Ha. cbv zeta in Ha. inv_bind.
    rewrite interfaceCase_run in Ha.
    eapply (omitted_by_run options _ baseItemMap _ _ _ _ Ha);
      [|documented].
    absent_attribute; rewrite ?E; reflexivity.
  - destruct m as [p|ms|idx|];
      cbn [interfaceMember] in H; cbv zeta in H; inv_bind; subst records;
      (apply Forall_nil || (apply Forall_cons; [|apply Forall_nil])).
    + unfold applyInterfaceMemberPropertyOptions.
      eapply (omitted_by_run options [ Prune interfaceMemberPropertyMap ]
                interfaceMemberPropertyMap);
        [apply prune_run| |documented].
      absent_attribute; rewrite ?E; reflexivity.
    + rewrite applyInterfaceMemberMethodOptions_run in Ha1.
      eapply (omitted_by_run options _ interfaceMemberMethodMap _ _ _ _ Ha1);
        [|documented].
      absent_attribute; rewrite ?E; reflexivity.
    + unfold indexSignatureItem in Ha. inv_bind. subst a.
      unfold applyIndexSignatureOptions.
      eapply (omitted_by_run options [ Prune indexSignatureMap ]
                indexSignatureMap);
        [apply prune_run| |documented].
      absent_attribute; rewrite ?E in *; inv_bind; subst; reflexivity.
  - inv_bind. subst records. constructor; [|constructor].
    unfold namespaceItem in Ha. cbv zeta in Ha.
    rewrite namespaceCase_run in Ha.
    eapply (omitted_by_run options _ baseItemMap _ _ _ _ Ha);
      [intros k []|documented].
  - inv_bind. subst records. constructor; [|constructor].
    unfold paramInfo in Ha. cbv zeta in Ha. inv_bind. subst a.
    unfold applyParamOptions.
    eapply (omitted_by_run options [ Prune paramMap ] paramMap);
      [apply prune_run| |documented].
    absent_attribute; rewrite ?E; reflexivity.
  - inv_bind. subst records. constructor; [|constructor].
    unfold methodParamInfo in Ha. inv_bind. subst a.
    unfold paramInfo in Ha0. cbv zeta in Ha0. inv_bind. subst a0.
    pose proof (applyMethodParamOptions_run (normalizeOptions options)
                  (onlyMode_of (normalizeOptions options))) as Hrun.
    unfold pure in Hrun.
    eapply (omitted_by_run options _ paramMap _ _ _ _ (eq_sym (Hrun _)));
      [|documented].
    absent_attribute; rewrite ?E; reflexivity.
  - destruct tp as [name constraint default].
    cbn [typeParamsOf map] in H. injection H as <-.
    constructor; [|constructor].
    unfold applyTypeParameterOptions.
    eapply (omitted_by_run options [ Prune typeParameterMap ]
              typeParameterMap);
      [apply prune_run| |documented].
    absent_attribute; cbn [tp_constraint tp_default] in *; subst;
      reflexivity.
Qed.

(** Every item a statement yields is such a record. *)
Lemma parseStatement_produced (options : option ParseOptions)
  (src : SourceFile) (stmt : Statement) (items : list obj) :
  parseStatement options src stmt = Ok items ->
  Forall (fun it => exists b, produced options b = Ok [ it ]) items.
Proof.
  destruct stmt
    as [k d e ds|fd|ta|ed|e|cd|id|name exported docs forgotten body|];
    first [intros H; apply parseStatement_ModuleDeclaration_Ok in H
          |cbn [parseStatement]; cbv zeta; intros H].
  - injection H as <-. apply Forall_forall. intros it Hin.
    apply in_map_iff in Hin. destruct Hin as [vd [<- _]].
    exists (VariableItemOf k d e vd). reflexivity.
  - inv_bind. subst items. constructor; [|constructor].
    exists (FunctionItemOf fd "top"). cbn [produced]. cbv zeta.
    rewrite Ha. cbn [bind]. rewrite Ha0. reflexivity.
  - inv_bind. subst items. constructor; [|constructor].
    exists (TypeAliasItemOf ta). cbn [produced]. cbv zeta.
    rewrite Ha. cbn [bind]. rewrite Ha0. reflexivity.
  - inv_bind. subst items. constructor; [|constructor].
    exists (EnumItemOf ed). cbn [produced]. cbv zeta.
    rewrite Ha. reflexivity.
  - destruct e as [expr|]; [|inv_bind; subst; constructor].
    destruct (_ || _).
    + inv_bind. subst items. constructor; [|constructor].
      exists (DefaultFunctionItemOf (ee_function expr)).
      cbn [produced]. cbv zeta.
      rewrite Ha. cbn [bind]. rewrite Ha0. reflexivity.
    + destruct (ee_text expr); [inv_bind; subst; constructor|].
      destruct (getVariableDeclaration _ _) as [vd|];
        inv_bind; subst; constructor; [|constructor].
      exists (DefaultExportItemOf vd). reflexivity.
  - inv_bind. subst items. constructor; [|constructor].
    exists (ClassItemOf cd). cbn [produced]. rewrite Ha. reflexivity.
  - inv_bind. subst items. constructor; [|constructor].
    exists (InterfaceItemOf id). cbn [produced]. rewrite Ha. reflexivity.
  - destruct H as [members [item [_ [Hi [-> _]]]]].
    constructor; [|constructor].
    exists (NamespaceItemOf name exported docs members).
    cbn [produced]. rewrite Hi. reflexivity.
  - inv_bind. subst. constructor.
Qed.

(** C9, as amended.  Under every configuration no record of the output,
    item, member, parameter or type parameter, holds [null] for an
    attribute, but for [name], [value], [valueParsed] and
    [defaultParsed], which are [null] for an anonymous declaration and
    for a [null] literal.  In every record the extractor makes, of
    whatever kind (variable, function, type alias, enum, class,
    interface and namespace items, enum members, class and interface
    members, parameters and type parameters), an optional attribute
    whose construct is absent reads [undefined], hence is left out of
    the serialized record: [value], [valueText] and [valueParsed] (no
    initializer), [decorators] (no decorator), [typeParameters] (no
    type parameter), [returnType] and [returnTypeAst] (no return
    annotation), [type] and [typeAst] (no type annotation), [default]
    and [defaultParsed] (no default), [constraint], [target],
    [keyType], [loc], and [accessibility] (no [private] or [protected]
    modifier).  [jsdoc] is the exception: without a documentation
    comment it is the empty string, unless the projection removed the
    field, and under the default configuration it is there as the
    empty string.  Every item of an output is such a record. *)
Theorem absent_attributes_are_undefined_and_jsdoc_is_empty
  (options : option ParseOptions) :
  let opts := normalizeOptions options in
  let om := onlyMode_of opts in
  (forall src items,
      parseWithTsMorph options src = Ok items ->
      Forall (fun it => everyRecord noNullAttribute (VObj it) = true) items)
  /\ (forall fn level raw item,
      functionLikeToItem fn level (opts K_JSDoc) = Ok raw ->
      applyFunctionItemOptions opts om raw = Ok item ->
      prop "jsdoc" item <> VNull
      /\ prop "decorators" item <> VNull
      /\ prop "loc" item <> VNull
      /\ (fn_jsDocs fn = [] ->
          prop "jsdoc" item = VStr "" \/ prop "jsdoc" item = VUndef)
      /\ (fn_jsDocs fn = [] -> options = None ->
          get "jsdoc" item = Some (VStr ""))
      /\ (fn_decorators fn = [] -> prop "decorators" item = VUndef)
      /\ (fn_typeParameters fn = [] ->
          prop "typeParameters" item = VUndef)
      /\ (fn_returnTypeNode fn = None ->
          prop "returnType" item = VUndef
          /\ prop "returnTypeAst" item = VUndef))
  /\ (forall meth raw item,
         methodItem options meth = Ok raw ->
         applyMethodItemOptions opts om raw = Ok item ->
         prop "jsdoc" item <> VNull
         /\ prop "decorators" item <> VNull
         /\ prop "accessibility" item <> VNull
         /\ (md_jsDocs meth = [] ->
             prop "jsdoc" item = VStr "" \/ prop "jsdoc" item = VUndef)
         /\ (md_jsDocs meth = [] -> options = None ->
             get "jsdoc" item = Some (VStr ""))
         /\ (md_private meth = false -> md_protected meth = false ->
             prop "accessibility" item = VUndef)
         /\ (md_decorators meth = [] -> prop "decorators" item = VUndef)
         /\ (md_typeParameters meth = [] ->
             prop "typeParameters" item = VUndef)
         /\ (md_returnTypeNode meth = None ->
             prop "returnType" item = VUndef
             /\ prop "returnTypeAst" item = VUndef))
  /\ (forall b records,
         produced options b = Ok records ->
         Forall (fun r =>
                   (forall k, In k (absentAttributes b) ->
                              prop k r = VUndef)
                   /\ (documentation b = Some [] ->
                       (prop "jsdoc" r = VStr ""
                        \/ prop "jsdoc" r = VUndef)
                       /\ (options = None ->
                           get "jsdoc" r = Some (VStr ""))))
           records)
  /\ (forall src items,
         parseWithTsMorph options src = Ok items ->
         Forall (fun it => exists b, produced options b = Ok [ it ]) items).
Proof.
  intros opts om. split; [|split; [|split; [|split]]].
  - intros src items H.
    eapply Forall_impl;
      [|exact (parseWithTsMorph_sound options src items H)].
    intros it. apply soundItem_noNull.
  - intros fn level raw item Hraw Hitem.
    unfold functionLikeToItem in Hraw. inv_bind. subst raw.
    pose proof Hitem as Hrun. rewrite applyFunctionItemOptions_run in Hrun.
    assert (forall k, ~ In k ["arguments"; "typeParameters"] ->
                      ~ In k (updatedKeys (functionSteps opts om))) as Hupd
        by (intros k Hk; exact Hk).
    destruct (run_jsdoc opts om _ baseItemMap _ _ (fn_jsDocs fn) Hrun)
      as [Hj1 Hj2];
      [simpl; intuition discriminate|simpl; auto|reflexivity|reflexivity|].
    split; [exact Hj1|].
    split.
    { apply (run_prop_not_null opts om _ _ _ _ Hrun);
        [simpl; intuition discriminate|apply parseDecorators_not_null]. }
    split.
    { apply (run_prop_not_null opts om _ _ _ _ Hrun);
        [simpl; intuition discriminate|apply locOf_not_null]. }
    split; [exact Hj2|].
    split.
    { intros Hdocs ->.
      apply applyFunctionItemOptions_identity in Hitem;
        [|apply default_keeps_all]. subst item. simpl. rewrite Hdocs.
      reflexivity. }
    split.
    { intros Hd. apply (run_prop_undefined opts om _ _ _ _ Hrun).
      cbn. rewrite Hd. reflexivity. }
    split.
    { intros Ht. apply (run_prop_undefined opts om _ _ _ _ Hrun).
      cbn. rewrite Ht. reflexivity. }
    intros Hr.
    repeat match goal with
           | Hx : typeNodeText (fn_returnTypeNode fn) = Ok _ |- _ =>
               rewrite Hr in Hx; injection Hx as <-
           | Hx : parseTypeNode (fn_returnTypeNode fn) = Ok _ |- _ =>
               rewrite Hr in Hx; injection Hx as <-
           end.
    split; apply (run_prop_undefined opts om _ _ _ _ Hrun); reflexivity.
  - intros meth raw item Hraw Hitem.
    unfold methodItem in Hraw. inv_bind. subst raw.
    pose proof Hitem as Hrun. rewrite applyMethodItemOptions_run in Hrun.
    destruct (run_jsdoc opts om _ methodItemMap _ _ (md_jsDocs meth) Hrun)
      as [Hj1 Hj2];
      [simpl; intuition discriminate|simpl; auto|reflexivity|reflexivity|].
    split; [exact Hj1|].
    split.
    { apply (run_prop_not_null opts om _ _ _ _ Hrun);
        [simpl; intuition discriminate|apply parseDecorators_not_null]. }
    split.
    { apply (run_prop_not_null opts om _ _ _ _ Hrun);
        [simpl; intuition discriminate|].
      cbn. destruct (md_private meth), (md_protected meth); discriminate. }
    split; [exact Hj2|].
    split.
    { intros Hdocs ->.
      apply applyMethodItemOptions_identity in Hitem;
        [|apply default_keeps_all]. subst item. simpl. rewrite Hdocs.
      reflexivity. }
    split.
    { intros Hp1 Hp2. apply (run_prop_undefined opts om _ _ _ _ Hrun).
      cbn. rewrite Hp1, Hp2. reflexivity. }
    split.
    { intros Hd. apply (run_prop_undefined opts om _ _ _ _ Hrun).
      cbn. rewrite Hd. reflexivity. }
    split.
    { intros Ht. apply (run_prop_undefined opts om _ _ _ _ Hrun).
      cbn. rewrite Ht. reflexivity. }
    intros Hr.
    repeat match goal with
           | Hx : typeNodeText (md_returnTypeNode meth) = Ok _ |- _ =>
               rewrite Hr in Hx; injection Hx as <-
           | Hx : parseTypeNode (md_returnTypeNode meth) = Ok _ |- _ =>
               rewrite Hr in Hx; injection Hx as <-
           end.
    split; apply (run_prop_undefined opts om _ _ _ _ Hrun); reflexivity.
  - intros b records. apply produced_omits.
  - intros src items H. unfold parseWithTsMorph in H.
    eapply concatMapM_Forall; [|exact H].
    intros stmt ys _. apply parseStatement_produced.
Qed.

Lemma absent_attributes_are_undefined_and_jsdoc_is_empty_witness :
  exists raw item,
    functionLikeToItem (functionNamed "f" [ parameterA ]) "top"
      (normalizeOptions None K_JSDoc) = Ok raw
    /\ applyFunctionItemOptions (normalizeOptions None) false raw = Ok item
    /\ get "jsdoc" item = Some (VStr "")
    /\ prop "decorators" item = VUndef
    /\ exists rawMethod method,
         methodItem None plainMethod = Ok rawMethod
         /\ applyMethodItemOptions (normalizeOptions None) false rawMethod
            = Ok method
         /\ get "jsdoc" method = Some (VStr "")
         /\ prop "accessibility" method = VUndef
         /\ exists items,
              parseWithTsMorph None sourceClassA = Ok items
              /\ Forall (fun it =>
                           everyRecord noNullAttribute (VObj it) = true)
                   items
              /\ exists variable,
                   parseWithTsMorph None sourceConstX = Ok [ variable ]
                   /\ produced None
                        (VariableItemOf "const" false false declarationOfX)
                      = Ok [ variable ]
                   /\ prop "decorators" variable = VUndef
                   /\ get "jsdoc" variable = Some (VStr "").
Proof.
  destruct (absent_attributes_are_undefined_and_jsdoc_is_empty None)
    as [Hall [Hf [Hm [Hp _]]]].
  do 2 eexists. split; [reflexivity|]. split; [reflexivity|].
  destruct (Hf (functionNamed "f" [ parameterA ]) "top" _ _
              eq_refl eq_refl)
    as (_ & _ & _ & _ & Hj & Hd & _).
  split; [apply Hj; reflexivity|]. split; [apply Hd; reflexivity|].
  do 2 eexists. split; [reflexivity|]. split; [reflexivity|].
  destruct (Hm plainMethod _ _ eq_refl eq_refl)
    as (_ & _ & _ & _ & Hj' & Ha & _).
  split; [apply Hj'; reflexivity|]. split; [apply Ha; reflexivity|].
  eexists. split; [reflexivity|].
  split; [apply (Hall sourceClassA); reflexivity|].
  eexists. split; [reflexivity|]. split; [reflexivity|].
  pose proof (Forall_inv
                (Hp (VariableItemOf "const" false false declarationOfX)
                   _ eq_refl)) as [Habsent Hdocs].
  split; [apply Habsent; left; reflexivity|].
  apply (Hdocs eq_refl); reflexivity.
Defined.

(** C9, as stated, fails: [function f(a) {}] carries no documentation
    comment, and under the default configuration its item holds
    [jsdoc] all the same, as the empty string. *)
Lemma jsdoc_without_comment_is_not_omitted :
  exists item,
    parseWithTsMorph None sourceFunctionF = Ok [ item ]
    /\ fn_jsDocs (functionNamed "f" [ parameterA ]) = []
    /\ get "jsdoc" item = Some (VStr "").
Proof. eexists. repeat split; reflexivity. Qed.
(* ================================================================== *)
(** * Further properties: pruning *)

(** X1.  [pruneObject] deletes exactly the fields its policy rejects:
    what is left is the object filtered on its keys, in order and with
    the values it had, so a field is there afterwards exactly when it
    was there and is kept. *)
Theorem pruneObject_keeps_exactly_the_kept_keys
  (options : NormalizedOptions) (onlyMode : bool) (o : obj) (m : PruneMap) :
  pruneObject options onlyMode o m
  = filter (byKey (kept options onlyMode m)) o
  /\ forall key,
       get key (pruneObject options onlyMode o m)
       = if kept options onlyMode m key then get key o else None.
Proof.
  split; [apply pruneObject_filter|]. intros key. apply get_prune.
Qed.

(** X2.  Two prunings of an object can be done in either order, and a
    pruning done twice is the pruning done once. *)
Theorem pruneObject_commutes_and_is_idempotent
  (options : NormalizedOptions) (onlyMode : bool) (o : obj)
  (m1 m2 : PruneMap) :
  pruneObject options onlyMode (pruneObject options onlyMode o m1) m2
  = pruneObject options onlyMode (pruneObject options onlyMode o m2) m1
  /\ pruneObject options onlyMode (pruneObject options onlyMode o m1) m1
     = pruneObject options onlyMode o m1.
Proof.
  split; [|apply prune_idempotent].
  rewrite !pruneObject_filter, !filter_twice.
  apply filter_ext. intros kv. apply andb_comm.
Qed.

(* ================================================================== *)
(** * Further properties: the projection *)

(** X3.  As soon as one field of the configuration is ["only"], every
    item [parseWithTsMorph] returns is the empty record, whatever the
    source and whatever the other fields say. *)
Theorem only_mode_empties_every_item (options : option ParseOptions)
  (src : SourceFile) (items : list obj) :
  (exists k, normalizeOptions options k = Some only) ->
  parseWithTsMorph options src = Ok items ->
  Forall (fun it => it = []) items.
Proof.
  intros Hk. apply parseWithTsMorph_only_mode. apply onlyMode_of_spec, Hk.
Qed.

Lemma only_mode_empties_every_item_witness :
  (exists k, normalizeOptions (Some nameOnly) k = Some only)
  /\ exists items,
       parseWithTsMorph (Some nameOnly) sourceNamespaceN = Ok items
       /\ items = [ []; [] ].
Proof.
  assert (exists k, normalizeOptions (Some nameOnly) k = Some only) as Hk
    by (exists K_Name; reflexivity).
  split; [exact Hk|]. eexists. split; [reflexivity|].
  pose proof (only_mode_empties_every_item (Some nameOnly) sourceNamespaceN
                _ Hk eq_refl) as H.
  inversion H as [|x l Hx Hl]; subst. inversion Hl as [|y l' Hy Hl']; subst.
  inversion Hl'. reflexivity.
Defined.

(** X4.  A configuration in which no field is ["never"] or ["only"]
    removes nothing: when the projection returns, it returns the tree
    it was given. *)
Theorem projection_without_never_or_only_changes_nothing
  (opts : NormalizedOptions) (item item' : value) :
  (forall k, opts k <> Some never /\ opts k <> Some only) ->
  applyParsedItemOptions opts (onlyMode_of opts) item = Ok item' ->
  item' = item.
Proof.
  intros Hk.
  assert (onlyMode_of opts = false) as ->.
  { destruct (onlyMode_of opts) eqn:E; [|reflexivity].
    apply onlyMode_of_spec in E. destruct E as [k E].
    destruct (Hk k) as [_ Hn]. contradiction. }
  apply applyParsedItemOptions_identity. intros m k. unfold kept.
  destruct (map_get k m) as [[optKey|]|]; try reflexivity.
  apply shouldInclude_spec. exact (proj1 (Hk optKey)).
Qed.

Lemma projection_without_never_or_only_changes_nothing_witness :
  (forall k, normalizeOptions None k <> Some never
             /\ normalizeOptions None k <> Some only)
  /\ applyParsedItemOptions (normalizeOptions None)
       (onlyMode_of (normalizeOptions None)) sampleTree = Ok sampleTree.
Proof.
  assert (forall k, normalizeOptions None k <> Some never
                    /\ normalizeOptions None k <> Some only) as Hk
    by (intros k; split; discriminate).
  split; [exact Hk|].
  destruct (applyParsedItemOptions (normalizeOptions None)
              (onlyMode_of (normalizeOptions None)) sampleTree) as [y|e] eqn:E;
    [|discriminate E].
  rewrite (projection_without_never_or_only_changes_nothing
             (normalizeOptions None) sampleTree y Hk E).
  reflexivity.
Defined.

Section OriginFacts.
Variable options : NormalizedOptions.
Variable onlyMode : bool.

Local Notation "'runs'" := (run options onlyMode).
Local Notation "'self'" := (applyParsedItemOptions options onlyMode).

Lemma In_updatedKeys (k : string) (g : value -> res value) (p : list step) :
  In (Update k g) p -> In k (updatedKeys p).
Proof.
  induction p as [|[m|k' g'] p IH]; simpl; [tauto| |].
  - intros [H|H]; [discriminate|auto].
  - intros [H|H]; [injection H as -> _; auto|auto].
Qed.

(** A field no step updates is there after a pass exactly when every
    pruning of the pass keeps it, and then with its value. *)
Lemma run_get_exact (p : list step) (o r : obj) (k : string) :
  runs p o = Ok r -> ~ In k (updatedKeys p) ->
  get k r
  = if forallb (fun m => kept options onlyMode m k) (prunesOf p)
    then get k o else None.
Proof.
  revert o. induction p as [|s p IH]; simpl; intros o H Hk.
  - injection H as <-. reflexivity.
  - inv_bind. destruct s as [m|key g]; simpl in Ha, Hk |- *.
    + injection Ha as <-. rewrite (IH _ H Hk), get_prune.
      destruct (kept options onlyMode m k); simpl; [reflexivity|].
      destruct (forallb _ _); reflexivity.
    + rewrite (IH _ H (fun Hx => Hk (or_intror Hx))).
      apply updateField_inv in Ha.
      destruct Ha as [[_ ->]|[_ [w [_ ->]]]]; [reflexivity|].
      rewrite get_set_other; [reflexivity|].
      intros ->. apply Hk. left. reflexivity.
Qed.

(** Where a field of the result of a pass comes from: it was there
    with that value, or an update of the pass made that value from the
    one that was there. *)
Lemma run_get_origin (p : list step) (o r : obj) (k : string) (v : value) :
  NoDup (updatedKeys p) -> runs p o = Ok r -> get k r = Some v ->
  exists v0, get k o = Some v0
             /\ (v = v0 \/ exists g, In (Update k g) p /\ g v0 = Ok v).
Proof.
  revert o. induction p as [|s p IH]; simpl; intros o Hnd H Hv.
  - injection H as <-. eauto.
  - inv_bind. destruct s as [m|key g]; simpl in Ha, Hnd.
    + injection Ha as <-. destruct (IH _ Hnd H Hv) as [v1 [H1 Hor]].
      rewrite get_prune in H1.
      destruct (kept options onlyMode m k); [|discriminate].
      exists v1. split; [exact H1|].
      destruct Hor as [->|[g [Hg E]]]; [auto|]. right. exists g. auto.
    + inversion Hnd as [|? ? Hnot Hnd']; subst.
      destruct (IH _ Hnd' H Hv) as [v1 [H1 Hor]].
      apply updateField_inv in Ha.
      destruct Ha as [[_ ->]|[Ht [w [Hg ->]]]].
      * exists v1. split; [exact H1|].
        destruct Hor as [->|[g' [Hg' E]]]; [auto|]. right. exists g'. auto.
      * destruct (String.eqb_spec k key) as [->|Hne].
        -- rewrite get_set_same in H1. injection H1 as <-.
           assert (get key o = Some (prop key o)) as Hget.
           { unfold prop in *. destruct (get key o); [reflexivity|].
             discriminate Ht. }
           exists (prop key o). split; [exact Hget|].
           destruct Hor as [->|[g' [Hg' _]]].
           ++ right. exists g. auto.
           ++ exfalso. apply Hnot. exact (In_updatedKeys _ _ _ Hg').
        -- rewrite get_set_other in H1 by exact Hne.
           exists v1. split; [exact H1|].
           destruct Hor as [->|[g' [Hg' E]]]; [auto|].
           right. exists g'. auto.
Qed.

(** A pass whose updates only remove fields only removes fields. *)
Lemma run_covers (p : list step) (o r : obj) :
  NoDup (updatedKeys p) ->
  (forall k g v0 v, In (Update k g) p -> get k o = Some v0 ->
                    g v0 = Ok v -> covers v0 v) ->
  runs p o = Ok r -> covers (VObj o) (VObj r).
Proof.
  intros Hnd Hu H. apply covers_record. intros k v Hv.
  destruct (run_get_origin p o r k v Hnd H Hv) as [v0 [H0 Hor]].
  exists v0. split; [exact H0|].
  destruct Hor as [->|[g [Hg E]]]; [apply covers_same|].
  exact (Hu k g v0 v Hg H0 E).
Qed.

Lemma prune_covers (o : obj) (m : PruneMap) :
  covers (VObj o) (VObj (pruneObject options onlyMode o m)).
Proof.
  apply covers_record. intros k v Hv. rewrite get_prune in Hv.
  destruct (kept options onlyMode m k); [|discriminate].
  exists v. split; [exact Hv|apply covers_same].
Qed.

Lemma covers_trans_prune (big o : obj) (m : PruneMap) :
  covers (VObj big) (VObj o) ->
  covers (VObj big) (VObj (pruneObject options onlyMode o m)).
Proof.
  intros H. inversion H as [v Hv|b s Hf|]; subst; [apply prune_covers|].
  apply covers_record. intros k v Hv. rewrite get_prune in Hv.
  destruct (kept options onlyMode m k); [|discriminate].
  exact (Hf k v Hv).
Qed.

Lemma mapM_covers (f : value -> res value) (l l' : list value) :
  Forall (fun e => forall e', f e = Ok e' -> covers e e') l ->
  mapM f l = Ok l' -> Forall2 covers l l'.
Proof.
  intros HF. revert l'. induction HF as [|e l He HF IH]; simpl; intros l' H;
    inv_bind; subst; constructor; auto.
Qed.

Lemma mapArray_covers (f : value -> res value) (v v' : value) :
  (forall e e', f e = Ok e' -> covers e e') ->
  mapArray f v = Ok v' -> covers v v'.
Proof.
  intros Hf H. destruct v; try discriminate. simpl in H. inv_bind. subst.
  apply covers_array. apply (mapM_covers f); [|assumption].
  apply Forall_forall. intros e _. apply Hf.
Qed.

Lemma onRecord_covers (f : obj -> res obj) (v v' : value) :
  (forall o o', f o = Ok o' -> covers (VObj o) (VObj o')) ->
  onRecord f v = Ok v' -> covers v v'.
Proof.
  intros Hf H. destruct v; try discriminate. simpl in H. inv_bind. subst.
  apply Hf. assumption.
Qed.

Lemma records_cover (f : obj -> res obj) (v v' : value) :
  (forall o o', f o = Ok o' -> covers (VObj o) (VObj o')) ->
  mapArray (onRecord f) v = Ok v' -> covers v v'.
Proof.
  intros Hf. apply mapArray_covers. intros e e'. apply onRecord_covers, Hf.
Qed.

Lemma pruned_records_cover (f : obj -> obj) (v v' : value) :
  (forall o, covers (VObj o) (VObj (f o))) ->
  mapArray (onRecord (pure f)) v = Ok v' -> covers v v'.
Proof.
  intros Hf. apply records_cover. intros o o' H. injection H as <-. apply Hf.
Qed.

Ltac each_covering :=
  let Hin := fresh "Hin" in
  intros ? ? ? ? Hin _; simpl in Hin;
  repeat (destruct Hin as [Hin|Hin];
          [first [discriminate Hin|injection Hin as <- <-]|]);
  [..|contradiction].

Ltac covered_by_run :=
  match goal with
  | H : run _ _ ?p ?o = Ok ?r |- _ =>
      apply (run_covers p o r); [distinct_keys| |exact H]
  end.

Lemma applyFunctionItemOptions_covers (o o' : obj) :
  applyFunctionItemOptions options onlyMode o = Ok o' ->
  covers (VObj o) (VObj o').
Proof.
  intros H. rewrite applyFunctionItemOptions_run in H. covered_by_run.
  each_covering; apply pruned_records_cover; intros x; apply prune_covers.
Qed.

Lemma applyMethodItemOptions_covers (o o' : obj) :
  applyMethodItemOptions options onlyMode o = Ok o' ->
  covers (VObj o) (VObj o').
Proof.
  intros H. rewrite applyMethodItemOptions_run in H. covered_by_run.
  each_covering; apply pruned_records_cover; intros x;
    [|apply prune_covers].
  unfold applyMethodParamOptions, applyParamOptions.
  apply covers_trans_prune, prune_covers.
Qed.

Lemma applyInterfaceMemberMethodOptions_covers (o o' : obj) :
  applyInterfaceMemberMethodOptions options onlyMode o = Ok o' ->
  covers (VObj o) (VObj o').
Proof.
  intros H. rewrite applyInterfaceMemberMethodOptions_run in H.
  covered_by_run.
  each_covering; apply pruned_records_cover; intros x; apply prune_covers.
Qed.

Lemma applyConstructorOptions_covers (o o' : obj) :
  applyConstructorOptions options onlyMode o = Ok o' ->
  covers (VObj o) (VObj o').
Proof.
  intros H. rewrite applyConstructorOptions_run in H. covered_by_run.
  each_covering. apply onRecord_covers, applyFunctionItemOptions_covers.
Qed.

Lemma applyClassMemberOptions_covers (o o' : obj) :
  applyClassMemberOptions options onlyMode o = Ok o' ->
  covers (VObj o) (VObj o').
Proof.
  unfold applyClassMemberOptions.
  destruct (is_str "constructor" (prop "type" o));
    [apply applyConstructorOptions_covers|].
  destruct (negb (is_undefined (prop "arguments" o)));
    [apply applyMethodItemOptions_covers|].
  destruct (negb (is_undefined (prop "keyType" o)));
    intros H; injection H as <-; apply prune_covers.
Qed.

Lemma applyInterfaceMemberOptions_covers (o o' : obj) :
  applyInterfaceMemberOptions options onlyMode o = Ok o' ->
  covers (VObj o) (VObj o').
Proof.
  unfold applyInterfaceMemberOptions.
  destruct (negb (is_undefined (prop "keyType" o)));
    [intros H; injection H as <-; apply prune_covers|].
  destruct (negb (is_undefined (prop "arguments" o)));
    [apply applyInterfaceMemberMethodOptions_covers|].
  intros H; injection H as <-; apply prune_covers.
Qed.

(** The projection only removes fields; the same for an array of
    trees. *)
Lemma applyParsedItemOptions_covers_both (v : value) :
  (forall v', self v = Ok v' -> covers v v')
  /\ (forall v', mapArray self v = Ok v' -> covers v v').
Proof.
  induction v as [| | | | |l IH|it IH] using value_nested_ind;
    try (split; [intros v' H; injection H as <-; apply covers_same
                |intros v' H; discriminate H]).
  - split; [intros v' H; injection H as <-; apply covers_same|].
    intros v' H. simpl in H. inv_bind. subst.
    apply covers_array. apply (mapM_covers self l); [|assumption].
    eapply Forall_impl; [|exact IH]. intros e He. exact (proj1 He).
  - split; [|intros v' H; discriminate H].
    intros v' H. rewrite applyParsedItemOptions_unfold in H.
    cbv zeta in H.
    destruct (is_str "variable" (prop "type" it)).
    { injection H as <-. unfold applyVariableItemOptions, applyBaseItemOptions.
      apply covers_trans_prune, prune_covers. }
    destruct (is_str "function" (prop "type" it));
      [inv_bind; subst; apply applyFunctionItemOptions_covers; assumption|].
    destruct (is_str "type-alias" (prop "type" it)).
    { inv_bind. subst. rewrite typeAliasCase_run in Ha. covered_by_run.
      each_covering; apply pruned_records_cover; intros x;
        apply prune_covers. }
    destruct (is_str "enum" (prop "type" it)).
    { inv_bind. subst. rewrite enumCase_run in Ha. covered_by_run.
      each_covering; apply pruned_records_cover; intros x;
        apply prune_covers. }
    destruct (is_str "class" (prop "type" it)).
    { inv_bind. subst. rewrite classCase_run in Ha. covered_by_run.
      each_covering;
        [apply pruned_records_cover; intros x; apply prune_covers|].
      apply records_cover, applyClassMemberOptions_covers. }
    destruct (is_str "interface" (prop "type" it)).
    { inv_bind. subst. rewrite interfaceCase_run in Ha. covered_by_run.
      each_covering;
        [apply pruned_records_cover; intros x; apply prune_covers|].
      apply records_cover, applyInterfaceMemberOptions_covers. }
    destruct (is_str "namespace" (prop "type" it));
      [|injection H as <-; apply covers_same].
    inv_bind. subst. rewrite namespaceCase_run in Ha.
    apply (run_covers (namespaceSteps self) it a); [distinct_keys| |exact Ha].
    intros k g v0 v Hin Hget. simpl in Hin.
    destruct Hin as [Hin|[Hin|[Hin|[]]]]; try discriminate Hin.
    injection Hin as <- <-.
    rewrite Forall_forall in IH.
    exact (proj2 (IH _ (get_In _ _ _ Hget)) v).
Qed.
End OriginFacts.

(** X5.  The projection only removes fields: every field of the tree
    it returns is a field of the tree it was given, with the same value
    or, for an array of records, with those records less some of their
    fields; this at every depth and for every configuration. *)
Theorem projection_only_removes_fields (options : NormalizedOptions)
  (onlyMode : bool) (item out : value) :
  applyParsedItemOptions options onlyMode item = Ok out -> covers item out.
Proof. apply applyParsedItemOptions_covers_both. Qed.

Lemma projection_only_removes_fields_witness :
  exists out,
    applyParsedItemOptions (normalizeOptions (Some noNamesNoArguments)) false
      sampleTree = Ok out
    /\ covers sampleTree out.
Proof.
  eexists. split; [reflexivity|].
  apply (projection_only_removes_fields
           (normalizeOptions (Some noNamesNoArguments)) false).
  reflexivity.
Defined.

Lemma base_key_cases (key : string) (optKey : OptKey) :
  map_get key baseItemMap = Some (Some optKey) ->
  In (key, optKey)
    [ ("name", K_Name); ("type", K_ItemType); ("level", K_Level);
      ("exports", K_ExportInfo); ("jsdoc", K_JSDoc);
      ("decorators", K_Decorators); ("loc", K_Location) ].
Proof.
  unfold baseItemMap. cbn [map_get].
  repeat match goal with
         | |- context [String.eqb ?a key] =>
             destruct (String.eqb_spec a key) as [<-|?];
             [intros H; injection H as <-; simpl; tauto|]
         end.
  intros H. discriminate H.
Qed.

(** X6.  Outside only-mode the policy holds for the base fields of an
    item of a known type ([name], [type], [level], [exports], [jsdoc],
    [decorators], [loc]): the field is in the projected item exactly
    when it was in the item and its option is not ["never"], and then
    with its value. *)
Theorem base_fields_follow_the_policy_outside_only_mode
  (options : NormalizedOptions) (it out : obj) (key : string)
  (optKey : OptKey) :
  knownType (prop "type" it) = true ->
  map_get key baseItemMap = Some (Some optKey) ->
  applyParsedItemOptions options false (VObj it) = Ok (VObj out) ->
  get key out
  = if shouldInclude options false optKey then get key it else None.
Proof.
  intros Hty Hkey H. apply base_key_cases in Hkey.
  rewrite applyParsedItemOptions_unfold in H. cbv zeta in H.
  unfold knownType in Hty.
  assert (forall p r,
            run options false p it = Ok r ->
            ~ In key (updatedKeys p) ->
            forallb (fun m => kept options false m key) (prunesOf p)
            = shouldInclude options false optKey ->
            get key r
            = if shouldInclude options false optKey
              then get key it else None) as Hrun.
  { intros p r Hr Hk E. rewrite (run_get_exact _ _ _ _ _ _ Hr Hk), E.
    reflexivity. }
  assert (forall p,
            In p [ variableSteps; functionSteps options false;
                   typeAliasSteps options false; enumSteps options false;
                   classSteps options false; interfaceSteps options false;
                   namespaceSteps (applyParsedItemOptions options false) ] ->
            ~ In key (updatedKeys p)
            /\ forallb (fun m => kept options false m key) (prunesOf p)
               = shouldInclude options false optKey) as Harm.
  { intros p Hp. simpl in Hkey, Hp.
    repeat (destruct Hkey as [Hkey|Hkey];
            [injection Hkey as <- <-|]); [..|contradiction];
      repeat (destruct Hp as [Hp|Hp]; [subst p|]); try contradiction;
      (split; [simpl; intuition discriminate
              |unfold kept; simpl; apply andb_true_r]). }
  assert (forall p r,
            In p [ variableSteps; functionSteps options false;
                   typeAliasSteps options false; enumSteps options false;
                   classSteps options false; interfaceSteps options false;
                   namespaceSteps (applyParsedItemOptions options false) ] ->
            run options false p it = Ok r ->
            get key r
            = if shouldInclude options false optKey
              then get key it else None) as Hpass.
  { intros p r Hp Hr. destruct (Harm p Hp) as [Hk E].
    exact (Hrun p r Hr Hk E). }
  clear Hrun Harm Hkey.
  destruct (is_str "variable" (prop "type" it)).
  { injection H as <-. apply (Hpass variableSteps); [simpl; tauto|].
    reflexivity. }
  destruct (is_str "function" (prop "type" it)).
  { inv_bind. subst. apply (Hpass (functionSteps options false));
      [simpl; tauto|assumption]. }
  destruct (is_str "type-alias" (prop "type" it)).
  { inv_bind. subst. apply (Hpass (typeAliasSteps options false));
      [simpl; tauto|assumption]. }
  destruct (is_str "enum" (prop "type" it)).
  { inv_bind. subst. apply (Hpass (enumSteps options false));
      [simpl; tauto|assumption]. }
  destruct (is_str "class" (prop "type" it)).
  { inv_bind. subst. apply (Hpass (classSteps options false));
      [simpl; tauto|assumption]. }
  destruct (is_str "interface" (prop "type" it)).
  { inv_bind. subst. apply (Hpass (interfaceSteps options false));
      [simpl; tauto|assumption]. }
  destruct (is_str "namespace" (prop "type" it)); [|discriminate Hty].
  inv_bind. subst.
  apply (Hpass (namespaceSteps (applyParsedItemOptions options false)));
    [simpl; tauto|assumption].
Qed.

Lemma base_fields_follow_the_policy_outside_only_mode_witness :
  let opts := normalizeOptions (Some noNamesNoArguments) in
  let it := [ ("name", VStr "x"); ("type", VStr "variable");
              ("level", VStr "top"); ("value", VNum "1") ] in
  let out := [ ("type", VStr "variable"); ("level", VStr "top");
               ("value", VNum "1") ] in
  applyParsedItemOptions opts false (VObj it) = Ok (VObj out)
  /\ get "name" out = None
  /\ get "level" out = Some (VStr "top").
Proof.
  intros opts it out. split; [reflexivity|]. split.
  - rewrite (base_fields_follow_the_policy_outside_only_mode
               opts it out "name" K_Name eq_refl eq_refl eq_refl).
    reflexivity.
  - rewrite (base_fields_follow_the_policy_outside_only_mode
               opts it out "level" K_Level eq_refl eq_refl eq_refl).
    reflexivity.
Defined.

(* ================================================================== *)
(** * Further properties: the normalizer and the builders *)

(** X7.  [parseTypeNode] throws exactly when the kind or the text of
    the node itself cannot be read, and then with the error of that
    read; whatever fails below the node is caught. *)
Theorem parseTypeNode_throws_exactly_on_unreadable_kind_or_text
  (node : option TypeNode) (err : string) :
  parseTypeNode node = Throw err <->
  exists n, node = Some n
            /\ (kindAccOf n = Raises err
                \/ (exists kind, kindAccOf n = Returns kind)
                   /\ textAccOf n = Raises err).
Proof.
  destruct node as [n|]; simpl.
  - rewrite parsePresentTypeNode_throws_iff. split.
    + intros H. exists n. auto.
    + intros [n' [[= <-] H]]. exact H.
  - split; [discriminate|]. intros [n [H _]]. discriminate H.
Qed.

(** X8.  In the record of a parameter [isJSType] tells whether there
    is a type annotation; with one, [type] is its text and [typeAst]
    is a record carrying the same text; without one both are
    [undefined]. *)
Theorem type_text_and_typeAst_agree (param : ParameterDeclaration)
  (info : obj) :
  paramInfo param = Ok info ->
  get "isJSType" info = Some (VBool (isSome (param_typeNode param)))
  /\ match param_typeNode param with
     | None => prop "type" info = VUndef /\ prop "typeAst" info = VUndef
     | Some n =>
         exists text fields,
           textAccOf n = Returns text
           /\ get "type" info = Some (VStr text)
           /\ get "typeAst" info = Some (VObj fields)
           /\ get "text" fields = Some (VStr text)
     end.
Proof.
  unfold paramInfo. intros H. inv_bind. subst info.
  split; [reflexivity|].
  destruct (param_typeNode param) as [[kindAcc textAcc shape]|];
    [|simpl in Ha, Ha0; inv_bind; subst; split; reflexivity].
  unfold parseTypeNode in Ha0.
  destruct textAcc as [text|e]; [|discriminate].
  destruct kindAcc as [kind|e]; [|discriminate].
  simpl in Ha. injection Ha as <-.
  destruct (parsePresentTypeNode_readable kind text shape)
    as [fields [E Ht]].
  rewrite E in Ha0. injection Ha0 as <-.
  exists text, fields. repeat split.
  unfold prop in Ht. destruct (get "text" fields); congruence.
Qed.

Lemma type_text_and_typeAst_agree_witness :
  let param :=
    {| param_name := Some "a"; param_text := "a: A";
       param_typeNode := Some (typeReferenceTo "A");
       param_initializer := None; param_decorators := [];
       param_loc := None; param_isOptional := false |} in
  exists info,
    paramInfo param = Ok info
    /\ get "isJSType" info = Some (VBool true)
    /\ get "type" info = Some (VStr "A").
Proof.
  intros param. eexists. split; [reflexivity|].
  destruct (type_text_and_typeAst_agree param _ eq_refl)
    as [Hjs [text [fields [Ht [Hty _]]]]].
  split; [exact Hjs|]. injection Ht as <-. exact Hty.
Defined.

(* ================================================================== *)
(** * Further properties: the extractor on whole files *)

(** X11.  Under the default configuration [export default] of a
    function expression or arrow function gives one function item with
    export disposition ["default"], level ["top"] and the name of the
    expression, [null] when it has none; [export default] of an
    expression that is neither, and whose text is not the name of a
    variable of the file, gives no item. *)
Theorem default_export_of_an_expression (src : SourceFile)
  (expr : ExportedExpression) (items : list obj) :
  parseStatement None src (ExportAssignment (Some expr)) = Ok items ->
  let isFunction :=
    String.eqb (ee_kindName expr) "FunctionExpression"
    || String.eqb (ee_kindName expr) "ArrowFunction" in
  (isFunction = true ->
   exists item,
     items = [ item ]
     /\ get "type" item = Some (VStr "function")
     /\ get "exports" item = Some (VStr "default")
     /\ get "level" item = Some (VStr "top")
     /\ get "name" item = Some (strOrNull (fn_name (ee_function expr))))
  /\ (isFunction = false ->
      ee_text expr = "" \/ getVariableDeclaration src (ee_text expr) = None ->
      items = []).
Proof.
  simpl. destruct (_ || _).
  - intros H. split; [intros _|discriminate]. inv_bind. subst items.
    apply applyFunctionItemOptions_identity in Ha0;
      [|apply default_keeps_all]. subst a0.
    unfold functionLikeToItem in Ha. inv_bind. subst a.
    eexists. split; [reflexivity|]. repeat split; reflexivity.
  - intros H. split; [discriminate|]. intros _ Hid.
    destruct (ee_text expr) as [|c id] eqn:E.
    + injection H as <-. reflexivity.
    + destruct Hid as [Hid|Hid]; [discriminate Hid|].
      rewrite Hid in H. injection H as <-. reflexivity.
Qed.

Lemma default_export_of_an_expression_witness :
  let arrow :=
    {| ee_kindName := "ArrowFunction"; ee_text := "(a) => a";
       ee_function :=
         {| fn_name := None; fn_isDefaultExport := false;
            fn_isExported := false; fn_jsDocs := []; fn_decorators := [];
            fn_loc := None; fn_parameters := [ parameterA ];
            fn_typeParameters := []; fn_returnTypeNode := None |} |} in
  let call :=
    {| ee_kindName := "CallExpression"; ee_text := "f()";
       ee_function := notAFunction |} in
  (exists item,
      parseStatement None (file []) (ExportAssignment (Some arrow)) = Ok [ item ]
      /\ get "exports" item = Some (VStr "default")
      /\ get "name" item = Some VNull)
  /\ parseStatement None sourceFunctionF (ExportAssignment (Some call))
     = Ok [].
Proof.
  intros arrow call. split.
  - destruct (parseStatement None (file []) (ExportAssignment (Some arrow)))
      as [items|e] eqn:E; [|discriminate E].
    destruct (default_export_of_an_expression (file []) arrow items E) as [Hf _].
    destruct (Hf eq_refl) as [item [-> [_ [He [_ Hn]]]]].
    exists item. auto.
  - destruct (parseStatement None sourceFunctionF
                (ExportAssignment (Some call))) as [items|e] eqn:E;
      [|discriminate E].
    destruct (default_export_of_an_expression sourceFunctionF call items E)
      as [_ Hn].
    rewrite (Hn eq_refl (or_intror eq_refl)). reflexivity.
Defined.

(* ================================================================== *)
(** * The arms of the normalizer *)

Lemma decided_node (n : TypeNode) :
  decidedBy [ n ] (parsePresentTypeNode n).
Proof.
  unfold decidedBy, readable. simpl.
  destruct n as [[kind|e1] [text|e2] shape].
  - destruct (parsePresentTypeNode_readable kind text shape) as [f [E _]].
    left. split; [reflexivity|]. eauto.
  - right. split; [reflexivity|]. simpl. eauto.
  - right. split; [reflexivity|]. simpl. eauto.
  - right. split; [reflexivity|]. simpl. eauto.
Qed.

Lemma decided_sub (c : option TypeNode) :
  decidedBy (present c)
    (match c with
     | None => Ok VUndef
     | Some n => parsePresentTypeNode n
     end).
Proof.
  destruct c as [n|]; [apply decided_node|].
  left. split; [reflexivity|]. eauto.
Qed.

Lemma decided_mapM {A B : Type} (nodes : A -> list TypeNode)
  (f : A -> res B) (l : list A) :
  (forall x, decidedBy (nodes x) (f x)) ->
  decidedBy (flat_map nodes l) (mapM f l).
Proof.
  intros Hf. induction l as [|x l IH]; simpl.
  - left. split; [reflexivity|]. eauto.
  - unfold decidedBy in *. rewrite forallb_app.
    destruct (Hf x) as [[-> [y ->]]|[-> [e ->]]]; simpl;
      [|right; split; [reflexivity|]; eauto].
    destruct IH as [[-> [ys ->]]|[-> [e ->]]]; simpl;
      [left|right]; split; try reflexivity; eauto.
Qed.

Lemma decided_nodes (l : list TypeNode) :
  decidedBy l (mapM parsePresentTypeNode l).
Proof.
  replace l with (flat_map (fun n => [ n ]) l) at 1.
  - apply decided_mapM. apply decided_node.
  - induction l as [|n l IH]; simpl; [reflexivity|]. rewrite IH.
    reflexivity.
Qed.

(** A type annotation read twice, for its text and for its record. *)
Lemma annotation_cases {A : Type} (c : option TypeNode)
  (k : value -> value -> A) :
  let r := type <- match c with
                   | None => Ok VUndef
                   | Some n => t <- fromAcc (textAccOf n) ;; Ok (VStr t)
                   end ;;
           typeAst <- match c with
                      | None => Ok VUndef
                      | Some n => parsePresentTypeNode n
                      end ;;
           Ok (k type typeAst) in
  (forallb readable (present c) = true
   /\ exists type typeAst, r = Ok (k type typeAst))
  \/ (forallb readable (present c) = false /\ exists e, r = Throw e).
Proof.
  destruct c as [n|]; [|left; split; [reflexivity|]; simpl; eauto].
  unfold readable. simpl.
  destruct n as [[kind|e1] [text|e2] shape]; simpl.
  - destruct (parsePresentTypeNode_readable kind text shape) as [f [E _]].
    simpl in E. rewrite E. left. split; [reflexivity|]. simpl. eauto.
  - right. split; [reflexivity|]. eauto.
  - right. split; [reflexivity|]. eauto.
  - right. split; [reflexivity|]. eauto.
Qed.

Lemma decided_annotation {A : Type} (c : option TypeNode)
  (k : value -> value -> A) :
  decidedBy (present c)
    (type <- match c with
             | None => Ok VUndef
             | Some n => t <- fromAcc (textAccOf n) ;; Ok (VStr t)
             end ;;
     typeAst <- match c with
                | None => Ok VUndef
                | Some n => parsePresentTypeNode n
                end ;;
     Ok (k type typeAst)).
Proof.
  destruct (annotation_cases c k) as [[Hr [a [b E]]]|[Hr [e E]]];
    [left|right]; split; eauto.
Qed.

Lemma decided_then {A B : Type} (nodes : list TypeNode) (r : res A)
  (k : A -> B) :
  decidedBy nodes r -> decidedBy nodes (x <- r ;; Ok (k x)).
Proof.
  unfold decidedBy. intros [[-> [a ->]]|[-> [e ->]]]; simpl;
    [left|right]; split; try reflexivity; eauto.
Qed.

Ltac decide_call lemma :=
  let Hr := fresh "Hr" in
  let E := fresh "E" in
  destruct lemma as [[Hr [? E]]|[Hr [? E]]];
  rewrite ?E, ?Hr; cbn [bind try_catch negb andb forallb].

Ltac decide_each nodes :=
  match goal with
  | |- context [mapM ?f ?l] =>
      let D := fresh "D" in
      assert (D : decidedBy (flat_map nodes l) (mapM f l))
        by (apply decided_mapM; intros ?;
            first [apply decided_annotation
                  |apply decided_then; apply decided_sub]);
      decide_call D
  end.

Ltac decide_subs :=
  repeat match goal with
  | |- context [try_catch
                  (bind (match ?c with
                         | Some n => parsePresentTypeNode n
                         | None => Ok VUndef
                         end) _) _] =>
      decide_call (decided_sub c)
  end.

Ltac kind_done :=
  eexists; split; [reflexivity|]; split; [reflexivity|];
  split; [intros; try discriminate; reflexivity
         |intros; try discriminate; eexists; reflexivity].

(** X12.  A failure while a type node is normalized is contained one
    level up.  For a node whose kind and text can be read the record
    has the tag of the arm of the node, and no [error], exactly when
    every node the arm hands to [parseTypeNode] or reads the text of
    can be read itself; otherwise the record is the ["unknown"] one
    with the message caught. *)
Theorem kind_is_the_tag_of_the_arm_unless_it_fails (kind : value)
  (text : string) (shape : TypeShape) :
  exists fields,
    parsePresentTypeNode (MkTypeNode (Returns kind) (Returns text) shape)
    = Ok (VObj fields)
    /\ get "kind" fields
       = Some (VStr (if armFails shape then "unknown" else tagOf shape))
    /\ (armFails shape = false -> get "error" fields = None)
    /\ (armFails shape = true ->
        exists err, get "error" fields = Some (VStr err)).
Proof.
  destruct shape;
    cbn [parsePresentTypeNode fromAcc bind operands tagOf armFails];
    rewrite ?forallb_app.
  - decide_call (decided_nodes typeNodes); kind_done.
  - decide_call (decided_nodes typeNodes); kind_done.
  - decide_call (decided_sub elementTypeNode); kind_done.
  - decide_call (decided_nodes elements); kind_done.
  - decide_call (decided_sub inner); kind_done.
  - decide_call (decided_sub inner); kind_done.
  - kind_done.
  - decide_each (fun s : option TypeNode * option string => present (fst s));
      kind_done.
  - decide_each (fun p : option string * option TypeNode => present (snd p));
      [|kind_done].
    match goal with
    | |- context [try_catch (type <- _ ;; typeAst <- _ ;; Ok (@?k type typeAst)) _] =>
        destruct (annotation_cases returnTypeNode k)
          as [[Hr' [a [b E']]]|[Hr' [e E']]]
    end; cbv zeta in E'; rewrite E', Hr'; cbn [try_catch negb]; kind_done.
  - decide_subs; kind_done.
  - decide_call (decided_nodes typeArguments); kind_done.
  - decide_subs; kind_done.
  - decide_subs; kind_done.
  - decide_subs; kind_done.
  - decide_subs; kind_done.
  - decide_subs; kind_done.
  - kind_done.
  - kind_done.
  - decide_each (fun m : option string * option TypeNode * bool =>
                   present (snd (fst m)));
      kind_done.
  - kind_done.
  - kind_done.
  - kind_done.
Qed.

(* ================================================================== *)
(** * The parser without options *)

Lemma elementsExtend_records (news olds : list obj) :
  Forall2 (fun new old => extends (VObj new) (VObj old)) news olds ->
  elementsExtend (map VObj news) (map VObj olds).
Proof.
  induction 1; simpl; constructor; assumption.
Qed.

Lemma Forall2_same {A : Type} (R : A -> A -> Prop) (l : list A) :
  (forall x, R x x) -> Forall2 R l l.
Proof. intros HR. induction l; constructor; auto. Qed.

Lemma concatMapM_Forall2 {A B C : Type} (R : B -> C -> Prop)
  (f : A -> res (list B)) (g : A -> res (list C)) (l : list A)
  (ys : list B) :
  (forall x ys, In x l -> f x = Ok ys ->
                exists zs, g x = Ok zs /\ Forall2 R ys zs) ->
  concatMapM f l = Ok ys ->
  exists zs, concatMapM g l = Ok zs /\ Forall2 R ys zs.
Proof.
  revert ys. induction l as [|x l IH]; simpl; intros ys Hf H.
  - injection H as <-. exists []. split; [reflexivity|constructor].
  - inv_bind. subst ys.
    destruct (Hf x a (or_introl eq_refl) Ha) as [zs [-> Hzs]].
    destruct (IH a0 (fun y ys Hin => Hf y ys (or_intror Hin)) Ha0)
      as [zs' [-> Hzs']].
    simpl. eexists. split; [reflexivity|]. apply Forall2_app; assumption.
Qed.

(** The loop over a namespace body with two parsers of the
    statements that return related items. *)
Lemma unpackBody_Forall2 (R : obj -> obj -> Prop)
  (parseTmp parseTmp' : list Statement -> res (list obj))
  (selfIsTmp : bool) (body : list (string * list Statement)) :
  (forall new old, R new old -> R (stampSub new) (stampSub old)) ->
  (forall s ys, In s body -> parseTmp (snd s) = Ok ys ->
                exists zs, parseTmp' (snd s) = Ok zs /\ Forall2 R ys zs) ->
  forall (forgotten : bool) (ys : list obj),
    unpackBody parseTmp selfIsTmp forgotten body = Ok ys ->
    exists zs,
      unpackBody parseTmp' selfIsTmp forgotten body = Ok zs
      /\ Forall2 R ys zs.
Proof.
  intros Hstamp.
  induction body as [|[raised tmp] rest IH]; intros Hf forgotten ys H.
  - injection H as <-. exists []. split; [reflexivity|constructor].
  - cbn [unpackBody] in *. destruct forgotten; [discriminate|].
    inv_bind. subst ys.
    destruct (Hf (raised, tmp) a (or_introl eq_refl) Ha) as [zs [Hz Hzs]].
    cbn [snd] in Hz. rewrite Hz.
    destruct (IH (fun s ys Hin => Hf s ys (or_intror Hin)) _ _ Ha0)
      as [zs' [-> Hzs']].
    cbn [bind]. eexists. split; [reflexivity|].
    apply Forall2_app; [|exact Hzs'].
    clear -Hzs Hstamp. induction Hzs; simpl; constructor; auto.
Qed.

Lemma legacy_functionLikeToItem (fn : FunctionLike) (level : string) :
  Legacy.functionLikeToItem fn level
  = functionLikeToItem fn level (normalizeOptions None K_JSDoc).
Proof. reflexivity. Qed.

Lemma legacy_methodItem (meth : MethodDeclaration) :
  Legacy.methodItem meth = methodItem None meth.
Proof. reflexivity. Qed.

Lemma legacy_typeAliasItem (ta : TypeAliasDeclaration) :
  Legacy.typeAliasItem ta = typeAliasItem None ta.
Proof. reflexivity. Qed.

Local Notation "'extend'" :=
  (fun new old : obj => extends (VObj new) (VObj old)).

Ltac same_items :=
  eexists; split; [reflexivity|]; repeat constructor.

Ltac added_fields :=
  repeat first [apply fields_done
               |apply fields_both; [apply extends_same|]
               |apply fields_added; [simpl; tauto|]].

Lemma classMember_extends (name : option string) (m : ClassMember)
  (ms : list obj) :
  classMember None name m = Ok ms ->
  exists olds, Legacy.classMember name m = Ok olds /\ Forall2 extend ms olds.
Proof.
  destruct m; cbn [classMember Legacy.classMember]; cbv zeta;
    intros H; inv_bind; subst; default_identity.
  - rewrite legacy_functionLikeToItem, Ha. same_items.
  - rewrite legacy_methodItem, Ha. same_items.
  - rewrite Ha. same_items.
  - rewrite Ha. same_items.
  - eexists. split; [reflexivity|]. constructor; [|constructor].
    apply extends_record. added_fields.
  - rewrite Ha. same_items.
  - same_items.
Qed.

Lemma interfaceMember_extends (m : InterfaceMember) (ms : list obj) :
  interfaceMember None m = Ok ms ->
  exists olds, Legacy.interfaceMember m = Ok olds /\ Forall2 extend ms olds.
Proof.
  destruct m; cbn [interfaceMember Legacy.interfaceMember]; cbv zeta;
    intros H; inv_bind; subst; default_identity.
  - rewrite Ha. eexists. split; [reflexivity|]. constructor; [|constructor].
    apply extends_record. added_fields.
  - rewrite Ha, Ha0. eexists. split; [reflexivity|].
    constructor; [|constructor]. apply extends_record. added_fields.
  - rewrite Ha. same_items.
  - same_items.
Qed.

Lemma set_fieldsExtend (key : string) (v : value) (new old : obj) :
  ~ In key addedKeys -> fieldsExtend new old ->
  fieldsExtend (set key v new) (set key v old).
Proof.
  intros Hk H. induction H as [|k w u new old Hw H IH|k w new old Hin H IH];
    simpl.
  - apply fields_both; [apply extends_same|apply fields_done].
  - destruct (String.eqb k key).
    + apply fields_both; [apply extends_same|exact H].
    + apply fields_both; assumption.
  - destruct (String.eqb_spec k key) as [->|_]; [contradiction|].
    apply fields_added; assumption.
Qed.

Lemma stampSub_extends (new old : obj) :
  extends (VObj new) (VObj old) ->
  extends (VObj (stampSub new)) (VObj (stampSub old)).
Proof.
  intros H. inversion H as [v|new' old' Hf|]; subst.
  - apply extends_same.
  - apply extends_record, set_fieldsExtend; [|exact Hf].
    simpl. intuition discriminate.
Qed.

Lemma classItem_extends (cd : ClassDeclaration) (item : obj) :
  classItem None cd = Ok item ->
  exists old, Legacy.classItem cd = Ok old /\ extends (VObj item) (VObj old).
Proof.
  unfold classItem, Legacy.classItem. cbv zeta.
  rewrite ?onlyMode_default. intros H.
  apply bind_Ok in H. destruct H as [members [Hm H]].
  apply bind_Ok in H. destruct H as [x1 [H1 H]].
  apply bind_Ok in H. destruct H as [x2 [H2 H]]. injection H as <-.
  rewrite (parsedClass_identity _ default_keeps_all _ _ _ _
             reapplyConstructor_identity H1 H2).
  destruct (concatMapM_Forall2 extend
              _ (Legacy.classMember (cd_name cd)) _ _
              (fun m ms _ => classMember_extends (cd_name cd) m ms) Hm)
    as [olds [-> Holds]].
  eexists. split; [reflexivity|]. apply extends_record.
  repeat (apply fields_both; [apply extends_same|]).
  apply fields_both; [|added_fields].
  apply extends_array, elementsExtend_records, Holds.
Qed.

Lemma interfaceItem_extends (id : InterfaceDeclaration) (item : obj) :
  interfaceItem None id = Ok item ->
  exists old,
    Legacy.interfaceItem id = Ok old /\ extends (VObj item) (VObj old).
Proof.
  unfold interfaceItem, Legacy.interfaceItem. cbv zeta. intros H.
  apply bind_Ok in H. destruct H as [members [Hm H]].
  default_identity.
  destruct (concatMapM_Forall2 extend
              _ Legacy.interfaceMember _ _
              (fun m ms _ => interfaceMember_extends m ms) Hm)
    as [olds [-> Holds]].
  eexists. split; [reflexivity|]. apply extends_record.
  repeat (apply fields_both; [apply extends_same|]).
  apply fields_both; [|added_fields].
  apply extends_array, elementsExtend_records, Holds.
Qed.

Lemma parseStatement_extends (stmt : Statement) :
  forall (src : SourceFile) (items : list obj),
    parseStatement None src stmt = Ok items ->
    exists olds,
      Legacy.parseStatement src stmt = Ok olds /\ Forall2 extend items olds.
Proof.
  induction stmt
    as [k d e ds|fd|ta|ed|e|cd|id|name exported docs forgotten body IH|]
    using Statement_nested_ind; intros src items;
    cbn [parseStatement Legacy.parseStatement]; cbv zeta; intros Hp.
  - inv_bind. subst. default_identity. eexists. split; [reflexivity|].
    apply Forall2_same. intros x. apply extends_same.
  - inv_bind. subst. default_identity.
    rewrite legacy_functionLikeToItem, Ha. same_items.
  - inv_bind. subst. default_identity.
    rewrite legacy_typeAliasItem, Ha. same_items.
  - inv_bind. subst. default_identity. same_items.
  - destruct e as [expr|]; [|inv_bind; subst; same_items].
    destruct (_ || _).
    + inv_bind. subst. default_identity.
      rewrite legacy_functionLikeToItem, Ha. same_items.
    + destruct (ee_text expr); [inv_bind; subst; same_items|].
      destruct (getVariableDeclaration _ _); inv_bind; subst;
        [|same_items].
      default_identity. eexists. split; [reflexivity|].
      constructor; [|constructor]. apply extends_record. added_fields.
  - inv_bind. subst. destruct (classItem_extends _ _ Ha) as [old [-> Hold]].
    eexists. split; [reflexivity|]. constructor; [exact Hold|constructor].
  - inv_bind. subst.
    destruct (interfaceItem_extends _ _ Ha) as [old [-> Hold]].
    eexists. split; [reflexivity|]. constructor; [exact Hold|constructor].
  - apply bind_Ok in Hp. destruct Hp as [members [Hm Hp]].
    destruct (_ && _); [discriminate|].
    inv_bind. subst. unfold namespaceItem in Ha. cbv zeta in Ha.
    default_identity.
    assert (exists olds,
               match body with
               | Some statements =>
                   unpackBody
                     (fun tmp =>
                        concatMapM (Legacy.parseStatement (tmpFile tmp)) tmp)
                     (String.eqb (sf_path src) tmpPath) false statements
               | None => Ok []
               end = Ok olds
               /\ Forall2 extend members olds) as [olds [-> Holds]].
    { destruct body as [statements|];
        [|inv_bind; subst; eexists; split; [reflexivity|constructor]].
      apply (unpackBody_Forall2 extend _ _ _ _ stampSub_extends)
        with (2 := Hm).
      intros s ys Hin Hs.
      rewrite Forall_forall in IH. specialize (IH s Hin).
      rewrite Forall_forall in IH.
      exact (concatMapM_Forall2 extend _
               (Legacy.parseStatement (tmpFile (snd s))) _ _
               (fun s' zs Hs' => IH s' Hs' (tmpFile (snd s)) zs) Hs). }
    eexists. split; [reflexivity|]. constructor; [|constructor].
    apply extends_record.
    repeat (apply fields_both; [apply extends_same|]).
    apply fields_both; [|apply fields_done].
    apply extends_array, elementsExtend_records, Holds.
  - inv_bind. subst. same_items.
Qed.

(** X13.  Called with no options, the parser with options gives what
    the parser without options gives, and more: whenever it returns,
    the older parser returns as many items on the same file, and each
    of its items is the newer item without some fields named
    [valueText], [valueParsed], [type], [decorators] or [loc], at any
    depth. *)
Theorem parser_with_no_options_extends_the_parser_without
  (src : SourceFile) (items : list obj) :
  parseWithTsMorph None src = Ok items ->
  exists olds,
    Legacy.parseWithTsMorph src = Ok olds
    /\ Forall2 (fun new old => extends (VObj new) (VObj old)) items olds.
Proof.
  unfold parseWithTsMorph, Legacy.parseWithTsMorph.
  apply concatMapM_Forall2. intros stmt ys _.
  apply parseStatement_extends.
Qed.

Lemma parser_with_no_options_extends_the_parser_without_witness :
  exists items olds,
    parseWithTsMorph None sourceDefaultX = Ok items
    /\ Legacy.parseWithTsMorph sourceDefaultX = Ok olds
    /\ Forall2 (fun new old => extends (VObj new) (VObj old)) items olds.
Proof.
  destruct (parseWithTsMorph None sourceDefaultX) as [items|err] eqn:E;
    [|discriminate E].
  destruct (parser_with_no_options_extends_the_parser_without
              sourceDefaultX items E) as [olds [Ho Hall]].
  exists items, olds. auto.
Defined.

(* ================================================================== *)
(** * The projection returns on what the extractor builds *)

Lemma bind_failure {A B : Type} (c : res A) (k : A -> res B) :
  (forall a, c = Ok a -> exists b, k a = Ok b) ->
  failure (bind c k) = failure c.
Proof.
  destruct c as [a|e]; simpl; [|reflexivity].
  intros H. destruct (H a eq_refl) as [b ->]. reflexivity.
Qed.

Lemma failure_cases {A B : Type} (c : res A) (d : res B) :
  failure c = failure d ->
  (exists a b, c = Ok a /\ d = Ok b) \/ (exists e, c = Throw e /\ d = Throw e).
Proof.
  destruct c, d; simpl; intros H; try discriminate; [left|right]; eauto.
  injection H as ->. eauto.
Qed.

Lemma shaped_In (k : string) (v : value) (o : obj) :
  shaped (VObj o) = true -> In (k, v) o -> nested k = true ->
  holdsRecords k v = true /\ shaped v = true.
Proof.
  simpl. rewrite forallb_forall. intros H Hin Hk.
  specialize (H _ Hin). simpl in H. rewrite Hk in H. simpl in H.
  apply andb_prop in H. exact H.
Qed.

Lemma shaped_filter (q : string -> bool) (o : obj) :
  shaped (VObj o) = true -> shaped (VObj (filter (byKey q) o)) = true.
Proof. simpl. apply forallb_filter. Qed.

Lemma shaped_set (k : string) (v : value) (o : obj) :
  shaped (VObj o) = true ->
  negb (nested k) || (holdsRecords k v && shaped v) = true ->
  shaped (VObj (set k v o)) = true.
Proof. simpl. intros Ho Hv. apply forallb_set; assumption. Qed.

Lemma shaped_records (l : list obj) :
  Forall (fun o => shaped (VObj o) = true) l -> shaped (records l) = true.
Proof. intros H. unfold records. apply forallb_records, H. Qed.

Lemma holdsRecords_records (k : string) (l : list obj) :
  k <> "function" -> holdsRecords k (records l) = true.
Proof.
  intros Hk. unfold holdsRecords.
  destruct (String.eqb_spec k "function") as [E|_]; [contradiction|].
  simpl. induction l; simpl; auto.
Qed.

Section Returns.
Variable options : NormalizedOptions.
Variable onlyMode : bool.

Local Notation "'runs'" := (run options onlyMode).
Local Notation "'self'" := (applyParsedItemOptions options onlyMode).

Lemma prune_shaped (m : PruneMap) (o : obj) :
  shaped (VObj o) = true ->
  shaped (VObj (pruneObject options onlyMode o m)) = true.
Proof. rewrite pruneObject_filter. apply shaped_filter. Qed.

(** A pass returns on a tree the projection can walk, and leaves such
    a tree. *)
Lemma run_returns (p : list step) (o : obj) :
  NoDup (updatedKeys p) -> updatesReturn p o -> shaped (VObj o) = true ->
  exists r, runs p o = Ok r /\ shaped (VObj r) = true.
Proof.
  revert o. induction p as [|s p IH]; intros o Hnd Hu Ho.
  - exists o. split; [reflexivity|exact Ho].
  - cbn [run]. destruct s as [m|key g]; cbn [exec bind].
    + apply IH; [exact Hnd| |apply prune_shaped, Ho].
      intros k g Hin. destruct (Hu k g (or_intror Hin)) as [Hk Hg].
      split; [exact Hk|]. intros v Hv. apply Hg.
      rewrite pruneObject_filter in Hv. apply filter_In in Hv. tauto.
    + simpl in Hnd. inversion Hnd as [|? ? Hnot Hnd']; subst.
      assert (updatesReturn p o) as Hu'.
      { intros k g' Hin. apply Hu. right. exact Hin. }
      unfold updateField. destruct (truthy (prop key o)) eqn:Ht.
      * assert (In (key, prop key o) o) as Hin.
        { apply get_In. unfold prop in *.
          destruct (get key o); [reflexivity|discriminate]. }
        destruct (Hu key g (or_introl eq_refl)) as [Hk Hg].
        destruct (shaped_In _ _ _ Ho Hin Hk) as [Hh Hs].
        destruct (Hg _ Hin Ht Hh Hs) as [v' [-> [Hh' Hs']]].
        cbn [bind]. apply IH; [exact Hnd'| |].
        -- intros k g' Hin'. destruct (Hu' k g' Hin') as [Hk' Hg'].
           split; [exact Hk'|]. intros v Hv. apply Hg'.
           apply (In_set_other k key v v'); [|exact Hv].
           intros ->. apply Hnot. clear -Hin'.
           induction p as [|[m'|k' g''] p IHp]; simpl in *; [tauto| |].
           ++ destruct Hin' as [Hx|Hx]; [discriminate|auto].
           ++ destruct Hin' as [Hx|Hx]; [injection Hx as -> _; auto|auto].
        -- apply shaped_set; [exact Ho|]. rewrite Hh', Hs'.
           apply orb_true_r.
      * cbn [bind]. apply IH; assumption.
Qed.

Lemma mapM_returns (f : value -> res value) (l : list value) :
  Forall (fun e => shaped e = true ->
                   exists e', f e = Ok e' /\ isRecord e' = isRecord e
                              /\ shaped e' = true) l ->
  forallb isRecord l = true -> forallb shaped l = true ->
  exists l', mapM f l = Ok l' /\ forallb isRecord l' = true
             /\ forallb shaped l' = true.
Proof.
  induction 1 as [|e l He _ IH]; simpl; intros Hr Hs.
  - exists []. auto.
  - apply andb_prop in Hr. destruct Hr as [Hr1 Hr2].
    apply andb_prop in Hs. destruct Hs as [Hs1 Hs2].
    destruct (He Hs1) as [e' [-> [Hr' Hs']]].
    destruct (IH Hr2 Hs2) as [l' [-> [Hrl Hsl]]]. simpl.
    eexists. split; [reflexivity|]. simpl.
    rewrite Hr', Hr1, Hs', Hrl, Hsl. auto.
Qed.

Lemma mapArray_returns (f : value -> res value) (k : string) (v : value) :
  k <> "function" ->
  (forall l, v = VArr l ->
     Forall (fun e => shaped e = true ->
                      exists e', f e = Ok e' /\ isRecord e' = isRecord e
                                 /\ shaped e' = true) l) ->
  truthy v = true -> holdsRecords k v = true -> shaped v = true ->
  exists v', mapArray f v = Ok v' /\ holdsRecords k v' = true
             /\ shaped v' = true.
Proof.
  intros Hk Hf Ht Hh Hs. unfold holdsRecords in *.
  destruct (String.eqb_spec k "function") as [E|_]; [contradiction|].
  destruct v as [| | | | |l|]; try discriminate.
  destruct (mapM_returns f l (Hf l eq_refl) Hh Hs) as [l' [E [Hr' Hs']]].
  simpl. rewrite E. simpl. eauto.
Qed.

Lemma onRecord_returns (F : obj -> res obj) (e : value) :
  (forall o, shaped (VObj o) = true ->
             exists o', F o = Ok o' /\ shaped (VObj o') = true) ->
  isRecord e = true -> shaped e = true ->
  exists e', onRecord F e = Ok e' /\ isRecord e' = isRecord e
             /\ shaped e' = true.
Proof.
  intros HF Hr Hs. destruct e; try discriminate.
  destruct (HF _ Hs) as [o' [E Hs']]. simpl. rewrite E. simpl. eauto.
Qed.

(** An update that maps a callback over the records of a field. *)
Lemma records_return (F : obj -> res obj) (k : string) (v : value) :
  k <> "function" ->
  (forall o, shaped (VObj o) = true ->
             exists o', F o = Ok o' /\ shaped (VObj o') = true) ->
  truthy v = true -> holdsRecords k v = true -> shaped v = true ->
  exists v', mapArray (onRecord F) v = Ok v' /\ holdsRecords k v' = true
             /\ shaped v' = true.
Proof.
  intros Hk HF Ht Hh Hs.
  unfold holdsRecords in Hh.
  destruct (String.eqb_spec k "function") as [E|_]; [contradiction|].
  destruct v as [| | | | |l|]; try discriminate.
  assert (exists l', mapM (onRecord F) l = Ok l'
                     /\ forallb isRecord l' = true
                     /\ forallb shaped l' = true) as [l' [E [Hr' Hs']]].
  { simpl in Hs. clear Ht. induction l as [|e l IH]; simpl.
    - exists []. auto.
    - simpl in Hh, Hs. apply andb_prop in Hh. destruct Hh as [Hr1 Hr2].
      apply andb_prop in Hs. destruct Hs as [Hs1 Hs2].
      destruct (onRecord_returns F e HF Hr1 Hs1) as [e' [-> [Hr' Hs']]].
      destruct (IH Hr2 Hs2) as [l' [-> [Hrl Hsl]]]. simpl.
      eexists. split; [reflexivity|]. simpl.
      rewrite Hr', Hr1, Hs', Hrl, Hsl. auto. }
  simpl. rewrite E. simpl. exists (VArr l'). unfold holdsRecords.
  destruct (String.eqb_spec k "function") as [E'|_]; [contradiction|]. auto.
Qed.

Lemma pruned_records_return (f : obj -> obj) (k : string) (v : value) :
  k <> "function" ->
  (forall o, shaped (VObj o) = true -> shaped (VObj (f o)) = true) ->
  truthy v = true -> holdsRecords k v = true -> shaped v = true ->
  exists v', mapArray (onRecord (pure f)) v = Ok v'
             /\ holdsRecords k v' = true /\ shaped v' = true.
Proof.
  intros Hk Hf. apply records_return; [exact Hk|].
  intros o Ho. exists (f o). split; [reflexivity|apply Hf, Ho].
Qed.

Ltac each_returning :=
  let Hin := fresh "Hin" in
  intros ? ? Hin; simpl in Hin;
  repeat (destruct Hin as [Hin|Hin];
          [first [discriminate Hin
                 |injection Hin as <- <-;
                  split; [reflexivity|intros ? _]]|]);
  [..|contradiction].

Ltac pruned_fields :=
  apply pruned_records_return; [discriminate|];
  intros ? ?;
  unfold applyMethodParamOptions, applyParamOptions,
    applyTypeParameterOptions, applyEnumMemberOptions;
  repeat apply prune_shaped; assumption.

Ltac returns_by_run p :=
  match goal with
  | Ho : shaped (VObj ?o) = true |- exists r, run _ _ p ?o = Ok r /\ _ =>
      apply (run_returns p o); [distinct_keys| |exact Ho]
  end.

Lemma applyFunctionItemOptions_returns (o : obj) :
  shaped (VObj o) = true ->
  exists r, applyFunctionItemOptions options onlyMode o = Ok r
            /\ shaped (VObj r) = true.
Proof.
  intros Ho. rewrite applyFunctionItemOptions_run.
  apply run_returns; [distinct_keys| |exact Ho].
  each_returning; unfold paramUpdate, typeParameterUpdate; pruned_fields.
Qed.

Lemma applyMethodItemOptions_returns (o : obj) :
  shaped (VObj o) = true ->
  exists r, applyMethodItemOptions options onlyMode o = Ok r
            /\ shaped (VObj r) = true.
Proof.
  intros Ho. rewrite applyMethodItemOptions_run.
  apply run_returns; [distinct_keys| |exact Ho].
  each_returning; unfold methodParamUpdate, typeParameterUpdate;
    pruned_fields.
Qed.

Lemma applyInterfaceMemberMethodOptions_returns (o : obj) :
  shaped (VObj o) = true ->
  exists r, applyInterfaceMemberMethodOptions options onlyMode o = Ok r
            /\ shaped (VObj r) = true.
Proof.
  intros Ho. rewrite applyInterfaceMemberMethodOptions_run.
  apply run_returns; [distinct_keys| |exact Ho].
  each_returning; unfold paramUpdate; pruned_fields.
Qed.

Lemma typeAliasCase_returns (o : obj) :
  shaped (VObj o) = true ->
  exists r, typeAliasCase options onlyMode o = Ok r
            /\ shaped (VObj r) = true.
Proof.
  intros Ho. rewrite typeAliasCase_run.
  apply run_returns; [distinct_keys| |exact Ho].
  each_returning; unfold typeParameterUpdate; pruned_fields.
Qed.

Lemma enumCase_returns (o : obj) :
  shaped (VObj o) = true ->
  exists r, enumCase options onlyMode o = Ok r /\ shaped (VObj r) = true.
Proof.
  intros Ho. rewrite enumCase_run.
  apply run_returns; [distinct_keys| |exact Ho].
  each_returning; pruned_fields.
Qed.

Lemma applyConstructorOptions_returns (o : obj) :
  shaped (VObj o) = true ->
  exists r, applyConstructorOptions options onlyMode o = Ok r
            /\ shaped (VObj r) = true.
Proof.
  intros Ho. rewrite applyConstructorOptions_run.
  apply run_returns; [distinct_keys| |exact Ho].
  each_returning. intros Ht Hh Hs. destruct v; try discriminate.
  destruct (applyFunctionItemOptions_returns _ Hs) as [r [E Hr]].
  simpl. rewrite E. simpl. eauto.
Qed.

Lemma applyClassMemberOptions_returns (o : obj) :
  shaped (VObj o) = true ->
  exists r, applyClassMemberOptions options onlyMode o = Ok r
            /\ shaped (VObj r) = true.
Proof.
  intros Ho. unfold applyClassMemberOptions.
  destruct (is_str "constructor" (prop "type" o));
    [apply applyConstructorOptions_returns, Ho|].
  destruct (negb (is_undefined (prop "arguments" o)));
    [apply applyMethodItemOptions_returns, Ho|].
  destruct (negb (is_undefined (prop "keyType" o)));
    eexists; (split; [reflexivity|]); apply prune_shaped, Ho.
Qed.

Lemma applyInterfaceMemberOptions_returns (o : obj) :
  shaped (VObj o) = true ->
  exists r, applyInterfaceMemberOptions options onlyMode o = Ok r
            /\ shaped (VObj r) = true.
Proof.
  intros Ho. unfold applyInterfaceMemberOptions.
  destruct (negb (is_undefined (prop "keyType" o)));
    [eexists; (split; [reflexivity|]); apply prune_shaped, Ho|].
  destruct (negb (is_undefined (prop "arguments" o)));
    [apply applyInterfaceMemberMethodOptions_returns, Ho|].
  eexists; (split; [reflexivity|]); apply prune_shaped, Ho.
Qed.

Lemma classCase_returns (o : obj) :
  shaped (VObj o) = true ->
  exists r, classCase options onlyMode o = Ok r /\ shaped (VObj r) = true.
Proof.
  intros Ho. rewrite classCase_run.
  apply run_returns; [distinct_keys| |exact Ho].
  each_returning; [unfold typeParameterUpdate; pruned_fields|].
  apply records_return; [discriminate|].
  apply applyClassMemberOptions_returns.
Qed.

Lemma interfaceCase_returns (o : obj) :
  shaped (VObj o) = true ->
  exists r, interfaceCase options onlyMode o = Ok r
            /\ shaped (VObj r) = true.
Proof.
  intros Ho. rewrite interfaceCase_run.
  apply run_returns; [distinct_keys| |exact Ho].
  each_returning; [unfold typeParameterUpdate; pruned_fields|].
  apply records_return; [discriminate|].
  apply applyInterfaceMemberOptions_returns.
Qed.

Lemma applyVariableItemOptions_shaped (o : obj) :
  shaped (VObj o) = true ->
  shaped (VObj (applyVariableItemOptions options onlyMode o)) = true.
Proof.
  intros Ho. unfold applyVariableItemOptions, applyBaseItemOptions.
  apply prune_shaped, prune_shaped, Ho.
Qed.

(** The projection returns on a tree it can walk, a record for a
    record, and leaves such a tree. *)
Lemma applyParsedItemOptions_returns_both (v : value) :
  (shaped v = true ->
   exists v', self v = Ok v' /\ isRecord v' = isRecord v
              /\ shaped v' = true)
  /\ (forall l, v = VArr l ->
        Forall (fun e => shaped e = true ->
                         exists e', self e = Ok e'
                                    /\ isRecord e' = isRecord e
                                    /\ shaped e' = true) l).
Proof.
  induction v as [| | | | |l IH|it IH] using value_nested_ind;
    try (split; [intros Hv; eexists; split; [reflexivity|]; auto
                |discriminate]).
  - split; [intros Hv; eexists; split; [reflexivity|]; auto|].
    intros l0 E. injection E as <-.
    eapply Forall_impl; [|exact IH]. intros e He. exact (proj1 He).
  - split; [|discriminate]. intros Hv.
    rewrite applyParsedItemOptions_unfold. cbv zeta.
    destruct (is_str "variable" (prop "type" it)).
    { eexists. split; [reflexivity|]. split; [reflexivity|].
      apply applyVariableItemOptions_shaped, Hv. }
    destruct (is_str "function" (prop "type" it)).
    { destruct (applyFunctionItemOptions_returns _ Hv) as [r [-> Hr]].
      simpl. eauto. }
    destruct (is_str "type-alias" (prop "type" it)).
    { destruct (typeAliasCase_returns _ Hv) as [r [-> Hr]]. simpl. eauto. }
    destruct (is_str "enum" (prop "type" it)).
    { destruct (enumCase_returns _ Hv) as [r [-> Hr]]. simpl. eauto. }
    destruct (is_str "class" (prop "type" it)).
    { destruct (classCase_returns _ Hv) as [r [-> Hr]]. simpl. eauto. }
    destruct (is_str "interface" (prop "type" it)).
    { destruct (interfaceCase_returns _ Hv) as [r [-> Hr]]. simpl. eauto. }
    destruct (is_str "namespace" (prop "type" it));
      [|eexists; split; [reflexivity|]; auto].
    assert (exists r, namespaceCase options onlyMode self it = Ok r
                      /\ shaped (VObj r) = true) as [r [-> Hr]].
    { rewrite namespaceCase_run.
      apply run_returns; [distinct_keys| |exact Hv].
      intros k g Hin. simpl in Hin.
      destruct Hin as [Hin|[Hin|[Hin|[]]]]; try discriminate Hin.
      injection Hin as <- <-. split; [reflexivity|].
      intros v Hin. apply mapArray_returns; [discriminate|].
      intros l ->. rewrite Forall_forall in IH.
      exact (proj2 (IH _ Hin) l eq_refl). }
    simpl. eauto.
Qed.

(** The projection returns on a tree it can walk, a record for a
    record, and leaves such a tree. *)
Lemma applyParsedItemOptions_returns (v : value) :
  shaped v = true ->
  exists v', self v = Ok v' /\ isRecord v' = isRecord v
             /\ shaped v' = true.
Proof. apply applyParsedItemOptions_returns_both. Qed.

Lemma namespaceCase_returns (o : obj) :
  shaped (VObj o) = true ->
  exists r, namespaceCase options onlyMode self o = Ok r
            /\ shaped (VObj r) = true.
Proof.
  intros Ho. rewrite namespaceCase_run.
  apply run_returns; [distinct_keys| |exact Ho].
  each_returning. apply mapArray_returns; [discriminate|].
  intros l _. apply Forall_forall. intros e _.
  apply applyParsedItemOptions_returns.
Qed.
End Returns.

(* ================================================================== *)
(** * What the extractor builds *)

Lemma typeParamsOf_shaped (tps : list TypeParameterDeclaration) :
  holdsRecords "typeParameters" (typeParamsOf tps) = true
  /\ shaped (typeParamsOf tps) = true.
Proof.
  unfold typeParamsOf. destruct tps as [|tp tps]; [split; reflexivity|].
  generalize (tp :: tps). intros l. unfold holdsRecords. simpl.
  induction l as [|x l [IH1 IH2]]; [split; reflexivity|]. simpl.
  rewrite IH1, IH2. split; reflexivity.
Qed.

Lemma shaped_cons (k : string) (v : value) (o : obj) :
  shaped (VObj ((k, v) :: o))
  = (negb (nested k) || (holdsRecords k v && shaped v)) && shaped (VObj o).
Proof. reflexivity. Qed.

(** A record written out can be walked when the records it holds
    can. *)
Ltac shaped_ok :=
  rewrite ?shaped_cons;
  rewrite ?holdsRecords_records by discriminate;
  rewrite ?(proj1 (typeParamsOf_shaped _)), ?(proj2 (typeParamsOf_shaped _));
  repeat match goal with
         | H : shaped _ = true |- _ => rewrite H
         end;
  reflexivity.

Lemma paramInfo_shaped (param : ParameterDeclaration) (info : obj) :
  paramInfo param = Ok info -> shaped (VObj info) = true.
Proof. unfold paramInfo. intros H. inv_bind. subst. reflexivity. Qed.

Lemma methodParamInfo_shaped (param : ParameterDeclaration) (info : obj) :
  methodParamInfo param = Ok info -> shaped (VObj info) = true.
Proof.
  unfold methodParamInfo. intros H. inv_bind. subst.
  apply shaped_set; [eapply paramInfo_shaped; eassumption|reflexivity].
Qed.

Lemma parameters_shaped (f : ParameterDeclaration -> res obj)
  (params : list ParameterDeclaration) (args : list obj) :
  (forall param info, f param = Ok info -> shaped (VObj info) = true) ->
  mapM f params = Ok args -> shaped (records args) = true.
Proof.
  intros Hf H. apply shaped_records.
  exact (mapM_Forall _ f params args Hf H).
Qed.

Lemma functionLikeToItem_shaped (fn : FunctionLike) (level : string)
  (jsdocOption : option OptionMode) (f : obj) :
  functionLikeToItem fn level jsdocOption = Ok f -> shaped (VObj f) = true.
Proof.
  unfold functionLikeToItem. intros H. inv_bind. subst.
  pose proof (parameters_shaped _ _ _ paramInfo_shaped Ha) as Hargs.
  shaped_ok.
Qed.

Lemma functionLikeToItem_failure (fn : FunctionLike) (level : string)
  (j j' : option OptionMode) :
  failure (functionLikeToItem fn level j)
  = failure (functionLikeToItem fn level j').
Proof.
  unfold functionLikeToItem.
  destruct (mapM paramInfo (fn_parameters fn)); [|reflexivity]. simpl.
  destruct (typeNodeText (fn_returnTypeNode fn)); [|reflexivity]. simpl.
  destruct (parseTypeNode (fn_returnTypeNode fn)); reflexivity.
Qed.

Ltac same_calls :=
  repeat match goal with
         | |- context [bind ?c _] => destruct c; cbn [bind failure]
         end;
  reflexivity.

Lemma mapField_returns (options : NormalizedOptions) (onlyMode : bool)
  (key : string) (F : obj -> res obj) (item : obj) :
  key <> "function" -> nested key = true ->
  (forall o, shaped (VObj o) = true ->
             exists o', F o = Ok o' /\ shaped (VObj o') = true) ->
  shaped (VObj item) = true ->
  exists r, mapField key F item = Ok r /\ shaped (VObj r) = true.
Proof.
  intros Hk Hn HF Ho.
  destruct (run_returns options onlyMode
              [ Update key (mapArray (onRecord F)) ] item) as [r [E Hr]].
  - distinct_keys.
  - intros k g [Hin|[]]. injection Hin as <- <-. split; [exact Hn|].
    intros v _. apply records_return; assumption.
  - exact Ho.
  - exists r. split; [|exact Hr]. cbn [run exec] in E.
    unfold mapField, mapFieldValues. destruct (updateField _ _ _);
      [exact E|discriminate E].
Qed.

Section Arms.
Variable options : option ParseOptions.

Local Notation "'opts'" := (normalizeOptions options).
Local Notation "'onlyMode'" := (onlyMode_of (normalizeOptions options)).
Local Notation "'walkable' l" :=
  (Forall (fun it : obj => shaped (VObj it) = true) l) (at level 10).

(** An arm that builds a record and projects it fails as the builder
    fails, and what it pushes can be walked. *)
Lemma arm_outcome {A : Type} (build : res A) (project : A -> res obj)
  (wrap : obj -> obj) :
  (forall raw, build = Ok raw ->
               exists item, project raw = Ok item
                            /\ shaped (VObj (wrap item)) = true) ->
  let r := raw <- build ;; item <- project raw ;; Ok [ wrap item ] in
  failure r = failure build /\ forall items, r = Ok items -> walkable items.
Proof.
  intros Hp r. subst r. destruct build as [raw|e]; simpl.
  - destruct (Hp raw eq_refl) as [item [-> Hi]]. simpl.
    split; [reflexivity|]. intros items H. injection H as <-.
    repeat constructor. exact Hi.
  - split; [reflexivity|discriminate].
Qed.

Lemma function_arm (fn : FunctionLike) (level : string)
  (before : obj -> obj) :
  (forall f, shaped (VObj f) = true -> shaped (VObj (before f)) = true) ->
  let r := f <- functionLikeToItem fn level (opts K_JSDoc) ;;
           f' <- applyFunctionItemOptions opts onlyMode (before f) ;;
           Ok [ f' ] in
  failure r = failure (functionLikeToItem fn level None)
  /\ forall items, r = Ok items -> walkable items.
Proof.
  intros Hbefore r. subst r.
  rewrite (functionLikeToItem_failure fn level None (opts K_JSDoc)).
  apply (arm_outcome _
           (fun f => applyFunctionItemOptions opts onlyMode (before f))
           (fun f => f)).
  intros raw Hr. apply functionLikeToItem_shaped in Hr.
  apply applyFunctionItemOptions_returns, Hbefore, Hr.
Qed.

Lemma variableItem_shaped (kind : string) (isDefaultExport isExported : bool)
  (d : VariableDeclaration) :
  shaped (VObj (applyVariableItemOptions opts onlyMode
                  (variableItem options kind isDefaultExport isExported d)))
  = true.
Proof. apply applyVariableItemOptions_shaped. reflexivity. Qed.

Lemma defaultExportItem_shaped (vd : VariableDeclaration) :
  shaped (VObj (applyVariableItemOptions opts onlyMode
                  (defaultExportItem options vd))) = true.
Proof. apply applyVariableItemOptions_shaped. reflexivity. Qed.

Lemma typeAlias_arm (ta : TypeAliasDeclaration) :
  let r := item <- typeAliasItem options ta ;;
           item' <- typeAliasCase opts onlyMode item ;;
           Ok [ item' ] in
  failure r = failure (typeAliasItem None ta)
  /\ forall items, r = Ok items -> walkable items.
Proof.
  intros r. subst r.
  assert (failure (typeAliasItem None ta)
          = failure (typeAliasItem options ta)) as ->.
  { unfold typeAliasItem. same_calls. }
  apply (arm_outcome _ (typeAliasCase opts onlyMode) (fun f => f)).
  unfold typeAliasItem. intros raw H. inv_bind. subst.
  apply typeAliasCase_returns. shaped_ok.
Qed.

Lemma enum_arm (ed : EnumDeclaration) :
  exists item,
    mapField "members" (pure (applyEnumMemberOptions opts onlyMode))
      (pruneObject opts onlyMode
         (applyBaseItemOptions opts onlyMode (enumItem options ed)) enumMap)
    = Ok item
    /\ shaped (VObj item) = true.
Proof.
  apply (mapField_returns opts onlyMode); [discriminate|reflexivity| |].
  - intros o Ho. eexists. split; [reflexivity|].
    unfold applyEnumMemberOptions. apply prune_shaped, Ho.
  - unfold applyBaseItemOptions. apply prune_shaped, prune_shaped.
    unfold enumItem.
    assert (shaped (records (map (enumMember options) (en_members ed)))
            = true) as Hm.
    { apply shaped_records, Forall_forall. intros o Hin.
      apply in_map_iff in Hin. destruct Hin as [m [<- _]].
      unfold enumMember, applyEnumMemberOptions. apply prune_shaped.
      reflexivity. }
    shaped_ok.
Qed.

Lemma methodItem_shaped (meth : MethodDeclaration) (item : obj) :
  methodItem options meth = Ok item -> shaped (VObj item) = true.
Proof.
  unfold methodItem. intros H. inv_bind. subst.
  pose proof (parameters_shaped _ _ _ methodParamInfo_shaped Ha) as Hargs.
  shaped_ok.
Qed.

Lemma classMember_outcome (name : option string) (m : ClassMember) :
  failure (classMember options name m)
  = match m with
    | Constructor ctor => failure (functionLikeToItem ctor "sub" None)
    | Method meth => failure (methodItem None meth)
    | GetAccessor _ returnTypeNode _ => failure (typeNodeText returnTypeNode)
    | SetAccessor _ parameters _ => failure (mapM methodParamInfo parameters)
    | Property p => failure (typeNodeText (pd_typeNode p))
    | ClassIndexSignature idx => failure (indexSignatureItem idx)
    | OtherClassMember => None
    end
  /\ forall ms, classMember options name m = Ok ms -> walkable ms.
Proof.
  destruct m as [ctor|meth|getter returnTypeNode jsDocs
                 |setter parameters jsDocs|p|idx|];
    cbn [classMember]; cbv zeta.
  - rewrite (functionLikeToItem_failure ctor "sub" None (opts K_JSDoc)).
    apply (arm_outcome _ (applyFunctionItemOptions opts onlyMode)
             (fun f' => [ ("type", VStr "constructor");
                          ("for", strOr name "");
                          ("function", VObj f') ])).
    intros raw Hr. apply functionLikeToItem_shaped in Hr.
    destruct (applyFunctionItemOptions_returns opts onlyMode _ Hr)
      as [f' [-> Hf]].
    eexists. split; [reflexivity|]. shaped_ok.
  - assert (failure (methodItem None meth)
            = failure (methodItem options meth)) as ->
      by (unfold methodItem; same_calls).
    apply (arm_outcome _ (applyMethodItemOptions opts onlyMode)
             (fun f => f)).
    intros raw Hr. apply methodItem_shaped in Hr.
    apply applyMethodItemOptions_returns, Hr.
  - apply (arm_outcome _
             (fun returnType =>
                applyMethodItemOptions opts onlyMode
                  [ ("name", strOr getter "");
                    ("isGetter", VBool true);
                    ("arguments", VArr []);
                    ("returnType", returnType);
                    ("jsdoc", getJsDocText jsDocs (opts K_JSDoc)) ])
             (fun f => f)).
    intros raw _. apply applyMethodItemOptions_returns. reflexivity.
  - apply (arm_outcome _
             (fun args =>
                applyMethodItemOptions opts onlyMode
                  [ ("name", strOr setter "");
                    ("isSetter", VBool true);
                    ("arguments", records args);
                    ("jsdoc", getJsDocText jsDocs (opts K_JSDoc)) ])
             (fun f => f)).
    intros raw Hr. apply applyMethodItemOptions_returns.
    pose proof (parameters_shaped _ _ _ methodParamInfo_shaped Hr) as Hargs.
    shaped_ok.
  - destruct (typeNodeText (pd_typeNode p)) as [type|e]; cbn [bind failure];
      [|split; [reflexivity|discriminate]].
    split; [reflexivity|]. intros ms H. injection H as <-.
    repeat constructor. unfold applyClassMemberPropertyOptions.
    apply prune_shaped. reflexivity.
  - destruct (indexSignatureItem idx) as [item|e] eqn:E; cbn [bind failure];
      [|split; [reflexivity|discriminate]].
    split; [reflexivity|]. intros ms H. injection H as <-.
    repeat constructor. unfold applyIndexSignatureOptions.
    apply prune_shaped. unfold indexSignatureItem in E. inv_bind. subst.
    reflexivity.
  - split; [reflexivity|]. intros ms H. injection H as <-. constructor.
Qed.

Lemma reapplyConstructor_returns (m : obj) :
  shaped (VObj m) = true ->
  exists m', reapplyConstructor options m = Ok m'
             /\ shaped (VObj m') = true.
Proof.
  intros Hm. unfold reapplyConstructor. cbv zeta.
  destruct (is_str "constructor" (prop "type" m));
    [apply applyConstructorOptions_returns, Hm|eauto].
Qed.

Lemma classItem_outcome (cd : ClassDeclaration) :
  failure (classItem options cd)
  = failure (concatMapM (classMember options (cd_name cd)) (cd_members cd))
  /\ forall item, classItem options cd = Ok item ->
                  shaped (VObj item) = true.
Proof.
  unfold classItem. cbv zeta.
  destruct (concatMapM _ (cd_members cd)) as [members|e] eqn:Hm;
    cbn [bind failure]; [|split; [reflexivity|discriminate]].
  assert (shaped (records members) = true) as Hs.
  { apply shaped_records. eapply concatMapM_Forall; [|exact Hm].
    intros m ms _. apply classMember_outcome. }
  match goal with
  | |- context [mapField "typeParameters" ?F ?item] =>
      destruct (mapField_returns opts onlyMode "typeParameters" F item)
        as [x1 [-> H1]]
  end; [discriminate|reflexivity| | |].
  - intros o Ho. eexists. split; [reflexivity|].
    unfold applyTypeParameterOptions. apply prune_shaped, Ho.
  - unfold applyBaseItemOptions. apply prune_shaped. shaped_ok.
  - cbn [bind].
    destruct (mapField_returns opts onlyMode "items"
                (reapplyConstructor options) x1) as [x2 [-> H2]];
      [discriminate|reflexivity|apply reapplyConstructor_returns|exact H1|].
    cbn [bind failure]. split; [reflexivity|].
    intros item H. injection H as <-. apply prune_shaped, H2.
Qed.

Lemma interfaceMember_outcome (m : InterfaceMember) :
  failure (interfaceMember options m)
  = match m with
    | IPropertySignature p => failure (typeNodeText (ps_typeNode p))
    | IMethodSignature ms =>
        failure (args <- mapM paramInfo (ms_parameters ms) ;;
                 typeNodeText (ms_returnTypeNode ms))
    | IIndexSignature idx => failure (indexSignatureItem idx)
    | OtherInterfaceMember => None
    end
  /\ forall ms, interfaceMember options m = Ok ms -> walkable ms.
Proof.
  destruct m as [p|ms|idx|]; cbn [interfaceMember]; cbv zeta.
  - destruct (typeNodeText (ps_typeNode p)) as [type|e]; cbn [bind failure];
      [|split; [reflexivity|discriminate]].
    split; [reflexivity|]. intros l H. injection H as <-.
    repeat constructor. unfold applyInterfaceMemberPropertyOptions.
    apply prune_shaped. reflexivity.
  - destruct (mapM paramInfo (ms_parameters ms)) as [args|e] eqn:Ha;
      cbn [bind failure]; [|split; [reflexivity|discriminate]].
    destruct (typeNodeText (ms_returnTypeNode ms)) as [returnType|e];
      cbn [bind failure]; [|split; [reflexivity|discriminate]].
    pose proof (parameters_shaped _ _ _ paramInfo_shaped Ha) as Hargs.
    match goal with
    | |- context [applyInterfaceMemberMethodOptions _ _ ?raw] =>
        destruct (applyInterfaceMemberMethodOptions_returns opts onlyMode raw)
          as [item [-> Hi]]; [shaped_ok|]
    end.
    cbn [bind failure]. split; [reflexivity|].
    intros l H. injection H as <-. repeat constructor. exact Hi.
  - destruct (indexSignatureItem idx) as [item|e] eqn:E; cbn [bind failure];
      [|split; [reflexivity|discriminate]].
    split; [reflexivity|]. intros l H. injection H as <-.
    repeat constructor. unfold applyIndexSignatureOptions.
    apply prune_shaped. unfold indexSignatureItem in E. inv_bind. subst.
    reflexivity.
  - split; [reflexivity|]. intros l H. injection H as <-. constructor.
Qed.

Lemma interfaceItem_outcome (id : InterfaceDeclaration) :
  failure (interfaceItem options id)
  = failure (concatMapM (interfaceMember options) (id_members id))
  /\ forall item, interfaceItem options id = Ok item ->
                  shaped (VObj item) = true.
Proof.
  unfold interfaceItem. cbv zeta.
  destruct (concatMapM _ (id_members id)) as [members|e] eqn:Hm;
    cbn [bind failure]; [|split; [reflexivity|discriminate]].
  assert (shaped (records members) = true) as Hs.
  { apply shaped_records. eapply concatMapM_Forall; [|exact Hm].
    intros m ms _. apply interfaceMember_outcome. }
  match goal with
  | |- context [interfaceCase _ _ ?raw] =>
      destruct (interfaceCase_returns opts onlyMode raw) as [item [-> Hi]];
        [shaped_ok|]
  end.
  split; [reflexivity|]. intros item' H. injection H as <-. exact Hi.
Qed.

Lemma namespaceItem_returns (name : option string) (isExported : bool)
  (jsDocs : list string) (members : list obj) :
  walkable members ->
  exists item, namespaceItem options name isExported jsDocs members = Ok item
               /\ shaped (VObj item) = true.
Proof.
  intros Hm. unfold namespaceItem. cbv zeta.
  apply namespaceCase_returns.
  pose proof (shaped_records _ Hm) as Hs. shaped_ok.
Qed.
End Arms.

Lemma concatMapM_failure {A B C : Type} (f : A -> res (list B))
  (g : A -> res (list C)) (l : list A) :
  (forall x, In x l -> failure (f x) = failure (g x)) ->
  failure (concatMapM f l) = failure (concatMapM g l).
Proof.
  induction l as [|x l IH]; intros H; [reflexivity|]. simpl.
  pose proof (H x (or_introl eq_refl)) as Hx.
  destruct (f x), (g x); simpl in *; try discriminate; [|exact Hx].
  specialize (IH (fun y Hy => H y (or_intror Hy))).
  destruct (concatMapM f l), (concatMapM g l); simpl in *;
    try discriminate; [reflexivity|exact IH].
Qed.

(** The loop over a namespace body fails as the calls it makes do. *)
Lemma unpackBody_failure
  (parseTmp parseTmp' : list Statement -> res (list obj))
  (selfIsTmp : bool) (body : list (string * list Statement)) :
  (forall s, In s body ->
             failure (parseTmp (snd s)) = failure (parseTmp' (snd s))) ->
  forall forgotten : bool,
    failure (unpackBody parseTmp selfIsTmp forgotten body)
    = failure (unpackBody parseTmp' selfIsTmp forgotten body).
Proof.
  induction body as [|[raised tmp] rest IH]; intros H forgotten;
    [reflexivity|].
  cbn [unpackBody]. destruct forgotten; [reflexivity|].
  pose proof (H (raised, tmp) (or_introl eq_refl)) as Hx. cbn [snd] in Hx.
  destruct (parseTmp tmp), (parseTmp' tmp); cbn [bind failure] in *;
    try discriminate; [|exact Hx].
  specialize (IH (fun y Hy => H y (or_intror Hy)) selfIsTmp).
  destruct (unpackBody parseTmp selfIsTmp selfIsTmp rest),
           (unpackBody parseTmp' selfIsTmp selfIsTmp rest);
    cbn [bind failure] in *; try discriminate; [reflexivity|exact IH].
Qed.

Lemma stampSub_shaped (it : obj) :
  shaped (VObj it) = true -> shaped (VObj (stampSub it)) = true.
Proof. intros H. apply shaped_set; [exact H|reflexivity]. Qed.

(** A statement fails under a configuration as it fails under the
    default one, and the items it yields can be walked. *)
Lemma parseStatement_outcome (stmt : Statement) :
  forall (options : option ParseOptions) (src : SourceFile),
    failure (parseStatement options src stmt)
    = failure (parseStatement None src stmt)
    /\ forall items, parseStatement options src stmt = Ok items ->
                     Forall (fun it => shaped (VObj it) = true) items.
Proof.
  induction stmt
    as [k d e ds|fd|ta|ed|e|cd|id|name exported docs forgotten body IH|]
    using Statement_nested_ind; intros options src;
    cbn [parseStatement]; cbv zeta.
  - split; [reflexivity|]. intros items H. injection H as <-.
    apply Forall_forall. intros x Hin. apply in_map_iff in Hin.
    destruct Hin as [d' [<- _]]. apply variableItem_shaped.
  - split; [|apply (function_arm options fd "top" (fun f => f)); auto].
    transitivity (failure (functionLikeToItem fd "top" None));
      [|symmetry];
      apply (function_arm _ fd "top" (fun f => f)); auto.
  - split; [|apply (typeAlias_arm options ta)].
    transitivity (failure (typeAliasItem None ta)); [|symmetry];
      apply typeAlias_arm.
  - destruct (enum_arm options ed) as [item [-> Hi]].
    destruct (enum_arm None ed) as [item0 [-> _]].
    split; [reflexivity|]. intros items H. injection H as <-.
    repeat constructor. exact Hi.
  - destruct e as [expr|];
      [|split; [reflexivity|intros items H; injection H as <-; constructor]].
    destruct (_ || _).
    + assert (forall f, shaped (VObj f) = true ->
                shaped (VObj (set "exports" (VStr "default") f)) = true)
        as Hset by (intros f Hf; apply shaped_set; [exact Hf|reflexivity]).
      split; [|apply (function_arm options (ee_function expr) "top"
                        (set "exports" (VStr "default"))), Hset].
      transitivity (failure (functionLikeToItem (ee_function expr) "top"
                               None));
        [|symmetry];
        apply (function_arm _ (ee_function expr) "top"
                 (set "exports" (VStr "default"))), Hset.
    + destruct (ee_text expr);
        [split; [reflexivity|intros items H; injection H as <-; constructor]|].
      destruct (getVariableDeclaration _ _);
        (split; [reflexivity|]); intros items H; injection H as <-;
        repeat constructor.
      apply defaultExportItem_shaped.
  - destruct (classItem_outcome options cd) as [E W].
    destruct (classItem_outcome None cd) as [E0 _].
    assert (failure (classItem options cd) = failure (classItem None cd))
      as Hsame.
    { rewrite E, E0. apply concatMapM_failure. intros m _.
      rewrite (proj1 (classMember_outcome options _ m)).
      rewrite (proj1 (classMember_outcome None _ m)). reflexivity. }
    destruct (classItem options cd) as [item|err],
             (classItem None cd) as [item0|err0];
      simpl in *; try discriminate; split; try assumption;
      try reflexivity; try discriminate.
    intros items H. injection H as <-. repeat constructor. auto.
  - destruct (interfaceItem_outcome options id) as [E W].
    destruct (interfaceItem_outcome None id) as [E0 _].
    assert (failure (interfaceItem options id)
            = failure (interfaceItem None id)) as Hsame.
    { rewrite E, E0. apply concatMapM_failure. intros m _.
      rewrite (proj1 (interfaceMember_outcome options m)).
      rewrite (proj1 (interfaceMember_outcome None m)). reflexivity. }
    destruct (interfaceItem options id) as [item|err],
             (interfaceItem None id) as [item0|err0];
      simpl in *; try discriminate; split; try assumption;
      try reflexivity; try discriminate.
    intros items H. injection H as <-. repeat constructor. auto.
  - set (selfIsTmp := String.eqb (sf_path src) tmpPath).
    set (membersOf := fun o : option ParseOptions =>
                         match body with
                         | Some statements =>
                             unpackBody
                               (fun tmp =>
                                  concatMapM (parseStatement o (tmpFile tmp))
                                    tmp)
                               selfIsTmp false statements
                         | None => Ok []
                         end).
    assert (forall o members, membersOf o = Ok members ->
              Forall (fun it => shaped (VObj it) = true) members) as Hwalk.
    { intros o members. unfold membersOf.
      destruct body as [statements|];
        [|intros H; injection H as <-; constructor].
      intros H. apply unpackBody_Ok in H. revert H.
      apply concatMapM_Forall. intros s ys Hin Hs.
      apply bind_Ok in Hs. destruct Hs as [its [Hits Hs]].
      injection Hs as <-. rewrite Forall_forall in IH.
      specialize (IH s Hin). rewrite Forall_forall in IH.
      apply Forall_forall. intros x Hx. apply in_map_iff in Hx.
      destruct Hx as [it [<- Hit]]. apply stampSub_shaped.
      assert (Forall (fun it => shaped (VObj it) = true) its) as Hall.
      { eapply concatMapM_Forall; [|exact Hits].
        intros s' zs Hs' Hz.
        exact (proj2 (IH s' Hs' o (tmpFile (snd s))) zs Hz). }
      rewrite Forall_forall in Hall. apply Hall, Hit. }
    assert (forall o, failure (membersOf o) = failure (membersOf None))
      as Hsame.
    { intros o. unfold membersOf.
      destruct body as [statements|]; [|reflexivity].
      apply unpackBody_failure. intros s Hin.
      rewrite Forall_forall in IH. specialize (IH s Hin).
      rewrite Forall_forall in IH.
      apply concatMapM_failure. intros s' Hs'. apply IH, Hs'. }
    change (failure (members <- membersOf options ;;
                     if selfIsTmp && hasStatements body then Throw forgotten
                     else item <- namespaceItem options name exported docs
                                    members ;;
                          Ok [ item ])
            = failure (members <- membersOf None ;;
                       if selfIsTmp && hasStatements body
                       then Throw forgotten
                       else item <- namespaceItem None name exported docs
                                      members ;;
                            Ok [ item ])
            /\ forall items,
                 (members <- membersOf options ;;
                  if selfIsTmp && hasStatements body then Throw forgotten
                  else item <- namespaceItem options name exported docs
                                 members ;;
                       Ok [ item ]) = Ok items ->
                 Forall (fun it => shaped (VObj it) = true) items).
    destruct (selfIsTmp && hasStatements body).
    + pose proof (Hsame options) as Hs.
      destruct (membersOf options), (membersOf None);
        cbn [bind failure] in *; try discriminate;
        (split; [assumption || reflexivity|intros items H; discriminate H]).
    + assert (forall o,
                failure (members <- membersOf o ;;
                         item <- namespaceItem o name exported docs members ;;
                         Ok [ item ])
                = failure (membersOf o)
                /\ forall items,
                     (members <- membersOf o ;;
                      item <- namespaceItem o name exported docs members ;;
                      Ok [ item ]) = Ok items ->
                     Forall (fun it => shaped (VObj it) = true) items)
        as Harm.
      { intros o.
        apply (arm_outcome (membersOf o)
                 (namespaceItem o name exported docs) (fun it => it)).
        intros raw Hraw. apply namespaceItem_returns, (Hwalk o), Hraw. }
      destruct (Harm options) as [E W]. destruct (Harm None) as [E0 _].
      split; [|exact W].
      etransitivity; [exact E|]. etransitivity; [apply Hsame|].
      symmetry. exact E0.
  - split; [reflexivity|]. intros items H. injection H as <-. constructor.
Qed.

Lemma parseWithTsMorph_outcome (options : option ParseOptions)
  (src : SourceFile) :
  failure (parseWithTsMorph options src) = failure (parseWithTsMorph None src).
Proof.
  unfold parseWithTsMorph. apply concatMapM_failure. intros stmt _.
  apply parseStatement_outcome.
Qed.

Lemma parseStatement_count (options options' : option ParseOptions)
  (src : SourceFile) (stmt : Statement) (items items' : list obj) :
  parseStatement options src stmt = Ok items ->
  parseStatement options' src stmt = Ok items' ->
  length items' = length items.
Proof.
  destruct stmt
    as [k d e ds|fd|ta|ed|e|cd|id|name exported docs forgotten body|];
    cbn [parseStatement]; cbv zeta.
  - intros H H'. inv_bind. subst. rewrite !length_map. reflexivity.
  - intros H H'. inv_bind. subst. reflexivity.
  - intros H H'. inv_bind. subst. reflexivity.
  - intros H H'. inv_bind. subst. reflexivity.
  - destruct e as [expr|]; [|intros H H'; inv_bind; subst; reflexivity].
    destruct (_ || _); [intros H H'; inv_bind; subst; reflexivity|].
    destruct (ee_text expr); [intros H H'; inv_bind; subst; reflexivity|].
    destruct (getVariableDeclaration _ _); intros H H'; inv_bind; subst;
      reflexivity.
  - intros H H'. inv_bind. subst. reflexivity.
  - intros H H'. inv_bind. subst. reflexivity.
  - intros H H'. apply bind_Ok in H. destruct H as [ms [_ H]].
    apply bind_Ok in H'. destruct H' as [ms' [_ H']].
    destruct (_ && _); [discriminate|].
    inv_bind. subst. reflexivity.
  - intros H H'. inv_bind. subst. reflexivity.
Qed.

Lemma concatMapM_count {A B : Type} (f g : A -> res (list B)) (l : list A)
  (ys zs : list B) :
  (forall x ys zs, In x l -> f x = Ok ys -> g x = Ok zs ->
                   length zs = length ys) ->
  concatMapM f l = Ok ys -> concatMapM g l = Ok zs ->
  length zs = length ys.
Proof.
  revert ys zs. induction l as [|x l IH]; simpl; intros ys zs Hf H H'.
  - inv_bind. subst. reflexivity.
  - apply bind_Ok in H. destruct H as [y1 [H1 H]].
    apply bind_Ok in H. destruct H as [y2 [H2 H]]. injection H as <-.
    apply bind_Ok in H'. destruct H' as [z1 [H1' H']].
    apply bind_Ok in H'. destruct H' as [z2 [H2' H']]. injection H' as <-.
    rewrite !length_app.
    rewrite (Hf x y1 z1 (or_introl eq_refl) H1 H1').
    rewrite (IH y2 z2 (fun a b c Hin => Hf a b c (or_intror Hin)) H2 H2').
    reflexivity.
Qed.

(** X14.  The options never change whether [parseWithTsMorph] throws:
    under any two configurations it throws the same error on a file,
    or it returns under both, with as many items.  (What raises in a
    call is a read of a node the front end has forgotten: the name of
    a namespace in the file [__tmp.ts], or the text of a statement of
    its body, once the temporary file of the body is written over
    that file.  These reads, like those of type nodes, are made
    whatever the options.  The accessors [JSDoc: "never"] skips,
    [getJsDocs] among them, are never the first read of a forgotten
    node.) *)
Theorem options_do_not_change_whether_the_parser_throws
  (options options' : option ParseOptions) (src : SourceFile) :
  (forall err, parseWithTsMorph options src = Throw err ->
               parseWithTsMorph options' src = Throw err)
  /\ (forall items, parseWithTsMorph options src = Ok items ->
                    exists items', parseWithTsMorph options' src = Ok items'
                                   /\ length items' = length items).
Proof.
  pose proof (parseWithTsMorph_outcome options src) as H.
  pose proof (parseWithTsMorph_outcome options' src) as H'.
  rewrite <- H' in H. clear H'.
  destruct (parseWithTsMorph options src) as [items|err] eqn:E,
           (parseWithTsMorph options' src) as [items'|err'] eqn:E';
    simpl in H; try discriminate; split; intros ? E0; try discriminate.
  - injection E0 as <-. exists items'. split; [reflexivity|].
    unfold parseWithTsMorph in E, E'.
    apply (concatMapM_count _ _ _ _ _
             (fun stmt ys zs _ => parseStatement_count options options'
                                    src stmt ys zs) E E').
  - injection H as <-. exact E0.
Qed.

(* ================================================================== *)
(** * The options only remove fields *)

Lemma covers_trans (a b c : value) :
  covers a b -> covers b c -> covers a c.
Proof.
  revert b c.
  induction a as [| |x|t|s|l IH|o IH] using value_nested_ind;
    intros b c Hab Hbc;
    try (inversion Hab; subst; exact Hbc).
  - inversion Hab as [|? ?|? smalls Hl]; subst; [exact Hbc|].
    inversion Hbc as [|? ?|? smalls' Hl']; subst; [exact Hab|].
    apply covers_array. clear Hab Hbc. revert smalls smalls' Hl Hl'.
    induction IH as [|x l Hx _ IHl]; intros smalls smalls' Hl Hl'.
    + inversion Hl; subst. inversion Hl'; subst. constructor.
    + inversion Hl as [|? y ? ys Hxy Hrest]; subst.
      inversion Hl' as [|? z ? zs Hyz Hrest']; subst.
      constructor; [exact (Hx _ _ Hxy Hyz)|exact (IHl _ _ Hrest Hrest')].
  - inversion Hab as [|? small Hf|]; subst; [exact Hbc|].
    inversion Hbc as [|? small' Hf'|]; subst; [exact Hab|].
    apply covers_record. intros k v Hv.
    destruct (Hf' k v Hv) as [w [Hw Hwv]].
    destruct (Hf k w Hw) as [u [Hu Huw]].
    exists u. split; [exact Hu|].
    rewrite Forall_forall in IH.
    exact (IH _ (get_In _ _ _ Hu) _ _ Huw Hwv).
Qed.

(** Records with the same keys whose values cover each other. *)
Lemma fields_cover (big small : obj) :
  Forall2 (fun e0 e : string * value =>
             fst e0 = fst e /\ covers (snd e0) (snd e)) big small ->
  covers (VObj big) (VObj small).
Proof.
  intros H. apply covers_record.
  induction H as [|[k0 w] [k v] big small [Hk Hc] _ IH]; simpl;
    [discriminate|].
  simpl in Hk. subst k0. intros key u.
  destruct (String.eqb k key); [|apply IH].
  intros E. injection E as <-. eauto.
Qed.

Lemma records_covered (bigs smalls : list obj) :
  Forall2 (fun b s => covers (VObj b) (VObj s)) bigs smalls ->
  covers (records bigs) (records smalls).
Proof.
  intros H. apply covers_array. induction H; simpl; constructor; assumption.
Qed.

Lemma differOnly_same (key : string) (o : obj) : differOnly key o o.
Proof. induction o; constructor; auto. Qed.

Lemma differOnly_filter (key : string) (q : string -> bool) (o1 o2 : obj) :
  differOnly key o1 o2 ->
  differOnly key (filter (byKey q) o1) (filter (byKey q) o2).
Proof.
  induction 1 as [|[k1 v1] [k2 v2] o1 o2 [Hk Hv] _ IH]; simpl;
    [constructor|].
  simpl in Hk. subst k2.
  change (byKey q (k1, v1)) with (q k1).
  change (byKey q (k1, v2)) with (q k1).
  destruct (q k1); [constructor; auto|exact IH].
Qed.

Lemma differOnly_forgotten (key : string) (q : string -> bool)
  (o1 o2 : obj) :
  differOnly key o1 o2 -> q key = false ->
  filter (byKey q) o1 = filter (byKey q) o2.
Proof.
  intros H Hq.
  induction H as [|[k1 v1] [k2 v2] o1 o2 [Hk Hv] _ IH]; simpl;
    [reflexivity|].
  simpl in Hk, Hv. subst k2.
  change (byKey q (k1, v1)) with (q k1).
  change (byKey q (k1, v2)) with (q k1).
  destruct (q k1) eqn:E; [|exact IH].
  destruct Hv as [-> | ->]; [congruence|]. rewrite IH. reflexivity.
Qed.

Lemma differOnly_get (key k : string) (o1 o2 : obj) :
  differOnly key o1 o2 -> k <> key -> get k o1 = get k o2.
Proof.
  intros H Hk.
  induction H as [|[k1 v1] [k2 v2] o1 o2 [Hk1 Hv] _ IH]; simpl;
    [reflexivity|].
  simpl in Hk1, Hv. subst k2.
  destruct (String.eqb_spec k1 k) as [->|_]; [|exact IH].
  destruct Hv as [-> | ->]; [contradiction|reflexivity].
Qed.

Lemma differOnly_set (key k : string) (v : value) (o1 o2 : obj) :
  differOnly key o1 o2 -> differOnly key (set k v o1) (set k v o2).
Proof.
  induction 1 as [|[k1 v1] [k2 v2] o1 o2 [Hk1 Hv] Hrest IH]; simpl.
  - constructor; [auto|constructor].
  - simpl in Hk1, Hv. subst k2.
    destruct (String.eqb k1 k); constructor; auto.
Qed.

Section Forgetting.
Variable options : NormalizedOptions.
Variable onlyMode : bool.

Local Notation "'runs'" := (run options onlyMode).

(** A pass forgets what a field held when one of its prunings removes
    the field and none of its updates touches it. *)
Lemma run_forgets (key : string) (p : list step) (o1 o2 : obj) :
  differOnly key o1 o2 -> ~ In key (updatedKeys p) ->
  existsb (fun m => negb (kept options onlyMode m key)) (prunesOf p) = true ->
  runs p o1 = runs p o2.
Proof.
  revert o1 o2. induction p as [|s p IH]; intros o1 o2 Hd Hk Hp;
    [discriminate Hp|].
  cbn [run]. destruct s as [m|k g]; cbn [exec bind].
  - rewrite !pruneObject_filter. simpl in Hp.
    destruct (kept options onlyMode m key) eqn:E; simpl in Hp.
    + rewrite <- !pruneObject_filter. apply IH; [|exact Hk|exact Hp].
      rewrite !pruneObject_filter. apply differOnly_filter, Hd.
    + rewrite (differOnly_forgotten key _ o1 o2 Hd E). reflexivity.
  - simpl in Hk, Hp.
    assert (k <> key) as Hne by (intros ->; apply Hk; left; reflexivity).
    unfold updateField, prop.
    rewrite (differOnly_get key k o1 o2 Hd Hne).
    destruct (truthy _); [|apply IH; auto].
    destruct (g _) as [v'|e]; [|reflexivity]. cbn [bind].
    apply IH; [apply differOnly_set, Hd|auto|exact Hp].
Qed.

(** The same for the documentation comment, which a builder sets to
    [null] exactly when the option [JSDoc] is ["never"]. *)
Lemma run_forgets_jsdoc (p : list step) (o1 o2 : obj) :
  (options K_JSDoc = Some never -> differOnly "jsdoc" o1 o2) ->
  (options K_JSDoc <> Some never -> o1 = o2) ->
  ~ In "jsdoc" (updatedKeys p) -> prunesJsdoc p = true ->
  runs p o1 = runs p o2.
Proof.
  intros Hd He Hk Hp.
  destruct (options K_JSDoc) as [[| |]|] eqn:E;
    try (rewrite (He ltac:(discriminate)); reflexivity).
  apply (run_forgets "jsdoc"); [apply Hd; reflexivity|exact Hk|].
  unfold prunesJsdoc in Hp. apply existsb_exists in Hp.
  destruct Hp as [m [Hin Hm]]. apply existsb_exists. exists m.
  split; [exact Hin|]. unfold kept, shouldInclude.
  destruct (map_get "jsdoc" m) as [[[]|]|]; try discriminate Hm.
  rewrite E. destruct onlyMode; reflexivity.
Qed.
End Forgetting.

(** What an arm of the extractor gives under a configuration is what
    it gives under the default one, less some fields. *)
Lemma arm_covered (options : NormalizedOptions) (onlyMode : bool)
  (p : list step) (raw rawKept raw0 out : obj) :
  (options K_JSDoc = Some never -> differOnly "jsdoc" raw rawKept) ->
  (options K_JSDoc <> Some never -> raw = rawKept) ->
  ~ In "jsdoc" (updatedKeys p) -> prunesJsdoc p = true ->
  NoDup (updatedKeys p) ->
  (forall k g v0 v, In (Update k g) p -> get k rawKept = Some v0 ->
                    g v0 = Ok v -> covers v0 v) ->
  covers (VObj raw0) (VObj rawKept) ->
  run options onlyMode p raw = Ok out ->
  covers (VObj raw0) (VObj out).
Proof.
  intros Hd He Hk Hp Hnd Hu Hc H.
  rewrite (run_forgets_jsdoc options onlyMode p raw rawKept Hd He Hk Hp) in H.
  apply (covers_trans _ (VObj rawKept)); [exact Hc|].
  exact (run_covers options onlyMode p rawKept out Hnd Hu H).
Qed.

Lemma concatMapM_Forall2_both {A B C : Type} (R : B -> C -> Prop)
  (f : A -> res (list B)) (g : A -> res (list C)) (l : list A)
  (ys : list B) (zs : list C) :
  (forall x ys zs, In x l -> f x = Ok ys -> g x = Ok zs ->
                   Forall2 R ys zs) ->
  concatMapM f l = Ok ys -> concatMapM g l = Ok zs -> Forall2 R ys zs.
Proof.
  revert ys zs. induction l as [|x l IH]; simpl; intros ys zs Hf H H'.
  - inv_bind. subst. constructor.
  - apply bind_Ok in H. destruct H as [y1 [H1 H]].
    apply bind_Ok in H. destruct H as [y2 [H2 H]]. injection H as <-.
    apply bind_Ok in H'. destruct H' as [z1 [H1' H']].
    apply bind_Ok in H'. destruct H' as [z2 [H2' H']]. injection H' as <-.
    apply Forall2_app.
    + exact (Hf x y1 z1 (or_introl eq_refl) H1 H1').
    + exact (IH y2 z2 (fun a b c Hin => Hf a b c (or_intror Hin)) H2 H2').
Qed.

Lemma Forall2_map_both {A B C : Type} (R : B -> C -> Prop) (f : A -> B)
  (g : A -> C) (l : list A) :
  (forall x, In x l -> R (f x) (g x)) -> Forall2 R (map f l) (map g l).
Proof.
  induction l as [|x l IH]; simpl; intros H; constructor; auto.
Qed.

(** The two records differ in the documentation comment at most. *)
Ltac jsdoc_only :=
  try intros _;
  repeat (apply Forall2_cons;
          [split; [reflexivity|first [right; reflexivity|left; reflexivity]]
          |]);
  apply Forall2_nil.

(** They are the same record when the comment is kept. *)
Ltac jsdoc_kept :=
  let Hn := fresh "Hn" in
  intros Hn; unfold getJsDocText;
  match goal with
  | |- context [normalizeOptions ?o K_JSDoc] =>
      destruct (normalizeOptions o K_JSDoc) as [[| |]|];
      first [reflexivity|contradiction Hn; reflexivity]
  end.

(** Two calls of a builder made the same calls of the front end. *)
Ltac same_results :=
  repeat match goal with
         | H1 : ?c = Ok ?a, H2 : ?c = Ok ?b |- _ =>
             rewrite H1 in H2; injection H2 as <-
         end.

Ltac each_covered :=
  let Hin := fresh "Hin" in
  intros ? ? ? ? Hin _; simpl in Hin;
  repeat (destruct Hin as [Hin|Hin];
          [first [discriminate Hin|injection Hin as <- <-]|]);
  [..|contradiction].

Ltac pruned_covering :=
  apply pruned_records_cover; intros ?;
  unfold applyMethodParamOptions, applyParamOptions;
  first [apply prune_covers|apply covers_trans_prune, prune_covers].

Section Covered.
Variable options : option ParseOptions.

Local Notation "'opts'" := (normalizeOptions options).
Local Notation "'onlyMode'" := (onlyMode_of (normalizeOptions options)).

Lemma variableItem_covered (kind : string) (isDefaultExport isExported : bool)
  (d : VariableDeclaration) :
  covers (VObj (variableItem None kind isDefaultExport isExported d))
    (VObj (applyVariableItemOptions opts onlyMode
             (variableItem options kind isDefaultExport isExported d))).
Proof.
  apply (arm_covered opts onlyMode variableSteps
           (variableItem options kind isDefaultExport isExported d)
           (variableItem None kind isDefaultExport isExported d)).
  - unfold variableItem. jsdoc_only.
  - unfold variableItem. jsdoc_kept.
  - simpl. tauto.
  - reflexivity.
  - distinct_keys.
  - intros k g v0 v [H|[H|[]]]; discriminate H.
  - apply covers_same.
  - symmetry. apply applyVariableItemOptions_run.
Qed.

Lemma defaultExportItem_covered (vd : VariableDeclaration) :
  covers (VObj (defaultExportItem None vd))
    (VObj (applyVariableItemOptions opts onlyMode
             (defaultExportItem options vd))).
Proof.
  apply (arm_covered opts onlyMode variableSteps
           (defaultExportItem options vd) (defaultExportItem None vd)).
  - unfold defaultExportItem. jsdoc_only.
  - unfold defaultExportItem. jsdoc_kept.
  - simpl. tauto.
  - reflexivity.
  - distinct_keys.
  - intros k g v0 v [H|[H|[]]]; discriminate H.
  - apply covers_same.
  - symmetry. apply applyVariableItemOptions_run.
Qed.

Lemma function_covered (fn : FunctionLike) (level : string)
  (before : obj -> obj) (raw raw0 out : obj) :
  (forall o1 o2, differOnly "jsdoc" o1 o2 ->
                 differOnly "jsdoc" (before o1) (before o2)) ->
  functionLikeToItem fn level (opts K_JSDoc) = Ok raw ->
  functionLikeToItem fn level (normalizeOptions None K_JSDoc) = Ok raw0 ->
  applyFunctionItemOptions opts onlyMode (before raw) = Ok out ->
  covers (VObj (before raw0)) (VObj out).
Proof.
  intros Hb H H0 Hout. unfold functionLikeToItem in H, H0.
  inv_bind. same_results. subst raw raw0.
  rewrite applyFunctionItemOptions_run in Hout.
  match goal with
  | |- covers (VObj ?r0) _ =>
      apply (arm_covered opts onlyMode (functionSteps opts onlyMode)
               _ r0 r0 out) with (8 := Hout)
  end.
  - intros _. apply Hb. jsdoc_only.
  - jsdoc_kept.
  - simpl. intuition discriminate.
  - reflexivity.
  - distinct_keys.
  - each_covered; pruned_covering.
  - apply covers_same.
Qed.

Lemma typeAlias_covered (ta : TypeAliasDeclaration) (raw raw0 out : obj) :
  typeAliasItem options ta = Ok raw ->
  typeAliasItem None ta = Ok raw0 ->
  typeAliasCase opts onlyMode raw = Ok out ->
  covers (VObj raw0) (VObj out).
Proof.
  intros H H0 Hout. unfold typeAliasItem in H, H0.
  inv_bind. same_results. subst raw raw0.
  rewrite typeAliasCase_run in Hout.
  match goal with
  | |- covers (VObj ?r0) _ =>
      apply (arm_covered opts onlyMode (typeAliasSteps opts onlyMode)
               _ r0 r0 out) with (8 := Hout)
  end.
  - jsdoc_only.
  - jsdoc_kept.
  - simpl. intuition discriminate.
  - reflexivity.
  - distinct_keys.
  - each_covered; pruned_covering.
  - apply covers_same.
Qed.

(** The records of two literals cover each other field by field. *)
Ltac fields_covered :=
  apply fields_cover;
  repeat (apply Forall2_cons;
          [split; [reflexivity|first [assumption|apply covers_same]]|]);
  apply Forall2_nil.

Lemma enumMember_covered (m : EnumMemberNode) :
  covers (VObj (enumMember None m)) (VObj (enumMember options m)).
Proof.
  unfold enumMember, applyEnumMemberOptions.
  rewrite (prune_nothing (normalizeOptions None) default_keeps_all).
  match goal with
  | |- covers (VObj ?r0) (VObj (pruneObject _ _ ?raw _)) =>
      apply (arm_covered opts onlyMode [ Prune enumMemberMap ] raw r0 r0)
  end.
  - jsdoc_only.
  - jsdoc_kept.
  - simpl. tauto.
  - reflexivity.
  - distinct_keys.
  - intros k g v0 v [H|[]]. discriminate H.
  - apply covers_same.
  - apply prune_run.
Qed.

Lemma enum_covered (ed : EnumDeclaration) (out : obj) :
  mapField "members" (pure (applyEnumMemberOptions opts onlyMode))
    (pruneObject opts onlyMode
       (applyBaseItemOptions opts onlyMode (enumItem options ed)) enumMap)
  = Ok out ->
  covers (VObj (enumItem None ed)) (VObj out).
Proof.
  intros H. apply parsedEnum_run in H.
  assert (covers (records (map (enumMember None) (en_members ed)))
            (records (map (enumMember options) (en_members ed)))) as Hm.
  { apply records_covered, Forall2_map_both. intros m _.
    apply enumMember_covered. }
  apply (arm_covered opts onlyMode (parsedEnumSteps opts onlyMode)
           (enumItem options ed)
           [ ("name", strOrNull (en_name ed));
             ("type", VStr "enum");
             ("level", VStr "top");
             ("exports",
               exportKind (en_isDefaultExport ed) (en_isExported ed));
             ("jsdoc", getJsDocText (en_jsDocs ed) (Some include));
             ("const", VBool (en_isConstEnum ed));
             ("members",
               records (map (enumMember options) (en_members ed))) ]
           (enumItem None ed) out) with (8 := H).
  - unfold enumItem. jsdoc_only.
  - unfold enumItem. jsdoc_kept.
  - simpl. intuition discriminate.
  - reflexivity.
  - distinct_keys.
  - each_covered; pruned_covering.
  - unfold enumItem. fields_covered.
Qed.

Local Notation "'covering'" :=
  (fun full item : obj => covers (VObj full) (VObj item)).

Lemma method_covered (raw raw0 out : obj) :
  (opts K_JSDoc = Some never -> differOnly "jsdoc" raw raw0) ->
  (opts K_JSDoc <> Some never -> raw = raw0) ->
  applyMethodItemOptions opts onlyMode raw = Ok out ->
  covers (VObj raw0) (VObj out).
Proof.
  intros Hd He Hout. rewrite applyMethodItemOptions_run in Hout.
  apply (arm_covered opts onlyMode (methodSteps opts onlyMode)
           raw raw0 raw0 out Hd He) with (6 := Hout).
  - simpl. intuition discriminate.
  - reflexivity.
  - distinct_keys.
  - each_covered; pruned_covering.
  - apply covers_same.
Qed.

Lemma classMember_covered (name : option string) (m : ClassMember)
  (ms ms0 : list obj) :
  classMember options name m = Ok ms ->
  classMember None name m = Ok ms0 ->
  Forall2 covering ms0 ms.
Proof.
  destruct m as [ctor|meth|getter returnTypeNode jsDocs
                 |setter parameters jsDocs|p|idx|];
    cbn [classMember]; cbv zeta; rewrite ?onlyMode_default;
    intros H H0; inv_bind; subst; default_identity; same_results; subst.
  - constructor; [|constructor].
    match goal with
    | Hr : functionLikeToItem _ _ (opts K_JSDoc) = Ok ?raw,
      H0 : functionLikeToItem _ _ (normalizeOptions None K_JSDoc) = Ok ?raw0,
      Ho : applyFunctionItemOptions _ _ ?raw = Ok ?out |- _ =>
        pose proof (function_covered ctor "sub" (fun f => f) raw raw0 out
                      (fun o1 o2 Hd => Hd) Hr H0 Ho) as Hf
    end.
    fields_covered.
  - constructor; [|constructor].
    unfold methodItem in *. inv_bind. same_results. subst.
    eapply method_covered; [| |eassumption]; [jsdoc_only|jsdoc_kept].
  - constructor; [|constructor].
    eapply method_covered; [| |eassumption]; [jsdoc_only|jsdoc_kept].
  - constructor; [|constructor].
    eapply method_covered; [| |eassumption]; [jsdoc_only|jsdoc_kept].
  - constructor; [|constructor]. apply prune_covers.
  - constructor; [|constructor]. apply prune_covers.
  - constructor.
Qed.

Lemma reapplyConstructor_covers (m m' : obj) :
  reapplyConstructor options m = Ok m' -> covers (VObj m) (VObj m').
Proof.
  unfold reapplyConstructor. cbv zeta.
  destruct (is_str "constructor" (prop "type" m));
    [apply applyConstructorOptions_covers|].
  intros H. injection H as <-. apply covers_same.
Qed.

Lemma classItem_covered (cd : ClassDeclaration) (out full : obj) :
  classItem options cd = Ok out -> classItem None cd = Ok full ->
  covers (VObj full) (VObj out).
Proof.
  unfold classItem. cbv zeta. rewrite ?onlyMode_default. intros H H0.
  apply bind_Ok in H. destruct H as [members [Hm H]].
  apply bind_Ok in H0. destruct H0 as [members0 [Hm0 H0]].
  apply bind_Ok in H0. destruct H0 as [x1 [H1 H0]].
  apply bind_Ok in H0. destruct H0 as [x2 [H2 H0]]. injection H0 as <-.
  rewrite (parsedClass_identity _ default_keeps_all _ _ _ _
             reapplyConstructor_identity H1 H2).
  apply parsedClass_run in H.
  assert (covers (records members0) (records members)) as Hc.
  { apply records_covered.
    apply (concatMapM_Forall2_both _ _ _ _ _ _
             (fun m ys zs _ H H0 =>
                classMember_covered (cd_name cd) m zs ys H0 H) Hm0 Hm). }
  match goal with
  | H : run _ _ _ ?raw = Ok _ |- _ =>
      apply (arm_covered opts onlyMode _ raw
               [ ("name", strOrNull (cd_name cd));
                 ("type", VStr "class");
                 ("level", VStr "top");
                 ("exports",
                   exportKind (cd_isDefaultExport cd) (cd_isExported cd));
                 ("jsdoc", getJsDocText (cd_jsDocs cd) (Some include));
                 ("items", records members);
                 ("typeParameters", typeParamsOf (cd_typeParameters cd)) ])
        with (8 := H)
  end.
  - jsdoc_only.
  - jsdoc_kept.
  - simpl. intuition discriminate.
  - reflexivity.
  - distinct_keys.
  - each_covered; [pruned_covering|].
    apply records_cover, reapplyConstructor_covers.
  - fields_covered.
Qed.

Lemma interfaceMember_covered (m : InterfaceMember) (ms ms0 : list obj) :
  interfaceMember options m = Ok ms ->
  interfaceMember None m = Ok ms0 ->
  Forall2 covering ms0 ms.
Proof.
  destruct m as [p|sig|idx|];
    cbn [interfaceMember]; cbv zeta; rewrite ?onlyMode_default;
    intros H H0; inv_bind; subst; default_identity; same_results; subst.
  - constructor; [|constructor].
    unfold applyInterfaceMemberPropertyOptions.
    match goal with
    | |- covers (VObj ?r0) (VObj (pruneObject _ _ ?raw ?m)) =>
        apply (arm_covered opts onlyMode [ Prune m ] raw r0 r0)
    end.
    + jsdoc_only.
    + jsdoc_kept.
    + simpl. tauto.
    + reflexivity.
    + distinct_keys.
    + intros k g v0 v [H|[]]. discriminate H.
    + apply covers_same.
    + apply prune_run.
  - constructor; [|constructor].
    match goal with
    | H : applyInterfaceMemberMethodOptions _ _ ?raw = Ok ?out
      |- covers (VObj ?r0) _ =>
        rewrite applyInterfaceMemberMethodOptions_run in H;
        apply (arm_covered opts onlyMode (interfaceMethodSteps opts onlyMode)
                 raw r0 r0 out) with (8 := H)
    end.
    + jsdoc_only.
    + jsdoc_kept.
    + simpl. intuition discriminate.
    + reflexivity.
    + distinct_keys.
    + each_covered; pruned_covering.
    + apply covers_same.
  - constructor; [|constructor]. apply prune_covers.
  - constructor.
Qed.

Lemma interfaceItem_covered (id : InterfaceDeclaration) (out full : obj) :
  interfaceItem options id = Ok out -> interfaceItem None id = Ok full ->
  covers (VObj full) (VObj out).
Proof.
  unfold interfaceItem. cbv zeta. rewrite ?onlyMode_default. intros H H0.
  apply bind_Ok in H. destruct H as [members [Hm H]].
  apply bind_Ok in H0. destruct H0 as [members0 [Hm0 H0]].
  default_identity.
  rewrite interfaceCase_run in H.
  assert (covers (records members0) (records members)) as Hc.
  { apply records_covered.
    apply (concatMapM_Forall2_both _ _ _ _ _ _
             (fun m ys zs _ H H0 =>
                interfaceMember_covered m zs ys H0 H) Hm0 Hm). }
  match goal with
  | H : run _ _ _ ?raw = Ok _ |- _ =>
      apply (arm_covered opts onlyMode _ raw
               [ ("name", strOrNull (id_name id));
                 ("type", VStr "interface");
                 ("level", VStr "top");
                 ("exports",
                   exportKind (id_isDefaultExport id) (id_isExported id));
                 ("jsdoc", getJsDocText (id_jsDocs id) (Some include));
                 ("members", records members);
                 ("typeParameters", typeParamsOf (id_typeParameters id)) ])
        with (8 := H)
  end.
  - jsdoc_only.
  - jsdoc_kept.
  - simpl. intuition discriminate.
  - reflexivity.
  - distinct_keys.
  - each_covered; [pruned_covering|].
    apply records_cover, applyInterfaceMemberOptions_covers.
  - fields_covered.
Qed.

Lemma namespaceItem_covered (name : option string) (isExported : bool)
  (jsDocs : list string) (members members0 : list obj) (out full : obj) :
  Forall2 covering members0 members ->
  namespaceItem options name isExported jsDocs members = Ok out ->
  namespaceItem None name isExported jsDocs members0 = Ok full ->
  covers (VObj full) (VObj out).
Proof.
  unfold namespaceItem. cbv zeta. rewrite ?onlyMode_default.
  intros Hms H H0. default_identity. rewrite namespaceCase_run in H.
  pose proof (records_covered _ _ Hms) as Hc.
  match goal with
  | H : run _ _ _ ?raw = Ok _ |- _ =>
      apply (arm_covered opts onlyMode _ raw
               [ ("name", strOrNull name);
                 ("type", VStr "namespace");
                 ("level", VStr "top");
                 ("exports", VStr (if isExported then "normal" else "none"));
                 ("jsdoc", getJsDocText jsDocs (Some include));
                 ("members", records members) ])
        with (8 := H)
  end.
  - jsdoc_only.
  - jsdoc_kept.
  - simpl. intuition discriminate.
  - reflexivity.
  - distinct_keys.
  - each_covered. intros H'.
    exact (proj2 (applyParsedItemOptions_covers_both opts onlyMode v0) v H').
  - fields_covered.
Qed.
End Covered.

Lemma stampSub_covered (full item : obj) :
  covers (VObj full) (VObj item) ->
  covers (VObj (stampSub full)) (VObj (stampSub item)).
Proof.
  intros H. apply covers_record. intros k v. unfold stampSub.
  destruct (String.eqb_spec k "level") as [->|Hne].
  - rewrite !get_set_same. intros E. injection E as <-.
    eexists. split; [reflexivity|apply covers_same].
  - rewrite !get_set_other by exact Hne.
    inversion H as [|? ? Hf|]; subst.
    + intros E. eexists. split; [exact E|apply covers_same].
    + apply Hf.
Qed.

(** What a statement yields under a configuration is what it yields
    under the default one, less some fields. *)
Lemma parseStatement_covered (stmt : Statement) :
  forall (options : option ParseOptions) (src : SourceFile)
         (items full : list obj),
    parseStatement options src stmt = Ok items ->
    parseStatement None src stmt = Ok full ->
    Forall2 (fun f it => covers (VObj f) (VObj it)) full items.
Proof.
  induction stmt
    as [k d e ds|fd|ta|ed|e|cd|id|name exported docs forgotten body IH|]
    using Statement_nested_ind; intros options src items full;
    cbn [parseStatement]; cbv zeta; rewrite ?onlyMode_default;
    intros H H0.
  - inv_bind. subst. apply Forall2_map_both. intros x _.
    rewrite (applyVariableItemOptions_identity _ default_keeps_all).
    apply variableItem_covered.
  - inv_bind. subst. default_identity. constructor; [|constructor].
    match goal with
    | Hr : functionLikeToItem _ _ (normalizeOptions options K_JSDoc)
           = Ok ?raw,
      H0 : functionLikeToItem _ _ (normalizeOptions None K_JSDoc) = Ok ?raw0,
      Ho : applyFunctionItemOptions _ _ ?raw = Ok ?out |- _ =>
        exact (function_covered options fd "top" (fun f => f) raw raw0 out
                 (fun o1 o2 Hd => Hd) Hr H0 Ho)
    end.
  - inv_bind. subst. default_identity. constructor; [|constructor].
    eapply (typeAlias_covered options); eassumption.
  - inv_bind. subst. default_identity. constructor; [|constructor].
    apply (enum_covered options). assumption.
  - destruct e as [expr|]; [|inv_bind; subst; constructor].
    destruct (_ || _).
    + inv_bind. subst. default_identity. constructor; [|constructor].
      match goal with
      | Hr : functionLikeToItem _ _ (normalizeOptions options K_JSDoc)
             = Ok ?raw,
        H0 : functionLikeToItem _ _ (normalizeOptions None K_JSDoc)
             = Ok ?raw0,
        Ho : applyFunctionItemOptions _ _ _ = Ok ?out |- _ =>
          exact (function_covered options (ee_function expr) "top"
                   (set "exports" (VStr "default")) raw raw0 out
                   (fun o1 o2 => differOnly_set "jsdoc" "exports" _ o1 o2)
                   Hr H0 Ho)
      end.
    + destruct (ee_text expr); [inv_bind; subst; constructor|].
      destruct (getVariableDeclaration _ _); inv_bind; subst;
        constructor; [|constructor].
      rewrite (applyVariableItemOptions_identity _ default_keeps_all).
      apply defaultExportItem_covered.
  - inv_bind. subst. constructor; [|constructor].
    eapply (classItem_covered options); eassumption.
  - inv_bind. subst. constructor; [|constructor].
    eapply (interfaceItem_covered options); eassumption.
  - apply bind_Ok in H. destruct H as [members [Hm H]].
    apply bind_Ok in H0. destruct H0 as [members0 [Hm0 H0]].
    destruct (_ && _); [discriminate|].
    inv_bind. subst. constructor; [|constructor].
    eapply (namespaceItem_covered options); [|eassumption|eassumption].
    destruct body as [statements|]; [|inv_bind; subst; constructor].
    apply unpackBody_Ok in Hm. apply unpackBody_Ok in Hm0.
    apply (concatMapM_Forall2_both _ _ _ _ _ _) with (2 := Hm0) (3 := Hm).
    intros tmp ys zs Hin Hy Hz.
    apply bind_Ok in Hy. destruct Hy as [its0 [Hits0 Hy]].
    apply bind_Ok in Hz. destruct Hz as [its [Hits Hz]].
    injection Hy as <-. injection Hz as <-.
    rewrite Forall_forall in IH. specialize (IH tmp Hin).
    rewrite Forall_forall in IH.
    assert (Forall2 (fun f it => covers (VObj f) (VObj it)) its0 its)
      as Hall.
    { apply (concatMapM_Forall2_both _ _ _ _ _ _) with (2 := Hits0)
                                                        (3 := Hits).
      intros s fs xs Hs Hf Hx.
      exact (IH s Hs options (tmpFile (snd tmp)) xs fs Hx Hf). }
    clear -Hall. induction Hall; simpl; constructor;
      [apply stampSub_covered; assumption|assumption].
  - inv_bind. subst. constructor.
Qed.

(** X15.  The options only ever remove fields.  Whenever
    [parseWithTsMorph] returns under a configuration it returns
    without options, with as many items, and each item under the
    configuration is the item of the same rank without options less
    some fields, at any depth: what is left has the value it has
    without options. *)
Theorem options_only_remove_fields_from_the_items
  (options : option ParseOptions) (src : SourceFile) (items : list obj) :
  parseWithTsMorph options src = Ok items ->
  exists full,
    parseWithTsMorph None src = Ok full
    /\ Forall2 (fun f it => covers (VObj f) (VObj it)) full items.
Proof.
  intros H.
  pose proof (parseWithTsMorph_outcome options src) as Hsame.
  rewrite H in Hsame.
  destruct (parseWithTsMorph None src) as [full|err] eqn:Hfull;
    [|discriminate Hsame].
  exists full. split; [reflexivity|].
  unfold parseWithTsMorph in *.
  apply (concatMapM_Forall2_both _ _ _ _ _ _) with (2 := Hfull) (3 := H).
  intros stmt fs xs _ Hf Hx.
  exact (parseStatement_covered stmt options src xs fs Hx Hf).
Qed.

Lemma options_only_remove_fields_from_the_items_witness :
  exists items full,
    parseWithTsMorph (Some noNamesNoArguments) sourceNamespaceN = Ok items
    /\ parseWithTsMorph None sourceNamespaceN = Ok full
    /\ Forall2 (fun f it => covers (VObj f) (VObj it)) full items.
Proof.
  destruct (parseWithTsMorph (Some noNamesNoArguments) sourceNamespaceN)
    as [items|err] eqn:E; [|discriminate E].
  destruct (options_only_remove_fields_from_the_items
              (Some noNamesNoArguments) sourceNamespaceN items E)
    as [full [Hfull Hall]].
  exists items, full. auto.
Defined.
